(** * Browser-helper extension: request layer, API manager, feature manager
      and storage

    A shallow embedding of the modules that carry the engineering of the
    extension,

    - [ApiUtils]        (api-utils.js): [ApiError], the rate limiter, the cache
      key and the retrying [request];
    - [StorageManager]  (background/storage-manager.js): the settings object,
      [getSetting], [setSetting] and the change listeners;
    - [ApiManager]      (background/api-manager.js): usage statistics around
      [makeRequest], availability and the API keys;
    - [FeatureManager]  (background/feature-manager.js): the activation queue,
      [_activateFeature], [deactivateFeature] and the feature switches;
    - [StorageUtils]    (utils/storage-utils.js): the cache;

    followed by the properties proved about them.

    Conventions.  JavaScript numbers that hold counts, HTTP statuses and
    millisecond clocks are integers ([Z]).  An object used as a dictionary is a
    [gmap] keyed by strings; a [Map] whose iteration order matters is an
    association list in insertion order.  Code that mutates an object in place
    is written in state-passing style.  [Date.now()] is an argument [now].
    The settings are a tree of JSON values, arrays included; where a step of
    the code leaves that tree (a member inherited from [Object.prototype], a
    method of an array or of a string) the model says so with a result of
    its own and states nothing about what follows.
    An [async] function is cut at its [await]s: what runs between two awaits is
    one function of the state, and what the awaited party answers is an input. *)

From Stdlib Require Import ZArith String List Lia Bool DecimalString.
From stdpp Require Import gmap strings list.
From Equations Require Import Equations.

Local Open Scope string_scope.
Local Open Scope list_scope.
Local Open Scope Z_scope.

(** ** JavaScript values *)

(** The values that travel through the modelled code as request bodies,
    headers, parsed responses and settings. *)
#[warnings="-register-all"]
Inductive JsValue : Type :=
| JsUndefined
| JsNull
| JsBool (b : bool)
| JsNumber (n : Z)
| JsString (s : string)
| JsObject (fields : list (string * JsValue)).

(** [ToBoolean]: what [if (v)], [!v] and [v || w] look at. *)
Definition truthy (v : JsValue) : bool :=
  match v with
  | JsUndefined | JsNull => false
  | JsBool b => b
  | JsNumber n => negb (n =? 0)
  | JsString s => negb (String.eqb s "")
  | JsObject _ => true
  end.

(** [a || b] *)
Definition js_or (a b : JsValue) : JsValue := if truthy a then a else b.

(** [obj[key] = v] on a plain object: an own property keeps its position, a new
    one goes last. *)
Fixpoint obj_set (key : string) (v : JsValue) (fields : list (string * JsValue))
  : list (string * JsValue) :=
  match fields with
  | [] => [(key, v)]
  | (k, w) :: rest =>
      if String.eqb k key then (k, v) :: rest else (k, w) :: obj_set key v rest
  end.

(** [hay.includes(needle)] *)
Fixpoint includes (needle hay : string) : bool :=
  String.prefix needle hay
  || match hay with
     | EmptyString => false
     | String _ rest => includes needle rest
     end.

(** An exception that is not an [ApiError]: what [fetch] or [response.json()]
    rejects with. *)
Record JsError := { err_name : string; err_message : string }.

(** * api-utils.js *)
Module ApiUtils.

(** [DEFAULT_CONFIG] *)
Module DEFAULT_CONFIG.
Definition retries : Z := 3.
Definition retryDelay : Z := 1000.
Definition retryBackoffFactor : Z := 2.
Definition timeout : Z := 10000.
Definition cacheTTL : Z := 5 * 60 * 1000.
Definition cacheByDefault : bool := true.
Definition rateLimit_requestsPerMinute : Z := 60.
Definition rateLimit_concurrentRequests : Z := 6.
End DEFAULT_CONFIG.

(** [ERROR_TYPES] *)
Inductive ErrorType :=
| NETWORK | TIMEOUT | RATE_LIMIT | AUTH | PERMISSION
| NOT_FOUND | BAD_REQUEST | SERVER | UNKNOWN.

Definition ERROR_TYPES (t : ErrorType) : string :=
  match t with
  | NETWORK => "network"
  | TIMEOUT => "timeout"
  | RATE_LIMIT => "rate_limit"
  | AUTH => "authentication"
  | PERMISSION => "permission"
  | NOT_FOUND => "not_found"
  | BAD_REQUEST => "bad_request"
  | SERVER => "server"
  | UNKNOWN => "unknown"
  end.

(** [class ApiError].  The [timestamp] field ([new Date()]) is left out: no
    modelled code reads it. *)
Record ApiError := {
  message : string;
  type : ErrorType;
  details : JsValue;
  status : option Z;
  originalError : option JsError
}.

(** [ApiError.prototype.isRetryable].  [this.status >= 500] is false for the
    [null] status of an error that did not come from a response. *)
Definition isRetryable (e : ApiError) : bool :=
  match type e with
  | NETWORK | TIMEOUT | RATE_LIMIT => true
  | SERVER => match status e with Some s => 500 <=? s | None => false end
  | _ => false
  end.

(** A [Response] as the code looks at it: the status, and what reading the
    body as JSON or as text gives ([inl]: the read rejects). *)
Record Response := {
  resp_status : Z;
  resp_json : JsError + JsValue;
  resp_text : JsError + string
}.

(** [response.ok]: the status is in the range 200-299. *)
Definition resp_ok (r : Response) : bool :=
  (200 <=? resp_status r) && (resp_status r <=? 299).

(** The chain of [if]s on [response.status] in [fromResponse]. *)
Definition classifyStatus (s : Z) : ErrorType * string :=
  if s =? 401 then (AUTH, "Authentication failed")
  else if s =? 403 then (PERMISSION, "Permission denied")
  else if s =? 404 then (NOT_FOUND, "Resource not found")
  else if s =? 429 then (RATE_LIMIT, "Rate limit exceeded")
  else if (400 <=? s) && (s <? 500) then (BAD_REQUEST, "Invalid request")
  else if 500 <=? s then (SERVER, "Server error")
  else (UNKNOWN, "API request failed").

(** [if (requestUrl)] *)
Definition url_given (requestUrl : option string) : option string :=
  match requestUrl with
  | Some u => if String.eqb u "" then None else Some u
  | None => None
  end.

(** [errorDetails.url = requestUrl].  On a body that parsed to something
    other than an object the assignment throws (module code is strict); the
    outer [catch] of [fromResponse] swallows that and the details stay. *)
Definition details_with_url (d : JsValue) (requestUrl : option string) : JsValue :=
  match url_given requestUrl, d with
  | Some u, JsObject fields => JsObject (obj_set "url" (JsString u) fields)
  | _, _ => d
  end.

(** [ApiError.fromResponse].  The inner [try] reads the body as JSON and
    falls back to text; when the text read rejects too, control leaves for
    the outer [catch] before the status is looked at, and the error keeps
    the initial type, message and details. *)
Definition fromResponse (response : Response) (requestUrl : option string) : ApiError :=
  let parsed :=
    match resp_json response with
    | inr d => Some d
    | inl _ =>
        match resp_text response with
        | inr t => Some (JsObject [("responseText", JsString t)])
        | inl _ => None
        end
    end in
  match parsed with
  | Some d =>
      let '(errorType, errorMessage) := classifyStatus (resp_status response) in
      {| message := errorMessage; type := errorType;
         details := details_with_url d requestUrl;
         status := Some (resp_status response); originalError := None |}
  | None =>
      {| message := "API request failed"; type := UNKNOWN;
         details := JsObject [];
         status := Some (resp_status response); originalError := None |}
  end.

(** [ApiError.fromNetworkError] *)
Definition fromNetworkError (error : JsError) (requestUrl : option string) : ApiError :=
  let '(errorType, errorMessage) :=
    if String.eqb (err_name error) "AbortError" || includes "timeout" (err_message error)
    then (TIMEOUT, "Request timed out")
    else (NETWORK, "Network error occurred") in
  {| message := errorMessage; type := errorType;
     details := match url_given requestUrl with
                | Some u => JsObject [("url", JsString u)]
                | None => JsObject []
                end;
     status := None; originalError := Some error |}.

(** *** The retrying executor *)

(** What one call of [fetch(url, fetchOptions)] does: it rejects (transport
    failure, or the abort fired by the timeout timer) or resolves with a
    response. *)
Inductive FetchOutcome :=
| FetchRejects (error : JsError)
| FetchResolves (response : Response).

(** The closure [executeRequest]: the variables of [request] it captures.
    [rc_fetch i] is the outcome of the call of [fetch] made by attempt [i]. *)
Record RequestClosure := {
  rc_url : string;
  rc_retries : Z;
  rc_retryDelay : Z;
  rc_retryBackoffFactor : Z;
  rc_timeout : Z;
  rc_isCacheable : bool;
  rc_cacheKey : string;
  rc_cacheTTL : Z;
  rc_fetch : nat -> FetchOutcome
}.

(** What the executor does to the outside world, in order. *)
Inductive ReqEvent :=
| EvFetch (attempt : nat)
| EvCacheResponse (cacheKey : string) (data : JsValue) (ttl : Z)
| EvBackoff (attempt : nat) (delay : Z).

(** The [try] block of [executeRequest] together with the conversion at the
    head of its [catch]: one transport attempt, ending in data or in an
    [ApiError]. *)
Definition attemptOnce (c : RequestClosure) (attempt : nat)
  : (ApiError + JsValue) * list ReqEvent :=
  match rc_fetch c attempt with
  | FetchRejects error =>
      (inl (fromNetworkError error (Some (rc_url c))), [EvFetch attempt])
  | FetchResolves response =>
      if negb (resp_ok response)
      then (inl (fromResponse response (Some (rc_url c))), [EvFetch attempt])
      else match resp_json response with
           | inl error =>
               (inl (fromNetworkError error (Some (rc_url c))), [EvFetch attempt])
           | inr data =>
               (inr data,
                EvFetch attempt ::
                if rc_isCacheable c
                then [EvCacheResponse (rc_cacheKey c) data (rc_cacheTTL c)]
                else [])
           end
  end.

(** [shouldRetry] *)
Definition shouldRetry (c : RequestClosure) (attempt : nat) (apiError : ApiError) : bool :=
  (Z.of_nat attempt <? rc_retries c) && isRetryable apiError.

(** [retryDelay * Math.pow(retryBackoffFactor, attempt)]; the random jitter
    of up to 20% added on top is not modelled. *)
Definition backoffDelay (c : RequestClosure) (attempt : nat) : Z :=
  rc_retryDelay c * rc_retryBackoffFactor c ^ Z.of_nat attempt.

Definition inspect {A} (a : A) : {b | a = b} := exist _ a eq_refl.

(** [executeRequest(attempt)]: the recursion is on [attempt + 1] and stops
    when [attempt < retries] fails, so [retries - attempt] decreases. *)
Equations? executeRequest (c : RequestClosure) (attempt : nat)
  : (ApiError + JsValue) * list ReqEvent
  by wf (Z.to_nat (rc_retries c - Z.of_nat attempt)) lt :=
  executeRequest c attempt with attemptOnce c attempt => {
    | (inr data, evs) := (inr data, evs);
    | (inl apiError, evs) with inspect (shouldRetry c attempt apiError) => {
        | exist _ true _ :=
            let r := executeRequest c (S attempt) in
            (fst r, evs ++ EvBackoff attempt (backoffDelay c attempt) :: snd r);
        | exist _ false _ := (inl apiError, evs) } }.
Proof.
  unfold shouldRetry in *.
  apply andb_prop in e as [Hlt _]. apply Z.ltb_lt in Hlt. lia.
Qed.

(** *** The rate limiter *)

(** An entry of a resource's wait queue.  [requestFn] is the thunk
    [() => executeRequest()], kept as the closure it runs; [promise] names
    the promise whose [resolve] and [reject] the entry holds. *)
Record QueueItem := {
  requestFn : RequestClosure;
  promise : nat;
  timestamp : Z
}.

(** [rateLimiter._state[apiId]] *)
Record RateLimitState := {
  requestsPerMinute : Z;
  concurrentRequests : Z;
  activeRequests : Z;
  requestHistory : list Z;
  queue : list QueueItem;
  queueProcessing : bool
}.

(** The [options] of [init]: the two ceilings are counts, when given. *)
Record RateLimitOptions := {
  opt_requestsPerMinute : option N;
  opt_concurrentRequests : option N
}.

Definition no_options : RateLimitOptions :=
  {| opt_requestsPerMinute := None; opt_concurrentRequests := None |}.

(** [given || fallback] on an optional count: absent and 0 are falsy. *)
Definition count_or (given : option N) (fallback : Z) : Z :=
  match given with
  | Some n => if (n =? 0)%N then fallback else Z.of_N n
  | None => fallback
  end.

(** [rateLimiter._state], a dictionary keyed by API identifier. *)
Abbreviation LimiterStates := (gmap string RateLimitState).

(** [rateLimiter.init]: creates the entry on first use, and returns it. *)
Definition init (apiId : string) (options : RateLimitOptions) (st : LimiterStates)
  : RateLimitState * LimiterStates :=
  match st !! apiId with
  | Some state => (state, st)
  | None =>
      let state :=
        {| requestsPerMinute :=
             count_or (opt_requestsPerMinute options)
                      DEFAULT_CONFIG.rateLimit_requestsPerMinute;
           concurrentRequests :=
             count_or (opt_concurrentRequests options)
                      DEFAULT_CONFIG.rateLimit_concurrentRequests;
           activeRequests := 0;
           requestHistory := [];
           queue := [];
           queueProcessing := false |} in
      (state, <[apiId := state]> st)
  end.

(** [rateLimiter.checkLimit].  The history is pruned only when the
    concurrency test has passed. *)
Definition checkLimit (apiId : string) (now : Z) (st : LimiterStates)
  : bool * LimiterStates :=
  let '(state, st) := init apiId no_options st in
  if activeRequests state >=? concurrentRequests state then (false, st)
  else
    let oneMinuteAgo := now - 60000 in
    let history := List.filter (fun time => time >? oneMinuteAgo) (requestHistory state) in
    let state :=
      {| requestsPerMinute := requestsPerMinute state;
         concurrentRequests := concurrentRequests state;
         activeRequests := activeRequests state;
         requestHistory := history;
         queue := queue state;
         queueProcessing := queueProcessing state |} in
    (Z.of_nat (length history) <? requestsPerMinute state, <[apiId := state]> st).

(** [rateLimiter.recordRequest] *)
Definition recordRequest (apiId : string) (now : Z) (st : LimiterStates) : LimiterStates :=
  let '(state, st) := init apiId no_options st in
  <[apiId :=
      {| requestsPerMinute := requestsPerMinute state;
         concurrentRequests := concurrentRequests state;
         activeRequests := activeRequests state + 1;
         requestHistory := requestHistory state ++ [now];
         queue := queue state;
         queueProcessing := queueProcessing state |}]> st.

(** What the limiter hands to the event loop. *)
Inductive LimiterEffect :=
| StartQueued (item : QueueItem)   (* Promise.resolve().then(requestFn)... *)
| PollAgain (ms : Z).              (* setTimeout(() => processNext(), ms) *)

Definition set_queueProcessing (b : bool) (state : RateLimitState) : RateLimitState :=
  {| requestsPerMinute := requestsPerMinute state;
     concurrentRequests := concurrentRequests state;
     activeRequests := activeRequests state;
     requestHistory := requestHistory state;
     queue := queue state;
     queueProcessing := b |}.

Definition set_queue (q : list QueueItem) (state : RateLimitState) : RateLimitState :=
  {| requestsPerMinute := requestsPerMinute state;
     concurrentRequests := concurrentRequests state;
     activeRequests := activeRequests state;
     requestHistory := requestHistory state;
     queue := q;
     queueProcessing := queueProcessing state |}.

(** One call of the closure [processNext] of [_processQueue]: it closes the
    drain on an empty queue, starts the head of the queue when the limits
    allow, and otherwise asks to be called again in 500 ms.  The [finally]
    of a started entry is [queuedRequestFinished] below. *)
Definition processNext (apiId : string) (now : Z) (st : LimiterStates)
  : list LimiterEffect * LimiterStates :=
  match st !! apiId with
  | None => ([], st)
  | Some state =>
      match queue state with
      | [] => ([], <[apiId := set_queueProcessing false state]> st)
      | _ :: _ =>
          let '(allowed, st) := checkLimit apiId now st in
          if allowed then
            match st !! apiId with
            | Some state =>
                match queue state with
                | item :: rest =>
                    let st := <[apiId := set_queue rest state]> st in
                    ([StartQueued item], recordRequest apiId now st)
                | [] => ([], st)
                end
            | None => ([], st)
            end
          else ([PollAgain 500], st)
      end
  end.

(** [rateLimiter._processQueue] *)
Definition _processQueue (apiId : string) (now : Z) (st : LimiterStates)
  : list LimiterEffect * LimiterStates :=
  let '(state, st) := init apiId no_options st in
  if queueProcessing state || (Nat.eqb (length (queue state)) 0) then ([], st)
  else processNext apiId now (<[apiId := set_queueProcessing true state]> st).

(** [rateLimiter.recordCompletion] *)
Definition recordCompletion (apiId : string) (now : Z) (st : LimiterStates)
  : list LimiterEffect * LimiterStates :=
  let '(state, st) := init apiId no_options st in
  let state :=
    {| requestsPerMinute := requestsPerMinute state;
       concurrentRequests := concurrentRequests state;
       activeRequests := Z.max 0 (activeRequests state - 1);
       requestHistory := requestHistory state;
       queue := queue state;
       queueProcessing := queueProcessing state |} in
  _processQueue apiId now (<[apiId := state]> st).

(** [rateLimiter.enqueue] *)
Definition enqueue (apiId : string) (requestFn : RequestClosure) (promise : nat)
    (now : Z) (st : LimiterStates)
  : list LimiterEffect * LimiterStates :=
  let '(state, st) := init apiId no_options st in
  let item := {| requestFn := requestFn; promise := promise; timestamp := now |} in
  let st := <[apiId := set_queue (queue state ++ [item]) state]> st in
  if queueProcessing state then ([], st) else _processQueue apiId now st.

(** The [finally] callback of an entry started by [processNext]:
    [recordCompletion(apiId); processNext()]. *)
Definition queuedRequestFinished (apiId : string) (now : Z) (st : LimiterStates)
  : list LimiterEffect * LimiterStates :=
  let '(effects, st) := recordCompletion apiId now st in
  let '(effects', st) := processNext apiId now st in
  (effects ++ effects', st).

(** *** The limiter as a transition system *)

(** One synchronous run of limiter code, by call site: [init] from
    [configureRateLimits]; a bare [checkLimit] from [isRateLimited]; the
    admission test of [request], which records the request when
    [checkLimit] has just returned [true] and queues it otherwise;
    [recordCompletion] in the [finally] of an admitted request;
    [processNext] woken by its timer; and the [finally] of a queued
    request.  The clock readings are arbitrary. *)
Inductive LimiterStep : LimiterStates -> LimiterStates -> Prop :=
| StepInit apiId options st :
    LimiterStep st (snd (init apiId options st))
| StepCheckLimit apiId now st :
    LimiterStep st (snd (checkLimit apiId now st))
| StepAdmit apiId now now' st st' :
    checkLimit apiId now st = (true, st') ->
    LimiterStep st (recordRequest apiId now' st')
| StepEnqueue apiId now now' requestFn promise st st' :
    checkLimit apiId now st = (false, st') ->
    LimiterStep st (snd (enqueue apiId requestFn promise now' st'))
| StepCompletion apiId now st :
    LimiterStep st (snd (recordCompletion apiId now st))
| StepProcessNext apiId now st :
    LimiterStep st (snd (processNext apiId now st))
| StepQueuedFinished apiId now st :
    LimiterStep st (snd (queuedRequestFinished apiId now st)).

(** The states the limiter can be in: it starts with [_state = {}]. *)
Definition reachable (st : LimiterStates) : Prop := rtc LimiterStep ∅ st.

(** The invariant on one resource, and on the whole dictionary. *)
Definition within_ceiling (s : RateLimitState) : Prop :=
  0 <= activeRequests s <= concurrentRequests s.

Definition limiter_ok (st : LimiterStates) : Prop :=
  forall apiId s, st !! apiId = Some s -> within_ceiling s.

(** The resource has room for one more request. *)
Definition has_room (apiId : string) (st : LimiterStates) : Prop :=
  forall s, st !! apiId = Some s -> activeRequests s < concurrentRequests s.

(** *** Cache keys and [request] *)

Section Request.

(** [JSON.stringify], as the text a template literal interpolates for its
    result.  It belongs to the platform, not to this repository. *)
Variable JSON_stringify : JsValue -> string.

(** The properties [createCacheKey] reads from its [options]. *)
Record CacheKeyOptions := {
  ck_method : option string;
  ck_body : JsValue;
  ck_headers : JsValue
}.

(** [options.method || 'GET'] *)
Definition method_or_GET (m : option string) : string :=
  match m with
  | Some s => if String.eqb s "" then "GET" else s
  | None => "GET"
  end.

(** The serialization of the body that goes into a cache key:
    [const body = options.body || ''] followed by
    [typeof body === 'string' ? body : JSON.stringify(body)]. *)
Definition bodyStr (b : JsValue) : string :=
  match js_or b (JsString "") with
  | JsString s => s
  | body => JSON_stringify body
  end.

(** [apiRequest.createCacheKey] *)
Definition createCacheKey (url : string) (options : CacheKeyOptions) : string :=
  let method := method_or_GET (ck_method options) in
  let headers := js_or (ck_headers options) (JsObject []) in
  if String.eqb method "GET" then method +:+ ":" +:+ url
  else
    let headerStr := JSON_stringify headers in
    method +:+ ":" +:+ url +:+ ":" +:+ headerStr +:+ ":" +:+ bodyStr (ck_body options).

(** The [options] of [request]; [None] is a property left [undefined],
    which is what makes a destructuring default apply. *)
Record RequestOptions := {
  o_method : option string;
  o_body : option JsValue;
  o_headers : option (list (string * JsValue));
  o_apiId : option string;
  o_timeout : option Z;
  o_retries : option Z;
  o_retryDelay : option Z;
  o_retryBackoffFactor : option Z;
  o_useCache : option bool;
  o_cacheTTL : option Z;
  o_forceFresh : option bool;
  o_mockResponse : option bool
}.

(** What the collaborators of one call of [request] answer: the mock store
    ([_getMockResponse], [null] outside development), the response cache
    ([checkCache], [null] on a miss or a failed read) and the transport. *)
Record RequestEnv := {
  env_mock : JsValue;
  env_cache : string -> JsValue;
  env_fetch : nat -> FetchOutcome
}.

(** [fetchOptions] after the body has been attached. *)
Definition fetchOptions (method : string) (body : JsValue)
    (headers : list (string * JsValue)) : CacheKeyOptions :=
  if truthy body then
    match body with
    | JsObject _ =>
        {| ck_method := Some method;
           ck_body := JsString (JSON_stringify body);
           ck_headers :=
             JsObject (obj_set "Content-Type" (JsString "application/json") headers) |}
    | _ =>
        {| ck_method := Some method; ck_body := body; ck_headers := JsObject headers |}
    end
  else {| ck_method := Some method; ck_body := JsUndefined; ck_headers := JsObject headers |}.

(** How a call of [request] leaves its synchronous part. *)
Inductive RequestStart :=
| ReturnsMock (data : JsValue)
| ReturnsCached (data : JsValue)
  (* admitted: [executeRequest()] starts now; its outcome settles the promise *)
| RunsNow (executor : RequestClosure) (st : LimiterStates)
  (* deferred: the thunk waits in the queue of the resource *)
| Deferred (executor : RequestClosure) (effects : list LimiterEffect)
           (st : LimiterStates).

(** [apiRequest.request], up to the point where the executor has been
    started or queued.  [promise] names the promise the call returns. *)
Definition request (env : RequestEnv) (now : Z) (promise : nat)
    (url : string) (options : RequestOptions) (st : LimiterStates) : RequestStart :=
  let method := default "GET" (o_method options) in
  let body := default JsNull (o_body options) in
  let headers := default [] (o_headers options) in
  let apiId := default "default" (o_apiId options) in
  let timeout := default DEFAULT_CONFIG.timeout (o_timeout options) in
  let retries := default DEFAULT_CONFIG.retries (o_retries options) in
  let retryDelay := default DEFAULT_CONFIG.retryDelay (o_retryDelay options) in
  let retryBackoffFactor :=
    default DEFAULT_CONFIG.retryBackoffFactor (o_retryBackoffFactor options) in
  let useCache := default DEFAULT_CONFIG.cacheByDefault (o_useCache options) in
  let cacheTTL := default DEFAULT_CONFIG.cacheTTL (o_cacheTTL options) in
  let forceFresh := default false (o_forceFresh options) in
  let mockResponse := default false (o_mockResponse options) in
  let fetchOpts := fetchOptions method body headers in
  if mockResponse && truthy (env_mock env) then ReturnsMock (env_mock env)
  else
    let isCacheable := String.eqb method "GET" && useCache in
    let cacheKey := createCacheKey url fetchOpts in
    if isCacheable && negb forceFresh && truthy (env_cache env cacheKey)
    then ReturnsCached (env_cache env cacheKey)
    else
      let executeRequest :=
        {| rc_url := url;
           rc_retries := retries;
           rc_retryDelay := retryDelay;
           rc_retryBackoffFactor := retryBackoffFactor;
           rc_timeout := timeout;
           rc_isCacheable := isCacheable;
           rc_cacheKey := cacheKey;
           rc_cacheTTL := cacheTTL;
           rc_fetch := env_fetch env |} in
      let '(allowed, st) := checkLimit apiId now st in
      if allowed then RunsNow executeRequest (recordRequest apiId now st)
      else
        let '(effects, st) := enqueue apiId executeRequest promise now st in
        Deferred executeRequest effects st.

(** The executor of a call that went past the mock store and the cache. *)
Definition started (r : RequestStart) : option RequestClosure :=
  match r with
  | RunsNow executor _ | Deferred executor _ _ => Some executor
  | ReturnsMock _ | ReturnsCached _ => None
  end.

(** [request(url)] called without options. *)
Definition noOptions : RequestOptions :=
  {| o_method := None; o_body := None; o_headers := None; o_apiId := None;
     o_timeout := None; o_retries := None; o_retryDelay := None;
     o_retryBackoffFactor := None; o_useCache := None; o_cacheTTL := None;
     o_forceFresh := None; o_mockResponse := None |}.

(** [{method: 'POST', body}] and [{method: 'GET'}]. *)
Definition POST (body : JsValue) : CacheKeyOptions :=
  {| ck_method := Some "POST"; ck_body := body; ck_headers := JsUndefined |}.
Definition GET : CacheKeyOptions :=
  {| ck_method := Some "GET"; ck_body := JsUndefined; ck_headers := JsUndefined |}.

End Request.

(** *** Sample inputs *)

(** A transport that is down: every call of [fetch] rejects. *)
Definition transportDown : RequestEnv :=
  {| env_mock := JsNull;
     env_cache := fun _ => JsNull;
     env_fetch := fun _ =>
       FetchRejects {| err_name := "TypeError"; err_message := "Failed to fetch" |} |}.

(** A 404 response whose body cannot be read: [json()] and [text()] both
    reject (the connection broke after the headers). *)
Definition brokenBody404 : Response :=
  let error := {| err_name := "TypeError"; err_message := "network error" |} in
  {| resp_status := 404; resp_json := inl error; resp_text := inl error |}.

(** A 404 response with an HTML body: not JSON, readable as text. *)
Definition htmlBody404 : Response :=
  {| resp_status := 404;
     resp_json := inl {| err_name := "SyntaxError"; err_message := "Unexpected token <" |};
     resp_text := inr "<html>Not Found</html>" |}.

Definition answers (response : Response) : RequestEnv :=
  {| env_mock := JsNull;
     env_cache := fun _ => JsNull;
     env_fetch := fun _ => FetchResolves response |}.

(** The executor [request(url)] builds when called without options. *)
Definition plainExecutor (url : string) (env : RequestEnv) : RequestClosure :=
  {| rc_url := url;
     rc_retries := DEFAULT_CONFIG.retries;
     rc_retryDelay := DEFAULT_CONFIG.retryDelay;
     rc_retryBackoffFactor := DEFAULT_CONFIG.retryBackoffFactor;
     rc_timeout := DEFAULT_CONFIG.timeout;
     rc_isCacheable := true;
     rc_cacheKey := "GET:" +:+ url;
     rc_cacheTTL := DEFAULT_CONFIG.cacheTTL;
     rc_fetch := env_fetch env |}.

(** The entry of the resource [default] after one admitted request at time 0. *)
Definition oneActive : RateLimitState :=
  {| requestsPerMinute := 60; concurrentRequests := 6; activeRequests := 1;
     requestHistory := [0]; queue := []; queueProcessing := false |}.

(** How the promise of a call that reached the transport settles: with the
    outcome of [executeRequest()] ([.then(resolve, reject)]), [inl] for a
    rejection; the second component lists what the executor did. *)
Definition settles (executor : RequestClosure) : (ApiError + JsValue) * list ReqEvent :=
  executeRequest executor 0.

(** The number of calls of [fetch] in a run of the executor. *)
Definition fetchCount (evs : list ReqEvent) : Z :=
  Z.of_nat (length (List.filter (fun ev => match ev with EvFetch _ => true | _ => false end) evs)).

(** *** One resource of the limiter *)

(** The entry of a resource as [init(apiId)] returns it. *)
Definition entry (apiId : string) (st : LimiterStates) : RateLimitState :=
  fst (init apiId no_options st).

(** The times of a history that lie within the minute before [now]. *)
Definition lastMinute (now : Z) (history : list Z) : list Z :=
  List.filter (fun time => time >? now - 60000) history.

(** What [checkLimit] makes of the entry, and what it answers. *)
Definition checked (now : Z) (s : RateLimitState) : RateLimitState :=
  if activeRequests s >=? concurrentRequests s then s
  else {| requestsPerMinute := requestsPerMinute s;
          concurrentRequests := concurrentRequests s;
          activeRequests := activeRequests s;
          requestHistory := lastMinute now (requestHistory s);
          queue := queue s;
          queueProcessing := queueProcessing s |}.

Definition allows (now : Z) (s : RateLimitState) : bool :=
  if activeRequests s >=? concurrentRequests s then false
  else Z.of_nat (length (lastMinute now (requestHistory s))) <? requestsPerMinute s.

(** What [recordRequest] makes of the entry. *)
Definition recorded (now : Z) (s : RateLimitState) : RateLimitState :=
  {| requestsPerMinute := requestsPerMinute s;
     concurrentRequests := concurrentRequests s;
     activeRequests := activeRequests s + 1;
     requestHistory := requestHistory s ++ [now];
     queue := queue s;
     queueProcessing := queueProcessing s |}.

(** What [processNext] makes of the entry. *)
Definition drainedNext (now : Z) (s : RateLimitState) : list LimiterEffect * RateLimitState :=
  match queue s with
  | [] => ([], set_queueProcessing false s)
  | item :: rest =>
      if allows now s
      then ([StartQueued item], recorded now (set_queue rest (checked now s)))
      else ([PollAgain 500], checked now s)
  end.

(** What [_processQueue] makes of the entry. *)
Definition drainStarted (now : Z) (s : RateLimitState) : list LimiterEffect * RateLimitState :=
  if queueProcessing s || Nat.eqb (length (queue s)) 0 then ([], s)
  else drainedNext now (set_queueProcessing true s).

(** What [recordCompletion] makes of the entry. *)
Definition completed (now : Z) (s : RateLimitState) : list LimiterEffect * RateLimitState :=
  drainStarted now
    {| requestsPerMinute := requestsPerMinute s;
       concurrentRequests := concurrentRequests s;
       activeRequests := Z.max 0 (activeRequests s - 1);
       requestHistory := requestHistory s;
       queue := queue s;
       queueProcessing := queueProcessing s |}.

(** What [enqueue] makes of the entry. *)
Definition enqueued (item : QueueItem) (now : Z) (s : RateLimitState)
  : list LimiterEffect * RateLimitState :=
  let s' := set_queue (queue s ++ [item]) s in
  if queueProcessing s then ([], s') else drainStarted now s'.

(** *** The limiter with its clock and the work it has handed out *)

(** The limiter together with what the event loop holds for it: per
    resource, the requests admitted by [request] that are in flight, the
    requests started from the queue that are in flight, and the timers set
    by [processNext]; [admitted] lists the times at which requests were
    admitted, oldest first, and [clock] is the last reading of [Date.now()]. *)
Record Sys := {
  clock : Z;
  limiter : LimiterStates;
  admitted : string -> list Z;
  direct : string -> nat;
  drained : string -> nat;
  timers : string -> nat
}.

Definition at_key {A} (apiId : string) (f : A -> A) (m : string -> A) : string -> A :=
  fun x => if String.eqb x apiId then f (m x) else m x.

(** The event loop takes over what the limiter hands out at time [now]: a
    request started from the queue has been admitted and is in flight; a
    timer is pending. *)
Definition absorb1 (apiId : string) (now : Z) (sys : Sys) (effect : LimiterEffect) : Sys :=
  match effect with
  | StartQueued _ =>
      {| clock := clock sys; limiter := limiter sys;
         admitted := at_key apiId (fun l => l ++ [now]) (admitted sys);
         direct := direct sys;
         drained := at_key apiId S (drained sys);
         timers := timers sys |}
  | PollAgain _ =>
      {| clock := clock sys; limiter := limiter sys;
         admitted := admitted sys;
         direct := direct sys;
         drained := drained sys;
         timers := at_key apiId S (timers sys) |}
  end.

Definition absorb (apiId : string) (now : Z) (effects : list LimiterEffect) (sys : Sys) : Sys :=
  fold_left (absorb1 apiId now) effects sys.

(** The limiter code has run at time [now] and left the dictionary [st]. *)
Definition ran (now : Z) (st : LimiterStates) (sys : Sys) : Sys :=
  {| clock := now; limiter := st; admitted := admitted sys;
     direct := direct sys; drained := drained sys; timers := timers sys |}.

(** A call of [request] at time [now]. *)
Definition requested (JSON_stringify : JsValue -> string) (env : RequestEnv) (now : Z)
    (promise : nat) (url : string) (options : RequestOptions) (sys : Sys) : Sys :=
  let apiId := default "default" (o_apiId options) in
  match request JSON_stringify env now promise url options (limiter sys) with
  | ReturnsMock _ | ReturnsCached _ => sys
  | RunsNow _ st =>
      {| clock := now; limiter := st;
         admitted := at_key apiId (fun l => l ++ [now]) (admitted sys);
         direct := at_key apiId S (direct sys);
         drained := drained sys; timers := timers sys |}
  | Deferred _ effects st => absorb apiId now effects (ran now st sys)
  end.

(** The [finally] of a request that [request] admitted. *)
Definition directFinished (apiId : string) (now : Z) (sys : Sys) : Sys :=
  let '(effects, st) := recordCompletion apiId now (limiter sys) in
  absorb apiId now effects
    {| clock := now; limiter := st; admitted := admitted sys;
       direct := at_key apiId Nat.pred (direct sys);
       drained := drained sys; timers := timers sys |}.

(** A timer set by [processNext] fires. *)
Definition timerFired (apiId : string) (now : Z) (sys : Sys) : Sys :=
  let '(effects, st) := processNext apiId now (limiter sys) in
  absorb apiId now effects
    {| clock := now; limiter := st; admitted := admitted sys;
       direct := direct sys; drained := drained sys;
       timers := at_key apiId Nat.pred (timers sys) |}.

(** The [finally] of a request that was started from the queue. *)
Definition drainedFinished (apiId : string) (now : Z) (sys : Sys) : Sys :=
  let '(effects, st) := queuedRequestFinished apiId now (limiter sys) in
  absorb apiId now effects
    {| clock := now; limiter := st; admitted := admitted sys;
       direct := direct sys;
       drained := at_key apiId Nat.pred (drained sys);
       timers := timers sys |}.

(** What can happen next; the clock does not go back. *)
Inductive SysStep (JSON_stringify : JsValue -> string) : Sys -> Sys -> Prop :=
| SysInit apiId options sys :
    SysStep JSON_stringify sys
      (ran (clock sys) (snd (init apiId options (limiter sys))) sys)
| SysCheckLimit apiId now sys :
    clock sys <= now ->
    SysStep JSON_stringify sys (ran now (snd (checkLimit apiId now (limiter sys))) sys)
| SysRequest env now promise url options sys :
    clock sys <= now ->
    SysStep JSON_stringify sys (requested JSON_stringify env now promise url options sys)
| SysDirectFinished apiId now sys :
    clock sys <= now -> (0 < direct sys apiId)%nat ->
    SysStep JSON_stringify sys (directFinished apiId now sys)
| SysTimerFired apiId now sys :
    clock sys <= now -> (0 < timers sys apiId)%nat ->
    SysStep JSON_stringify sys (timerFired apiId now sys)
| SysDrainedFinished apiId now sys :
    clock sys <= now -> (0 < drained sys apiId)%nat ->
    SysStep JSON_stringify sys (drainedFinished apiId now sys).

(** The page has just loaded: [_state = {}] and nothing is in flight. *)
Definition sys0 : Sys :=
  {| clock := 0; limiter := ∅; admitted := fun _ => [];
     direct := fun _ => 0%nat; drained := fun _ => 0%nat; timers := fun _ => 0%nat |}.

Definition sys_reachable (JSON_stringify : JsValue -> string) (sys : Sys) : Prop :=
  rtc (SysStep JSON_stringify) sys0 sys.

(** The requests started and the timers set by a list of effects. *)
Definition starts (effects : list LimiterEffect) : nat :=
  length (List.filter (fun e => match e with StartQueued _ => true | _ => false end) effects).
Definition polls (effects : list LimiterEffect) : nat :=
  length (List.filter (fun e => match e with PollAgain _ => true | _ => false end) effects).

(** What holds of a resource at all times: [activeRequests] counts the
    requests in flight; the history holds every admission of the last
    minute, and these are no more than [requestsPerMinute]. *)
Record resource_core (now : Z) (s : RateLimitState) (adm : list Z) (d q : nat) : Prop := {
  ok_active : activeRequests s = Z.of_nat (d + q);
  ok_window : lastMinute now adm = lastMinute now (requestHistory s);
  ok_rate : Z.of_nat (length (lastMinute now (requestHistory s))) <= requestsPerMinute s
}.

(** What holds of a resource between two runs of limiter code: besides, the
    drain of the queue is in progress exactly when one timer or one request
    started from the queue is outstanding, and the queue is empty when no
    drain is in progress. *)
Record resource_ok (now : Z) (s : RateLimitState) (adm : list Z) (d q t : nat) : Prop := {
  ok_core : resource_core now s adm d q;
  ok_draining : queueProcessing s = true -> (t + q = 1)%nat;
  ok_resting : queueProcessing s = false -> (t + q = 0)%nat /\ queue s = []
}.

Definition sys_ok (sys : Sys) : Prop :=
  forall apiId,
    resource_ok (clock sys) (entry apiId (limiter sys)) (admitted sys apiId)
      (direct sys apiId) (drained sys apiId) (timers sys apiId).

(** *** Sample inputs for the limiter *)

(** A resource that admits one request at a time. *)
Definition oneAtATime : RateLimitOptions :=
  {| opt_requestsPerMinute := Some 10%N; opt_concurrentRequests := Some 1%N |}.

Definition optionsFor (apiId : string) : RequestOptions :=
  {| o_method := None; o_body := None; o_headers := None; o_apiId := Some apiId;
     o_timeout := None; o_retries := None; o_retryDelay := None;
     o_retryBackoffFactor := None; o_useCache := None; o_cacheTTL := None;
     o_forceFresh := None; o_mockResponse := None |}.

(** Two requests to a resource that admits one at a time: the second waits
    in the queue. *)
Definition twoRequests : Sys :=
  requested (fun _ => "{}") transportDown 5 1%nat "https://example.org/b" (optionsFor "slow")
    (requested (fun _ => "{}") transportDown 0 0%nat "https://example.org/a" (optionsFor "slow")
       (ran 0 (snd (init "slow" oneAtATime ∅)) sys0)).

(** A response with status 200 whose body is not JSON. *)
Definition htmlBody200 : Response :=
  {| resp_status := 200;
     resp_json := inl {| err_name := "SyntaxError"; err_message := "Unexpected token <" |};
     resp_text := inr "<html>ok</html>" |}.

(** A transport that fails twice with status 503 and then answers. *)
Definition thirdTimeLucky : RequestEnv :=
  {| env_mock := JsNull;
     env_cache := fun _ => JsNull;
     env_fetch := fun i =>
       if (i <? 2)%nat
       then FetchResolves {| resp_status := 503; resp_json := inr (JsObject []);
                             resp_text := inr "{}" |}
       else FetchResolves {| resp_status := 200;
                             resp_json := inr (JsObject [("ok", JsBool true)]);
                             resp_text := inr "{}" |} |}.

End ApiUtils.

(** * background/storage-manager.js *)
Module StorageManager.

(** ** Settings *)

(** The values the settings object holds: what [JSON.parse] gives, and
    [undefined] for a property that is absent or has been set to
    [undefined].  A number is an integer; a character of a string is one
    code unit.

    The settings are a tree: an array or an object is held at one place.
    (The code stores the references it is given; a caller that stores one
    object at two paths, or goes on changing an object it has stored, is
    outside this model, but for the one pattern of the callers in this
    repository, which is [changed_in_place] below.) *)
#[warnings="-register-all"]
Inductive Json : Type :=
| JUndefined
| JNull
| JBool (b : bool)
| JNumber (n : Z)
| JString (s : string)
| JArray (items : list Json)
| JObject (fields : list (string * Json)).

(** [v === undefined || v === null] *)
Definition nullish (v : Json) : bool :=
  match v with
  | JUndefined | JNull => true
  | _ => false
  end.

(** *** Objects *)

(** The own property [key] of a plain object, if it has one. *)
Fixpoint own (key : string) (fields : list (string * Json)) : option Json :=
  match fields with
  | [] => None
  | (k, v) :: rest => if String.eqb k key then Some v else own key rest
  end.

(** [obj[key] = v] on an own property, or for a name that is free: an own
    property keeps its place, a new one goes last. *)
Fixpoint set_field (key : string) (v : Json) (fields : list (string * Json))
  : list (string * Json) :=
  match fields with
  | [] => [(key, v)]
  | (k, w) :: rest =>
      if String.eqb k key then (k, v) :: rest else (k, w) :: set_field key v rest
  end.

(** [delete obj[key]] *)
Fixpoint delete_field (key : string) (fields : list (string * Json)) : list (string * Json) :=
  match fields with
  | [] => []
  | (k, w) :: rest =>
      if String.eqb k key then delete_field key rest else (k, w) :: delete_field key rest
  end.

(** The names of the members of [Object.prototype], which every object of
    the settings inherits: the seven of the language and the five of its
    annex for browsers. *)
Definition objectPrototypeNames : list string :=
  ["constructor"; "hasOwnProperty"; "isPrototypeOf"; "propertyIsEnumerable";
   "toLocaleString"; "toString"; "valueOf";
   "__proto__"; "__defineGetter__"; "__defineSetter__"; "__lookupGetter__";
   "__lookupSetter__"].

Definition inherited (part : string) : bool :=
  existsb (String.eqb part) objectPrototypeNames.

(** *** Arrays *)

(** A property name that is an array index: the decimal numeral, without
    sign or leading zero, of an integer below [2^32 - 1]. *)
Definition arrayIndex (part : string) : option nat :=
  match NilEmpty.uint_of_string part with
  | Some digits =>
      let n := N.of_uint digits in
      if (n <? 4294967295)%N && String.eqb (NilZero.string_of_uint (N.to_uint n)) part
      then Some (N.to_nat n)
      else None
  | None => None
  end.

(** [items[i]]: [undefined] past the end, and for a hole. *)
Definition item (i : nat) (items : list Json) : Json := default JUndefined (items !! i).

(** [items[i] = v]: past the end the array grows, and the places in between
    are holes, which read as [undefined]. *)
Definition set_item (i : nat) (v : Json) (items : list Json) : list Json :=
  if (i <? length items)%nat then <[i := v]> items
  else items ++ replicate (i - length items) JUndefined ++ [v].

(** [items.length = n]: the array is cut, or grows by holes. *)
Definition resized (n : nat) (items : list Json) : list Json :=
  take n items ++ replicate (n - length items) JUndefined.

(** *** Reading a property *)

(** [current[part]], the value read, as far as it is a matter of the JSON
    data: an own property of an object ([undefined] for a name that is
    free); an element of an array or its [length]; a character of a string
    or its [length].  [None] stands for what lies beyond the data: on an
    object, a name that is not an own property and names a member of
    [Object.prototype] (the code then reads a function, or with [__proto__]
    the prototype itself); on an array or a string, a name that is neither
    an index nor [length], and on a number or a boolean every name (the
    code reads [undefined], or a method of the prototype, and which names
    are methods is the platform's business).  On [undefined] and [null] the
    read throws; the callers test for them first. *)
Definition prop (current : Json) (part : string) : option Json :=
  match current with
  | JObject fields =>
      match own part fields with
      | Some v => Some v
      | None => if inherited part then None else Some JUndefined
      end
  | JArray items =>
      match arrayIndex part with
      | Some i => Some (item i items)
      | None =>
          if String.eqb part "length" then Some (JNumber (Z.of_nat (length items)))
          else None
      end
  | JString s =>
      match arrayIndex part with
      | Some i =>
          Some match String.get i s with
               | Some c => JString (String c "")
               | None => JUndefined
               end
      | None =>
          if String.eqb part "length" then Some (JNumber (Z.of_nat (String.length s)))
          else None
      end
  | JUndefined | JNull | JBool _ | JNumber _ => None
  end.

(** The character [.] (code 46). *)
Definition dot : Ascii.ascii := Ascii.ascii_of_nat 46.

(** [path.split('.')]: always at least one part. *)
Fixpoint split (path : string) : list string :=
  match path with
  | EmptyString => [""]
  | String c rest =>
      if Ascii.eqb c dot then "" :: split rest
      else match split rest with
           | part :: parts => String c part :: parts
           | [] => [String c ""]
           end
  end.

(** [parts.join('.')] *)
Definition join (parts : list string) : string := String.concat "." parts.

(** How the loop of [getSetting] ends: at a value; or at its
    [return defaultValue], on [undefined] or [null] with parts left; or
    beyond the JSON data. *)
Inductive Walk :=
| Reached (v : Json)
| Missing
| WalkBeyond.

(** The loop of [getSetting] over the parts that are left. *)
Fixpoint walk (parts : list string) (current : Json) : Walk :=
  match parts with
  | [] => Reached current
  | part :: rest =>
      if nullish current then Missing
      else match prop current part with
           | Some next => walk rest next
           | None => WalkBeyond
           end
  end.

(** What [getSetting] finds at the end of its loop, before the default is
    put in; [None] beyond the JSON data. *)
Definition found (w : Walk) : option Json :=
  match w with
  | Reached v => Some v
  | Missing => Some JUndefined
  | WalkBeyond => None
  end.

(** [getSetting(path, defaultValue)] on the settings object [settings];
    [None] when the path leads beyond the JSON data. *)
Definition getSetting (path : string) (defaultValue : Json) (settings : Json)
  : option Json :=
  match found (walk (split path) settings) with
  | Some JUndefined => Some defaultValue
  | Some v => Some v
  | None => None
  end.

(** *** Assigning a property *)

(** How the assignments of [setSetting] end: done, with the settings as
    they are then and the value that was there before; or with a
    [TypeError] (a property read on [undefined] or [null], or assigned on a
    string: module code is strict); or with a [RangeError] (an array given
    a [length] that is none); or beyond the JSON data.  An error leaves the
    settings as they were: the objects the loop creates cannot throw. *)
Inductive Assignment :=
| Assigned (settings : Json) (oldValue : Json)
| AssignTypeError
| AssignRangeError
| AssignBeyond.

(** [current[part] = v], for a [part] that has just been read as data: an
    own or a free name of an object, an index of an array. *)
Definition put (part : string) (v : Json) (current : Json) : Json :=
  match current with
  | JObject fields => JObject (set_field part v fields)
  | JArray items =>
      match arrayIndex part with
      | Some i => JArray (set_item i v items)
      | None => current
      end
  | _ => current
  end.

(** [const oldValue = current[lastPart]; current[lastPart] = value].  On
    an array, a [length] that is a number is set when it is an integer
    from 0 to [2^32 - 1] and throws otherwise; what the platform makes of a
    [length] that is no number is beyond the model. *)
Definition store (lastPart : string) (value : Json) (current : Json) : Assignment :=
  match current with
  | JUndefined | JNull => AssignTypeError
  | JObject _ =>
      match prop current lastPart with
      | Some oldValue => Assigned (put lastPart value current) oldValue
      | None => AssignBeyond
      end
  | JArray items =>
      match arrayIndex lastPart with
      | Some i => Assigned (put lastPart value current) (item i items)
      | None =>
          if String.eqb lastPart "length" then
            match value with
            | JNumber n =>
                if (0 <=? n) && (n <=? 4294967295)
                then Assigned (JArray (resized (Z.to_nat n) items))
                              (JNumber (Z.of_nat (length items)))
                else AssignRangeError
            | _ => AssignBeyond
            end
          else AssignBeyond
      end
  | JString _ =>
      match prop current lastPart with
      | Some _ => AssignTypeError
      | None => AssignBeyond
      end
  | JBool _ | JNumber _ => AssignBeyond
  end.

(** The loop of [setSetting] that walks to the parent, creating the objects
    that are missing, followed by [store].  The child the loop goes into is
    part of [current]: once the assignments below are done, [current] holds
    the child as it is then. *)
Fixpoint assign (parents : list string) (lastPart : string) (value : Json) (current : Json)
  : Assignment :=
  match parents with
  | [] => store lastPart value current
  | part :: rest =>
      if nullish current then AssignTypeError
      else
        match prop current part with
        | None => AssignBeyond
        | Some child =>
            let inside child :=
              match assign rest lastPart value child with
              | Assigned child' oldValue => Assigned (put part child' current) oldValue
              | failure => failure
              end in
            if nullish child then
              (* current[part] = {} *)
              match current with
              | JString _ => AssignTypeError
              | _ => inside (JObject [])
              end
            else inside child
        end
  end.

(** An object or an array: what the loop of [setSetting] can go into and
    assign in. *)
Definition container (v : Json) : bool :=
  match v with
  | JObject _ | JArray _ => true
  | _ => false
  end.

(** A part of a path that names neither a member of [Object.prototype] nor
    the [length] of an array. *)
Definition plain (part : string) : bool :=
  negb (inherited part || String.eqb part "length").

(** ** Change listeners *)

(** [changeListeners]: a [Map] from paths to [Set]s of callbacks, both in
    insertion order; a callback is named by a number. *)
Definition Listeners := list (string * list nat).

Fixpoint listeners_get (path : string) (l : Listeners) : option (list nat) :=
  match l with
  | [] => None
  | (p, callbacks) :: rest => if String.eqb p path then Some callbacks else listeners_get path rest
  end.

Fixpoint listeners_set (path : string) (callbacks : list nat) (l : Listeners) : Listeners :=
  match l with
  | [] => [(path, callbacks)]
  | (p, c) :: rest =>
      if String.eqb p path then (p, callbacks) :: rest
      else (p, c) :: listeners_set path callbacks rest
  end.

Fixpoint listeners_delete (path : string) (l : Listeners) : Listeners :=
  match l with
  | [] => []
  | (p, c) :: rest =>
      if String.eqb p path then listeners_delete path rest
      else (p, c) :: listeners_delete path rest
  end.

(** [set.add(callback)] *)
Definition set_add (callback : nat) (s : list nat) : list nat :=
  if existsb (Nat.eqb callback) s then s else s ++ [callback].

(** [set.delete(callback)] *)
Definition set_delete (callback : nat) (s : list nat) : list nat :=
  List.filter (fun c => negb (Nat.eqb callback c)) s.

(** [addChangeListener(path, callback)] *)
Definition addChangeListener (path : string) (callback : nat) (l : Listeners) : Listeners :=
  listeners_set path (set_add callback (default [] (listeners_get path l))) l.

(** The function [addChangeListener] returns, called. *)
Definition removeChangeListener (path : string) (callback : nat) (l : Listeners) : Listeners :=
  match listeners_get path l with
  | None => l
  | Some callbacks =>
      let callbacks := set_delete callback callbacks in
      match callbacks with
      | [] => listeners_delete path l
      | _ :: _ => listeners_set path callbacks l
      end
  end.

(** The parent paths [parts.slice(0, i).join('.')] for [i] from
    [parts.length - 1] down to 1. *)
Definition parentPaths (path : string) : list string :=
  let parts := split path in
  List.map (fun i => join (firstn i parts)) (rev (seq 1 (length parts - 1))).

(** A call [callback(newValue, oldValue, path)] made by
    [notifyChangeListeners]; what the callback does is its own business (an
    exception it throws is caught and logged). *)
Record Notification := {
  n_callback : nat;
  n_newValue : Json;
  n_oldValue : Json;
  n_path : string
}.

(** [notifyChangeListeners(path, newValue, oldValue)]: the callbacks it
    calls, in order: those of the path itself, those of its parent paths
    from the longest to the shortest, those of ['*']. *)
Definition notified (path : string) (l : Listeners) : list nat :=
  default [] (listeners_get path l)
  ++ flat_map (fun parentPath => default [] (listeners_get parentPath l)) (parentPaths path)
  ++ default [] (listeners_get "*" l).

Definition notifyChangeListeners (path : string) (newValue oldValue : Json) (l : Listeners)
  : list Notification :=
  List.map (fun callback =>
              {| n_callback := callback; n_newValue := newValue;
                 n_oldValue := oldValue; n_path := path |})
           (notified path l).

(** ** [setSetting] *)

(** [this.syncedSettings] *)
Definition syncedSettings : list string :=
  ["ui.theme"; "ui.fontSize"; "ui.layoutDensity"; "ui.quickAccessFeatures";
   "features.enabledFeatures"; "features.featureSettings"].

(** [ToBoolean] *)
Definition truthy (v : Json) : bool :=
  match v with
  | JUndefined | JNull => false
  | JBool b => b
  | JNumber n => negb (n =? 0)
  | JString s => negb (String.eqb s "")
  | JArray _ | JObject _ => true
  end.

(** What a call of [setSetting] does besides changing the settings object,
    in order. *)
Inductive Effect :=
| SaveSettings (settings : Json)       (* storageUtils.chrome.set({ settings }) *)
| Notify (notification : Notification)
| DebouncedSync.

(** How a call of [setSetting] ends. *)
Inductive Completion :=
| Returned
| SaveFailed          (* [saveSettings] rejects: the error is rethrown *)
| ThrewTypeError
| ThrewRangeError.

(** What a call of [setSetting] comes to: how it ends, the settings object
    then, and what it did besides changing it; or [Beyond], when the call
    leaves the JSON data and the model does not follow it. *)
Inductive Outcome :=
| Ended (completion : Completion) (settings : Json) (effects : list Effect)
| Beyond.

Section Stringify.

(** [JSON.stringify]; [None] is [undefined].  It belongs to the platform. *)
Variable JSON_stringify : Json -> option string.

(** [setSetting(path, value, saveImmediately)].  [saveWorks] says whether
    the write to the browser's storage succeeds; the code after the
    comparison runs only when the serializations of the old and the new
    value differ. *)
Definition setSetting (path : string) (value : Json) (saveImmediately : bool)
    (saveWorks : bool) (listeners : Listeners) (settings : Json) : Outcome :=
  let parts := split path in
  match assign (List.removelast parts) (List.last parts "") value settings with
  | AssignTypeError => Ended ThrewTypeError settings []
  | AssignRangeError => Ended ThrewRangeError settings []
  | AssignBeyond => Beyond
  | Assigned settings' oldValue =>
      if decide (JSON_stringify oldValue = JSON_stringify value)
      then Ended Returned settings' []
      else if saveImmediately && negb saveWorks
      then Ended SaveFailed settings' [SaveSettings settings']
      else
        let saved := if saveImmediately then [SaveSettings settings'] else [] in
        let told := List.map Notify (notifyChangeListeners path value oldValue listeners) in
        (* this.settings.privacy.syncEnabled && this.syncedSettings.includes(path) *)
        match prop settings' "privacy" with
        | None => Beyond
        | Some JUndefined | Some JNull => Ended ThrewTypeError settings' (saved ++ told)
        | Some privacy =>
            match prop privacy "syncEnabled" with
            | None => Beyond
            | Some syncEnabled =>
                if truthy syncEnabled && existsb (String.eqb path) syncedSettings
                then Ended Returned settings' (saved ++ told ++ [DebouncedSync])
                else Ended Returned settings' (saved ++ told)
            end
        end
  end.

End Stringify.

(** The settings object after a caller has changed, in place, the array or
    object [getSetting(path)] gave it into [value]: [getSetting] hands out
    the stored value itself, not a copy, so the settings hold the changed
    value at once. *)
Definition changed_in_place (path : string) (value : Json) (settings : Json) : Json :=
  let parts := split path in
  match assign (List.removelast parts) (List.last parts "") value settings with
  | Assigned settings' _ => settings'
  | _ => settings
  end.

(** A listener registered for [p] hears of a change at [path]: it is
    registered for the path itself, for a path above it, or for ['*']. *)
Definition hears (p path : string) : Prop :=
  p = path \/ p = "*" \/ exists rest, path = p +:+ "." +:+ rest.

(** *** Sample inputs *)

(** The settings a fresh profile starts with, as far as the modelled code
    reads them. *)
Definition defaultSettings : Json :=
  JObject
    [ ("features",
       JObject [("enabledFeatures", JArray []); ("disabledFeatures", JArray []);
                ("featureSettings", JObject [])]);
      ("ui", JObject [("theme", JString "system")]);
      ("privacy", JObject [("telemetryEnabled", JBool true); ("syncEnabled", JBool true)]);
      ("api", JObject [("offlineMode", JBool false); ("cacheResults", JBool true)]) ].

(** A serialization that tells [undefined] from everything else and keeps
    strings apart: enough of [JSON.stringify] to run examples. *)
Definition sampleStringify (v : Json) : option string :=
  match v with
  | JUndefined => None
  | JString s => Some s
  | JArray _ => Some "[...]"
  | JObject _ => Some "{...}"
  | _ => Some "?"
  end.

End StorageManager.

(** * background/api-manager.js *)
Module ApiManager.

Inductive AuthType := AuthNone | AuthApiKey | AuthOAuth.

Record ApiServiceConfig := {
  cfg_name : string;
  cfg_authType : AuthType;
  cfg_requestsPerMinute : N;
  cfg_concurrentRequests : N;
  cfg_cacheTTL : Z
}.

(** [API_CONFIG] *)
Definition API_CONFIG : gmap string ApiServiceConfig :=
  list_to_map
    [ ("google_translate",
       {| cfg_name := "Google Translate"; cfg_authType := AuthApiKey;
          cfg_requestsPerMinute := 60; cfg_concurrentRequests := 4;
          cfg_cacheTTL := 24 * 60 * 60 * 1000 |});
      ("claude",
       {| cfg_name := "Claude by Anthropic"; cfg_authType := AuthApiKey;
          cfg_requestsPerMinute := 20; cfg_concurrentRequests := 2;
          cfg_cacheTTL := 7 * 24 * 60 * 60 * 1000 |});
      ("dictionary",
       {| cfg_name := "Dictionary API"; cfg_authType := AuthNone;
          cfg_requestsPerMinute := 30; cfg_concurrentRequests := 3;
          cfg_cacheTTL := 30 * 24 * 60 * 60 * 1000 |});
      ("exchange_rates",
       {| cfg_name := "Exchange Rates API"; cfg_authType := AuthNone;
          cfg_requestsPerMinute := 30; cfg_concurrentRequests := 2;
          cfg_cacheTTL := 60 * 60 * 1000 |});
      ("web_archive",
       {| cfg_name := "Web Archive API"; cfg_authType := AuthNone;
          cfg_requestsPerMinute := 10; cfg_concurrentRequests := 1;
          cfg_cacheTTL := 24 * 60 * 60 * 1000 |}) ].

(** [Object.keys(API_CONFIG)], in the order of the literal. *)
Definition API_IDS : list string :=
  ["google_translate"; "claude"; "dictionary"; "exchange_rates"; "web_archive"].

(** [usageStats[apiId].lastError] *)
Record LastError := {
  le_timestamp : Z;
  le_message : string;
  le_type : string
}.

(** [usageStats[apiId]] *)
Record UsageStats := {
  requestCount : Z;
  lastRequest : option Z;
  errorCount : Z;
  lastError : option LastError;
  quotaUsage : Z
}.

(** The literal both [loadUsageStats] and [recordRequestAttempt] install. *)
Definition freshStats : UsageStats :=
  {| requestCount := 0; lastRequest := None; errorCount := 0;
     lastError := None; quotaUsage := 0 |}.

Record AuthToken := { token : string; expiresAt : Z }.

(** A call [storageManager.setSetting(path, value, saveImmediately)] made by
    the manager; the settings store writes through to the browser's storage
    only when [saveImmediately] is true. *)
Record SettingWrite := {
  sw_path : string;
  sw_value : gmap string UsageStats;
  sw_saveImmediately : bool
}.

(** The fields of the [ApiManager] instance the modelled methods touch, and
    the calls of [setSetting] made so far, oldest first. *)
Record Manager := {
  usageStats : gmap string UsageStats;
  authTokens : gmap string AuthToken;
  settingWrites : list SettingWrite
}.

Definition settingsPath : string := "api".

(** An exception caught by [makeRequest]: an [ApiError] or another [Error]. *)
Inductive Thrown :=
| ThrownApiError (e : ApiUtils.ApiError)
| ThrownError (e : JsError).

Definition thrown_message (error : Thrown) : string :=
  match error with
  | ThrownApiError e => ApiUtils.message e
  | ThrownError e => err_message e
  end.

(** [error instanceof apiUtils.ApiError ? error.type : 'unknown'] *)
Definition thrown_type (error : Thrown) : string :=
  match error with
  | ThrownApiError e => ApiUtils.ERROR_TYPES (ApiUtils.type e)
  | ThrownError _ => "unknown"
  end.

(** [saveUsageStats]: one call of [setSetting], with [saveImmediately] set
    to [false]; a failure of the store is caught and logged. *)
Definition saveUsageStats (m : Manager) : Manager :=
  {| usageStats := usageStats m;
     authTokens := authTokens m;
     settingWrites :=
       settingWrites m ++
       [ {| sw_path := settingsPath +:+ ".usageStats";
            sw_value := usageStats m;
            sw_saveImmediately := false |} ] |}.

Definition set_usageStats (u : gmap string UsageStats) (m : Manager) : Manager :=
  {| usageStats := u; authTokens := authTokens m; settingWrites := settingWrites m |}.

(** [recordRequestAttempt] *)
Definition recordRequestAttempt (apiId : string) (now : Z) (m : Manager) : Manager :=
  let stats := default freshStats (usageStats m !! apiId) in
  set_usageStats
    (<[apiId :=
         {| requestCount := requestCount stats + 1;
            lastRequest := Some now;
            errorCount := errorCount stats;
            lastError := lastError stats;
            quotaUsage := quotaUsage stats |}]> (usageStats m)) m.

(** [recordRequestSuccess].  [%] is the remainder of the truncated
    division. *)
Definition recordRequestSuccess (apiId : string) (m : Manager) : Manager :=
  match usageStats m !! apiId with
  | None => m
  | Some stats =>
      let stats :=
        {| requestCount := requestCount stats;
           lastRequest := lastRequest stats;
           errorCount := errorCount stats;
           lastError := lastError stats;
           quotaUsage := quotaUsage stats + 1 |} in
      let m := set_usageStats (<[apiId := stats]> (usageStats m)) m in
      if Z.rem (requestCount stats) 10 =? 0 then saveUsageStats m else m
  end.

(** [handleApiError]: [None] is the early [return] (of [undefined]),
    [Some error] the final [throw error]. *)
Definition handleApiError (apiId : string) (error : Thrown) (now : Z) (m : Manager)
  : option Thrown * Manager :=
  match usageStats m !! apiId with
  | None => (None, m)
  | Some stats =>
      let stats :=
        {| requestCount := requestCount stats;
           lastRequest := lastRequest stats;
           errorCount := errorCount stats + 1;
           lastError := Some {| le_timestamp := now;
                                le_message := thrown_message error;
                                le_type := thrown_type error |};
           quotaUsage := quotaUsage stats |} in
      let m := set_usageStats (<[apiId := stats]> (usageStats m)) m in
      let m := saveUsageStats m in
      match error with
      | ThrownApiError e =>
          match ApiUtils.type e, cfg_authType <$> (API_CONFIG !! apiId) with
          | ApiUtils.AUTH, Some AuthOAuth =>
              (Some error,
               {| usageStats := usageStats m;
                  authTokens := delete apiId (authTokens m);
                  settingWrites := settingWrites m |})
          | ApiUtils.AUTH, None =>
              (* [API_CONFIG[apiId].authType] on an id that has no entry *)
              (Some (ThrownError
                       {| err_name := "TypeError";
                          err_message :=
                            "Cannot read properties of undefined (reading 'authType')" |}),
               m)
          | _, _ => (Some error, m)
          end
      | ThrownError _ => (Some error, m)
      end
  end.

(** [loadUsageStats], given what [getSetting('api.usageStats', {})] hands
    back: [Some stored] when it is an object ([{}] when nothing is stored),
    [None] when it is [null] or a primitive.  On an object the loop installs
    an entry for every service of [API_CONFIG] that has none.  On [null] the
    test [this.usageStats[apiId]] throws; on a primitive the test finds
    nothing and the assignment [this.usageStats[apiId] = {...}] throws (the
    file is a module, hence strict code); the [catch] then leaves
    [this.usageStats = {}]. *)
Definition loadUsageStats (stored : option (gmap string UsageStats)) (m : Manager) : Manager :=
  match stored with
  | Some stored =>
      set_usageStats
        (fold_left
           (fun stats apiId =>
              match stats !! apiId with
              | Some _ => stats
              | None => <[apiId := freshStats]> stats
              end)
           API_IDS stored) m
  | None => set_usageStats ∅ m
  end.

(** [resetUsageStats] *)
Definition resetUsageStats (apiId : string) (m : Manager) : Manager :=
  let stats :=
    if String.eqb apiId "all" then (fun _ => freshStats) <$> usageStats m
    else match usageStats m !! apiId with
         | Some _ => <[apiId := freshStats]> (usageStats m)
         | None => usageStats m
         end in
  saveUsageStats (set_usageStats stats m).

(** How the thunk [requestFn] handed to [makeRequest] ends. *)
Inductive Completion :=
| Returns (result : JsValue)
| Throws (error : Thrown).

(** How the promise of [makeRequest] settles. *)
Inductive Settled :=
| Resolved (value : JsValue)
| Rejected (error : Thrown).

(** [makeRequest] up to [await requestFn()]; [None]: the id is not in
    [API_CONFIG] and the call throws [Unknown API]. *)
Definition makeRequest_begin (apiId : string) (now : Z) (m : Manager) : option Manager :=
  match API_CONFIG !! apiId with
  | None => None
  | Some _ => Some (recordRequestAttempt apiId now m)
  end.

(** [makeRequest] from the point where the thunk has settled. *)
Definition makeRequest_end (apiId : string) (completion : Completion) (now : Z)
    (m : Manager) : Settled * Manager :=
  match completion with
  | Returns result => (Resolved result, recordRequestSuccess apiId m)
  | Throws error =>
      match handleApiError apiId error now m with
      | (Some error, m) => (Rejected error, m)
      | (None, m) => (Resolved JsUndefined, m)
      end
  end.

(** What else can run on the manager while a thunk is awaited: the two
    halves of other calls of [makeRequest], a reset, and the reload of the
    statistics done by [handleRestart] (on [background:restore]), given what
    the settings store holds then. *)
Inductive Op :=
| OpBegin (apiId : string) (now : Z)
| OpEnd (apiId : string) (completion : Completion) (now : Z)
| OpReset (apiId : string)
| OpLoad (stored : option (gmap string UsageStats)).

Definition run_op (m : Manager) (op : Op) : Manager :=
  match op with
  | OpBegin apiId now => default m (makeRequest_begin apiId now m)
  | OpEnd apiId completion now => snd (makeRequest_end apiId completion now m)
  | OpReset apiId => resetUsageStats apiId m
  | OpLoad stored => loadUsageStats stored m
  end.

(** The reload that ends in the [catch] of [loadUsageStats]. *)
Definition failedReload (op : Op) : bool :=
  match op with
  | OpLoad None => true
  | _ => false
  end.

(** What gives a service its entry in [usageStats] back once the table has
    been emptied: the first half of a call of [makeRequest] for it, and a
    reload that finds an object. *)
Definition restores (apiId : string) (op : Op) : bool :=
  match op with
  | OpBegin apiId' _ => String.eqb apiId' apiId
  | OpLoad (Some _) => true
  | _ => false
  end.

Definition unknownApi (apiId : string) : Thrown :=
  ThrownError {| err_name := "Error"; err_message := "Unknown API: " +:+ apiId |}.

(** One call [makeRequest(apiId, requestFn)]: [during] is what runs on the
    manager while the thunk is awaited, [completion] how the thunk ends. *)
Definition makeRequest (apiId : string) (now : Z) (during : list Op)
    (completion : Completion) (now' : Z) (m : Manager) : Settled * Manager :=
  match makeRequest_begin apiId now m with
  | None => (Rejected (unknownApi apiId), m)
  | Some m => makeRequest_end apiId completion now' (fold_left run_op during m)
  end.

(** The manager after [initialize] on an empty store. *)
Definition initial : Manager :=
  loadUsageStats (Some ∅) {| usageStats := ∅; authTokens := ∅; settingWrites := [] |}.

(** *** Sample inputs *)

Definition succeeds : Completion := Returns (JsObject []).
Definition fails : Completion :=
  Throws (ThrownError {| err_name := "Error"; err_message := "boom" |}).


(** *** Availability *)

(** [hasRecentErrors(apiId)]; [now] is [Date.now()]. *)
Definition hasRecentErrors (apiId : string) (now : Z) (m : Manager) : bool :=
  match usageStats m !! apiId with
  | None => false
  | Some stats =>
      match lastError stats with
      | None => false
      | Some error =>
          let fiveMinutesAgo := now - 5 * 60 * 1000 in
          (fiveMinutesAgo <? le_timestamp error) && (3 <? errorCount stats)
      end
  end.

(** *** Calls made in turn *)

(** A call [await makeRequest(apiId, requestFn)]: the clock when it is
    made, how the thunk ends, and the clock then. *)
Record Call := {
  call_apiId : string;
  call_now : Z;
  call_completion : Completion;
  call_end : Z
}.

(** Calls of [makeRequest] made one after the other, each awaited before the
    next is made. *)
Definition inTurn (calls : list Call) (m : Manager) : Manager :=
  fold_left
    (fun m call =>
       snd (makeRequest (call_apiId call) (call_now call) [] (call_completion call)
                        (call_end call) m))
    calls m.

(** The calls made to a service. *)
Definition callsTo (apiId : string) (calls : list Call) : list Call :=
  List.filter (fun call => String.eqb (call_apiId call) apiId) calls.

(** The thunk of the call throws. *)
Definition failed (call : Call) : bool :=
  match call_completion call with
  | Throws _ => true
  | Returns _ => false
  end.

(** What one awaited call does to the entry of its service: the sum of
    [recordRequestAttempt] and of [recordRequestSuccess] or [handleApiError]. *)
Definition counted (call : Call) (stats : UsageStats) : UsageStats :=
  {| requestCount := requestCount stats + 1;
     lastRequest := Some (call_now call);
     errorCount := errorCount stats + (if failed call then 1 else 0);
     lastError :=
       match call_completion call with
       | Throws error =>
           Some {| le_timestamp := call_end call; le_message := thrown_message error;
                   le_type := thrown_type error |}
       | Returns _ => lastError stats
       end;
     quotaUsage := quotaUsage stats + (if failed call then 0 else 1) |}.

(** Four failures of the dictionary service, hours apart, and a success. *)
Definition fourFailures : list Call :=
  [ {| call_apiId := "dictionary"; call_now := 0; call_completion := fails;
       call_end := 10 |};
    {| call_apiId := "dictionary"; call_now := 3600000; call_completion := fails;
       call_end := 3600010 |};
    {| call_apiId := "claude"; call_now := 3700000; call_completion := succeeds;
       call_end := 3700010 |};
    {| call_apiId := "dictionary"; call_now := 7200000; call_completion := fails;
       call_end := 7200010 |};
    {| call_apiId := "dictionary"; call_now := 10800000; call_completion := fails;
       call_end := 10800010 |} ].

(** *** API keys *)

(** [`${this.settingsPath}.apiKeys`] *)
Definition keysPath : string := "api.apiKeys".

(** [validateApiKey(apiId, apiKey)]; the length is that of the string in
    code units. *)
Definition validateApiKey (apiId : string) (apiKey : StorageManager.Json) : bool :=
  match apiKey with
  | StorageManager.JString s =>
      let length := Z.of_nat (String.length s) in
      if String.eqb s "" then false
      else if String.eqb apiId "google_translate" then (20 <=? length) && (length <=? 50)
      else if String.eqb apiId "claude" then String.prefix "sk-ant-" s && (20 <? length)
      else 5 <? length
  | _ => false
  end.

(** The three places that hold API keys: [this.apiKeys], the [_apiKeys] of
    [apiUtils.request], and the settings of the storage manager. *)
Record Keys := {
  apiKeys : gmap string StorageManager.Json;
  requestKeys : gmap string StorageManager.Json;
  keySettings : StorageManager.Json
}.

(** [hasApiKey(apiId)] *)
Definition hasApiKey (apiId : string) (k : Keys) : bool :=
  StorageManager.truthy (default StorageManager.JUndefined (apiKeys k !! apiId)).

(** [apiUtils.request.getApiKey(apiId)] *)
Definition getApiKey (apiId : string) (k : Keys) : StorageManager.Json :=
  let apiKey := default StorageManager.JUndefined (requestKeys k !! apiId) in
  if StorageManager.truthy apiKey then apiKey else StorageManager.JNull.

(** What a call of [setApiKey] or [removeApiKey] does: what it returns
    ([None] where the model does not follow the code: keys kept in an
    array or a string, or settings that lead beyond the JSON data), whether
    it warned about the format of the key, the keys afterwards and what the
    storage manager did. *)
Record KeyResult := {
  returned : option bool;
  warned : bool;
  keys : Keys;
  effects : list StorageManager.Effect
}.

Section KeyStore.

Variable JSON_stringify : StorageManager.Json -> option string.

(** Whether the writes to the browser's storage succeed. *)
Variable saveWorks : bool.

Variable listeners : StorageManager.Listeners.

(** [await storageManager.setSetting(path, apiKeys); return true], inside
    the [try] whose [catch] returns [false]. *)
Definition saved (warned : bool) (k : Keys) (r : StorageManager.Outcome) : KeyResult :=
  match r with
  | StorageManager.Ended completion stored effects =>
      {| returned :=
           match completion with
           | StorageManager.Returned => Some true
           | StorageManager.SaveFailed | StorageManager.ThrewTypeError
           | StorageManager.ThrewRangeError => Some false
           end;
         warned := warned;
         keys := {| apiKeys := apiKeys k; requestKeys := requestKeys k;
                    keySettings := stored |};
         effects := effects |}
  | StorageManager.Beyond =>
      {| returned := None; warned := warned; keys := k; effects := [] |}
  end.

(** [setApiKey(apiId, apiKey)] *)
Definition setApiKey (apiId : string) (apiKey : StorageManager.Json) (k : Keys) : KeyResult :=
  match API_CONFIG !! apiId with
  | None => {| returned := Some false; warned := false; keys := k; effects := [] |}
  | Some _ =>
      let warned := negb (validateApiKey apiId apiKey) in
      let k :=
        {| apiKeys := <[apiId := apiKey]> (apiKeys k);
           requestKeys := <[apiId := apiKey]> (requestKeys k);
           keySettings := keySettings k |} in
      match StorageManager.found
              (StorageManager.walk (StorageManager.split keysPath) (keySettings k)) with
      | Some (StorageManager.JObject fields) =>
          (* the stored object itself: the assignment changes the settings *)
          let value := StorageManager.JObject (StorageManager.set_field apiId apiKey fields) in
          saved warned k
            (StorageManager.setSetting JSON_stringify keysPath value true saveWorks listeners
               (StorageManager.changed_in_place keysPath value (keySettings k)))
      | Some StorageManager.JUndefined =>
          (* the default [{}], a new object *)
          let value := StorageManager.JObject [(apiId, apiKey)] in
          saved warned k
            (StorageManager.setSetting JSON_stringify keysPath value true saveWorks listeners
               (keySettings k))
      | Some (StorageManager.JArray _) | None =>
          {| returned := None; warned := warned; keys := k; effects := [] |}
      | Some _ =>
          (* a property assigned on [null] or on a primitive: a [TypeError], caught *)
          {| returned := Some false; warned := warned; keys := k; effects := [] |}
      end
  end.

(** [removeApiKey(apiId)] *)
Definition removeApiKey (apiId : string) (k : Keys) : KeyResult :=
  let k :=
    {| apiKeys := delete apiId (apiKeys k);
       requestKeys := <[apiId := StorageManager.JNull]> (requestKeys k);
       keySettings := keySettings k |} in
  match StorageManager.found
          (StorageManager.walk (StorageManager.split keysPath) (keySettings k)) with
  | Some (StorageManager.JObject fields) =>
      let value := StorageManager.JObject (StorageManager.delete_field apiId fields) in
      saved false k
        (StorageManager.setSetting JSON_stringify keysPath value true saveWorks listeners
           (StorageManager.changed_in_place keysPath value (keySettings k)))
  | Some StorageManager.JUndefined =>
      saved false k
        (StorageManager.setSetting JSON_stringify keysPath (StorageManager.JObject []) true
           saveWorks listeners (keySettings k))
  | Some StorageManager.JNull =>
      {| returned := Some false; warned := false; keys := k; effects := [] |}
  | Some (StorageManager.JBool b) =>
      (* [delete] of a property a primitive does not have: nothing happens,
         and [setSetting] is handed the value it holds *)
      saved false k
        (StorageManager.setSetting JSON_stringify keysPath (StorageManager.JBool b)
           true saveWorks listeners (keySettings k))
  | Some (StorageManager.JNumber n) =>
      saved false k
        (StorageManager.setSetting JSON_stringify keysPath (StorageManager.JNumber n)
           true saveWorks listeners (keySettings k))
  | Some (StorageManager.JString _) | Some (StorageManager.JArray _) | None =>
      {| returned := None; warned := false; keys := k; effects := [] |}
  end.

End KeyStore.

(** The manager of a fresh profile: no key anywhere, the default settings. *)
Definition noKeys : Keys :=
  {| apiKeys := ∅; requestKeys := ∅; keySettings := StorageManager.defaultSettings |}.

End ApiManager.

(** * background/feature-manager.js *)
Module FeatureManager.

(** A registered feature.  The array properties are optional in the source;
    every test made on them ([x && x.length > 0], [x && x.includes(id)])
    treats a missing array like an empty one, so a missing array is [[]]
    here.  Of a hook only its presence is part of the definition
    ([typeof definition.onActivate === 'function']); what a call of the hook
    does is an input of the model. *)
Record FeatureDefinition := {
  id : string;
  name : string;
  category : string;
  permissions : list string;
  optionalPermissions : list string;
  hostPermissions : list string;
  dependencies : list string;
  conflicts : list string;
  onActivate : bool;
  onDeactivate : bool;
  defaultEnabled : bool;
  defaultSettings : option JsValue
}.

(** A feature instance; [ref] stands for the identity of the object. *)
Record FeatureInstance := {
  ref : nat;
  inst_id : string;
  definition : FeatureDefinition;
  active : bool;
  settings : JsValue
}.

(** How a promise returned by [activateFeature] settles.  Every rejection in
    this module is an [Error]; it is represented by its message. *)
Inductive Outcome :=
| Resolved (instance : FeatureInstance)
| Rejected (message : string).

(** What the manager does to its collaborators, in order. *)
Inductive LogEvent :=
| OnActivateCalled (featureId : string)     (* definition.onActivate(instance) *)
| OnDeactivateCalled (featureId : string)   (* definition.onDeactivate(instance) *)
| FeatureActivated (featureId : string)     (* activeFeatures.set + feature:activated *)
| FeatureDeactivated (featureId : string)   (* activeFeatures.delete + feature:deactivated *)
| ErrorLogged (message : string).           (* console.error in a catch that goes on *)

Inductive PermissionStep := Required | Optional | Host.

(** Where the one running [processActivationQueue] is suspended.  The frames
    but the first and the last are the [await]s of [_activateFeature]; they
    carry the local variables that are live across the await. *)
Inductive Worker :=
| Idle
  (* await this.activateFeature(dependencyId); [rest]: dependencies not yet visited *)
| AwaitDependency (featureId : string) (def : FeatureDefinition)
                  (dependencyId : string) (p : nat) (rest : list string)
  (* await chrome.permissions.contains(...) *)
| AwaitContains (featureId : string) (def : FeatureDefinition) (step : PermissionStep)
  (* await chrome.permissions.request(...) *)
| AwaitRequest (featureId : string) (def : FeatureDefinition) (host : bool)
  (* await featureDefinition.onActivate(featureInstance) *)
| AwaitOnActivate (featureId : string) (def : FeatureDefinition) (inst : FeatureInstance)
  (* await this._activateFeature(featureId), the callee having finished *)
| AwaitActivation (featureId : string) (result : string + FeatureInstance).

(** The module-level maps, the fields of the singleton, the promises handed
    out by [activateFeature] that have settled, and the log. *)
Record State := {
  featureRegistry : gmap string FeatureDefinition;
  activeFeatures : list (string * FeatureInstance);
  pendingActivations : gmap string (list nat);
  activationQueue : list string;
  processingQueue : bool;
  worker : Worker;
  settled : gmap nat Outcome;
  nextPromise : nat;
  nextRef : nat;
  featureSettings : gmap string JsValue;
  log : list LogEvent
}.

(** *** [Map] operations on [activeFeatures] *)

Fixpoint map_get (k : string) (m : list (string * FeatureInstance)) : option FeatureInstance :=
  match m with
  | [] => None
  | (k', v) :: rest => if String.eqb k' k then Some v else map_get k rest
  end.

Definition map_has (k : string) (m : list (string * FeatureInstance)) : bool :=
  match map_get k m with Some _ => true | None => false end.

(** [m.set(k, v)]: a present key keeps its place. *)
Fixpoint map_set (k : string) (v : FeatureInstance) (m : list (string * FeatureInstance))
  : list (string * FeatureInstance) :=
  match m with
  | [] => [(k, v)]
  | (k', v') :: rest =>
      if String.eqb k' k then (k', v) :: rest else (k', v') :: map_set k v rest
  end.

(** [m.delete(k)]: a [Map] holds one entry for [k] at most. *)
Fixpoint map_delete (k : string) (m : list (string * FeatureInstance))
  : list (string * FeatureInstance) :=
  match m with
  | [] => []
  | (k', v') :: rest =>
      if String.eqb k' k then map_delete k rest else (k', v') :: map_delete k rest
  end.

(** *** Field updates *)

Definition with_worker (w : Worker) (st : State) : State :=
  {| featureRegistry := featureRegistry st; activeFeatures := activeFeatures st;
     pendingActivations := pendingActivations st; activationQueue := activationQueue st;
     processingQueue := processingQueue st; worker := w; settled := settled st;
     nextPromise := nextPromise st; nextRef := nextRef st;
     featureSettings := featureSettings st; log := log st |}.

Definition with_queue (q : list string) (st : State) : State :=
  {| featureRegistry := featureRegistry st; activeFeatures := activeFeatures st;
     pendingActivations := pendingActivations st; activationQueue := q;
     processingQueue := processingQueue st; worker := worker st; settled := settled st;
     nextPromise := nextPromise st; nextRef := nextRef st;
     featureSettings := featureSettings st; log := log st |}.

Definition with_processing (b : bool) (st : State) : State :=
  {| featureRegistry := featureRegistry st; activeFeatures := activeFeatures st;
     pendingActivations := pendingActivations st; activationQueue := activationQueue st;
     processingQueue := b; worker := worker st; settled := settled st;
     nextPromise := nextPromise st; nextRef := nextRef st;
     featureSettings := featureSettings st; log := log st |}.

Definition with_pending (pa : gmap string (list nat)) (st : State) : State :=
  {| featureRegistry := featureRegistry st; activeFeatures := activeFeatures st;
     pendingActivations := pa; activationQueue := activationQueue st;
     processingQueue := processingQueue st; worker := worker st; settled := settled st;
     nextPromise := nextPromise st; nextRef := nextRef st;
     featureSettings := featureSettings st; log := log st |}.

Definition with_active (a : list (string * FeatureInstance)) (st : State) : State :=
  {| featureRegistry := featureRegistry st; activeFeatures := a;
     pendingActivations := pendingActivations st; activationQueue := activationQueue st;
     processingQueue := processingQueue st; worker := worker st; settled := settled st;
     nextPromise := nextPromise st; nextRef := nextRef st;
     featureSettings := featureSettings st; log := log st |}.

Definition with_nextRef (n : nat) (st : State) : State :=
  {| featureRegistry := featureRegistry st; activeFeatures := activeFeatures st;
     pendingActivations := pendingActivations st; activationQueue := activationQueue st;
     processingQueue := processingQueue st; worker := worker st; settled := settled st;
     nextPromise := nextPromise st; nextRef := n;
     featureSettings := featureSettings st; log := log st |}.

Definition logged (ev : LogEvent) (st : State) : State :=
  {| featureRegistry := featureRegistry st; activeFeatures := activeFeatures st;
     pendingActivations := pendingActivations st; activationQueue := activationQueue st;
     processingQueue := processingQueue st; worker := worker st; settled := settled st;
     nextPromise := nextPromise st; nextRef := nextRef st;
     featureSettings := featureSettings st; log := log st ++ [ev] |}.

(** [resolve] or [reject] of the promise [p]; on a promise that has settled
    they do nothing. *)
Definition settle (o : Outcome) (st : State) (p : nat) : State :=
  if decide (is_Some (settled st !! p)) then st else
  {| featureRegistry := featureRegistry st; activeFeatures := activeFeatures st;
     pendingActivations := pendingActivations st; activationQueue := activationQueue st;
     processingQueue := processingQueue st; worker := worker st;
     settled := <[p := o]> (settled st);
     nextPromise := nextPromise st; nextRef := nextRef st;
     featureSettings := featureSettings st; log := log st |}.

(** [new Promise(...)]: the next unused name. *)
Definition new_promise (st : State) : nat * State :=
  (nextPromise st,
   {| featureRegistry := featureRegistry st; activeFeatures := activeFeatures st;
      pendingActivations := pendingActivations st; activationQueue := activationQueue st;
      processingQueue := processingQueue st; worker := worker st; settled := settled st;
      nextPromise := S (nextPromise st); nextRef := nextRef st;
      featureSettings := featureSettings st; log := log st |}).

(** *** Error messages *)

Definition dq : string := String (Ascii.ascii_of_nat 34) EmptyString.
Definition quoted (s : string) : string := dq +:+ s +:+ dq.

Definition msg_not_found (featureId : string) : string :=
  "Feature with ID " +:+ quoted featureId +:+ " not found".
Definition msg_dependency_not_found (dependencyId featureId : string) : string :=
  "Dependency " +:+ quoted dependencyId +:+ " not found for feature " +:+ quoted featureId.
Definition msg_dependency_failed (dependencyId featureId message : string) : string :=
  "Failed to activate dependency " +:+ quoted dependencyId +:+ " for feature "
    +:+ quoted featureId +:+ ": " +:+ message.
Definition msg_conflict (featureId conflictId : string) : string :=
  "Feature " +:+ quoted featureId +:+ " conflicts with active feature " +:+ quoted conflictId.
Definition msg_requires (featureId : string) (perms : list string) : string :=
  "Feature " +:+ quoted featureId +:+ " requires permissions: " +:+ String.concat ", " perms.
Definition msg_denied_optional (featureId : string) : string :=
  "User denied optional permissions for feature " +:+ quoted featureId.
Definition msg_denied_host (featureId : string) : string :=
  "User denied host permissions for feature " +:+ quoted featureId.
Definition msg_initialize (featureId message : string) : string :=
  "Failed to initialize feature " +:+ quoted featureId +:+ ": " +:+ message.
Definition msg_no_definition : string :=
  "Cannot read properties of undefined (reading 'dependencies')".

(** *** [activateFeature], without the start of the worker *)

(** The body of [activateFeature] up to [this.activationQueue.push]: the
    promise handed back, whether the push was reached, and the state.  What
    is left of the body after the push is
    [if (!this.processingQueue) this.processActivationQueue()]. *)
Definition requestActivation (featureId : string) (st : State) : nat * bool * State :=
  let '(p, st) := new_promise st in
  match featureRegistry st !! featureId with
  | None => (p, false, settle (Rejected (msg_not_found featureId)) st p)
  | Some _ =>
      match map_get featureId (activeFeatures st) with
      | Some instance => (p, false, settle (Resolved instance) st p)
      | None =>
          match pendingActivations st !! featureId with
          | Some promises =>
              (p, false,
               with_pending (<[featureId := promises ++ [p]]> (pendingActivations st)) st)
          | None =>
              let st := with_pending (<[featureId := [p]]> (pendingActivations st)) st in
              (p, true, with_queue (activationQueue st ++ [featureId]) st)
          end
      end
  end.

(** *** [_activateFeature], cut at its awaits *)

(** The [return] or [throw] of [_activateFeature]: its promise settles, and
    the worker, which awaits it, is to be resumed. *)
Definition finish (featureId : string) (result : string + FeatureInstance) (st : State)
  : State :=
  with_worker (AwaitActivation featureId result) st.

(** From [activeFeatures.set] to the [return]. *)
Definition activation_done (featureId : string) (inst : FeatureInstance) (st : State)
  : State :=
  let st := with_active (map_set featureId inst (activeFeatures st)) st in
  finish featureId (inr inst) (logged (FeatureActivated featureId) st).

(** The object literal [featureInstance]: a new object, with the settings
    [storageManager.getSetting] returns for the feature (the stored ones, or
    else [featureDefinition.defaultSettings || {}]). *)
Definition new_instance (featureId : string) (def : FeatureDefinition) (st : State)
  : FeatureInstance :=
  {| ref := nextRef st; inst_id := featureId; definition := def; active := true;
     settings :=
       default (default (JsObject []) (defaultSettings def))
               (featureSettings st !! featureId) |}.

(** From [storageManager.getSetting] to the call of the hook. *)
Definition stage_hook (featureId : string) (def : FeatureDefinition) (st : State) : State :=
  let inst := new_instance featureId def st in
  let st := with_nextRef (S (nextRef st)) st in
  if onActivate def
  then with_worker (AwaitOnActivate featureId def inst) (logged (OnActivateCalled featureId) st)
  else activation_done featureId inst st.

Definition nonempty (l : list string) : bool :=
  match l with [] => false | _ :: _ => true end.

Definition stage_host (featureId : string) (def : FeatureDefinition) (st : State) : State :=
  if nonempty (hostPermissions def)
  then with_worker (AwaitContains featureId def Host) st
  else stage_hook featureId def st.

Definition stage_optional (featureId : string) (def : FeatureDefinition) (st : State) : State :=
  if nonempty (optionalPermissions def)
  then with_worker (AwaitContains featureId def Optional) st
  else stage_host featureId def st.

Definition stage_required (featureId : string) (def : FeatureDefinition) (st : State) : State :=
  if nonempty (permissions def)
  then with_worker (AwaitContains featureId def Required) st
  else stage_optional featureId def st.

(** The loop over [featureDefinition.conflicts]. *)
Definition stage_conflicts (featureId : string) (def : FeatureDefinition) (st : State) : State :=
  match List.find (fun conflictId => map_has conflictId (activeFeatures st)) (conflicts def) with
  | Some conflictId => finish featureId (inl (msg_conflict featureId conflictId)) st
  | None => stage_required featureId def st
  end.

(** The loop over [featureDefinition.dependencies], entered at the
    dependencies [deps] still to visit.  [_activateFeature] runs only inside
    [processActivationQueue], which holds [processingQueue] from its first
    statement to its [finally]; the call of [activateFeature] made here
    therefore ends after queueing ([requestActivation]) without starting a
    second worker (see [worker_holds_flag] below). *)
Fixpoint stage_dependencies (featureId : string) (def : FeatureDefinition)
    (deps : list string) (st : State) : State :=
  match deps with
  | [] => stage_conflicts featureId def st
  | dependencyId :: rest =>
      match featureRegistry st !! dependencyId with
      | None => finish featureId (inl (msg_dependency_not_found dependencyId featureId)) st
      | Some _ =>
          if map_has dependencyId (activeFeatures st)
          then stage_dependencies featureId def rest st
          else
            let '(p, _, st) := requestActivation dependencyId st in
            with_worker (AwaitDependency featureId def dependencyId p rest) st
      end
  end.

(** [_activateFeature(featureId)] from its first statement to its first
    await (or to its end). *)
Definition _activateFeature (featureId : string) (st : State) : State :=
  match featureRegistry st !! featureId with
  | None => finish featureId (inl msg_no_definition) st
  | Some def => stage_dependencies featureId def (dependencies def) st
  end.

(** *** [processActivationQueue] *)

(** The [while] loop, entered with the queue [q]: entries that are no longer
    pending are skipped; the first pending one is started and the worker
    stays suspended on it; on an empty queue the [finally] releases the flag. *)
Fixpoint processLoop (q : list string) (st : State) : State :=
  match q with
  | [] => with_worker Idle (with_processing false (with_queue [] st))
  | featureId :: rest =>
      let st := with_queue rest st in
      match pendingActivations st !! featureId with
      | None => processLoop rest st
      | Some _ => _activateFeature featureId st
      end
  end.

Definition processActivationQueue (st : State) : State :=
  if processingQueue st then st
  else processLoop (activationQueue st) (with_processing true st).

(** [activateFeature(featureId)]: the promise it returns and the state when
    the call returns. *)
Definition activateFeature (featureId : string) (st : State) : nat * State :=
  let '(p, queued, st) := requestActivation featureId st in
  if queued then (p, processActivationQueue st) else (p, st).

(** *** Resuming the worker *)

(** What the permission broker answers; [Failed]: the call rejects. *)
Inductive PermissionAnswer := Granted | Refused | Failed (message : string).

(** What the awaited hook does: it returns (or its promise resolves), or it
    throws (or its promise rejects). *)
Inductive HookResult := HookReturns | HookThrows (message : string).

Definition after_contains (featureId : string) (def : FeatureDefinition)
    (step : PermissionStep) (answer : PermissionAnswer) (st : State) : State :=
  match answer, step with
  | Failed message, _ => finish featureId (inl message) st
  | Granted, Required => stage_optional featureId def st
  | Refused, Required =>
      finish featureId (inl (msg_requires featureId (permissions def))) st
  | Granted, Optional => stage_host featureId def st
  | Granted, Host => stage_hook featureId def st
  | Refused, Optional => with_worker (AwaitRequest featureId def false) st
  | Refused, Host => with_worker (AwaitRequest featureId def true) st
  end.

Definition after_request (featureId : string) (def : FeatureDefinition)
    (host : bool) (answer : PermissionAnswer) (st : State) : State :=
  match answer, host with
  | Failed message, _ => finish featureId (inl message) st
  | Granted, true => stage_hook featureId def st
  | Granted, false => stage_host featureId def st
  | Refused, true => finish featureId (inl (msg_denied_host featureId)) st
  | Refused, false => finish featureId (inl (msg_denied_optional featureId)) st
  end.

(** The worker after [await this._activateFeature(featureId)]: every promise
    recorded for the feature is settled with the result, the entry is
    deleted, and the loop goes on. *)
Definition after_activation (featureId : string) (result : string + FeatureInstance)
    (st : State) : State :=
  let promises := default [] (pendingActivations st !! featureId) in
  let st := with_pending (delete featureId (pendingActivations st)) st in
  let outcome :=
    match result with
    | inr feature => Resolved feature
    | inl message => Rejected message
    end in
  let st := fold_left (settle outcome) promises st in
  processLoop (activationQueue st) st.

(** *** The event loop *)

(** What can happen next: a caller calls [activateFeature]; a microtask
    resumes the worker on a settled promise; the permission broker or the
    activation hook answers the worker; a [deactivateFeature] running
    elsewhere reaches its [activeFeatures.delete]. *)
Inductive Event :=
| Activate (featureId : string)
| Tick
| PermissionAnswered (answer : PermissionAnswer)
| HookSettled (result : HookResult)
| ActiveDeleted (featureId : string).

Definition step (st : State) (ev : Event) : State :=
  match ev, worker st with
  | Activate featureId, _ => snd (activateFeature featureId st)
  | ActiveDeleted featureId, _ =>
      logged (FeatureDeactivated featureId)
             (with_active (map_delete featureId (activeFeatures st)) st)
  | Tick, AwaitActivation featureId result => after_activation featureId result st
  | Tick, AwaitDependency featureId def dependencyId p rest =>
      match settled st !! p with
      | Some (Resolved _) => stage_dependencies featureId def rest st
      | Some (Rejected message) =>
          finish featureId (inl (msg_dependency_failed dependencyId featureId message)) st
      | None => st
      end
  | PermissionAnswered answer, AwaitContains featureId def what =>
      after_contains featureId def what answer st
  | PermissionAnswered answer, AwaitRequest featureId def host =>
      after_request featureId def host answer st
  | HookSettled HookReturns, AwaitOnActivate featureId def inst =>
      activation_done featureId inst st
  | HookSettled (HookThrows message), AwaitOnActivate featureId def inst =>
      finish featureId (inl (msg_initialize featureId message)) st
  | _, _ => st
  end.

Definition run (st : State) (evs : list Event) : State := fold_left step evs st.

(** The manager after [registerFeature] has been called on each definition
    of [defs] (a definition without id, name or category, or with an id
    already taken, is refused). *)
Definition registered (defs : list FeatureDefinition) : gmap string FeatureDefinition :=
  fold_left
    (fun reg def =>
       if String.eqb (id def) "" || String.eqb (name def) "" || String.eqb (category def) ""
       then reg
       else match reg !! id def with
            | Some _ => reg
            | None => <[id def := def]> reg
            end)
    defs ∅.

Definition initial (defs : list FeatureDefinition) : State :=
  {| featureRegistry := registered defs; activeFeatures := [];
     pendingActivations := ∅; activationQueue := [];
     processingQueue := false; worker := Idle; settled := ∅;
     nextPromise := 0; nextRef := 0; featureSettings := ∅; log := [] |}.

(** *** Well-formed states *)

(** The feature the worker is busy with. *)
Definition worker_feature (w : Worker) : option string :=
  match w with
  | Idle => None
  | AwaitDependency featureId _ _ _ _
  | AwaitContains featureId _ _
  | AwaitRequest featureId _ _
  | AwaitOnActivate featureId _ _
  | AwaitActivation featureId _ => Some featureId
  end.

(** What holds of the state whenever the event loop is between two events:
    promises are named in the order they are made; the promises recorded in
    [pendingActivations] have not settled, and none is recorded for two
    features; [processingQueue] is set exactly
    while the worker is busy; a feature has an entry in [pendingActivations]
    exactly while it waits in the queue (once) or is the one the worker is
    busy with; such a feature is not active, unless the worker is about to
    hand its instance over; and the promise a worker awaits for a dependency
    is recorded in the entry of that dependency. *)
Record wf (st : State) : Prop := {
  wf_settled_old :
    forall p o, settled st !! p = Some o -> (p < nextPromise st)%nat;
  wf_pending_open :
    forall featureId promises p,
      pendingActivations st !! featureId = Some promises -> p ∈ promises ->
      (p < nextPromise st)%nat /\ settled st !! p = None;
  wf_pending_disjoint :
    forall featureId featureId' promises promises' p,
      pendingActivations st !! featureId = Some promises ->
      pendingActivations st !! featureId' = Some promises' ->
      p ∈ promises -> p ∈ promises' -> featureId = featureId';
  wf_flag :
    processingQueue st = false <-> worker st = Idle;
  wf_idle_queue :
    worker st = Idle -> activationQueue st = [];
  wf_queue_nodup :
    NoDup (activationQueue st);
  wf_queue_pending :
    forall featureId, featureId ∈ activationQueue st ->
      is_Some (pendingActivations st !! featureId);
  wf_worker_pending :
    forall featureId, worker_feature (worker st) = Some featureId ->
      is_Some (pendingActivations st !! featureId) /\ featureId ∉ activationQueue st;
  wf_pending_somewhere :
    forall featureId, is_Some (pendingActivations st !! featureId) ->
      featureId ∈ activationQueue st \/ worker_feature (worker st) = Some featureId;
  wf_pending_inactive :
    forall featureId inst,
      is_Some (pendingActivations st !! featureId) ->
      map_get featureId (activeFeatures st) = Some inst ->
      worker st = AwaitActivation featureId (inr inst);
  wf_dependency_recorded :
    forall featureId def dependencyId p rest,
      worker st = AwaitDependency featureId def dependencyId p rest ->
      exists promises,
        pendingActivations st !! dependencyId = Some promises /\ p ∈ promises
}.

(** The number of calls of the activation hook of [featureId] in a log. *)
Definition hookCalls (featureId : string) (l : list LogEvent) : nat :=
  length (List.filter
            (fun ev => match ev with
                       | OnActivateCalled f => String.eqb f featureId
                       | _ => false
                       end) l).

(** *** [deactivateFeature] *)

(** The loop [for (const [activeId, instance] of activeFeatures.entries())]
    of [deactivateFeature(featureId)], at the entries still to visit; [rec]
    is the recursive call.  A [Map] iterator is live: an entry deleted since
    the loop began is not visited. *)
Fixpoint deactivateDependents (rec : string -> State -> option (bool * State))
    (featureId : string) (entries : list string) (st : State) : option State :=
  match entries with
  | [] => Some st
  | activeId :: more =>
      match map_get activeId (activeFeatures st) with
      | None => deactivateDependents rec featureId more st
      | Some instance =>
          if String.eqb activeId featureId
          then deactivateDependents rec featureId more st
          else if existsb (String.eqb featureId) (dependencies (definition instance))
          then match rec activeId st with
               | Some (_, st) => deactivateDependents rec featureId more st
               | None => None
               end
          else deactivateDependents rec featureId more st
      end
  end.

(** [deactivateFeature(featureId)], one call run to its end with no other
    call of the manager interleaved at its awaits.  [hook id] is what the
    call of the [onDeactivate] of [id] does.  [fuel] bounds the depth of the
    recursion ([None]: not enough of it). *)
Fixpoint deactivateFeature (hook : string -> HookResult) (fuel : nat)
    (featureId : string) (st : State) : option (bool * State) :=
  match fuel with
  | O => None
  | S fuel =>
      match map_get featureId (activeFeatures st) with
      | None => Some (false, st)
      | Some featureInstance =>
          match deactivateDependents (deactivateFeature hook fuel) featureId
                  (List.map fst (activeFeatures st)) st with
          | None => None
          | Some st =>
              let st :=
                if onDeactivate (definition featureInstance) then
                  let st := logged (OnDeactivateCalled featureId) st in
                  match hook featureId with
                  | HookReturns => st
                  | HookThrows message => logged (ErrorLogged message) st
                  end
                else st in
              let st := with_active (map_delete featureId (activeFeatures st)) st in
              Some (true, logged (FeatureDeactivated featureId) st)
          end
      end
  end.

(** *** The shape of a run of the worker *)

(** The promises recorded for [featureId] are settled with [result] and the
    entry is deleted: the first half of [after_activation]. *)
Definition delivered (featureId : string) (result : string + FeatureInstance) (st : State)
  : State :=
  fold_left
    (settle match result with
            | inr feature => Resolved feature
            | inl message => Rejected message
            end)
    (default [] (pendingActivations st !! featureId))
    (with_pending (delete featureId (pendingActivations st)) st).

(** What a stretch of [_activateFeature(featureId)], from its start or from an
    await to the next await or to its end, makes of the state [st]: the worker
    waits for the permission broker; or the activation throws; or the hook has
    been called and is awaited; or the feature has been made active; or the
    activation of a dependency has been requested and is awaited. *)
Inductive Progress (featureId : string) (st : State) : State -> Prop :=
| ProgressContains def step :
    Progress featureId st (with_worker (AwaitContains featureId def step) st)
| ProgressRequest def host :
    Progress featureId st (with_worker (AwaitRequest featureId def host) st)
| ProgressThrows message :
    Progress featureId st (finish featureId (inl message) st)
| ProgressHook def :
    Progress featureId st
      (with_worker (AwaitOnActivate featureId def (new_instance featureId def st))
         (logged (OnActivateCalled featureId) (with_nextRef (S (nextRef st)) st)))
| ProgressActivated inst n :
    Progress featureId st (activation_done featureId inst (with_nextRef n st))
| ProgressDependency def dependencyId rest p queued st1 :
    is_Some (featureRegistry st !! dependencyId) ->
    map_get dependencyId (activeFeatures st) = None ->
    requestActivation dependencyId st = (p, queued, st1) ->
    Progress featureId st (with_worker (AwaitDependency featureId def dependencyId p rest) st1).

(** The worker waits for the permission broker. *)
Definition waits_for_permission (w : Worker) : Prop :=
  match w with
  | AwaitContains _ _ _ | AwaitRequest _ _ _ => True
  | _ => False
  end.

(** The state is well formed once the worker is taken to be inside
    [_activateFeature(featureId)]: the condition under which a stretch of
    that function starts. *)
Definition parked (featureId : string) (st : State) : Prop :=
  wf (with_worker (AwaitActivation featureId (inl "")) st).

(** What one event makes of a well-formed state. *)
Inductive Transition (st : State) : State -> Prop :=
| TransitionNone :
    Transition st st
| TransitionRequest featureId p queued st1 :
    requestActivation featureId st = (p, queued, st1) ->
    worker st <> Idle \/ queued = false ->
    Transition st st1
| TransitionStart featureId p st1 st' :
    worker st = Idle ->
    requestActivation featureId st = (p, true, st1) ->
    Progress featureId (with_queue [] (with_processing true st1)) st' ->
    Transition st st'
| TransitionDeleted featureId :
    Transition st (logged (FeatureDeactivated featureId)
                     (with_active (map_delete featureId (activeFeatures st)) st))
| TransitionAnswered featureId st' :
    worker_feature (worker st) = Some featureId ->
    waits_for_permission (worker st) ->
    Progress featureId st st' ->
    Transition st st'
| TransitionHookReturned featureId def inst :
    worker st = AwaitOnActivate featureId def inst ->
    Transition st (activation_done featureId inst st)
| TransitionHookThrew featureId def inst message :
    worker st = AwaitOnActivate featureId def inst ->
    Transition st (finish featureId (inl (msg_initialize featureId message)) st)
| TransitionDeliverLast featureId result :
    worker st = AwaitActivation featureId result ->
    activationQueue st = [] ->
    Transition st (with_worker Idle (with_processing false
                     (with_queue [] (delivered featureId result st))))
| TransitionDeliverNext featureId result next rest st' :
    worker st = AwaitActivation featureId result ->
    activationQueue st = next :: rest ->
    Progress next (with_queue rest (delivered featureId result st)) st' ->
    Transition st st'.

(** The state in which [_activateFeature(featureId)] is entered when
    [activateFeature(featureId)] is called on an idle manager: the promise
    has been made and recorded, the flag is held, the identifier has been
    pushed on the queue and shifted from it. *)
Definition entered (featureId : string) (st : State) : State :=
  with_queue []
    (with_processing true
       (with_pending (<[featureId := [nextPromise st]]> (pendingActivations st))
          (snd (new_promise st)))).

(** The four ways a call of [requestActivation] ends. *)
Inductive Requested (featureId : string) (st : State) (p : nat) : bool -> State -> Prop :=
| RequestedUnknown :
    featureRegistry st !! featureId = None ->
    Requested featureId st p false
      (settle (Rejected (msg_not_found featureId)) (snd (new_promise st)) p)
| RequestedActive def instance :
    featureRegistry st !! featureId = Some def ->
    map_get featureId (activeFeatures st) = Some instance ->
    Requested featureId st p false (settle (Resolved instance) (snd (new_promise st)) p)
| RequestedJoined def promises :
    featureRegistry st !! featureId = Some def ->
    map_get featureId (activeFeatures st) = None ->
    pendingActivations st !! featureId = Some promises ->
    Requested featureId st p false
      (with_pending (<[featureId := promises ++ [p]]> (pendingActivations st))
         (snd (new_promise st)))
| RequestedQueued def :
    featureRegistry st !! featureId = Some def ->
    map_get featureId (activeFeatures st) = None ->
    pendingActivations st !! featureId = None ->
    Requested featureId st p true
      (with_queue (activationQueue st ++ [featureId])
         (with_pending (<[featureId := [p]]> (pendingActivations st)) (snd (new_promise st)))).


(** [pa'] records at least the promises [pa] records. *)
Definition extends (pa pa' : gmap string (list nat)) : Prop :=
  forall id ps, pa !! id = Some ps ->
    exists ps', pa' !! id = Some ps' /\ forall q, q ∈ ps -> q ∈ ps'.


(** The calls of the activation hook of [x] that a worker frame accounts
    for: the one that is being awaited. *)
Definition hook_awaited (x : string) (w : Worker) : nat :=
  match w with
  | AwaitOnActivate f _ _ => if String.eqb f x then 1 else 0
  | _ => 0
  end.


(** *** Two callers of [activateFeature] *)

(** The callers that hold the promises [p1] and [p2] for the feature are
    tied: while [p1] is open both promises are recorded in the entry of the
    feature, or else [p2] has been resolved with the instance the worker is
    about to hand to [p1]; and once [p1] has settled, [p2] has settled in the
    same way. *)
Definition tied (featureId : string) (p1 p2 : nat) (st : State) : Prop :=
  (settled st !! p1 = None ->
   exists promises,
     pendingActivations st !! featureId = Some promises /\ p1 ∈ promises
     /\ (p2 ∈ promises
         \/ exists inst, settled st !! p2 = Some (Resolved inst)
                         /\ worker st = AwaitActivation featureId (inr inst)))
  /\ (forall o, settled st !! p1 = Some o -> settled st !! p2 = Some o).

(** The calls of the activation hook of [x] a worker frame accounts for:
    the call that is awaited, or the call that may have been made when the
    activation has finished. *)
Definition hook_budget (x : string) (w : Worker) : nat :=
  match w with
  | AwaitOnActivate f _ _ | AwaitActivation f _ => if String.eqb f x then 1 else 0
  | _ => 0
  end.

(** While [p1] is open, the hook of the feature has been called at most once
    more than the [calls] times it had been called before. *)
Definition once (featureId : string) (p1 : nat) (calls : nat) (st : State) : Prop :=
  settled st !! p1 = None ->
  (hookCalls featureId (log st) <= calls + hook_budget featureId (worker st))%nat.

(** *** A cooperating environment *)

(** What the permission broker and the activation hook answer. *)
Record Answers := {
  answer_contains : PermissionStep -> PermissionAnswer;
  answer_request : bool -> PermissionAnswer;
  answer_hook : HookResult
}.

(** The event that answers the worker where it waits. *)
Definition respond (a : Answers) (w : Worker) : Event :=
  match w with
  | AwaitContains _ _ step => PermissionAnswered (answer_contains a step)
  | AwaitRequest _ _ host => PermissionAnswered (answer_request a host)
  | AwaitOnActivate _ _ _ => HookSettled (answer_hook a)
  | _ => Tick
  end.

(** [n] events, each the answer the worker waits for. *)
Fixpoint drive (a : Answers) (n : nat) (st : State) : State :=
  match n with
  | O => st
  | S n => drive a n (step st (respond a (worker st)))
  end.

(** The answers an activation still needs before its promises settle, at
    most; 0 for a worker that is idle or awaits a dependency. *)
Definition remaining (w : Worker) : nat :=
  match w with
  | Idle | AwaitDependency _ _ _ _ _ => 0
  | AwaitActivation _ _ => 1
  | AwaitOnActivate _ _ _ => 2
  | AwaitRequest _ _ true => 3
  | AwaitContains _ _ Host => 4
  | AwaitRequest _ _ false => 5
  | AwaitContains _ _ Optional => 6
  | AwaitContains _ _ Required => 7
  end.

(** A stretch of the activation of the feature has left the entries of
    [pendingActivations], the registry and the queue as they were, has
    deactivated nothing, and has left the worker inside the activation, at
    most [k] answers from its end. *)
Definition advanced (featureId : string) (k : nat) (st st' : State) : Prop :=
  pendingActivations st' = pendingActivations st
  /\ worker_feature (worker st') = Some featureId
  /\ (1 <= remaining (worker st') <= k)%nat
  /\ featureRegistry st' = featureRegistry st
  /\ activationQueue st' = activationQueue st
  /\ forall d, map_has d (activeFeatures st) = true -> map_has d (activeFeatures st') = true.

(** No activation is held up by a dependency: the worker does not await the
    activation of one, and no feature that waits in the queue declares a
    registered dependency that is not active. *)
Definition unblocked (st : State) : Prop :=
  (forall f def d p rest, worker st <> AwaitDependency f def d p rest)
  /\ forall f def d,
       f ∈ activationQueue st -> featureRegistry st !! f = Some def ->
       d ∈ dependencies def -> is_Some (featureRegistry st !! d) ->
       map_has d (activeFeatures st) = true.

(** The answers that, at most, take the manager through the activation in
    progress and through those that wait in the queue. *)
Definition answers_needed (st : State) : nat :=
  (remaining (worker st) + 7 * length (activationQueue st))%nat.

(** *** Sample inputs *)

(** A feature with both hooks and no permissions. *)
Definition feature (id : string) (dependencies conflicts : list string) : FeatureDefinition :=
  {| id := id; name := id; category := "tools";
     permissions := []; optionalPermissions := []; hostPermissions := [];
     dependencies := dependencies; conflicts := conflicts;
     onActivate := true; onDeactivate := true;
     defaultEnabled := false; defaultSettings := None |}.

(** An environment that grants every permission and whose hooks return. *)
Definition agreeable : Answers :=
  {| answer_contains := fun _ => Granted; answer_request := fun _ => Granted;
     answer_hook := HookReturns |}.

(** A feature that is activated and whose hook returns. *)
Definition activated (featureId : string) : list Event :=
  [Activate featureId; HookSettled HookReturns; Tick].

(** *** What a deactivation leaves behind *)

(** The feature a log entry is about. *)
Definition about (ev : LogEvent) : option string :=
  match ev with
  | OnActivateCalled f | OnDeactivateCalled f | FeatureActivated f | FeatureDeactivated f =>
      Some f
  | ErrorLogged _ => None
  end.

(** What [deactivateFeature(featureId)] logs once its loop is over: the call
    of the hook, if the definition has one, the error if the hook throws,
    and the removal. *)
Definition closing (hook : string -> HookResult) (featureId : string)
    (inst : FeatureInstance) : list LogEvent :=
  (if onDeactivate (definition inst)
   then OnDeactivateCalled featureId ::
        match hook featureId with
        | HookReturns => []
        | HookThrows message => [ErrorLogged message]
        end
   else [])
  ++ [FeatureDeactivated featureId].

(** No circle among the active features: an active feature that declares an
    active dependency is below it in [rank]. *)
Definition acyclic (rank : string -> nat) (st : State) : Prop :=
  forall X Y instX instY,
    map_get X (activeFeatures st) = Some instX ->
    map_get Y (activeFeatures st) = Some instY ->
    Y ∈ dependencies (definition instX) -> (rank X < rank Y)%nat.

(** Every feature active in [st'] is active in [st], with the same instance. *)
Definition shrinks (st st' : State) : Prop :=
  forall id inst,
    map_get id (activeFeatures st') = Some inst -> map_get id (activeFeatures st) = Some inst.

(** From [st] to [st'] features below [bound] have been deactivated and
    nothing else has happened: [l] has been logged, which is about features
    below [bound] only; a feature that is no longer active is below [bound]
    and [l] holds the block of its removal. *)
Definition Deactivated (hook : string -> HookResult) (rank : string -> nat) (bound : nat)
    (st st' : State) (l : list LogEvent) : Prop :=
  log st' = log st ++ l
  /\ shrinks st st'
  /\ (forall Z inst,
        map_get Z (activeFeatures st) = Some inst ->
        map_get Z (activeFeatures st') = None ->
        (rank Z < bound)%nat /\ exists pre post, l = pre ++ closing hook Z inst ++ post)
  /\ (forall ev f, ev ∈ l -> about ev = Some f -> (rank f < bound)%nat).

(** *** An activation read straight through *)

(** [_activateFeature] from [storageManager.getSetting] to its [return] or
    [throw], the hook answering as [a] says. *)
Definition run_hook (a : Answers) (featureId : string) (def : FeatureDefinition) (st : State)
  : State :=
  let inst := new_instance featureId def st in
  let st := with_nextRef (S (nextRef st)) st in
  if onActivate def then
    let st := logged (OnActivateCalled featureId) st in
    match answer_hook a with
    | HookReturns => activation_done featureId inst st
    | HookThrows message => finish featureId (inl (msg_initialize featureId message)) st
    end
  else activation_done featureId inst st.

(** From the check of the host permissions to the end. *)
Definition run_host (a : Answers) (featureId : string) (def : FeatureDefinition) (st : State)
  : State :=
  if nonempty (hostPermissions def) then
    match answer_contains a Host with
    | Failed message => finish featureId (inl message) st
    | Granted => run_hook a featureId def st
    | Refused =>
        match answer_request a true with
        | Failed message => finish featureId (inl message) st
        | Granted => run_hook a featureId def st
        | Refused => finish featureId (inl (msg_denied_host featureId)) st
        end
    end
  else run_hook a featureId def st.

(** From the check of the optional permissions to the end. *)
Definition run_optional (a : Answers) (featureId : string) (def : FeatureDefinition)
    (st : State) : State :=
  if nonempty (optionalPermissions def) then
    match answer_contains a Optional with
    | Failed message => finish featureId (inl message) st
    | Granted => run_host a featureId def st
    | Refused =>
        match answer_request a false with
        | Failed message => finish featureId (inl message) st
        | Granted => run_host a featureId def st
        | Refused => finish featureId (inl (msg_denied_optional featureId)) st
        end
    end
  else run_host a featureId def st.

(** From the check of the required permissions to the end. *)
Definition run_required (a : Answers) (featureId : string) (def : FeatureDefinition)
    (st : State) : State :=
  if nonempty (permissions def) then
    match answer_contains a Required with
    | Failed message => finish featureId (inl message) st
    | Granted => run_optional a featureId def st
    | Refused => finish featureId (inl (msg_requires featureId (permissions def))) st
    end
  else run_optional a featureId def st.

(** The environment lets the feature pass its permission checks: the
    required permissions are held; the optional and the host permissions
    are held, or the user grants them when asked. *)
Definition permits (a : Answers) (def : FeatureDefinition) : Prop :=
  (nonempty (permissions def) = true -> answer_contains a Required = Granted)
  /\ (nonempty (optionalPermissions def) = true ->
      answer_contains a Optional = Granted
      \/ (answer_contains a Optional = Refused /\ answer_request a false = Granted))
  /\ (nonempty (hostPermissions def) = true ->
      answer_contains a Host = Granted
      \/ (answer_contains a Host = Refused /\ answer_request a true = Granted)).

(** What the straight reading leaves, whatever the answers: the activation
    has thrown and the active features are as before, or it has returned
    the new instance and made it active; the hook has been called once at
    most. *)
Definition ended (F : string) (def : FeatureDefinition) (st Y : State) : Prop :=
  exists r,
    worker Y = AwaitActivation F r
    /\ featureRegistry Y = featureRegistry st
    /\ pendingActivations Y = pendingActivations st
    /\ activationQueue Y = activationQueue st
    /\ settled Y = settled st
    /\ nextPromise Y = nextPromise st
    /\ (hookCalls F (log Y) <= hookCalls F (log st) + 1)%nat
    /\ (forall x, x <> F -> hookCalls x (log Y) = hookCalls x (log st))
    /\ match r with
       | inl _ => activeFeatures Y = activeFeatures st
       | inr inst =>
           inst = new_instance F def st
           /\ activeFeatures Y = map_set F inst (activeFeatures st)
       end.

(** Every promise handed out by [activateFeature] is accounted for: it has
    settled, or it is recorded in an entry of [pendingActivations]. *)
Definition accounted (st : State) : Prop :=
  forall p, (p < nextPromise st)%nat ->
    is_Some (settled st !! p)
    \/ exists featureId promises,
         pendingActivations st !! featureId = Some promises /\ p ∈ promises.

(** *** The features a deactivation reaches *)

(** The active feature [X] needs [F]: it is [F], or it declares a
    dependency that needs [F]. *)
Inductive needs (st : State) (F : string) : string -> Prop :=
| needs_self : needs st F F
| needs_dependency X inst Y :
    map_get X (activeFeatures st) = Some inst ->
    Y ∈ dependencies (definition inst) ->
    needs st F Y ->
    needs st F X.

(** What a call [deactivateFeature(F)] has done between [st] and [st']:
    features have been removed only; no feature is left active of which a
    dependency has been removed; and what has been removed needs [F]. *)
Definition cascade (st st' : State) (F : string) : Prop :=
  shrinks st st'
  /\ (forall X inst Y,
        map_get X (activeFeatures st') = Some inst ->
        Y ∈ dependencies (definition inst) ->
        is_Some (map_get Y (activeFeatures st)) ->
        is_Some (map_get Y (activeFeatures st')))
  /\ (forall Z,
        is_Some (map_get Z (activeFeatures st)) ->
        map_get Z (activeFeatures st') = None ->
        needs st F Z).

(** A feature that asks for every kind of permission. *)
Definition demanding (id : string) : FeatureDefinition :=
  {| id := id; name := id; category := "tools";
     permissions := ["tabs"]; optionalPermissions := ["history"];
     hostPermissions := ["https://*/*"];
     dependencies := []; conflicts := [];
     onActivate := true; onDeactivate := true;
     defaultEnabled := false; defaultSettings := None |}.

(** The user grants what is asked for; the permissions are not held
    beforehand, the required ones apart. *)
Definition asked : Answers :=
  {| answer_contains := fun step => match step with Required => Granted | _ => Refused end;
     answer_request := fun _ => Granted;
     answer_hook := HookReturns |}.

(** The required permissions are not held. *)
Definition lacking : Answers :=
  {| answer_contains := fun _ => Refused; answer_request := fun _ => Granted;
     answer_hook := HookReturns |}.

(** Everything is granted, and the activation hook throws. *)
Definition throwing : Answers :=
  {| answer_contains := fun _ => Granted; answer_request := fun _ => Granted;
     answer_hook := HookThrows "no network" |}.

(** *** Enabling and disabling *)

(** What [storageManager.getSetting(path, [])] gives a caller that goes on
    to change the list: the array the settings hold (itself, not a copy),
    the new empty array passed as the default, or a value that is no
    array. *)
Inductive Fetched :=
| StoredArray (items : list StorageManager.Json)
| NewArray
| NoArray (v : StorageManager.Json)
| FetchedBeyond.   (* the path leads beyond the JSON data *)

Definition fetched (path : string) (stored : StorageManager.Json) : Fetched :=
  match StorageManager.found (StorageManager.walk (StorageManager.split path) stored) with
  | Some StorageManager.JUndefined => NewArray
  | Some (StorageManager.JArray items) => StoredArray items
  | Some v => NoArray v
  | None => FetchedBeyond
  end.

(** The element of a list of ids is the id. *)
Definition is_id (featureId : string) (v : StorageManager.Json) : bool :=
  match v with
  | StorageManager.JString s => String.eqb s featureId
  | _ => false
  end.

(** [list.includes(featureId)] and [list.indexOf(featureId) !== -1] on an
    array *)
Definition holds (featureId : string) (items : list StorageManager.Json) : bool :=
  existsb (is_id featureId) items.

(** [list.splice(list.indexOf(featureId), 1)] on an array that holds the
    id: its first occurrence is taken out. *)
Fixpoint spliced (featureId : string) (items : list StorageManager.Json)
  : list StorageManager.Json :=
  match items with
  | [] => []
  | v :: rest => if is_id featureId v then rest else v :: spliced featureId rest
  end.

(** What is left of a stored list once [enableFeature] or [disableFeature]
    has taken the feature out of it: on an array that holds the id the
    first occurrence is gone, anything else is as it was. *)
Definition dropped (featureId : string) (v : StorageManager.Json) : StorageManager.Json :=
  match v with
  | StorageManager.JArray items =>
      StorageManager.JArray (if holds featureId items then spliced featureId items else items)
  | v => v
  end.

(** [value.includes(featureId)] on what [getSetting] gave: [None] is the
    [TypeError] of a value that has no such method. *)
Definition listed (featureId : string) (v : StorageManager.Json) : option bool :=
  match v with
  | StorageManager.JArray items => Some (holds featureId items)
  | StorageManager.JString s => Some (includes featureId s)
  | _ => None
  end.

Definition enabledPath : string := "features.enabledFeatures".
Definition disabledPath : string := "features.disabledFeatures".

(** [isFeatureEnabled(featureId)]; [None]: it throws, or one of the two
    paths leads beyond the JSON data. *)
Definition isFeatureEnabled (featureId : string) (registry : gmap string FeatureDefinition)
    (stored : StorageManager.Json) : option bool :=
  match StorageManager.getSetting enabledPath (StorageManager.JArray []) stored,
        StorageManager.getSetting disabledPath (StorageManager.JArray []) stored with
  | Some enabledFeatures, Some disabledFeatures =>
      match listed featureId disabledFeatures with
      | None => None
      | Some true => Some false
      | Some false =>
          match listed featureId enabledFeatures with
          | None => None
          | Some true => Some true
          | Some false =>
              Some match registry !! featureId with
                   | Some feature => defaultEnabled feature
                   | None => false
                   end
          end
      end
  | _, _ => None
  end.

(** How [enableFeature] and [disableFeature] leave their work on the
    settings. *)
Inductive Switch :=
| UnknownFeature   (* [return false] *)
| Switched         (* the lists are as wanted: on to the activation or deactivation *)
| SwitchFailed     (* a [TypeError] or a failed save: the promise rejects *)
| SwitchBeyond.    (* a list lies beyond the JSON data: the call is not followed,
                      and the settings and effects given with it say nothing *)

Section Switches.

Variable JSON_stringify : StorageManager.Json -> option string.

(** Whether the writes to the browser's storage succeed. *)
Variable saveWorks : bool.

Variable listeners : StorageManager.Listeners.

(** [const index = list.indexOf(featureId);
     if (index !== -1) { list.splice(index, 1); await setSetting(path, list); }] *)
Definition dropFrom (path : string) (ids : Fetched) (featureId : string)
    (stored : StorageManager.Json) : StorageManager.Outcome :=
  match ids with
  | StoredArray items =>
      if holds featureId items then
        let items := spliced featureId items in
        StorageManager.setSetting JSON_stringify path (StorageManager.JArray items) true
          saveWorks listeners
          (StorageManager.changed_in_place path (StorageManager.JArray items) stored)
      else StorageManager.Ended StorageManager.Returned stored []
  | NewArray => StorageManager.Ended StorageManager.Returned stored []
  | NoArray (StorageManager.JString s) =>
      (* a string has [indexOf] and no [splice] *)
      if includes featureId s then StorageManager.Ended StorageManager.ThrewTypeError stored []
      else StorageManager.Ended StorageManager.Returned stored []
  | NoArray _ => StorageManager.Ended StorageManager.ThrewTypeError stored []
  | FetchedBeyond => StorageManager.Beyond
  end.

(** [if (!list.includes(featureId)) { list.push(featureId); await setSetting(path, list); }] *)
Definition addTo (path : string) (ids : Fetched) (featureId : string)
    (stored : StorageManager.Json) : StorageManager.Outcome :=
  match ids with
  | StoredArray items =>
      if holds featureId items then StorageManager.Ended StorageManager.Returned stored []
      else
        let items := items ++ [StorageManager.JString featureId] in
        StorageManager.setSetting JSON_stringify path (StorageManager.JArray items) true
          saveWorks listeners
          (StorageManager.changed_in_place path (StorageManager.JArray items) stored)
  | NewArray =>
      StorageManager.setSetting JSON_stringify path
        (StorageManager.JArray [StorageManager.JString featureId]) true saveWorks listeners
        stored
  | NoArray (StorageManager.JString s) =>
      (* a string has [includes] and no [push] *)
      if includes featureId s then StorageManager.Ended StorageManager.Returned stored []
      else StorageManager.Ended StorageManager.ThrewTypeError stored []
  | NoArray _ => StorageManager.Ended StorageManager.ThrewTypeError stored []
  | FetchedBeyond => StorageManager.Beyond
  end.

(** The two updates, one after the other; the second is not reached when
    the first throws. *)
Definition switch (dropPath addPath : string) (dropList addList : Fetched)
    (featureId : string) (stored : StorageManager.Json)
  : Switch * StorageManager.Json * list StorageManager.Effect :=
  match dropFrom dropPath dropList featureId stored with
  | StorageManager.Ended StorageManager.Returned stored effects =>
      match addTo addPath addList featureId stored with
      | StorageManager.Ended StorageManager.Returned stored effects' =>
          (Switched, stored, effects ++ effects')
      | StorageManager.Ended _ stored effects' => (SwitchFailed, stored, effects ++ effects')
      | StorageManager.Beyond => (SwitchBeyond, stored, effects)
      end
  | StorageManager.Ended _ stored effects => (SwitchFailed, stored, effects)
  | StorageManager.Beyond => (SwitchBeyond, stored, [])
  end.

(** [enableFeature(featureId)] up to its call of [activateFeature]. *)
Definition enableFeature (featureId : string) (registry : gmap string FeatureDefinition)
    (stored : StorageManager.Json)
  : Switch * StorageManager.Json * list StorageManager.Effect :=
  match registry !! featureId with
  | None => (UnknownFeature, stored, [])
  | Some _ =>
      let enabledFeatures := fetched enabledPath stored in
      let disabledFeatures := fetched disabledPath stored in
      switch disabledPath enabledPath disabledFeatures enabledFeatures featureId stored
  end.

(** [disableFeature(featureId)] up to its call of [deactivateFeature]. *)
Definition disableFeature (featureId : string) (registry : gmap string FeatureDefinition)
    (stored : StorageManager.Json)
  : Switch * StorageManager.Json * list StorageManager.Effect :=
  match registry !! featureId with
  | None => (UnknownFeature, stored, [])
  | Some _ =>
      let enabledFeatures := fetched enabledPath stored in
      let disabledFeatures := fetched disabledPath stored in
      switch enabledPath disabledPath enabledFeatures disabledFeatures featureId stored
  end.

End Switches.

End FeatureManager.


(** * utils/storage-utils.js *)
Module StorageUtils.

(** A row of the table [cache], [{ key, value, timestamp }]; [key] is the
    primary key of the table. *)
Record CacheItem := {
  value : JsValue;
  timestamp : Z
}.

(** The table [cache]; [None]: the database cannot be used, and every
    operation on it rejects. *)
Definition Cache := option (gmap string CacheItem).

Module cacheUtils.

Definition EXPIRATION : Z := 60 * 60 * 1000.

(** [set(key, value, expiration)]; a failure of the database is caught and
    logged. *)
Definition set (key : string) (value : JsValue) (expiration : option Z) (now : Z)
    (cache : Cache) : Cache :=
  match cache with
  | None => None
  | Some table =>
      let timestamp := now + default EXPIRATION expiration in
      Some (<[key := {| value := value; timestamp := timestamp |}]> table)
  end.

(** [get(key)] *)
Definition get (key : string) (now : Z) (cache : Cache) : JsValue :=
  match cache with
  | None => JsNull
  | Some table =>
      match table !! key with
      | None => JsNull
      | Some item => if timestamp item <? now then JsNull else value item
      end
  end.

(** [clearExpired()]: the number it returns and the table it leaves. *)
Definition clearExpired (now : Z) (cache : Cache) : Z * Cache :=
  match cache with
  | None => (0, None)
  | Some table =>
      let expiredItems :=
        List.filter (fun item => timestamp (snd item) <? now) (map_to_list table) in
      let keys := List.map fst expiredItems in
      (Z.of_nat (length expiredItems), Some (foldr delete table keys))
  end.

End cacheUtils.

(** ** The response cache of [request] *)

(** [apiRequest.checkCache], as the collaborator of a call of [request]
    made at time [now]. *)
Definition checkCache (now : Z) (cache : Cache) : string -> JsValue :=
  fun cacheKey => cacheUtils.get cacheKey now cache.

(** What the calls of [cacheResponse] made by a run of the executor, at
    time [now], leave in the cache. *)
Definition cacheResponses (evs : list ApiUtils.ReqEvent) (now : Z) (cache : Cache) : Cache :=
  fold_left
    (fun cache ev =>
       match ev with
       | ApiUtils.EvCacheResponse cacheKey data ttl =>
           cacheUtils.set cacheKey data (Some ttl) now cache
       | _ => cache
       end)
    evs cache.

(** A transport that answers every call with the same JSON document, in
    front of the cache. *)
Definition serving (data : JsValue) (now : Z) (cache : Cache) : ApiUtils.RequestEnv :=
  {| ApiUtils.env_mock := JsNull;
     ApiUtils.env_cache := checkCache now cache;
     ApiUtils.env_fetch := fun _ =>
       ApiUtils.FetchResolves
         {| ApiUtils.resp_status := 200; ApiUtils.resp_json := inr data;
            ApiUtils.resp_text := inr "{}" |} |}.

End StorageUtils.

(** * Properties of api-utils.js *)
Section ApiUtilsFacts.
Import ApiUtils.

(** ** The cache key *)

Lemma append_eq_inv (s t u : string) : s +:+ t = s +:+ u -> t = u.
Proof. apply String.app_inj. Qed.

(** C5 - cache keys: for a fixed url, two POST requests whose bodies have
    different serializations get different cache keys, both keys differ from
    the GET key of that url, and the GET key is built from the method and
    the url alone, whatever the body and the headers. *)
Theorem createCacheKey_separates_bodies
    (JSON_stringify : JsValue -> string) (url : string) (B1 B2 : JsValue) :
  bodyStr JSON_stringify B1 <> bodyStr JSON_stringify B2 ->
  createCacheKey JSON_stringify url (POST B1) <> createCacheKey JSON_stringify url (POST B2)
  /\ createCacheKey JSON_stringify url (POST B1) <> createCacheKey JSON_stringify url GET
  /\ createCacheKey JSON_stringify url (POST B2) <> createCacheKey JSON_stringify url GET
  /\ (forall method body headers,
         method_or_GET method = "GET" ->
         createCacheKey JSON_stringify url
           {| ck_method := method; ck_body := body; ck_headers := headers |}
         = "GET" +:+ ":" +:+ url).
Proof.
  intros Hser. unfold createCacheKey, POST, GET. cbn [ck_method ck_body ck_headers].
  repeat split.
  - intros Heq. apply Hser.
    change (method_or_GET (Some "POST")) with "POST" in Heq.
    change (String.eqb "POST" "GET") with false in Heq. cbv iota in Heq.
    repeat (apply append_eq_inv in Heq). exact Heq.
  - cbn. discriminate.
  - cbn. discriminate.
  - intros method body headers Hm. rewrite Hm. reflexivity.
Qed.

Lemma createCacheKey_separates_bodies_witness :
  createCacheKey (fun _ => "{}") "https://example.org/a" (POST (JsString "x"))
  <> createCacheKey (fun _ => "{}") "https://example.org/a" (POST (JsString "y")).
Proof.
  apply (createCacheKey_separates_bodies (fun _ => "{}") "https://example.org/a"
           (JsString "x") (JsString "y")).
  cbn. discriminate.
Defined.

(** ** The retrying executor *)

Lemma executeRequest_unfold (c : RequestClosure) (attempt : nat) :
  executeRequest c attempt =
  match attemptOnce c attempt with
  | (inr data, evs) => (inr data, evs)
  | (inl apiError, evs) =>
      if shouldRetry c attempt apiError
      then (fst (executeRequest c (S attempt)),
            evs ++ EvBackoff attempt (backoffDelay c attempt)
                :: snd (executeRequest c (S attempt)))
      else (inl apiError, evs)
  end.
Proof.
  funelim (executeRequest c attempt); rewrite Heq; try reflexivity.
  - rewrite e. reflexivity.
  - rewrite e. reflexivity.
Qed.

Lemma fetchCount_app (evs evs' : list ReqEvent) :
  fetchCount (evs ++ evs') = fetchCount evs + fetchCount evs'.
Proof. unfold fetchCount. rewrite List.filter_app, length_app. lia. Qed.

Lemma fetchCount_backoff (attempt : nat) (delay : Z) (evs : list ReqEvent) :
  fetchCount (EvBackoff attempt delay :: evs) = fetchCount evs.
Proof. reflexivity. Qed.

(** Every attempt calls [fetch] once. *)
Lemma attemptOnce_fetches_once (c : RequestClosure) (attempt : nat) :
  fetchCount (snd (attemptOnce c attempt)) = 1.
Proof.
  unfold attemptOnce.
  destruct (rc_fetch c attempt) as [error|response]; [reflexivity|].
  destruct (negb (resp_ok response)); [reflexivity|].
  destruct (resp_json response); [reflexivity|].
  destruct (rc_isCacheable c); reflexivity.
Qed.

(** [isRetryable] spelled out. *)
Lemma isRetryable_spec (e : ApiError) :
  isRetryable e = true <->
  type e = NETWORK \/ type e = TIMEOUT \/ type e = RATE_LIMIT
  \/ (type e = SERVER /\ exists s, status e = Some s /\ 500 <= s).
Proof.
  unfold isRetryable. split.
  - destruct (type e); try discriminate; auto.
    destruct (status e) as [s|]; [|discriminate].
    intros H%Z.leb_le. right; right; right. eauto.
  - intros [-> | [-> | [-> | [-> (s & -> & Hs)]]]]; try reflexivity.
    apply Z.leb_le. exact Hs.
Qed.

(** When every attempt from [attempt] on fails with a retryable error, the
    executor goes through the attempts [attempt], ..., [retries] and throws
    the error of the last one. *)
Lemma executeRequest_exhausts (c : RequestClosure) (n : nat) :
  forall attempt : nat,
    (Z.to_nat (rc_retries c) - attempt = n)%nat ->
    Z.of_nat attempt <= rc_retries c ->
    (forall i, exists e, fst (attemptOnce c i) = inl e /\ isRetryable e = true) ->
    exists e evs,
      executeRequest c attempt = (inl e, evs)
      /\ fetchCount evs = rc_retries c - Z.of_nat attempt + 1
      /\ fst (attemptOnce c (Z.to_nat (rc_retries c))) = inl e.
Proof.
  induction n as [|n IH]; intros attempt Hn Hle Hfail;
    destruct (Hfail attempt) as (e & He & Hretry);
    pose proof (attemptOnce_fetches_once c attempt) as Hone;
    rewrite executeRequest_unfold;
    destruct (attemptOnce c attempt) as [[e'|data] evs] eqn:Hatt;
    cbn in He, Hone; try discriminate; injection He as ->.
  - assert (Hlast : Z.to_nat (rc_retries c) = attempt) by lia.
    assert (Hno : shouldRetry c attempt e = false).
    { unfold shouldRetry.
      destruct (Z.ltb_spec (Z.of_nat attempt) (rc_retries c)); [lia|reflexivity]. }
    rewrite Hno. exists e, evs. split; [reflexivity|]. split; [lia|].
    rewrite Hlast, Hatt. reflexivity.
  - assert (Hyes : shouldRetry c attempt e = true).
    { unfold shouldRetry. rewrite Hretry.
      destruct (Z.ltb_spec (Z.of_nat attempt) (rc_retries c)); [reflexivity|lia]. }
    rewrite Hyes.
    destruct (IH (S attempt)) as (e2 & evs2 & Hrun & Hcount & Hlast); [lia|lia|exact Hfail|].
    rewrite Hrun. cbn [fst snd]. exists e2, (evs ++ EvBackoff attempt (backoffDelay c attempt) :: evs2).
    split; [reflexivity|]. split; [|exact Hlast].
    rewrite fetchCount_app, fetchCount_backoff, Hone, Hcount. lia.
Qed.

(** What [request] puts into the executor it starts or queues. *)
Lemma started_executor JSON_stringify env now promise url options st executor :
  started (request JSON_stringify env now promise url options st) = Some executor ->
  rc_url executor = url
  /\ rc_retries executor = default DEFAULT_CONFIG.retries (o_retries options)
  /\ rc_fetch executor = env_fetch env.
Proof.
  unfold request.
  destruct (_ && truthy (env_mock env)); [discriminate|].
  destruct (_ && truthy (env_cache env _)); [discriminate|].
  destruct (checkLimit _ now st) as [allowed st'].
  destruct allowed.
  - cbn. intros [= <-]. auto.
  - destruct (enqueue _ _ promise now st') as [effects st'']. cbn. intros [= <-]. auto.
Qed.



(** ** Responses with status 404 *)

Lemma fromResponse_status (response : Response) (requestUrl : option string) :
  status (fromResponse response requestUrl) = Some (resp_status response).
Proof.
  unfold fromResponse.
  destruct (resp_json response); [destruct (resp_text response)|];
    try reflexivity; destruct (classifyStatus _); reflexivity.
Qed.

(** The type is read off the status exactly when the body could be read. *)
Lemma fromResponse_type (response : Response) (requestUrl : option string) :
  type (fromResponse response requestUrl) =
  match resp_json response, resp_text response with
  | inl _, inl _ => UNKNOWN
  | _, _ => fst (classifyStatus (resp_status response))
  end.
Proof.
  unfold fromResponse.
  destruct (resp_json response); [destruct (resp_text response)|];
    try reflexivity; destruct (classifyStatus _); reflexivity.
Qed.

(** What [request] does with a response of status 404, whatever its body:
    it rejects after exactly one call of [fetch], whatever the retry count,
    with the error built from that response, which is not retryable; the
    kind of the error is [not_found] when the body could be read, as JSON or
    else as text, and is left at [unknown] when both reads failed. *)
Lemma request_404_rejects_at_once
    (JSON_stringify : JsValue -> string) (env : RequestEnv) (now : Z) (promise : nat)
    (url : string) (options : RequestOptions) (st : LimiterStates)
    (executor : RequestClosure) (response : Response) :
  started (request JSON_stringify env now promise url options st) = Some executor ->
  env_fetch env 0%nat = FetchResolves response ->
  resp_status response = 404 ->
  let e := fromResponse response (Some url) in
  settles executor = (inl e, [EvFetch 0])
  /\ fetchCount [EvFetch 0] = 1
  /\ isRetryable e = false
  /\ status e = Some 404
  /\ type e = match resp_json response, resp_text response with
              | inl _, inl _ => UNKNOWN
              | _, _ => NOT_FOUND
              end.
Proof.
  intros Hstarted Hfetch H404 e.
  apply started_executor in Hstarted as (Hurl & _ & Hf).
  assert (Htype : type e = match resp_json response, resp_text response with
                           | inl _, inl _ => UNKNOWN
                           | _, _ => NOT_FOUND
                           end).
  { unfold e. rewrite fromResponse_type, H404.
    destruct (resp_json response); [destruct (resp_text response)|]; reflexivity. }
  assert (Hno : isRetryable e = false).
  { unfold isRetryable. rewrite Htype.
    destruct (resp_json response); [destruct (resp_text response)|]; reflexivity. }
  repeat split.
  - unfold settles. rewrite executeRequest_unfold.
    unfold attemptOnce. rewrite Hf, Hfetch, Hurl.
    unfold resp_ok. rewrite H404. cbn [negb andb Z.leb Z.compare Pos.compare Pos.compare_cont].
    fold e. unfold shouldRetry. rewrite Hno, andb_false_r. reflexivity.
  - exact Hno.
  - unfold e. rewrite fromResponse_status, H404. reflexivity.
  - exact Htype.
Qed.

(** A 404 response with a body that is no JSON but can be read as text. *)
Example request_404_html_body :
  let e := fromResponse htmlBody404 (Some "https://example.org/a") in
  settles (plainExecutor "https://example.org/a" (answers htmlBody404)) = (inl e, [EvFetch 0])
  /\ isRetryable e = false
  /\ type e = NOT_FOUND.
Proof.
  destruct (request_404_rejects_at_once (fun _ => "{}") (answers htmlBody404) 0 0%nat
              "https://example.org/a" noOptions ∅
              (plainExecutor "https://example.org/a" (answers htmlBody404)) htmlBody404)
    as (Hs & _ & Hno & _ & Hty); try reflexivity.
  repeat split; assumption.
Qed.

(** C4 - the kind of the error is not [not_found] for every 404 response:
    let a call of [request] go to the transport and get a response with
    status 404 whose body can be read neither as JSON nor as text (both
    [response.clone().json()] and [response.text()] reject).  The call
    rejects after one call of [fetch] with an error that carries the status
    404 and is not retryable, but the kind of that error is [unknown]: the
    rejection of [text()] leaves the [try] block of [fromResponse] before
    the statements that read the kind off the status. *)
Theorem request_404_unreadable_body
    (JSON_stringify : JsValue -> string) (env : RequestEnv) (now : Z) (promise : nat)
    (url : string) (options : RequestOptions) (st : LimiterStates)
    (executor : RequestClosure) (response : Response) (e1 e2 : JsError) :
  started (request JSON_stringify env now promise url options st) = Some executor ->
  env_fetch env 0%nat = FetchResolves response ->
  resp_status response = 404 ->
  resp_json response = inl e1 -> resp_text response = inl e2 ->
  exists e, settles executor = (inl e, [EvFetch 0])
            /\ status e = Some 404
            /\ isRetryable e = false
            /\ type e = UNKNOWN /\ type e <> NOT_FOUND.
Proof.
  intros Hstarted Hfetch H404 Hjson Htext.
  destruct (request_404_rejects_at_once JSON_stringify env now promise url options st
              executor response Hstarted Hfetch H404) as (Hs & _ & Hno & Hst & Hty).
  rewrite Hjson, Htext in Hty.
  exists (fromResponse response (Some url)).
  repeat split; [exact Hs|exact Hst|exact Hno|exact Hty|].
  rewrite Hty. discriminate.
Qed.

Lemma request_404_unreadable_body_witness :
  exists e,
    settles (plainExecutor "https://example.org/a" (answers brokenBody404))
    = (inl e, [EvFetch 0])
    /\ status e = Some 404
    /\ isRetryable e = false
    /\ type e = UNKNOWN /\ type e <> NOT_FOUND.
Proof.
  destruct (resp_json brokenBody404) as [e1|d] eqn:Hjson; [|discriminate].
  destruct (resp_text brokenBody404) as [e2|t] eqn:Htext; [|discriminate].
  apply (request_404_unreadable_body (fun _ => "{}") (answers brokenBody404) 0 0%nat
           "https://example.org/a" noOptions ∅ _ brokenBody404 e1 e2).
  - vm_compute. reflexivity.
  - reflexivity.
  - reflexivity.
  - exact Hjson.
  - exact Htext.
Defined.

(** ** The rate limiter *)

Lemma limiter_ok_insert apiId s st :
  limiter_ok st -> within_ceiling s -> limiter_ok (<[apiId := s]> st).
Proof.
  intros Hok Hs apiId' s'. rewrite lookup_insert.
  case_decide; [intros [= <-]; exact Hs | apply Hok].
Qed.

Lemma count_or_positive given fallback : 0 < fallback -> 0 < count_or given fallback.
Proof. unfold count_or. destruct given as [n|]; [destruct (N.eqb_spec n 0)|]; lia. Qed.

Lemma init_spec apiId options st :
  limiter_ok st ->
  exists s, init apiId options st = (s, <[apiId := s]> st)
            /\ <[apiId := s]> st !! apiId = Some s
            /\ within_ceiling s
            /\ (st !! apiId = None -> activeRequests s < concurrentRequests s)
            /\ (forall s0, st !! apiId = Some s0 -> s = s0).
Proof.
  intros Hok. unfold init. destruct (st !! apiId) as [s|] eqn:Hs.
  - exists s. rewrite insert_id by exact Hs.
    repeat split; try congruence; try apply (Hok _ _ Hs).
  - eexists. repeat split; try apply lookup_insert_eq; cbn; try discriminate.
    + apply Z.lt_le_incl, count_or_positive. reflexivity.
    + intros _. apply count_or_positive. reflexivity.
Qed.

Lemma init_ok apiId options st : limiter_ok st -> limiter_ok (snd (init apiId options st)).
Proof.
  intros Hok. destruct (init_spec apiId options st Hok) as (s & -> & _ & Hs & _).
  apply limiter_ok_insert; assumption.
Qed.

(** [checkLimit] keeps the invariant, and a [true] answer means there is
    room. *)
Lemma checkLimit_spec apiId now st :
  limiter_ok st ->
  limiter_ok (snd (checkLimit apiId now st))
  /\ is_Some (snd (checkLimit apiId now st) !! apiId)
  /\ (fst (checkLimit apiId now st) = true -> has_room apiId (snd (checkLimit apiId now st))).
Proof.
  intros Hok. unfold checkLimit.
  destruct (init_spec apiId no_options st Hok) as (s & -> & Hlook & Hs & _).
  destruct (Z.geb_spec (activeRequests s) (concurrentRequests s)) as [Hfull|Hroom]; cbn [fst snd].
  - split; [apply limiter_ok_insert; assumption|]. split; [eauto|discriminate].
  - rewrite insert_insert_eq. split; [apply limiter_ok_insert; [assumption|exact Hs]|].
    split; [rewrite lookup_insert_eq; eauto|].
    intros _ s'. rewrite lookup_insert_eq. intros [= <-]. exact Hroom.
Qed.

Lemma recordRequest_ok apiId now st :
  limiter_ok st -> has_room apiId st -> limiter_ok (recordRequest apiId now st).
Proof.
  intros Hok Hroom. unfold recordRequest.
  destruct (init_spec apiId no_options st Hok) as (s & -> & _ & Hs & Hnew & Hold).
  rewrite insert_insert_eq. apply limiter_ok_insert; [assumption|].
  assert (activeRequests s < concurrentRequests s).
  { destruct (st !! apiId) as [s0|] eqn:Hs0; [|auto].
    rewrite (Hold s0 eq_refl). apply Hroom. exact Hs0. }
  unfold within_ceiling in *. cbn. lia.
Qed.

Lemma has_room_set_queue apiId q s st :
  activeRequests s < concurrentRequests s ->
  has_room apiId (<[apiId := set_queue q s]> st).
Proof. intros H s'. rewrite lookup_insert_eq. intros [= <-]. exact H. Qed.

Lemma processNext_ok apiId now st :
  limiter_ok st -> limiter_ok (snd (processNext apiId now st)).
Proof.
  intros Hok. unfold processNext.
  destruct (st !! apiId) as [s|] eqn:Hs; [|exact Hok].
  destruct (queue s) as [|item rest]; cbn [snd].
  - apply limiter_ok_insert; [assumption|apply (Hok _ _ Hs)].
  - destruct (checkLimit_spec apiId now st Hok) as (Hok' & _ & Hroom).
    destruct (checkLimit apiId now st) as [allowed st']. cbn [fst snd] in *.
    destruct allowed; [|exact Hok'].
    destruct (st' !! apiId) as [s'|] eqn:Hs'; [|exact Hok'].
    destruct (queue s') as [|item' rest']; [exact Hok'|]. cbn [snd].
    apply recordRequest_ok.
    + apply limiter_ok_insert; [assumption|apply (Hok' _ _ Hs')].
    + apply has_room_set_queue. apply (Hroom eq_refl). exact Hs'.
Qed.

Lemma _processQueue_ok apiId now st :
  limiter_ok st -> limiter_ok (snd (_processQueue apiId now st)).
Proof.
  intros Hok. unfold _processQueue.
  destruct (init_spec apiId no_options st Hok) as (s & -> & _ & Hs & _).
  assert (limiter_ok (<[apiId := s]> st)) by (apply limiter_ok_insert; assumption).
  destruct (queueProcessing s || _); [assumption|].
  apply processNext_ok. rewrite insert_insert_eq. apply limiter_ok_insert; assumption.
Qed.

Lemma recordCompletion_ok apiId now st :
  limiter_ok st -> limiter_ok (snd (recordCompletion apiId now st)).
Proof.
  intros Hok. unfold recordCompletion.
  destruct (init_spec apiId no_options st Hok) as (s & -> & _ & Hs & _).
  apply _processQueue_ok. rewrite insert_insert_eq.
  apply limiter_ok_insert; [assumption|].
  unfold within_ceiling in *. cbn. lia.
Qed.

Lemma enqueue_ok apiId requestFn promise now st :
  limiter_ok st -> limiter_ok (snd (enqueue apiId requestFn promise now st)).
Proof.
  intros Hok. unfold enqueue.
  destruct (init_spec apiId no_options st Hok) as (s & -> & _ & Hs & _).
  rewrite insert_insert_eq.
  assert (limiter_ok (<[apiId := set_queue (queue s ++ [{| requestFn := requestFn;
             promise := promise; timestamp := now |}]) s]> st))
    by (apply limiter_ok_insert; assumption).
  destruct (queueProcessing s); [assumption|]. apply _processQueue_ok. assumption.
Qed.

Lemma queuedRequestFinished_ok apiId now st :
  limiter_ok st -> limiter_ok (snd (queuedRequestFinished apiId now st)).
Proof.
  intros Hok. unfold queuedRequestFinished.
  pose proof (recordCompletion_ok apiId now st Hok) as Hok'.
  destruct (recordCompletion apiId now st) as [effects st']. cbn [snd] in Hok'.
  pose proof (processNext_ok apiId now st' Hok') as Hok''.
  destruct (processNext apiId now st') as [effects' st'']. exact Hok''.
Qed.

Lemma LimiterStep_ok st st' : LimiterStep st st' -> limiter_ok st -> limiter_ok st'.
Proof.
  intros Hstep Hok. destruct Hstep.
  - apply init_ok, Hok.
  - apply checkLimit_spec, Hok.
  - destruct (checkLimit_spec apiId now st Hok) as (Hok' & _ & Hroom).
    rewrite H in Hok', Hroom. apply recordRequest_ok; [exact Hok'|exact (Hroom eq_refl)].
  - destruct (checkLimit_spec apiId now st Hok) as (Hok' & _).
    rewrite H in Hok'. apply enqueue_ok, Hok'.
  - apply recordCompletion_ok, Hok.
  - apply processNext_ok, Hok.
  - apply queuedRequestFinished_ok, Hok.
Qed.

(** C3 - concurrency ceiling: in every state the rate limiter can reach,
    under any interleaving of its entry points ([recordRequest] running only
    right after a [checkLimit] that returned [true], as at both of its call
    sites), every resource has
    [0 <= activeRequests <= concurrentRequests]. *)
Theorem activeRequests_within_ceiling (st : LimiterStates) :
  reachable st ->
  forall (apiId : string) (s : RateLimitState),
    st !! apiId = Some s ->
    0 <= activeRequests s <= concurrentRequests s.
Proof.
  intros Hreach. change (limiter_ok st). revert st Hreach.
  apply (rtc_ind_r (fun st => limiter_ok st) ∅).
  - intros apiId s. rewrite lookup_empty. discriminate.
  - intros st st' _ Hstep Hok. eapply LimiterStep_ok; eassumption.
Qed.

Lemma activeRequests_within_ceiling_witness :
  0 <= activeRequests oneActive <= concurrentRequests oneActive.
Proof.
  apply (activeRequests_within_ceiling
           (recordRequest "default" 0 (snd (checkLimit "default" 0 ∅)))) with "default".
  - apply rtc_once. apply (StepAdmit "default" 0 0 ∅). vm_compute. reflexivity.
  - vm_compute. reflexivity.
Defined.

End ApiUtilsFacts.

(** * Properties of api-manager.js *)
Section ApiManagerFacts.
Import ApiManager.

Lemma known_api_listed (apiId : string) :
  is_Some (API_CONFIG !! apiId) -> In apiId API_IDS.
Proof.
  unfold API_CONFIG, API_IDS. cbn [list_to_map foldr uncurry fst snd].
  intros Hknown.
  repeat match goal with
         | H : is_Some (<[?k := _]> _ !! apiId) |- _ =>
             destruct (decide (k = apiId)) as [<- | ?];
             [cbn; tauto | rewrite lookup_insert_ne in H by assumption]
         end.
  rewrite lookup_empty in Hknown. destruct Hknown as [? [=]].
Qed.

(** The service has an entry in [usageStats]. *)
Abbreviation tracked apiId m := (is_Some (usageStats m !! apiId)).

Lemma loadUsageStats_fills (ids : list string) (stats : gmap string UsageStats) (k : string) :
  In k ids \/ is_Some (stats !! k) ->
  is_Some (fold_left
             (fun stats apiId =>
                match stats !! apiId with
                | Some _ => stats
                | None => <[apiId := freshStats]> stats
                end) ids stats !! k).
Proof.
  revert stats. induction ids as [|apiId ids IH]; intros stats [Hin | Hsome]; cbn.
  - contradiction.
  - exact Hsome.
  - destruct Hin as [-> | Hin]; [|apply IH; left; exact Hin].
    apply IH. right. destruct (stats !! k) eqn:Hk; [rewrite Hk; eauto|].
    rewrite lookup_insert_eq. eauto.
  - apply IH. right. destruct (stats !! apiId) eqn:Ha; [exact Hsome|].
    rewrite lookup_insert. case_decide; eauto.
Qed.

Lemma recordRequestAttempt_tracked apiId k now m :
  apiId = k \/ tracked k m -> tracked k (recordRequestAttempt apiId now m).
Proof.
  intros H. unfold recordRequestAttempt. cbn. rewrite lookup_insert.
  case_decide; [eauto|]. destruct H; [contradiction|assumption].
Qed.

Lemma saveUsageStats_usageStats m : usageStats (saveUsageStats m) = usageStats m.
Proof. reflexivity. Qed.

Lemma recordRequestSuccess_tracked apiId k m :
  tracked k m -> tracked k (recordRequestSuccess apiId m).
Proof.
  intros H. unfold recordRequestSuccess.
  destruct (usageStats m !! apiId) as [stats|] eqn:Hs; [|exact H].
  cbn [requestCount]. destruct (Z.rem _ 10 =? 0); cbn;
    rewrite lookup_insert; case_decide; eauto.
Qed.

Lemma handleApiError_tracked apiId k error now m :
  tracked k m -> tracked k (snd (handleApiError apiId error now m)).
Proof.
  intros H. unfold handleApiError.
  destruct (usageStats m !! apiId) as [stats|] eqn:Hs; [|exact H].
  assert (Hins : forall v, is_Some (<[apiId := v]> (usageStats m) !! k))
    by (intros v; rewrite lookup_insert; case_decide; eauto).
  destruct error as [e|e]; [|cbn; apply Hins].
  destruct (ApiUtils.type e); try (cbn; apply Hins).
  destruct (cfg_authType <$> API_CONFIG !! apiId) as [[]|]; cbn; apply Hins.
Qed.

Lemma run_op_tracked k op m :
  is_Some (API_CONFIG !! k) -> failedReload op = false ->
  tracked k m -> tracked k (run_op m op).
Proof.
  intros Hknown Hop H. destruct op as [apiId now|apiId completion now|apiId|[stored|]];
    cbn [run_op]; [| | | |discriminate].
  - unfold makeRequest_begin. destruct (API_CONFIG !! apiId); [|exact H].
    apply recordRequestAttempt_tracked. right. exact H.
  - unfold makeRequest_end. destruct completion as [result|error]; cbn.
    + apply recordRequestSuccess_tracked, H.
    + pose proof (handleApiError_tracked apiId k error now m H) as H'.
      destruct (handleApiError apiId error now m) as [[?|] ?]; exact H'.
  - unfold resetUsageStats. cbn.
    destruct (String.eqb apiId "all").
    + rewrite lookup_fmap. destruct H as [v ->]. cbn. eauto.
    + destruct (usageStats m !! apiId); [|exact H].
      rewrite lookup_insert. case_decide; eauto.
  - unfold loadUsageStats, set_usageStats. cbn [usageStats].
    apply loadUsageStats_fills. left.
    apply known_api_listed, Hknown.
Qed.

Lemma run_ops_tracked k ops m :
  is_Some (API_CONFIG !! k) -> Forall (fun op => failedReload op = false) ops ->
  tracked k m -> tracked k (fold_left run_op ops m).
Proof.
  intros Hknown Hops. revert m.
  induction Hops as [|op ops Hop _ IH]; intros m H; cbn; [exact H|].
  apply IH, run_op_tracked; assumption.
Qed.

(** Once a service has lost its entry, only [restores] gives it back. *)
Lemma run_op_untracked k op m :
  restores k op = false ->
  usageStats m !! k = None -> usageStats (run_op m op) !! k = None.
Proof.
  intros Hop H. destruct op as [apiId now|apiId completion now|apiId|[stored|]];
    cbn [run_op restores] in *; [| | |discriminate|reflexivity].
  - unfold makeRequest_begin. destruct (API_CONFIG !! apiId); [|exact H].
    unfold recordRequestAttempt. cbn. rewrite lookup_insert_ne; [exact H|].
    intros ->. rewrite String.eqb_refl in Hop. discriminate.
  - assert (Hins : forall v, usageStats m !! apiId <> None ->
                             <[apiId := v]> (usageStats m) !! k = None).
    { intros v Hne. rewrite lookup_insert_ne; [exact H|]. intros ->. contradiction. }
    unfold makeRequest_end. destruct completion as [result|error]; cbn [snd].
    + unfold recordRequestSuccess.
      destruct (usageStats m !! apiId) as [stats|] eqn:Hs; [|exact H].
      cbn [requestCount]. destruct (Z.rem _ 10 =? 0); cbn; apply Hins; congruence.
    + unfold handleApiError.
      destruct (usageStats m !! apiId) as [stats|] eqn:Hs; [|exact H].
      destruct error as [e|e]; [|cbn; apply Hins; congruence].
      destruct (ApiUtils.type e); try (cbn; apply Hins; congruence).
      destruct (cfg_authType <$> API_CONFIG !! apiId) as [[]|]; cbn; apply Hins; congruence.
  - unfold resetUsageStats. cbn.
    destruct (String.eqb apiId "all").
    + rewrite lookup_fmap, H. reflexivity.
    + destruct (usageStats m !! apiId) eqn:Hs; [|exact H].
      rewrite lookup_insert_ne; [exact H|]. intros ->. congruence.
Qed.

Lemma run_ops_untracked k ops m :
  Forall (fun op => restores k op = false) ops ->
  usageStats m !! k = None -> usageStats (fold_left run_op ops m) !! k = None.
Proof.
  intros Hops. revert m.
  induction Hops as [|op ops Hop _ IH]; intros m H; cbn; [exact H|].
  apply IH, run_op_untracked; assumption.
Qed.

(** What [handleApiError] throws for a service that is configured and
    tracked: the error it was given. *)
Lemma handleApiError_rethrows apiId error now m :
  is_Some (API_CONFIG !! apiId) -> tracked apiId m ->
  fst (handleApiError apiId error now m) = Some error.
Proof.
  intros [cfg Hcfg] [stats Hs]. unfold handleApiError. rewrite Hs, Hcfg.
  destruct error as [e|e]; [|reflexivity].
  destruct (ApiUtils.type e); try reflexivity.
  cbn. destruct (cfg_authType cfg); reflexivity.
Qed.

(** As long as no reload of the statistics fails while the thunk is awaited,
    the entry that [recordRequestAttempt] created is still there when the
    thunk throws, and [makeRequest] rejects with the error of the thunk. *)
Lemma makeRequest_rethrows
    (apiId : string) (now : Z) (during : list Op) (error : Thrown) (now' : Z)
    (m : Manager) :
  is_Some (API_CONFIG !! apiId) ->
  Forall (fun op => failedReload op = false) during ->
  fst (makeRequest apiId now during (Throws error) now' m) = Rejected error.
Proof.
  intros Hknown Hduring.
  assert (Htracked : tracked apiId (fold_left run_op during (recordRequestAttempt apiId now m))).
  { apply run_ops_tracked; [exact Hknown|exact Hduring|].
    apply recordRequestAttempt_tracked. left. reflexivity. }
  unfold makeRequest, makeRequest_begin. destruct Hknown as [cfg Hcfg]. rewrite Hcfg.
  unfold makeRequest_end.
  pose proof (handleApiError_rethrows apiId error now' _ (ex_intro _ cfg Hcfg) Htracked) as Hthrow.
  destruct (handleApiError apiId error now' _) as [[thrown|] m']; cbn in Hthrow.
  - injection Hthrow as ->. reflexivity.
  - discriminate.
Qed.

(** C10 - the early [return] of [handleApiError] is taken on the path of
    [makeRequest]: for a service named in [API_CONFIG], let the statistics be
    reloaded while the thunk is awaited ([handleRestart], on
    [background:restore]) from a store that holds [null] or a primitive
    under [api.usageStats], and let nothing that runs afterwards give the
    service its entry back.  The [catch] of [loadUsageStats] has emptied
    [usageStats]; when the thunk then throws, [handleApiError] finds no
    entry and returns, and [makeRequest] resolves with [undefined]: the error
    is swallowed, not counted and not saved. *)
Theorem makeRequest_resolves_after_failed_reload
    (apiId : string) (now : Z) (before after : list Op) (error : Thrown) (now' : Z)
    (m : Manager) :
  is_Some (API_CONFIG !! apiId) ->
  Forall (fun op => restores apiId op = false) after ->
  let during := before ++ OpLoad None :: after in
  let awaited := fold_left run_op during (recordRequestAttempt apiId now m) in
  usageStats awaited !! apiId = None
  /\ makeRequest apiId now during (Throws error) now' m = (Resolved JsUndefined, awaited).
Proof.
  intros [cfg Hcfg] Hafter during awaited.
  assert (Hnone : usageStats awaited !! apiId = None).
  { unfold awaited, during. rewrite fold_left_app. cbn [fold_left run_op loadUsageStats].
    apply run_ops_untracked; [exact Hafter|]. apply lookup_empty. }
  split; [exact Hnone|].
  unfold makeRequest, makeRequest_begin. rewrite Hcfg. fold during awaited.
  unfold makeRequest_end, handleApiError. rewrite Hnone. reflexivity.
Qed.

Lemma makeRequest_resolves_after_failed_reload_witness :
  fst (makeRequest "dictionary" 10 [OpLoad None; OpReset "all"] fails 20 initial)
  = Resolved JsUndefined
  /\ settingWrites (snd (makeRequest "dictionary" 10 [OpLoad None; OpReset "all"] fails 20
                           initial))
     = [ {| sw_path := "api.usageStats"; sw_value := ∅; sw_saveImmediately := false |} ].
Proof.
  destruct (makeRequest_resolves_after_failed_reload
              "dictionary" 10 [] [OpReset "all"]
              (ThrownError {| err_name := "Error"; err_message := "boom" |}) 20 initial)
    as [_ Hcall].
  - vm_compute. eauto.
  - repeat constructor.
  - unfold fails. cbn [app] in Hcall. rewrite Hcall. split; reflexivity.
Defined.

(** ** When the statistics are saved *)




End ApiManagerFacts.


(** * Properties of feature-manager.js *)
Section FeatureManagerFacts.
Import FeatureManager.
Local Open Scope nat_scope.

(** ** Maps *)

Lemma eqb_decide (a b : string) : String.eqb a b = bool_decide (a = b).
Proof. destruct (String.eqb_spec a b); [rewrite bool_decide_eq_true_2|rewrite bool_decide_eq_false_2]; auto. Qed.

Lemma map_get_set_eq k v m : map_get k (map_set k v m) = Some v.
Proof.
  induction m as [|[k' v'] m IH]; cbn.
  - rewrite String.eqb_refl. reflexivity.
  - destruct (String.eqb_spec k' k) as [->|Hne]; cbn.
    + rewrite String.eqb_refl. reflexivity.
    + destruct (String.eqb_spec k' k); [contradiction|exact IH].
Qed.

Lemma map_get_set_ne k k' v m : k <> k' -> map_get k' (map_set k v m) = map_get k' m.
Proof.
  intros Hne. induction m as [|[k0 v0] m IH]; cbn.
  - destruct (String.eqb_spec k k'); [contradiction|reflexivity].
  - destruct (String.eqb_spec k0 k) as [->|Hne0]; cbn.
    + destruct (String.eqb_spec k k'); [contradiction|reflexivity].
    + destruct (String.eqb_spec k0 k'); [reflexivity|exact IH].
Qed.

Lemma map_get_delete_eq k m : map_get k (map_delete k m) = None.
Proof.
  induction m as [|[k' v'] m IH]; cbn; [reflexivity|].
  destruct (String.eqb_spec k' k) as [->|Hne]; cbn; [exact IH|].
  destruct (String.eqb_spec k' k); [contradiction|exact IH].
Qed.

Lemma map_get_delete_ne k k' m : k <> k' -> map_get k' (map_delete k m) = map_get k' m.
Proof.
  intros Hne. induction m as [|[k0 v0] m IH]; cbn; [reflexivity|].
  destruct (String.eqb_spec k0 k) as [->|Hne0]; cbn.
  - destruct (String.eqb_spec k k'); [contradiction|exact IH].
  - destruct (String.eqb_spec k0 k'); [reflexivity|exact IH].
Qed.

Lemma map_get_delete_Some k k' v m :
  map_get k' (map_delete k m) = Some v -> map_get k' m = Some v.
Proof.
  destruct (decide (k = k')) as [->|Hne].
  - rewrite map_get_delete_eq. discriminate.
  - rewrite map_get_delete_ne by exact Hne. auto.
Qed.

Lemma map_has_get k m : map_has k m = true <-> is_Some (map_get k m).
Proof.
  unfold map_has. destruct (map_get k m); split; eauto; try discriminate.
  intros [? [=]].
Qed.

Lemma map_has_false k m : map_has k m = false <-> map_get k m = None.
Proof. unfold map_has. destruct (map_get k m); split; auto; discriminate. Qed.

(** ** Stretches of [_activateFeature] *)

Lemma with_nextRef_same st : with_nextRef (nextRef st) st = st.
Proof. destruct st. reflexivity. Qed.

Lemma stage_hook_progress f def st : Progress f st (stage_hook f def st).
Proof.
  unfold stage_hook. destruct (onActivate def); [apply ProgressHook|apply ProgressActivated].
Qed.

Lemma stage_host_progress f def st : Progress f st (stage_host f def st).
Proof.
  unfold stage_host. destruct (nonempty _); [apply ProgressContains|apply stage_hook_progress].
Qed.

Lemma stage_optional_progress f def st : Progress f st (stage_optional f def st).
Proof.
  unfold stage_optional. destruct (nonempty _); [apply ProgressContains|apply stage_host_progress].
Qed.

Lemma stage_required_progress f def st : Progress f st (stage_required f def st).
Proof.
  unfold stage_required. destruct (nonempty _); [apply ProgressContains|apply stage_optional_progress].
Qed.

Lemma stage_conflicts_progress f def st : Progress f st (stage_conflicts f def st).
Proof.
  unfold stage_conflicts. destruct (find _ _); [apply ProgressThrows|apply stage_required_progress].
Qed.

Lemma stage_dependencies_progress f def deps st :
  Progress f st (stage_dependencies f def deps st).
Proof.
  induction deps as [|dep rest IH]; cbn [stage_dependencies]; [apply stage_conflicts_progress|].
  destruct (featureRegistry st !! dep) as [ddef|] eqn:Hreg; [|apply ProgressThrows].
  destruct (map_has dep (activeFeatures st)) eqn:Hact; [exact IH|].
  destruct (requestActivation dep st) as [[p queued] st1] eqn:Hreq.
  eapply ProgressDependency; eauto. apply map_has_false, Hact.
Qed.

Lemma _activateFeature_progress f st : Progress f st (_activateFeature f st).
Proof.
  unfold _activateFeature. destruct (featureRegistry st !! f);
    [apply stage_dependencies_progress|apply ProgressThrows].
Qed.

Lemma after_contains_progress f def step answer st :
  Progress f st (after_contains f def step answer st).
Proof.
  unfold after_contains. destruct answer, step;
    first [apply ProgressThrows | apply ProgressRequest | apply stage_optional_progress
          | apply stage_host_progress | apply stage_hook_progress].
Qed.

Lemma after_request_progress f def host answer st :
  Progress f st (after_request f def host answer st).
Proof.
  unfold after_request. destruct answer, host;
    first [apply ProgressThrows | apply stage_host_progress | apply stage_hook_progress].
Qed.

(** ** What [requestActivation] does *)

Lemma settle_open o st p :
  settled st !! p = None ->
  settle o st p = 
  {| featureRegistry := featureRegistry st; activeFeatures := activeFeatures st;
     pendingActivations := pendingActivations st; activationQueue := activationQueue st;
     processingQueue := processingQueue st; worker := worker st;
     settled := <[p := o]> (settled st);
     nextPromise := nextPromise st; nextRef := nextRef st;
     featureSettings := featureSettings st; log := log st |}.
Proof.
  intros H. unfold settle. destruct (decide _) as [[? Hs]|]; [congruence|reflexivity].
Qed.

Lemma settle_closed o st p : is_Some (settled st !! p) -> settle o st p = st.
Proof. intros H. unfold settle. destruct (decide _); [reflexivity|contradiction]. Qed.

Lemma requestActivation_spec featureId st p queued st1 :
  requestActivation featureId st = (p, queued, st1) ->
  p = nextPromise st /\ Requested featureId st p queued st1.
Proof.
  unfold requestActivation, new_promise.
  cbn [featureRegistry activeFeatures pendingActivations activationQueue snd].
  destruct (featureRegistry st !! featureId) as [def|] eqn:Hreg.
  2:{ intros [= <- <- <-]. split; [reflexivity|]. apply RequestedUnknown, Hreg. }
  destruct (map_get featureId (activeFeatures st)) as [instance|] eqn:Hact.
  { intros [= <- <- <-]. split; [reflexivity|]. eapply RequestedActive; eauto. }
  destruct (pendingActivations st !! featureId) as [promises|] eqn:Hpend.
  - intros [= <- <- <-]. split; [reflexivity|]. eapply RequestedJoined; eauto.
  - intros [= <- <- <-]. split; [reflexivity|]. eapply RequestedQueued; eauto.
Qed.

(** ** Well-formedness is kept *)

Ltac wf_fields H :=
  destruct H as [Hold Hopen Hdisj Hflag Hidle Hnodup Hqpend Hwpend Hsomewhere Hinactive Hdep].

Lemma wf_logged ev st : wf st -> wf (logged ev st).
Proof. intros H. wf_fields H. constructor; assumption. Qed.

Lemma wf_with_nextRef n st : wf st -> wf (with_nextRef n st).
Proof. intros H. wf_fields H. constructor; assumption. Qed.

(** The worker moves to another frame of the feature it is busy with. *)
Lemma wf_reframe st w f :
  wf st ->
  worker_feature (worker st) = Some f ->
  worker_feature w = Some f ->
  (forall id inst, is_Some (pendingActivations st !! id) ->
                   map_get id (activeFeatures st) = Some inst ->
                   w = AwaitActivation id (inr inst)) ->
  (forall f' def dep p rest, w = AwaitDependency f' def dep p rest ->
     exists promises, pendingActivations st !! dep = Some promises /\ p ∈ promises) ->
  wf (with_worker w st).
Proof.
  intros H Hf Hw Hact Hrec. wf_fields H.
  constructor; cbn; try assumption.
  - split; intros H'.
    + apply Hflag in H'. rewrite H' in Hf. discriminate.
    + rewrite H' in Hw. discriminate.
  - intros ->. discriminate.
  - intros id Hid. apply Hwpend. congruence.
  - intros id Hid. destruct (Hsomewhere id Hid); [auto|right; congruence].
Qed.

Lemma parked_no_active_pending f st id inst :
  parked f st -> is_Some (pendingActivations st !! id) ->
  map_get id (activeFeatures st) = Some inst -> False.
Proof.
  intros Hp Hid Hact. pose proof (wf_pending_inactive _ Hp id inst Hid Hact) as H.
  discriminate.
Qed.

Lemma with_worker_twice w w' st : with_worker w (with_worker w' st) = with_worker w st.
Proof. reflexivity. Qed.

(** A well-formed state whose worker waits outside is parked. *)
Lemma wf_parked st f :
  wf st -> worker_feature (worker st) = Some f ->
  (forall inst, worker st <> AwaitActivation f (inr inst)) ->
  parked f st.
Proof.
  intros H Hf Hnot. unfold parked. apply wf_reframe with f; auto.
  - intros id inst Hid Hact. exfalso.
    pose proof (wf_pending_inactive _ H id inst Hid Hact) as Hw.
    rewrite Hw in Hf. injection Hf as ->. exact (Hnot _ Hw).
  - discriminate.
Qed.

(** From a parked state, the worker can take any frame of the feature that
    does not claim an instance or a dependency. *)
Lemma parked_frame st f w :
  parked f st -> worker_feature w = Some f ->
  (forall id inst, w <> AwaitActivation id (inr inst)) ->
  (forall f' def dep p rest, w <> AwaitDependency f' def dep p rest) ->
  wf (with_worker w st).
Proof.
  intros Hp Hw Hnot Hnot'. rewrite <- (with_worker_twice w (AwaitActivation f (inl ""))).
  apply wf_reframe with f; auto.
  - intros id inst Hid Hact. exfalso. eapply parked_no_active_pending; eauto.
  - intros f' def dep p rest ->. exfalso. eapply Hnot'. reflexivity.
Qed.

(** The feature is made active. *)
Lemma parked_activated st f inst n :
  parked f st -> wf (activation_done f inst (with_nextRef n st)).
Proof.
  intros Hp. pose proof Hp as H. wf_fields H. cbn in *.
  constructor; cbn; try assumption.
  - split; [intros H; apply Hflag in H|]; discriminate.
  - discriminate.
  - intros id instance Hid Hact.
    destruct (decide (f = id)) as [<-|Hne].
    + rewrite map_get_set_eq in Hact. congruence.
    + rewrite map_get_set_ne in Hact by exact Hne.
      exfalso. eapply parked_no_active_pending; eauto.
  - discriminate.
Qed.

(** A request made while the worker is busy, or one that does not reach the
    queue. *)
Lemma wf_requested st id queued st1 :
  wf st -> Requested id st (nextPromise st) queued st1 ->
  worker st <> Idle \/ queued = false ->
  wf st1.
Proof.
  intros H Hreq Hbusy. pose proof H as H'. wf_fields H'.
  assert (Hfresh : settled st !! nextPromise st = None).
  { destruct (settled st !! nextPromise st) eqn:Hs; [|reflexivity].
    apply Hold in Hs. lia. }
  assert (Hsettle : forall o,
    wf (settle o (snd (new_promise st)) (nextPromise st))).
  { intros o. rewrite settle_open by exact Hfresh. constructor; cbn; try assumption.
    - intros p o'. rewrite lookup_insert. case_decide; [intros; lia|].
      intros Hp. apply Hold in Hp. lia.
    - intros f ps p Hf Hp. destruct (Hopen f ps p Hf Hp) as [Hlt Hnone].
      split; [lia|]. rewrite lookup_insert_ne by lia. exact Hnone. }
  destruct Hreq as [Hreg|def instance Hreg Hact|def promises Hreg Hact Hpend|def Hreg Hact Hpend].
  - apply Hsettle.
  - apply Hsettle.
  - constructor; cbn; try assumption.
    + intros p o Hp. apply Hold in Hp. lia.
    + intros f ps p. rewrite lookup_insert. case_decide as Hf.
      * intros [= <-] [Hp| ->%list_elem_of_singleton]%elem_of_app; [|split; [lia|exact Hfresh]].
        destruct (Hopen _ _ _ Hpend Hp). split; [lia|assumption].
      * intros Hf' Hp. destruct (Hopen _ _ _ Hf' Hp). split; [lia|assumption].
    + intros f f' ps ps' p. rewrite !lookup_insert.
      assert (Hnew : forall g qs, pendingActivations st !! g = Some qs ->
                                  nextPromise st ∈ qs -> False).
      { intros g qs Hg Hin. destruct (Hopen _ _ _ Hg Hin). lia. }
      repeat case_decide; subst; try tauto.
      * intros [= <-] Hf' [Hp| ->%list_elem_of_singleton]%elem_of_app Hp';
          [eapply Hdisj; eauto|exfalso; eapply Hnew; eauto].
      * intros Hf [= <-] Hp [Hp'| ->%list_elem_of_singleton]%elem_of_app;
          [eapply Hdisj; eauto|exfalso; eapply Hnew; eauto].
      * apply Hdisj.
    + intros f Hf. rewrite lookup_insert. case_decide; eauto.
    + intros f Hf. destruct (Hwpend f Hf). split; [|assumption].
      rewrite lookup_insert. case_decide; eauto.
    + intros f. rewrite lookup_insert. case_decide; [subst|apply Hsomewhere].
      intros _. apply Hsomewhere. eauto.
    + intros f inst. rewrite lookup_insert. case_decide; [subst; congruence|apply Hinactive].
    + intros f fdef dep p rest Hw. destruct (Hdep _ _ _ _ _ Hw) as (ps & Hps & Hp).
      destruct (decide (id = dep)) as [->|Hne].
      * rewrite lookup_insert_eq. eexists. split; [reflexivity|].
        assert (ps = promises) as -> by congruence. apply elem_of_app. auto.
      * rewrite lookup_insert_ne by exact Hne. eauto.
  - destruct Hbusy as [Hbusy|]; [|discriminate].
    assert (Hnotin : id ∉ activationQueue st).
    { intros Hin. apply Hqpend in Hin. rewrite Hpend in Hin. destruct Hin as [? [=]]. }
    constructor; cbn; try assumption.
    + intros p o Hp. apply Hold in Hp. lia.
    + intros f ps p. rewrite lookup_insert. case_decide as Hf.
      * intros [= <-] ->%list_elem_of_singleton. split; [lia|exact Hfresh].
      * intros Hf' Hp. destruct (Hopen _ _ _ Hf' Hp). split; [lia|assumption].
    + intros f f' ps ps' p. rewrite !lookup_insert.
      assert (Hnew : forall g qs, pendingActivations st !! g = Some qs ->
                                  nextPromise st ∈ qs -> False).
      { intros g qs Hg Hin. destruct (Hopen _ _ _ Hg Hin). lia. }
      repeat case_decide; subst; try tauto.
      * intros [= <-] Hf' ->%list_elem_of_singleton Hp'. exfalso; eapply Hnew; eauto.
      * intros Hf [= <-] Hp ->%list_elem_of_singleton. exfalso; eapply Hnew; eauto.
      * apply Hdisj.
    + intros Hw. contradiction.
    + apply NoDup_app. repeat split; [assumption| |apply NoDup_singleton].
      intros x Hx ->%list_elem_of_singleton. contradiction.
    + intros f [Hf| ->%list_elem_of_singleton]%elem_of_app;
        rewrite lookup_insert; case_decide; eauto; congruence.
    + intros f Hf. destruct (Hwpend f Hf) as [Hsome Hnot]. split.
      * rewrite lookup_insert. case_decide; eauto.
      * intros [Hin| ->%list_elem_of_singleton]%elem_of_app; [contradiction|].
        rewrite Hpend in Hsome. destruct Hsome as [? [=]].
    + intros f. rewrite lookup_insert. case_decide; [subst|].
      * intros _. left. apply elem_of_app. right. apply list_elem_of_singleton. reflexivity.
      * intros Hf. destruct (Hsomewhere f Hf); [left; apply elem_of_app|]; auto.
    + intros f inst. rewrite lookup_insert. case_decide; [subst; congruence|apply Hinactive].
    + intros f fdef dep p rest Hw. destruct (Hdep _ _ _ _ _ Hw) as (ps & Hps & Hp).
      rewrite lookup_insert_ne by congruence. eauto.
Qed.

Lemma progress_wf f st st' : parked f st -> Progress f st st' -> wf st'.
Proof.
  intros Hp Hprog. destruct Hprog as [def step|def host|message|def|inst n
                                      |def dep rest p queued st1 Hreg Hact Hreq].
  - apply parked_frame with f; auto; discriminate.
  - apply parked_frame with f; auto; discriminate.
  - apply parked_frame with f; auto; discriminate.
  - apply (parked_frame (logged (OnActivateCalled f) (with_nextRef (S (nextRef st)) st)) f);
      [|reflexivity|discriminate|discriminate].
    unfold parked.
    change (wf (logged (OnActivateCalled f)
                  (with_nextRef (S (nextRef st))
                     (with_worker (AwaitActivation f (inl "")) st)))).
    apply wf_logged, wf_with_nextRef. exact Hp.
  - apply parked_activated, Hp.
  - apply requestActivation_spec in Hreq as [-> Hreq].
    destruct Hreg as [ddef Hreg].
    assert (Hst1 : wf (with_worker (AwaitActivation f (inl "")) st1)
                   /\ exists promises, pendingActivations st1 !! dep = Some promises
                                       /\ nextPromise st ∈ promises).
    { destruct Hreq as [Hreg'|? ? ? Hact'|def' promises Hreg' Hact' Hpend|def' Hreg' Hact' Hpend];
        [congruence|congruence| |].
      - split.
        + apply (wf_requested (with_worker (AwaitActivation f (inl "")) st) dep false);
            [exact Hp| |auto].
          apply (RequestedJoined dep (with_worker (AwaitActivation f (inl "")) st) _
                   def' promises); assumption.
        + cbn. rewrite lookup_insert_eq. eexists. split; [reflexivity|].
          apply elem_of_app. right. apply list_elem_of_singleton. reflexivity.
      - split.
        + apply (wf_requested (with_worker (AwaitActivation f (inl "")) st) dep true);
            [exact Hp| |left; discriminate].
          apply (RequestedQueued dep (with_worker (AwaitActivation f (inl "")) st) _ def');
            assumption.
        + cbn. rewrite lookup_insert_eq. eexists. split; [reflexivity|].
          apply list_elem_of_singleton. reflexivity. }
    destruct Hst1 as [Hwf Hrec].
    rewrite <- (with_worker_twice _ (AwaitActivation f (inl ""))).
    apply wf_reframe with f; auto.
    + intros id inst Hid Hact'. exfalso.
      pose proof (wf_pending_inactive _ Hwf id inst Hid Hact'). discriminate.
    + intros f' def0 dep0 p0 rest0 [= <- <- <- <- <-]. exact Hrec.
Qed.

(** ** Delivery *)

Lemma fold_settle_fields o ps st :
  let st' := fold_left (settle o) ps st in
  featureRegistry st' = featureRegistry st /\ activeFeatures st' = activeFeatures st
  /\ pendingActivations st' = pendingActivations st
  /\ activationQueue st' = activationQueue st
  /\ processingQueue st' = processingQueue st /\ worker st' = worker st
  /\ nextPromise st' = nextPromise st /\ nextRef st' = nextRef st
  /\ featureSettings st' = featureSettings st /\ log st' = log st
  /\ forall q, settled st' !! q =
               match settled st !! q with
               | Some o' => Some o'
               | None => if decide (q ∈ ps) then Some o else None
               end.
Proof.
  revert st. induction ps as [|p ps IH]; intros st; cbn.
  - repeat split. intros q. destruct (settled st !! q); [reflexivity|].
    destruct (decide (q ∈ [])) as [Hin|]; [|reflexivity]. inversion Hin.
  - destruct (IH (settle o st p)) as (H1 & H2 & H3 & H4 & H5 & H6 & H7 & H8 & H9 & H10 & H11).
    cbn in *. rewrite H1, H2, H3, H4, H5, H6, H7, H8, H9, H10.
    unfold settle in *. destruct (decide (is_Some (settled st !! p))) as [Hs|Hn]; cbn in *.
    + repeat split. intros q. rewrite H11. destruct (settled st !! q) eqn:Hq; [reflexivity|].
      repeat case_decide; try reflexivity.
      * exfalso. apply H0. right. assumption.
      * apply elem_of_cons in H0 as [->|]; [|contradiction].
        rewrite Hq in Hs. destruct Hs as [? [=]].
    + repeat split. intros q. rewrite H11. rewrite lookup_insert.
      case_decide as Hpq.
      * subst q. destruct (settled st !! p) eqn:Hq; [exfalso; apply Hn; eauto|].
        rewrite decide_True by (left). reflexivity.
      * destruct (settled st !! q); [reflexivity|].
        repeat case_decide; try reflexivity.
        -- exfalso. apply H0. right. assumption.
        -- apply elem_of_cons in H0 as [->|]; [congruence|contradiction].
Qed.

(** The state after a delivery, field by field. *)
Lemma delivered_fields f r st :
  let st' := delivered f r st in
  let o := match r with inr feature => Resolved feature | inl message => Rejected message end in
  featureRegistry st' = featureRegistry st /\ activeFeatures st' = activeFeatures st
  /\ pendingActivations st' = delete f (pendingActivations st)
  /\ activationQueue st' = activationQueue st
  /\ processingQueue st' = processingQueue st /\ worker st' = worker st
  /\ nextPromise st' = nextPromise st /\ nextRef st' = nextRef st
  /\ featureSettings st' = featureSettings st /\ log st' = log st
  /\ forall q, settled st' !! q =
               match settled st !! q with
               | Some o' => Some o'
               | None => if decide (q ∈ default [] (pendingActivations st !! f))
                         then Some o else None
               end.
Proof.
  exact (fold_settle_fields _ (default [] (pendingActivations st !! f))
           (with_pending (delete f (pendingActivations st)) st)).
Qed.

Lemma delivered_core f r st :
  wf st -> worker st = AwaitActivation f r ->
  let st' := delivered f r st in
  (forall p o, settled st' !! p = Some o -> (p < nextPromise st')%nat)
  /\ (forall id ps p, pendingActivations st' !! id = Some ps -> p ∈ ps ->
        (p < nextPromise st')%nat /\ settled st' !! p = None)
  /\ (forall id id' ps ps' p,
        pendingActivations st' !! id = Some ps -> pendingActivations st' !! id' = Some ps' ->
        p ∈ ps -> p ∈ ps' -> id = id')
  /\ processingQueue st' = true
  /\ activationQueue st' = activationQueue st
  /\ (forall id, id ∈ activationQueue st -> is_Some (pendingActivations st' !! id))
  /\ (forall id, is_Some (pendingActivations st' !! id) -> id ∈ activationQueue st)
  /\ (forall id inst, is_Some (pendingActivations st' !! id) ->
        map_get id (activeFeatures st') = Some inst -> False).
Proof.
  intros H Hw st'. pose proof H as H'. wf_fields H'.
  destruct (delivered_fields f r st) as (_ & Hact & Hpend & Hq & Hfl & _ & Hnext & _ & _ & _ & Hset).
  fold st' in Hact, Hpend, Hq, Hfl, Hnext, Hset.
  destruct (Hwpend f) as [[promises Hf] Hnotin]; [rewrite Hw; reflexivity|].
  rewrite Hf in Hset. cbn [default] in Hset.
  repeat split.
  - intros p o. rewrite Hset, Hnext. destruct (settled st !! p) eqn:Hp.
    + intros _. eapply Hold. exact Hp.
    + case_decide as Hin; [|discriminate]. intros _. apply (Hopen _ _ _ Hf Hin).
  - rewrite Hnext. rewrite Hpend in H0. apply lookup_delete_Some in H0 as [_ H0].
    apply (Hopen _ _ _ H0 H1).
  - rewrite Hpend in H0. apply lookup_delete_Some in H0 as [Hne H0].
    rewrite Hset. destruct (Hopen _ _ _ H0 H1) as [_ ->].
    rewrite decide_False; [reflexivity|].
    intros Hin. apply Hne. eapply Hdisj; eauto.
  - intros id id' ps ps' p. rewrite Hpend.
    intros [_ H1]%lookup_delete_Some [_ H2]%lookup_delete_Some. eapply Hdisj; eauto.
  - rewrite Hfl. destruct (processingQueue st) eqn:Hp; [reflexivity|].
    exfalso. assert (worker st = Idle) by (apply Hflag; reflexivity). congruence.
  - exact Hq.
  - intros id Hid. rewrite Hpend, lookup_delete_ne; [apply Hqpend, Hid|].
    intros ->. contradiction.
  - intros id. rewrite Hpend. intros [ps [Hne Hid]%lookup_delete_Some].
    destruct (Hsomewhere id) as [Hin|Hwf]; [eauto|exact Hin|].
    rewrite Hw in Hwf. cbn in Hwf. congruence.
  - intros id inst. rewrite Hpend, Hact. intros [ps [Hne Hid]%lookup_delete_Some] Hactive.
    assert (Hwk : worker st = AwaitActivation id (inr inst)) by (apply Hinactive; eauto).
    congruence.
Qed.

Lemma wf_after_last_delivery f r st :
  wf st -> worker st = AwaitActivation f r -> activationQueue st = [] ->
  wf (with_worker Idle (with_processing false (with_queue [] (delivered f r st)))).
Proof.
  intros H Hw Hq.
  destruct (delivered_core f r st H Hw) as (H1 & H2 & H3 & H4 & H5 & H6 & H7 & H8).
  rewrite Hq in H7.
  assert (Hnone : forall id, is_Some (pendingActivations (delivered f r st) !! id) -> False).
  { intros id Hid. apply H7 in Hid. inversion Hid. }
  constructor; cbn; try assumption.
  - tauto.
  - reflexivity.
  - apply NoDup_nil_2.
  - intros id Hid. inversion Hid.
  - discriminate.
  - intros id Hid. exfalso. eauto.
  - intros id inst Hid. exfalso. eauto.
  - discriminate.
Qed.

Lemma parked_after_delivery f r next rest st :
  wf st -> worker st = AwaitActivation f r -> activationQueue st = next :: rest ->
  parked next (with_queue rest (delivered f r st)).
Proof.
  intros H Hw Hq.
  destruct (delivered_core f r st H Hw) as (H1 & H2 & H3 & H4 & H5 & H6 & H7 & H8).
  pose proof (wf_queue_nodup _ H) as Hnodup. rewrite Hq in Hnodup, H6, H7.
  apply NoDup_cons in Hnodup as [Hnotin Hnodup].
  constructor; cbn; try assumption.
  - split; [congruence|discriminate].
  - discriminate.
  - intros id Hid. apply H6. right. exact Hid.
  - intros id [= <-]. split; [apply H6; left|exact Hnotin].
  - intros id Hid. apply H7 in Hid. apply elem_of_cons in Hid as [->|]; auto.
  - intros id inst Hid Hact. exfalso. eauto.
  - discriminate.
Qed.

(** [processLoop] on a queue whose head is pending starts that feature; on an
    empty queue it releases the flag. *)
Lemma processLoop_head next rest st :
  is_Some (pendingActivations st !! next) ->
  processLoop (next :: rest) st = _activateFeature next (with_queue rest st).
Proof. intros [ps Hps]. cbn. rewrite Hps. reflexivity. Qed.

Lemma after_activation_delivered f r st :
  after_activation f r st = processLoop (activationQueue (delivered f r st)) (delivered f r st).
Proof. reflexivity. Qed.

(** The first request made of an idle manager. *)
Lemma parked_start st id st1 :
  wf st -> worker st = Idle -> Requested id st (nextPromise st) true st1 ->
  parked id (with_queue [] (with_processing true st1)).
Proof.
  intros H Hw Hreq. pose proof H as H'. wf_fields H'.
  assert (Hq : activationQueue st = []) by auto.
  assert (Hnone : forall f, pendingActivations st !! f = None).
  { intros f. destruct (pendingActivations st !! f) eqn:Hf; [|reflexivity].
    destruct (Hsomewhere f) as [Hin|Hwf]; [eauto| |].
    - rewrite Hq in Hin. inversion Hin.
    - rewrite Hw in Hwf. discriminate. }
  inversion Hreq as [| | |def Hreg Hact Hpend]; subst.
  constructor; cbn.
  - intros p o Hp. apply Hold in Hp. lia.
  - intros f ps p. rewrite lookup_insert. case_decide; [|rewrite Hnone; discriminate].
    intros [= <-] ->%list_elem_of_singleton. split; [lia|].
    destruct (settled st !! nextPromise st) eqn:Hs; [|reflexivity]. apply Hold in Hs. lia.
  - intros f f' ps ps' p. rewrite !lookup_insert, !Hnone.
    repeat case_decide; try discriminate. congruence.
  - split; discriminate.
  - discriminate.
  - apply NoDup_nil_2.
  - intros f Hf. inversion Hf.
  - intros f [= <-]. rewrite lookup_insert_eq. split; [eauto|]. intros Hf. inversion Hf.
  - intros f. rewrite lookup_insert, Hnone. case_decide; [subst; auto|intros [? [=]]].
  - intros f inst. rewrite lookup_insert, Hnone.
    case_decide; [subst; congruence|intros [? [=]]].
  - discriminate.
Qed.

(** ** Every event is a transition *)

Lemma step_transition st ev : wf st -> Transition st (step st ev).
Proof.
  intros H. destruct ev as [id| |answer|result|id].
  - (* Activate *)
    unfold step. replace (match worker st with Idle | _ => (activateFeature id st).2 end)
      with (activateFeature id st).2 by (destruct (worker st); reflexivity).
    unfold activateFeature.
    destruct (requestActivation id st) as [[p queued] st1] eqn:Hreq.
    pose proof Hreq as Hspec. apply requestActivation_spec in Hspec as [-> Hspec].
    destruct queued; cbn [snd]; [|eapply TransitionRequest; eauto].
    unfold processActivationQueue.
    assert (Hflag1 : processingQueue st1 = processingQueue st)
      by (inversion Hspec; reflexivity).
    rewrite Hflag1. destruct (processingQueue st) eqn:Hflag.
    + eapply TransitionRequest; eauto. left. intros Hidle.
      apply (wf_flag _ H) in Hidle. congruence.
    + assert (Hidle : worker st = Idle) by (apply (wf_flag _ H); exact Hflag).
      pose proof (wf_idle_queue _ H Hidle) as Hq.
      assert (Hq1 : activationQueue st1 = [id])
        by (inversion Hspec; cbn; rewrite Hq; reflexivity).
      assert (Hp1 : is_Some (pendingActivations (with_processing true st1) !! id))
        by (inversion Hspec; cbn; rewrite lookup_insert_eq; eauto).
      rewrite Hq1, processLoop_head by exact Hp1.
      eapply TransitionStart; eauto. apply _activateFeature_progress.
  - (* Tick *)
    unfold step. destruct (worker st) as [|f def dep p rest| | | |f r] eqn:Hw;
      try apply TransitionNone.
    + destruct (wf_dependency_recorded _ H _ _ _ _ _ Hw) as (ps & Hps & Hp).
      destruct (wf_pending_open _ H _ _ _ Hps Hp) as [_ ->]. apply TransitionNone.
    + rewrite after_activation_delivered.
      destruct (delivered_core f r st H Hw) as (_ & _ & _ & _ & Hq & Hqp & _).
      rewrite Hq. destruct (activationQueue st) as [|next rest] eqn:Hqueue.
      * apply (TransitionDeliverLast st f r); assumption.
      * rewrite processLoop_head by (apply Hqp; left).
        eapply TransitionDeliverNext; eauto. apply _activateFeature_progress.
  - (* PermissionAnswered *)
    unfold step. destruct (worker st) as [| |f def what|f def host| |] eqn:Hw;
      try apply TransitionNone.
    + apply TransitionAnswered with f; [rewrite Hw; reflexivity|rewrite Hw; exact I|].
      apply after_contains_progress.
    + apply TransitionAnswered with f; [rewrite Hw; reflexivity|rewrite Hw; exact I|].
      apply after_request_progress.
  - (* HookSettled *)
    unfold step. destruct (worker st) as [| | | |f def inst|] eqn:Hw;
      try (destruct result; apply TransitionNone).
    destruct result as [|message].
    + eapply TransitionHookReturned. exact Hw.
    + eapply TransitionHookThrew. exact Hw.
  - (* ActiveDeleted *)
    unfold step. destruct (worker st); apply TransitionDeleted.
Qed.

Lemma wf_deleted id st :
  wf st ->
  wf (logged (FeatureDeactivated id) (with_active (map_delete id (activeFeatures st)) st)).
Proof.
  intros H. wf_fields H. constructor; cbn; try assumption.
  intros f inst Hf Hact. apply Hinactive; [exact Hf|].
  eapply map_get_delete_Some. exact Hact.
Qed.

Lemma waiting_parked st f :
  wf st -> worker_feature (worker st) = Some f ->
  (forall r, worker st <> AwaitActivation f r) -> parked f st.
Proof. intros H Hf Hout. apply wf_parked; auto. Qed.

Lemma transition_wf st st' : wf st -> Transition st st' -> wf st'.
Proof.
  intros H Ht. destruct Ht as [|id p queued st1 Hreq Hbusy|id p st1 st' Hidle Hreq Hprog
                               |id|f st' Hf Hout Hprog|f def inst Hw|f def inst message Hw
                               |f r Hw Hq|f r next rest st' Hw Hq Hprog].
  - exact H.
  - apply requestActivation_spec in Hreq as [-> Hreq]. eapply wf_requested; eauto.
  - apply requestActivation_spec in Hreq as [-> Hreq].
    eapply progress_wf; [|exact Hprog]. apply (parked_start st); assumption.
  - apply wf_deleted, H.
  - eapply progress_wf; [|exact Hprog]. apply waiting_parked; [assumption..|].
    intros r Hw. rewrite Hw in Hout. exact Hout.
  - rewrite <- (with_nextRef_same st). apply parked_activated.
    apply waiting_parked; [assumption|rewrite Hw; reflexivity|congruence].
  - apply (progress_wf f st); [|apply ProgressThrows].
    apply waiting_parked; [assumption|rewrite Hw; reflexivity|congruence].
  - apply wf_after_last_delivery; assumption.
  - eapply progress_wf; [|exact Hprog]. eapply parked_after_delivery; eauto.
Qed.

Lemma step_wf st ev : wf st -> wf (step st ev).
Proof. intros H. eapply transition_wf; [exact H|apply step_transition, H]. Qed.

Lemma run_wf st evs : wf st -> wf (run st evs).
Proof.
  revert st. induction evs as [|ev evs IH]; intros st H; [exact H|].
  apply IH, step_wf, H.
Qed.

Lemma initial_wf defs : wf (initial defs).
Proof.
  assert (Hnone : forall id : string, ~ is_Some ((∅ : gmap string (list nat)) !! id)).
  { intros id [? H]. rewrite lookup_empty in H. discriminate. }
  constructor; cbn.
  - intros p o H. rewrite lookup_empty in H. discriminate.
  - intros f ps p H. rewrite lookup_empty in H. discriminate.
  - intros f f' ps ps' p H. rewrite lookup_empty in H. discriminate.
  - tauto.
  - reflexivity.
  - apply NoDup_nil_2.
  - intros f Hf. inversion Hf.
  - discriminate.
  - intros f Hf. exfalso. eapply Hnone, Hf.
  - intros f inst Hf. exfalso. eapply Hnone, Hf.
  - discriminate.
Qed.

(** The worker holds [processingQueue] for as long as it is busy: the
    [activateFeature] called inside [_activateFeature] finds the flag set. *)
Lemma worker_holds_flag st :
  wf st -> worker st <> Idle -> processingQueue st = true.
Proof.
  intros H Hbusy. destruct (processingQueue st) eqn:Hflag; [reflexivity|].
  exfalso. apply Hbusy, (wf_flag _ H), Hflag.
Qed.

(** ** What the transitions leave alone *)

Lemma extends_refl pa : extends pa pa.
Proof. intros id ps H. eauto. Qed.

Lemma extends_trans pa pa' pa'' : extends pa pa' -> extends pa' pa'' -> extends pa pa''.
Proof.
  intros H H' id ps Hid. destruct (H id ps Hid) as (ps' & Hid' & Hsub).
  destruct (H' id ps' Hid') as (ps'' & Hid'' & Hsub'). eauto.
Qed.

Lemma extends_append pa id ps p :
  pa !! id = Some ps -> extends pa (<[id := ps ++ [p]]> pa).
Proof.
  intros Hid id' ps' Hid'. rewrite lookup_insert. case_decide; [subst|eauto].
  assert (ps' = ps) as -> by congruence.
  eexists. split; [reflexivity|]. intros q Hq. apply elem_of_app. auto.
Qed.

Lemma extends_new pa id ps : pa !! id = None -> extends pa (<[id := ps]> pa).
Proof.
  intros Hid id' ps' Hid'. rewrite lookup_insert_ne by congruence. eauto.
Qed.

Lemma settled_settle o st p q : q <> p -> settled (settle o st p) !! q = settled st !! q.
Proof.
  intros Hne. unfold settle. destruct (decide _); [reflexivity|].
  cbn. rewrite lookup_insert_ne by congruence. reflexivity.
Qed.

Lemma settle_fields o st p :
  featureRegistry (settle o st p) = featureRegistry st
  /\ activeFeatures (settle o st p) = activeFeatures st
  /\ pendingActivations (settle o st p) = pendingActivations st
  /\ activationQueue (settle o st p) = activationQueue st
  /\ worker (settle o st p) = worker st
  /\ log (settle o st p) = log st.
Proof. unfold settle. destruct (decide _); repeat split. Qed.

Lemma requested_effects id st p queued st1 :
  Requested id st p queued st1 ->
  featureRegistry st1 = featureRegistry st
  /\ activeFeatures st1 = activeFeatures st
  /\ worker st1 = worker st
  /\ log st1 = log st
  /\ extends (pendingActivations st) (pendingActivations st1)
  /\ (forall q, q <> p -> settled st1 !! q = settled st !! q).
Proof.
  intros [Hreg|def inst Hreg Hact|def ps Hreg Hact Hpend|def Hreg Hact Hpend].
  - destruct (settle_fields (Rejected (msg_not_found id)) (snd (new_promise st)) p)
      as (-> & -> & -> & _ & -> & ->).
    repeat split; [apply extends_refl|]. intros q Hq. rewrite settled_settle by exact Hq.
    reflexivity.
  - destruct (settle_fields (Resolved inst) (snd (new_promise st)) p)
      as (-> & -> & -> & _ & -> & ->).
    repeat split; [apply extends_refl|]. intros q Hq. rewrite settled_settle by exact Hq.
    reflexivity.
  - repeat split. apply extends_append, Hpend.
  - repeat split. apply extends_new, Hpend.
Qed.

Lemma hookCalls_app x l l' : hookCalls x (l ++ l') = (hookCalls x l + hookCalls x l')%nat.
Proof. unfold hookCalls. rewrite List.filter_app, length_app. reflexivity. Qed.

Lemma progress_effects f st st' :
  Progress f st st' ->
  featureRegistry st' = featureRegistry st
  /\ settled st' = settled st
  /\ extends (pendingActivations st) (pendingActivations st')
  /\ worker_feature (worker st') = Some f
  /\ (forall x, hookCalls x (log st') = (hookCalls x (log st) + hook_awaited x (worker st'))%nat)
  /\ (forall id, id <> f -> map_get id (activeFeatures st') = map_get id (activeFeatures st))
  /\ (forall inst, map_get f (activeFeatures st') = Some inst ->
        map_get f (activeFeatures st) = Some inst \/ worker st' = AwaitActivation f (inr inst)).
Proof.
  intros [def step|def host|message|def|inst n|def dep rest p queued st1 Hreg Hact Hreq].
  1-3: (cbn; repeat split; auto using extends_refl).
  - cbn. repeat split; auto using extends_refl. intros x.
    change (hookCalls x (log st ++ [OnActivateCalled f])
            = (hookCalls x (log st) + (if String.eqb f x then 1 else 0))%nat).
    rewrite hookCalls_app. cbn. destruct (String.eqb f x); reflexivity.
  - cbn. repeat split; auto using extends_refl.
    + intros x. change (hookCalls x (log st ++ [FeatureActivated f])
                        = (hookCalls x (log st) + 0)%nat).
      rewrite hookCalls_app. reflexivity.
    + intros id Hne. apply map_get_set_ne. congruence.
    + intros inst'. rewrite map_get_set_eq. intros [= <-]. right. reflexivity.
  - apply requestActivation_spec in Hreq as [-> Hreq].
    destruct (requested_effects _ _ _ _ _ Hreq) as (Hr & Ha & _ & Hl & Hext & Hset).
    assert (Hs : settled st1 = settled st).
    { inversion Hreq as [Hr'| ? ? Hr' Ha'| |]; subst; cbn; try reflexivity.
      - destruct Hreg as [? Hreg]. congruence.
      - congruence. }
    cbn. rewrite Hr, Ha, Hl, Hs. repeat split; auto.
Qed.

Lemma delivered_effects f r st :
  featureRegistry (delivered f r st) = featureRegistry st
  /\ activeFeatures (delivered f r st) = activeFeatures st
  /\ log (delivered f r st) = log st
  /\ (forall q o, settled st !! q = Some o -> settled (delivered f r st) !! q = Some o).
Proof.
  destruct (delivered_fields f r st) as (H1 & H2 & _ & _ & _ & _ & _ & _ & _ & H10 & H11).
  repeat split; auto. intros q o Hq. rewrite H11, Hq. reflexivity.
Qed.

(** The registry is never written, and a settled promise stays as it is. *)
Lemma transition_stable st st' :
  wf st -> Transition st st' ->
  featureRegistry st' = featureRegistry st
  /\ (forall q o, settled st !! q = Some o -> settled st' !! q = Some o).
Proof.
  intros H Ht. destruct Ht as [|id p queued st1 Hreq Hbusy|id p st1 st' Hidle Hreq Hprog
                               |id|f st' Hf Hout Hprog|f def inst Hw|f def inst message Hw
                               |f r Hw Hq|f r next rest st' Hw Hq Hprog]; cbn; auto.
  - apply requestActivation_spec in Hreq as [-> Hreq].
    destruct (requested_effects _ _ _ _ _ Hreq) as (-> & _ & _ & _ & _ & Hset).
    split; [reflexivity|]. intros q o Hq. rewrite Hset; [exact Hq|].
    apply (wf_settled_old _ H) in Hq. lia.
  - apply requestActivation_spec in Hreq as [-> Hreq].
    destruct (requested_effects _ _ _ _ _ Hreq) as (Hr & _ & _ & _ & _ & Hset).
    destruct (progress_effects _ _ _ Hprog) as (-> & -> & _). cbn.
    split; [exact Hr|]. intros q o Hq. rewrite Hset; [exact Hq|].
    apply (wf_settled_old _ H) in Hq. lia.
  - destruct (progress_effects _ _ _ Hprog) as (-> & -> & _). auto.
  - destruct (delivered_effects f r st) as (-> & _ & _ & Hset). auto.
  - destruct (progress_effects _ _ _ Hprog) as (-> & -> & _). cbn.
    destruct (delivered_effects f r st) as (-> & _ & _ & Hset). auto.
Qed.

Lemma run_stable st evs :
  wf st ->
  featureRegistry (run st evs) = featureRegistry st
  /\ (forall q o, settled st !! q = Some o -> settled (run st evs) !! q = Some o).
Proof.
  revert st. induction evs as [|ev evs IH]; intros st H; [cbn; auto|].
  change (run st (ev :: evs)) with (run (step st ev) evs).
  destruct (transition_stable st (step st ev) H (step_transition st ev H)) as [Hr Hs].
  destruct (IH (step st ev) (step_wf st ev H)) as [Hr' Hs'].
  split; [congruence|auto].
Qed.

(** ** A call of [activateFeature] on an idle manager *)

Lemma idle_nothing_pending st id :
  wf st -> worker st = Idle -> pendingActivations st !! id = None.
Proof.
  intros H Hidle. destruct (pendingActivations st !! id) eqn:Hid; [|reflexivity].
  destruct (wf_pending_somewhere _ H id) as [Hin|Hw]; [eauto| |].
  - rewrite (wf_idle_queue _ H Hidle) in Hin. inversion Hin.
  - rewrite Hidle in Hw. discriminate.
Qed.

Lemma fresh_promise_open st : wf st -> settled st !! nextPromise st = None.
Proof.
  intros H. destruct (settled st !! nextPromise st) eqn:Hs; [|reflexivity].
  apply (wf_settled_old _ H) in Hs. lia.
Qed.

Lemma activateFeature_idle st F def :
  wf st -> worker st = Idle ->
  featureRegistry st !! F = Some def ->
  map_get F (activeFeatures st) = None ->
  activateFeature F st
  = (nextPromise st, stage_dependencies F def (dependencies def) (entered F st)).
Proof.
  intros H Hidle Hreg Hact.
  pose proof (idle_nothing_pending st F H Hidle) as Hpend.
  pose proof (wf_idle_queue _ H Hidle) as Hq.
  assert (Hflag : processingQueue st = false) by (apply (wf_flag _ H); exact Hidle).
  clear H. unfold entered, new_promise.
  destruct st as [reg act pend queue flag w stl np nr fs lg]. cbn in *. subst.
  unfold activateFeature, requestActivation, new_promise. cbn.
  rewrite Hreg, Hact, Hpend. cbn. unfold processActivationQueue. cbn.
  unfold with_queue, with_pending, with_processing. cbn.
  rewrite lookup_insert_eq. unfold _activateFeature. cbn. rewrite Hreg. reflexivity.
Qed.

Lemma stage_dependencies_active f def before more st :
  (forall d, d ∈ before ->
     is_Some (featureRegistry st !! d) /\ map_has d (activeFeatures st) = true) ->
  stage_dependencies f def (before ++ more) st = stage_dependencies f def more st.
Proof.
  induction before as [|d before IH]; intros Hall; [reflexivity|].
  cbn [app stage_dependencies].
  destruct (Hall d) as [[ddef ->] ->]; [left|].
  apply IH. intros d' Hd'. apply Hall. right. exact Hd'.
Qed.



(** ** A worker that awaits a dependency *)

Lemma hookCalls_deactivated x l id :
  hookCalls x (l ++ [FeatureDeactivated id]) = hookCalls x l.
Proof. rewrite hookCalls_app. cbn. lia. Qed.

(** Whatever happens next, the worker stays where it is, no feature becomes
    active and no activation hook is called. *)
Lemma blocked_transition st st' f def dep p rest :
  wf st -> worker st = AwaitDependency f def dep p rest -> Transition st st' ->
  worker st' = worker st
  /\ extends (pendingActivations st) (pendingActivations st')
  /\ (forall id, map_get id (activeFeatures st) = None ->
                 map_get id (activeFeatures st') = None)
  /\ (forall x, hookCalls x (log st') = hookCalls x (log st)).
Proof.
  intros H Hw Ht.
  destruct Ht as [|id q queued st1 Hreq Hbusy|id q st1 st' Hidle Hreq Hprog
                  |id|g st' Hg Hout Hprog|g gdef inst Hw'|g gdef inst message Hw'
                  |g r Hw' Hq|g r next more st' Hw' Hq Hprog];
    try congruence.
  - repeat split; auto using extends_refl.
  - apply requestActivation_spec in Hreq as [-> Hreq].
    destruct (requested_effects _ _ _ _ _ Hreq) as (_ & -> & -> & -> & Hext & _).
    repeat split; auto.
  - split; [reflexivity|]. split; [apply extends_refl|]. split.
    + intros id' Hnone. cbn.
      destruct (map_get id' (map_delete id (activeFeatures st))) eqn:Hd; [|reflexivity].
      apply map_get_delete_Some in Hd. congruence.
    + intros x. apply hookCalls_deactivated.
  - rewrite Hw in Hout. contradiction.
Qed.

Lemma blocked_run st f def dep p rest evs :
  wf st -> worker st = AwaitDependency f def dep p rest ->
  wf (run st evs)
  /\ worker (run st evs) = worker st
  /\ extends (pendingActivations st) (pendingActivations (run st evs))
  /\ (forall id, map_get id (activeFeatures st) = None ->
                 map_get id (activeFeatures (run st evs)) = None)
  /\ (forall x, hookCalls x (log (run st evs)) = hookCalls x (log st)).
Proof.
  revert st. induction evs as [|ev evs IH]; intros st H Hw.
  - cbn. split; [exact H|]. repeat split; auto using extends_refl.
  - change (run st (ev :: evs)) with (run (step st ev) evs).
    destruct (blocked_transition st (step st ev) f def dep p rest H Hw
                (step_transition st ev H)) as (Hw1 & Hext1 & Hact1 & Hlog1).
    destruct (IH (step st ev) (step_wf st ev H)) as (Hwf2 & Hw2 & Hext2 & Hact2 & Hlog2);
      [congruence|].
    split; [exact Hwf2|]. split; [congruence|]. split; [eapply extends_trans; eauto|].
    split; [auto|]. intros x. rewrite Hlog2, Hlog1. reflexivity.
Qed.

(** C1 - the code deadlocks on an inactive dependency.  Let A be registered
    and not active, and let B be the first dependency A declares that is not
    active, B being registered.  When [activateFeature(A)] is called on a
    manager that is processing no activation, the worker starts
    [_activateFeature(A)], which awaits [activateFeature(B)]; that call only
    queues B, because the worker holds [processingQueue], and the promise it
    returns can be settled by the worker alone.  Whatever happens afterwards,
    the promise of A never settles, neither A nor B becomes active, no
    activation hook is called, and the worker never leaves that await. *)
Theorem activateFeature_blocks_on_inactive_dependency
    (st : State) (A B : string) (def : FeatureDefinition) (before rest : list string)
    (evs : list Event) :
  wf st -> worker st = Idle ->
  featureRegistry st !! A = Some def ->
  map_get A (activeFeatures st) = None ->
  dependencies def = before ++ B :: rest ->
  (forall d, d ∈ before ->
     is_Some (featureRegistry st !! d) /\ map_has d (activeFeatures st) = true) ->
  is_Some (featureRegistry st !! B) ->
  map_get B (activeFeatures st) = None ->
  let p := fst (activateFeature A st) in
  let st' := run (snd (activateFeature A st)) evs in
  settled st' !! p = None
  /\ map_get A (activeFeatures st') = None
  /\ map_get B (activeFeatures st') = None
  /\ (forall x, hookCalls x (log st') = hookCalls x (log st))
  /\ processingQueue st' = true
  /\ exists pB, worker st' = AwaitDependency A def B pB rest /\ settled st' !! pB = None.
Proof.
  intros H Hidle Hreg Hact Hdeps Hbefore [Bdef HregB] HactB p st'.
  assert (Hwf1 : wf (snd (activateFeature A st))) by (apply (step_wf st (Activate A) H)).
  subst p st'. revert Hwf1.
  rewrite (activateFeature_idle st A def H Hidle Hreg Hact). cbn [fst snd].
  rewrite Hdeps, stage_dependencies_active by exact Hbefore.
  cbn [stage_dependencies]. cbn [featureRegistry activeFeatures entered with_queue
                                  with_processing with_pending new_promise snd].
  rewrite HregB. unfold map_has. rewrite HactB.
  destruct (requestActivation B (entered A st)) as [[pB queued] st1] eqn:Hreq.
  intros Hwf1.
  apply requestActivation_spec in Hreq as [-> Hreq].
  destruct (requested_effects _ _ _ _ _ Hreq) as (_ & Hact1 & _ & Hlog1 & Hext1 & _).
  destruct (blocked_run (with_worker (AwaitDependency A def B (nextPromise (entered A st)) rest) st1)
              A def B (nextPromise (entered A st)) rest evs Hwf1 eq_refl)
    as (Hwf2 & Hw2 & Hext2 & Hact2 & Hlog2).
  set (st' := run _ evs) in *.
  assert (HpA : exists ps, pendingActivations st' !! A = Some ps /\ nextPromise st ∈ ps).
  { destruct (Hext1 A [nextPromise st]) as (ps1 & Hps1 & Hsub1);
      [cbn; apply lookup_insert_eq|].
    destruct (Hext2 A ps1 Hps1) as (ps2 & Hps2 & Hsub2).
    exists ps2. split; [exact Hps2|]. apply Hsub2, Hsub1, list_elem_of_singleton. reflexivity. }
  destruct HpA as (ps & Hps & Hin).
  split; [|split; [|split; [|split; [|split]]]].
  - apply (wf_pending_open _ Hwf2 _ _ _ Hps Hin).
  - apply Hact2. cbn. rewrite Hact1. exact Hact.
  - apply Hact2. cbn. rewrite Hact1. exact HactB.
  - intros x. rewrite Hlog2. cbn. rewrite Hlog1. reflexivity.
  - apply worker_holds_flag; [exact Hwf2|]. rewrite Hw2. discriminate.
  - exists (nextPromise (entered A st)). split; [exact Hw2|].
    destruct (wf_dependency_recorded _ Hwf2 _ _ _ _ _ Hw2) as (psB & HpsB & HinB).
    apply (wf_pending_open _ Hwf2 _ _ _ HpsB HinB).
Qed.

(** ** Two callers of one activation *)

Lemma tied_quiet F p1 p2 st st' :
  tied F p1 p2 st ->
  settled st' !! p1 = settled st !! p1 ->
  settled st' !! p2 = settled st !! p2 ->
  extends (pendingActivations st) (pendingActivations st') ->
  (forall inst, worker st = AwaitActivation F (inr inst) -> worker st' = worker st) ->
  tied F p1 p2 st'.
Proof.
  intros [Hopen Hdone] H1 H2 Hext Hw. split.
  - rewrite H1. intros Hnone. destruct (Hopen Hnone) as (ps & Hps & Hp1 & Hp2).
    destruct (Hext _ _ Hps) as (ps' & Hps' & Hsub).
    exists ps'. split; [exact Hps'|]. split; [auto|].
    destruct Hp2 as [Hp2|(inst & Hs & Hwi)]; [left; auto|].
    right. exists inst. rewrite H2, (Hw inst Hwi). auto.
  - intros o. rewrite H1, H2. apply Hdone.
Qed.

Lemma tied_old F p1 p2 st :
  wf st -> tied F p1 p2 st -> (p1 < nextPromise st)%nat /\ (p2 < nextPromise st)%nat.
Proof.
  intros H [Hopen Hdone]. destruct (settled st !! p1) as [o|] eqn:Hs.
  - split; [eapply wf_settled_old; eauto|].
    eapply (wf_settled_old _ H). apply Hdone. reflexivity.
  - destruct (Hopen eq_refl) as (ps & Hps & Hp1 & [Hp2|(inst & Hs2 & _)]).
    + split; eapply (wf_pending_open _ H); eauto.
    + split; [eapply (wf_pending_open _ H); eauto|eapply (wf_settled_old _ H); eauto].
Qed.

Lemma tied_delivered F p1 p2 f r st st' :
  wf st -> tied F p1 p2 st -> worker st = AwaitActivation f r ->
  settled st' = settled (delivered f r st) ->
  extends (delete f (pendingActivations st)) (pendingActivations st') ->
  tied F p1 p2 st'.
Proof.
  intros H [Hopen Hdone] Hw Hs Hext.
  destruct (delivered_fields f r st) as (_ & _ & _ & _ & _ & _ & _ & _ & _ & _ & Hset).
  destruct (settled st !! p1) as [o|] eqn:Hs1.
  - pose proof (Hdone o eq_refl) as Hs2. split.
    + rewrite Hs, Hset, Hs1. discriminate.
    + intros o'. rewrite !Hs, !Hset, Hs1, Hs2. auto.
  - destruct (Hopen eq_refl) as (ps & Hps & Hp1 & Hp2).
    destruct (decide (f = F)) as [->|Hne].
    + assert (H1 : settled st' !! p1
                   = Some match r with inr i => Resolved i | inl m => Rejected m end).
      { rewrite Hs, Hset, Hs1, Hps. cbn. rewrite decide_True by exact Hp1. reflexivity. }
      split; [rewrite H1; discriminate|]. intros o'. rewrite H1. intros [= <-].
      rewrite Hs, Hset. destruct Hp2 as [Hp2|(inst & Hs2 & Hwi)].
      * destruct (wf_pending_open _ H _ _ _ Hps Hp2) as [_ ->]. rewrite Hps. cbn.
        rewrite decide_True by exact Hp2. reflexivity.
      * rewrite Hs2. rewrite Hw in Hwi. injection Hwi as ->. reflexivity.
    + assert (Hp1' : settled st' !! p1 = None).
      { rewrite Hs, Hset, Hs1.
        destruct (pendingActivations st !! f) as [psf|] eqn:Hpsf; cbn.
        - rewrite decide_False; [reflexivity|]. intros Hin. apply Hne.
          eapply (wf_pending_disjoint _ H); eauto.
        - rewrite decide_False; [reflexivity|]. apply not_elem_of_nil. }
      split; [|rewrite Hp1'; discriminate].
      intros _. destruct (Hext F ps) as (ps' & Hps' & Hsub).
      { rewrite lookup_delete_ne by exact Hne. exact Hps. }
      exists ps'. split; [exact Hps'|]. split; [auto|]. left. apply Hsub.
      destruct Hp2 as [Hp2|(inst & _ & Hwi)]; [exact Hp2|]. rewrite Hw in Hwi. congruence.
Qed.

(** The tie between two callers holds from one event to the next. *)
Lemma tied_transition F p1 p2 st st' :
  wf st -> tied F p1 p2 st -> Transition st st' -> tied F p1 p2 st'.
Proof.
  intros H Ht Htr. destruct (tied_old _ _ _ _ H Ht) as [Hp1 Hp2].
  destruct Htr as [|id p queued st1 Hreq Hbusy|id p st1 st' Hidle Hreq Hprog
                   |id|f st' Hf Hout Hprog|f def inst Hw|f def inst message Hw
                   |f r Hw Hq|f r next rest st' Hw Hq Hprog].
  - exact Ht.
  - apply requestActivation_spec in Hreq as [-> Hreq].
    destruct (requested_effects _ _ _ _ _ Hreq) as (_ & _ & Hw & _ & Hext & Hset).
    apply (tied_quiet F p1 p2 st); auto; apply Hset; lia.
  - apply requestActivation_spec in Hreq as [-> Hreq].
    destruct (requested_effects _ _ _ _ _ Hreq) as (_ & _ & Hw & _ & Hext & Hset).
    destruct (progress_effects _ _ _ Hprog) as (_ & Hs & Hext' & _). cbn in Hs, Hext'.
    apply (tied_quiet F p1 p2 st); auto.
    + rewrite Hs. apply Hset; lia.
    + rewrite Hs. apply Hset; lia.
    + eapply extends_trans; eauto.
    + intros inst Hwi. congruence.
  - apply (tied_quiet F p1 p2 st); auto using extends_refl.
  - destruct (progress_effects _ _ _ Hprog) as (_ & Hs & Hext & _).
    apply (tied_quiet F p1 p2 st); rewrite ?Hs; auto.
    intros inst Hwi. rewrite Hwi in Hout. destruct Hout.
  - apply (tied_quiet F p1 p2 st); auto using extends_refl. intros; congruence.
  - apply (tied_quiet F p1 p2 st); auto using extends_refl. intros; congruence.
  - apply (tied_delivered F p1 p2 f r st); auto. cbn.
    destruct (delivered_fields f r st) as (_ & _ & -> & _). apply extends_refl.
  - destruct (progress_effects _ _ _ Hprog) as (_ & Hs & Hext & _). cbn in Hs, Hext.
    apply (tied_delivered F p1 p2 f r st); auto.
    destruct (delivered_fields f r st) as (_ & _ & <- & _). exact Hext.
Qed.

(** ** The hook is called at most once for the callers of one activation *)

Lemma hook_awaited_budget x w : (hook_awaited x w <= hook_budget x w)%nat.
Proof. destruct w; cbn; try lia; destruct (String.eqb _ _); lia. Qed.

Lemma hook_budget_le x w : (hook_budget x w <= 1)%nat.
Proof. destruct w; cbn; try lia; destruct (String.eqb _ _); lia. Qed.

Lemma hook_awaited_other x w f :
  worker_feature w = Some f -> f <> x -> hook_awaited x w = 0%nat.
Proof.
  intros Hw Hne. destruct w; cbn in *; try reflexivity.
  injection Hw as ->. apply String.eqb_neq in Hne. rewrite Hne. reflexivity.
Qed.

Lemma hook_budget_other x f r : f <> x -> hook_budget x (AwaitActivation f r) = 0%nat.
Proof. intros Hne. cbn. apply String.eqb_neq in Hne. rewrite Hne. reflexivity. Qed.

Lemma hookCalls_activated x l id : hookCalls x (l ++ [FeatureActivated id]) = hookCalls x l.
Proof. rewrite hookCalls_app. cbn. lia. Qed.

Lemma once_transition F p1 p2 calls st st' :
  wf st -> tied F p1 p2 st -> once F p1 calls st -> settled st !! p1 = None ->
  Transition st st' ->
  (hookCalls F (log st') <= calls + 1)%nat /\ once F p1 calls st'.
Proof.
  intros H [Hopen _] Honce Hnone Htr.
  destruct (Hopen Hnone) as (ps & Hps & Hp1 & _). specialize (Honce Hnone).
  pose proof (hook_budget_le F (worker st)) as Hle.
  unfold once.
  destruct Htr as [|id p queued st1 Hreq Hbusy|id p st1 st' Hidle Hreq Hprog
                   |id|f st' Hf Hout Hprog|f def inst Hw|f def inst message Hw
                   |f r Hw Hq|f r next rest st' Hw Hq Hprog].
  - split; [lia|auto].
  - apply requestActivation_spec in Hreq as [-> Hreq].
    destruct (requested_effects _ _ _ _ _ Hreq) as (_ & _ & -> & -> & _).
    split; [lia|auto].
  - apply requestActivation_spec in Hreq as [-> Hreq].
    destruct (requested_effects _ _ _ _ _ Hreq) as (_ & _ & _ & Hl & _).
    destruct (progress_effects _ _ _ Hprog) as (_ & _ & _ & _ & Hc & _).
    rewrite Hc. cbn [log with_queue with_processing]. rewrite Hl.
    rewrite Hidle in Honce. cbn in Honce.
    pose proof (hook_awaited_budget F (worker st')).
    pose proof (hook_budget_le F (worker st')). split; [lia|intros _; lia].
  - cbn [log logged with_active worker]. rewrite hookCalls_deactivated. split; [lia|auto].
  - destruct (progress_effects _ _ _ Hprog) as (_ & _ & _ & _ & Hc & _).
    rewrite Hc.
    assert (Hb : hook_budget F (worker st) = 0%nat)
      by (destruct (worker st); cbn in Hout; try contradiction; reflexivity).
    pose proof (hook_awaited_budget F (worker st')).
    pose proof (hook_budget_le F (worker st')). split; [lia|intros _; lia].
  - cbn [log logged with_active worker activation_done finish with_worker].
    rewrite hookCalls_activated. rewrite Hw in Honce, Hle. cbn in Honce, Hle |- *.
    destruct (String.eqb f F); split; [lia|intros _; lia|lia|intros _; lia].
  - cbn [log worker finish with_worker]. rewrite Hw in Honce, Hle. cbn in Honce, Hle |- *.
    destruct (String.eqb f F); split; [lia|intros _; lia|lia|intros _; lia].
  - destruct (delivered_fields f r st) as (_ & _ & _ & _ & _ & _ & _ & _ & _ & Hl & Hset).
    cbn [log worker with_worker with_processing with_queue settled]. rewrite Hl. split; [lia|].
    destruct (decide (f = F)) as [->|Hne].
    + rewrite Hset, Hnone, Hps. cbn. rewrite decide_True by exact Hp1. discriminate.
    + rewrite Hw, hook_budget_other in Honce by exact Hne. intros _. lia.
  - destruct (delivered_fields f r st) as (_ & _ & _ & _ & _ & _ & _ & _ & _ & Hl & Hset).
    destruct (progress_effects _ _ _ Hprog) as (_ & Hs & _ & Hwf & Hc & _).
    cbn in Hs. rewrite Hc. cbn [log with_queue]. rewrite Hl.
    destruct (decide (f = F)) as [->|Hne].
    + assert (Hnext : next <> F).
      { intros ->. destruct (wf_worker_pending _ H F) as [_ Hnin].
        - rewrite Hw. reflexivity.
        - apply Hnin. rewrite Hq. left. }
      rewrite (hook_awaited_other F _ next Hwf Hnext). split; [lia|].
      rewrite Hs, Hset, Hnone, Hps. cbn. rewrite decide_True by exact Hp1. discriminate.
    + rewrite Hw, hook_budget_other in Honce by exact Hne.
      pose proof (hook_awaited_budget F (worker st')).
      pose proof (hook_budget_le F (worker st')). split; [lia|intros _; lia].
Qed.

(** ** A call of [activateFeature], in any state *)

Lemma step_activate st id : step st (Activate id) = snd (activateFeature id st).
Proof. unfold step. destruct (worker st); reflexivity. Qed.

Lemma activateFeature_promise id st : fst (activateFeature id st) = nextPromise st.
Proof.
  unfold activateFeature. destruct (requestActivation id st) as [[p q] st1] eqn:Hreq.
  apply requestActivation_spec in Hreq as [-> _]. destruct q; reflexivity.
Qed.

(** The call ends after [requestActivation], or, on an idle manager that
    has queued the feature, after the first stretch of its activation. *)
Lemma activateFeature_cases id st :
  wf st ->
  exists queued st1,
    Requested id st (nextPromise st) queued st1
    /\ (snd (activateFeature id st) = st1 /\ (worker st <> Idle \/ queued = false)
        \/ worker st = Idle /\ queued = true
           /\ Progress id (with_queue [] (with_processing true st1))
                (snd (activateFeature id st))).
Proof.
  intros H. unfold activateFeature.
  destruct (requestActivation id st) as [[p queued] st1] eqn:Hreq.
  apply requestActivation_spec in Hreq as [-> Hspec].
  exists queued, st1. split; [exact Hspec|].
  destruct queued; cbn [snd]; [|left; auto].
  unfold processActivationQueue.
  assert (Hflag1 : processingQueue st1 = processingQueue st)
    by (inversion Hspec; reflexivity).
  rewrite Hflag1. destruct (processingQueue st) eqn:Hflag.
  - left. split; [reflexivity|]. left. intros Hidle.
    apply (wf_flag _ H) in Hidle. congruence.
  - assert (Hidle : worker st = Idle) by (apply (wf_flag _ H); exact Hflag).
    pose proof (wf_idle_queue _ H Hidle) as Hq.
    assert (Hq1 : activationQueue st1 = [id])
      by (inversion Hspec; cbn; rewrite Hq; reflexivity).
    assert (Hp1 : is_Some (pendingActivations (with_processing true st1) !! id))
      by (inversion Hspec; cbn; rewrite lookup_insert_eq; eauto).
    rewrite Hq1, processLoop_head by exact Hp1.
    right. repeat split; auto. apply _activateFeature_progress.
Qed.

(** The two invariants of a pair of callers, along a run. *)
Lemma callers_run F p1 p2 calls st evs :
  wf st -> tied F p1 p2 st -> once F p1 calls st ->
  tied F p1 p2 (run st evs) /\ once F p1 calls (run st evs).
Proof.
  revert st. induction evs as [|ev evs IH]; intros st H Ht Ho; [split; assumption|].
  change (run st (ev :: evs)) with (run (step st ev) evs).
  pose proof (step_transition st ev H) as Htr.
  apply IH; [apply step_wf, H|eapply tied_transition; eauto|].
  destruct (settled st !! p1) as [o|] eqn:Hs.
  - intros Hn. destruct (transition_stable _ _ H Htr) as [_ Hst].
    rewrite (Hst _ _ Hs) in Hn. discriminate.
  - eapply once_transition; eauto.
Qed.

(** The first caller: its promise is recorded in the entry of the feature. *)
Lemma first_caller F def st :
  wf st -> featureRegistry st !! F = Some def -> map_get F (activeFeatures st) = None ->
  tied F (nextPromise st) (nextPromise st) (snd (activateFeature F st))
  /\ once F (nextPromise st) (hookCalls F (log st)) (snd (activateFeature F st)).
Proof.
  intros H Hreg Hact. pose proof (fresh_promise_open st H) as Hfresh.
  destruct (activateFeature_cases F st H) as (queued & st1 & Hreq & Hcases).
  destruct (requested_effects _ _ _ _ _ Hreq) as (_ & _ & Hw & Hl & _ & _).
  assert (Hs1 : settled st1 = settled st)
    by (inversion Hreq; subst; cbn; try reflexivity; congruence).
  assert (Hin : exists ps, pendingActivations st1 !! F = Some ps /\ nextPromise st ∈ ps).
  { inversion Hreq; subst; cbn; try congruence; rewrite lookup_insert_eq;
      eexists; (split; [reflexivity|]); [apply elem_of_app; right|]; left. }
  assert (Ht1 : tied F (nextPromise st) (nextPromise st) st1).
  { split; [|rewrite Hs1, Hfresh; discriminate].
    intros _. destruct Hin as (ps & Hps & Hp). exists ps. auto. }
  destruct Hcases as [[-> _]|(Hidle & -> & Hprog)].
  - split; [exact Ht1|]. intros _. rewrite Hl. lia.
  - destruct (progress_effects _ _ _ Hprog) as (_ & Hs & Hext & _ & Hc & _).
    cbn in Hs, Hext. split.
    + apply (tied_quiet F _ _ st1); rewrite ?Hs; auto. intros inst Hwi. congruence.
    + intros _. rewrite Hc. cbn [log with_queue with_processing]. rewrite Hl.
      pose proof (hook_awaited_budget F (worker (snd (activateFeature F st)))). lia.
Qed.

(** A later caller, while the promise of the first is open: it joins the
    entry, or, if the feature has just been made active, it is handed the
    instance the first caller is about to receive. *)
Lemma second_caller F def p1 st :
  wf st -> featureRegistry st !! F = Some def ->
  tied F p1 p1 st -> settled st !! p1 = None ->
  tied F p1 (nextPromise st) (snd (activateFeature F st))
  /\ log (snd (activateFeature F st)) = log st
  /\ worker (snd (activateFeature F st)) = worker st.
Proof.
  intros H Hreg [Hopen _] Hnone. destruct (Hopen Hnone) as (ps & Hps & Hp1 & _).
  destruct (wf_pending_open _ H _ _ _ Hps Hp1) as [Hlt _].
  pose proof (fresh_promise_open st H) as Hfresh.
  destruct (activateFeature_cases F st H) as (queued & st1 & Hreq & Hcases).
  destruct (requested_effects _ _ _ _ _ Hreq) as (_ & _ & Hw & Hl & _ & Hset).
  assert (queued = false) as -> by (inversion Hreq; subst; congruence).
  destruct Hcases as [[-> _]|(_ & [=] & _)].
  split; [|auto]. split; [|rewrite Hset, Hnone by lia; discriminate].
  intros _. inversion Hreq as [|def' inst Hr Ha|def' ps' Hr Ha Hp|]; subst; try congruence.
  - exists ps. destruct (settle_fields (Resolved inst) (snd (new_promise st)) (nextPromise st))
      as (_ & _ & -> & _ & -> & _).
    split; [exact Hps|]. split; [exact Hp1|]. right. exists inst. split.
    + rewrite settle_open by exact Hfresh. cbn. apply lookup_insert_eq.
    + apply (wf_pending_inactive _ H); eauto.
  - exists (ps ++ [nextPromise st]). cbn. rewrite lookup_insert_eq.
    assert (ps' = ps) as -> by congruence.
    split; [reflexivity|]. split; [|left]; apply elem_of_app; [left; exact Hp1|right; left].
Qed.

(** ** An environment that answers *)

Lemma drive_run a n st : exists evs, drive a n st = run st evs.
Proof.
  revert st. induction n as [|n IH]; intros st; [exists []; reflexivity|].
  cbn [drive]. destruct (IH (step st (respond a (worker st)))) as [evs ->].
  exists (respond a (worker st) :: evs). reflexivity.
Qed.

Lemma tick_delivers st F r ps p :
  wf st -> worker st = AwaitActivation F r ->
  pendingActivations st !! F = Some ps -> p ∈ ps ->
  is_Some (settled (step st Tick) !! p).
Proof.
  intros H Hw Hps Hp. unfold step. rewrite Hw, after_activation_delivered.
  destruct (delivered_core F r st H Hw) as (_ & _ & _ & _ & Hq & Hqp & _).
  destruct (delivered_fields F r st) as (_ & _ & _ & _ & _ & _ & _ & _ & _ & _ & Hset).
  assert (Hd : is_Some (settled (delivered F r st) !! p)).
  { rewrite Hset, Hps. destruct (wf_pending_open _ H _ _ _ Hps Hp) as [_ ->]. cbn.
    rewrite decide_True by exact Hp. eauto. }
  rewrite Hq. destruct (activationQueue st) as [|next rest].
  - exact Hd.
  - rewrite processLoop_head by (apply Hqp; left).
    destruct (progress_effects _ _ _
                (_activateFeature_progress next (with_queue rest (delivered F r st))))
      as (_ & -> & _).
    exact Hd.
Qed.

Lemma map_has_set_mono k inst d m :
  map_has d m = true -> map_has d (map_set k inst m) = true.
Proof.
  unfold map_has. destruct (decide (k = d)) as [->|Hne].
  - rewrite map_get_set_eq. reflexivity.
  - rewrite map_get_set_ne by exact Hne. auto.
Qed.

Ltac advanced_fields :=
  repeat split; cbn -[map_has]; auto using map_has_set_mono; lia.

Lemma advanced_weaken F k k' st st' :
  advanced F k st st' -> (k <= k')%nat -> advanced F k' st st'.
Proof. intros (? & ? & ? & ? & ? & ?) ?. repeat split; auto; lia. Qed.

Lemma finish_advanced F r k st : (1 <= k)%nat -> advanced F k st (finish F r st).
Proof. intros Hk. advanced_fields. Qed.

Lemma stage_hook_advanced F def st : advanced F 2 st (stage_hook F def st).
Proof. unfold stage_hook. destruct (onActivate def); advanced_fields. Qed.

Lemma stage_host_advanced F def st : advanced F 4 st (stage_host F def st).
Proof.
  unfold stage_host. destruct (nonempty _).
  - advanced_fields.
  - eapply advanced_weaken; [apply stage_hook_advanced|lia].
Qed.

Lemma stage_optional_advanced F def st : advanced F 6 st (stage_optional F def st).
Proof.
  unfold stage_optional. destruct (nonempty _).
  - advanced_fields.
  - eapply advanced_weaken; [apply stage_host_advanced|lia].
Qed.

Lemma stage_required_advanced F def st : advanced F 7 st (stage_required F def st).
Proof.
  unfold stage_required. destruct (nonempty _).
  - advanced_fields.
  - eapply advanced_weaken; [apply stage_optional_advanced|lia].
Qed.

Lemma stage_conflicts_advanced F def st : advanced F 7 st (stage_conflicts F def st).
Proof.
  unfold stage_conflicts. destruct (List.find _ _).
  - apply finish_advanced. lia.
  - apply stage_required_advanced.
Qed.

(** With every registered dependency active the loop over the dependencies
    awaits nothing. *)
Lemma stage_dependencies_ready F def deps st :
  (forall d, d ∈ deps -> is_Some (featureRegistry st !! d) ->
     map_has d (activeFeatures st) = true) ->
  advanced F 7 st (stage_dependencies F def deps st).
Proof.
  induction deps as [|d deps IH]; intros Hready; cbn [stage_dependencies].
  - apply stage_conflicts_advanced.
  - destruct (featureRegistry st !! d) as [ddef|] eqn:Hreg.
    + rewrite (Hready d) by (first [left | rewrite Hreg; eauto]).
      apply IH. intros d' Hd'. apply Hready. right. exact Hd'.
    + apply finish_advanced. lia.
Qed.

Lemma _activateFeature_ready F st :
  (forall def d, featureRegistry st !! F = Some def -> d ∈ dependencies def ->
     is_Some (featureRegistry st !! d) -> map_has d (activeFeatures st) = true) ->
  advanced F 7 st (_activateFeature F st).
Proof.
  intros Hready. unfold _activateFeature.
  destruct (featureRegistry st !! F) as [def|] eqn:Hreg.
  - apply stage_dependencies_ready. intros d. apply Hready. reflexivity.
  - apply finish_advanced. lia.
Qed.

(** Each answer takes the activation nearer to its end. *)
Lemma respond_advances a F st :
  worker_feature (worker st) = Some F -> (2 <= remaining (worker st))%nat ->
  advanced F (remaining (worker st) - 1) st (step st (respond a (worker st))).
Proof.
  intros Hf Hrem. unfold step.
  destruct (worker st) as [| |f def what|f def host|f def inst|] eqn:Hw;
    cbn in Hf, Hrem; try lia; injection Hf as ->; cbn [respond remaining].
  - unfold after_contains.
    destruct (answer_contains a what), what; cbn [remaining Nat.sub];
      first [apply finish_advanced; lia
            | apply stage_optional_advanced
            | eapply advanced_weaken; [apply stage_host_advanced|lia]
            | eapply advanced_weaken; [apply stage_hook_advanced|lia]
            | advanced_fields].
  - unfold after_request.
    destruct (answer_request a host), host; cbn [remaining Nat.sub];
      first [apply finish_advanced; lia
            | apply stage_host_advanced
            | apply stage_hook_advanced].
  - destruct (answer_hook a); advanced_fields.
Qed.

(** Answered where it waits, a worker that is past the dependencies of the
    feature settles the promises recorded for it. *)
Lemma drive_settles a F p ps n : forall st,
  wf st -> worker_feature (worker st) = Some F -> (1 <= remaining (worker st) <= n)%nat ->
  pendingActivations st !! F = Some ps -> p ∈ ps ->
  is_Some (settled (drive a n st) !! p).
Proof.
  induction n as [|n IH]; intros st H Hw Hrem Hps Hp; [lia|].
  cbn [drive]. destruct (decide (remaining (worker st) = 1%nat)) as [H1|H1].
  - assert (exists r, worker st = AwaitActivation F r) as [r Hr].
    { destruct (worker st) as [| |? ? []|? ? []| |f r]; cbn in *; try lia.
      injection Hw as ->. eauto. }
    rewrite Hr. cbn [respond].
    destruct (tick_delivers st F r ps p H Hr Hps Hp) as [o Ho].
    destruct (drive_run a n (step st Tick)) as [evs ->].
    destruct (run_stable (step st Tick) evs) as [_ Hst]; [apply step_wf, H|].
    rewrite (Hst _ _ Ho). eauto.
  - destruct (respond_advances a F st Hw) as (Hpend & Hw' & Hrem' & _); [lia|].
    apply IH; [apply step_wf, H|exact Hw'|lia|rewrite Hpend; exact Hps|exact Hp].
Qed.

(** ** No activation held up by a dependency *)

Lemma unblocked_advanced F k st st' :
  unblocked st -> advanced F k st st' -> unblocked st'.
Proof.
  intros [_ Hq] (_ & _ & Hrem & Hreg & Hqueue & Hact). split.
  - intros f def d p rest Hw. rewrite Hw in Hrem. cbn in Hrem. lia.
  - intros f def d. rewrite Hqueue, Hreg. intros Hf Hdef Hd Hdreg.
    apply Hact. eapply Hq; eauto.
Qed.

(** One answer settles the promise, or takes the manager nearer to it. *)
Lemma respond_unblocked a F ps p st :
  wf st -> unblocked st -> pendingActivations st !! F = Some ps -> p ∈ ps ->
  let st' := step st (respond a (worker st)) in
  is_Some (settled st' !! p)
  \/ (unblocked st' /\ pendingActivations st' !! F = Some ps
      /\ (answers_needed st' < answers_needed st)%nat).
Proof.
  intros H Hu Hps Hp st'.
  destruct (decide (2 <= remaining (worker st))%nat) as [Hrem|Hrem].
  - assert (exists f, worker_feature (worker st) = Some f) as [f Hf].
    { destruct (worker st); cbn in *; try lia; eauto. }
    pose proof (respond_advances a f st Hf Hrem) as Hadv. fold st' in Hadv.
    right. split; [exact (unblocked_advanced _ _ _ _ Hu Hadv)|].
    destruct Hadv as (Hpend & Hw' & Hrem' & Hreg & Hqueue & Hact). split.
    + rewrite Hpend. exact Hps.
    + unfold answers_needed. rewrite Hqueue. lia.
  - destruct (worker st) as [|f def d q rest|f def [] |f def [] |f def inst|f r] eqn:Hw;
      try (cbn in Hrem; lia).
    + rewrite (idle_nothing_pending st F H Hw) in Hps. discriminate.
    + destruct Hu as [Hu _]. destruct (Hu f def d q rest). exact Hw.
    + destruct (decide (f = F)) as [->|Hne].
      { left. subst st'. cbn [respond]. eapply tick_delivers; eauto. }
      right. subst st'. cbn [respond]. unfold step. rewrite Hw.
      rewrite after_activation_delivered.
      destruct (delivered_fields f r st)
        as (Hreg & Hact & Hpend & Hqueue & _ & Hwork & _).
      destruct (delivered_core f r st H Hw) as (_ & _ & _ & _ & _ & Hqp & _).
      assert (HF : pendingActivations (delivered f r st) !! F = Some ps).
      { rewrite Hpend, lookup_delete_ne by exact Hne. exact Hps. }
      rewrite Hqueue.
      destruct (activationQueue st) as [|next rest] eqn:Hq.
      { exfalso. destruct (wf_pending_somewhere _ H F) as [Hin|Hin]; [eauto| |].
        - rewrite Hq in Hin. apply elem_of_nil in Hin. exact Hin.
        - rewrite Hw in Hin. cbn in Hin. congruence. }
      rewrite processLoop_head by (apply Hqp; left).
      set (st0 := with_queue rest (delivered f r st)).
      assert (Hadv : advanced next 7 st0 (_activateFeature next st0)).
      { apply _activateFeature_ready. intros ndef d. unfold st0.
        cbn [featureRegistry activeFeatures with_queue]. rewrite Hreg, Hact.
        intros Hndef Hd Hdreg. destruct Hu as [_ Hu].
        apply (Hu next ndef d); [rewrite Hq; left|exact Hndef|exact Hd|exact Hdreg]. }
      assert (Hu0 : unblocked st0).
      { split.
        - intros f' def' d' p' rest'. unfold st0. cbn [worker with_queue].
          rewrite Hwork, Hw. discriminate.
        - intros f' def' d'. unfold st0.
          cbn [featureRegistry activeFeatures activationQueue with_queue].
          rewrite Hreg, Hact. intros Hf' Hdef' Hd' Hdreg. destruct Hu as [_ Hu].
          apply (Hu f' def' d'); [rewrite Hq; right; exact Hf'| | |]; assumption. }
      split; [exact (unblocked_advanced _ _ _ _ Hu0 Hadv)|].
      destruct Hadv as (Hpend' & _ & Hrem' & _ & Hqueue' & _).
      split.
      * rewrite Hpend'. exact HF.
      * unfold answers_needed. rewrite Hqueue', Hw, Hq. unfold st0 in *.
        cbn [remaining activationQueue with_queue length]. lia.
Qed.

(** Answered where it waits, a manager none of whose activations is held up
    by a dependency settles every promise it has recorded. *)
Lemma drive_unblocked a F ps p n : forall st,
  wf st -> unblocked st -> pendingActivations st !! F = Some ps -> p ∈ ps ->
  (answers_needed st <= n)%nat ->
  is_Some (settled (drive a n st) !! p).
Proof.
  induction n as [|n IH]; intros st H Hu Hps Hp Hn.
  - exfalso. unfold answers_needed in Hn.
    destruct (worker st) as [|f def d q rest|? ? []|? ? []| |] eqn:Hw; cbn in Hn; try lia.
    + rewrite (idle_nothing_pending st F H Hw) in Hps. discriminate.
    + destruct Hu as [Hu _]. destruct (Hu f def d q rest). exact Hw.
  - cbn [drive].
    destruct (respond_unblocked a F ps p st H Hu Hps Hp) as [[o Ho]|(Hu' & Hps' & Hlt)].
    + destruct (drive_run a n (step st (respond a (worker st)))) as [evs ->].
      destruct (run_stable (step st (respond a (worker st))) evs) as [_ Hst];
        [apply step_wf, H|].
      rewrite (Hst _ _ Ho). eauto.
    + apply IH; [apply step_wf, H|exact Hu'|exact Hps'|exact Hp|lia].
Qed.

(** C6 (amended) - two callers of [activateFeature(F)], the second calling
    while the promise of the first is open, whatever happens before, between
    and after the two calls: the promises are distinct and settle alike
    (once the first has settled, the second has settled with the same
    instance or the same message); while the first is open, both are
    recorded in the one entry of [F] (or the second has already been
    resolved with the instance the worker is about to hand to the first),
    and the activation hook of [F] has been called at most once since the
    first call, also after the next event; [F] is in the queue once at most,
    and not while the worker is busy with it.  Both promises do settle, in
    an environment that answers the worker where it waits: after the
    [answers_needed], when no activation is held up by a dependency, and
    within the answers that remain of the activation of [F], when the worker
    is inside it and past its dependencies. *)
Theorem activateFeature_callers_share_one_activation
    (st : State) (F : string) (def : FeatureDefinition) (evs1 evs2 : list Event)
    (a : Answers) :
  wf st ->
  featureRegistry st !! F = Some def ->
  map_get F (activeFeatures st) = None ->
  let p1 := fst (activateFeature F st) in
  let s1 := run (snd (activateFeature F st)) evs1 in
  let p2 := fst (activateFeature F s1) in
  let s := run (snd (activateFeature F s1)) evs2 in
  let calls := hookCalls F (log st) in
  settled s1 !! p1 = None ->
  p1 <> p2
  /\ NoDup (activationQueue s)
  /\ (worker_feature (worker s) = Some F -> F ∉ activationQueue s)
  /\ (forall o, settled s !! p1 = Some o -> settled s !! p2 = Some o)
  /\ (settled s !! p1 = None ->
      (exists promises,
          pendingActivations s !! F = Some promises /\ p1 ∈ promises
          /\ (p2 ∈ promises
              \/ exists inst, settled s !! p2 = Some (Resolved inst)
                              /\ worker s = AwaitActivation F (inr inst)))
      /\ (hookCalls F (log s) <= calls + 1)%nat
      /\ forall ev, (hookCalls F (log (step s ev)) <= calls + 1)%nat)
  /\ (unblocked s ->
      exists o, settled (drive a (answers_needed s) s) !! p1 = Some o
                /\ settled (drive a (answers_needed s) s) !! p2 = Some o)
  /\ (worker_feature (worker s) = Some F -> (1 <= remaining (worker s))%nat ->
      exists o, settled (drive a (remaining (worker s)) s) !! p1 = Some o
                /\ settled (drive a (remaining (worker s)) s) !! p2 = Some o).
Proof.
  intros H Hreg Hact p1 s1 p2 s calls Hopen1.
  unfold p1 in *. rewrite activateFeature_promise in *.
  unfold p2 in *. rewrite activateFeature_promise in *. clear p1 p2.
  destruct (first_caller F def st H Hreg Hact) as [Ht0 Ho0].
  assert (H0 : wf (snd (activateFeature F st)))
    by (rewrite <- step_activate; apply step_wf, H).
  assert (H1 : wf s1) by (apply run_wf, H0).
  destruct (callers_run F _ _ calls _ evs1 H0 Ht0 Ho0) as [Ht1 Ho1]. fold s1 in Ht1, Ho1.
  assert (Hreg1 : featureRegistry s1 !! F = Some def).
  { unfold s1. destruct (run_stable _ evs1 H0) as [-> _].
    rewrite <- step_activate.
    destruct (transition_stable _ _ H (step_transition st (Activate F) H)) as [-> _].
    exact Hreg. }
  destruct (second_caller F def _ s1 H1 Hreg1 Ht1 Hopen1) as (Ht2 & Hl2 & Hw2).
  assert (Ho2 : once F (nextPromise st) calls (snd (activateFeature F s1))).
  { intros _. rewrite Hl2, Hw2. apply Ho1, Hopen1. }
  assert (H2 : wf (snd (activateFeature F s1)))
    by (rewrite <- step_activate; apply step_wf, H1).
  assert (Hs : wf s) by (apply run_wf, H2).
  destruct (callers_run F _ _ calls _ evs2 H2 Ht2 Ho2) as [Ht Ho]. fold s in Ht, Ho.
  assert (Hlive : forall n,
            (settled s !! nextPromise st = None ->
             forall ps, pendingActivations s !! F = Some ps -> nextPromise st ∈ ps ->
                        is_Some (settled (drive a n s) !! nextPromise st)) ->
            exists o, settled (drive a n s) !! nextPromise st = Some o
                      /\ settled (drive a n s) !! nextPromise s1 = Some o).
  { intros n Hdrive.
    assert (Hset : is_Some (settled (drive a n s) !! nextPromise st)).
    { destruct (settled s !! nextPromise st) as [o|] eqn:Hp.
      - destruct (drive_run a n s) as [evs ->].
        destruct (run_stable s evs Hs) as [_ Hst]. rewrite (Hst _ _ Hp). eauto.
      - destruct Ht as [Hin _]. destruct (Hin Hp) as (ps & Hps & Hp1 & _).
        eapply Hdrive; eauto. }
    destruct (drive_run a n s) as [evs Hd]. rewrite Hd in *.
    destruct (callers_run F _ _ calls _ evs Hs Ht Ho) as [[_ Hsame] _].
    destruct Hset as [o Hset]. exists o. auto. }
  split; [|split; [|split; [|split; [|split; [|split]]]]].
  - destruct (tied_old _ _ _ _ H1 Ht1) as [Hlt _]. lia.
  - apply (wf_queue_nodup _ Hs).
  - intros Hw. apply (wf_worker_pending _ Hs), Hw.
  - apply Ht.
  - intros Hopen. split; [apply Ht, Hopen|]. split.
    + pose proof (Ho Hopen) as Hc. pose proof (hook_budget_le F (worker s)). lia.
    + intros ev. eapply once_transition; eauto. apply step_transition, Hs.
  - intros Hu. apply Hlive. intros _ ps Hps Hp1.
    eapply drive_unblocked; eauto.
  - intros Hw Hrem. apply Hlive. intros _ ps Hps Hp1.
    eapply drive_settles; eauto.
Qed.

Lemma activateFeature_callers_share_one_activation_witness :
  let st := initial [feature "reader" [] []] in
  let p1 := fst (activateFeature "reader" st) in
  let s1 := run (snd (activateFeature "reader" st)) [Tick] in
  let p2 := fst (activateFeature "reader" s1) in
  let s := run (snd (activateFeature "reader" s1)) [ActiveDeleted "other"] in
  p1 <> p2
  /\ (forall o, settled s !! p1 = Some o -> settled s !! p2 = Some o)
  /\ exists o, settled (drive agreeable (answers_needed s) s) !! p1 = Some o
               /\ settled (drive agreeable (answers_needed s) s) !! p2 = Some o.
Proof.
  intros st p1 s1 p2 s.
  destruct (activateFeature_callers_share_one_activation
              st "reader" (feature "reader" [] []) [Tick] [ActiveDeleted "other"] agreeable)
    as (Hne & _ & _ & Hsame & _ & Hlive & _).
  - apply initial_wf.
  - vm_compute. reflexivity.
  - reflexivity.
  - vm_compute. reflexivity.
  - split; [exact Hne|]. split; [exact Hsame|]. apply Hlive.
    assert (Hq : activationQueue s = []) by (vm_compute; reflexivity).
    split.
    + intros f def d p rest Hw. vm_compute in Hw. discriminate Hw.
    + intros f def d Hf. exfalso. revert Hf. change (f ∉ activationQueue s).
      rewrite Hq. apply not_elem_of_nil.
Defined.

(** Two callers of a feature whose activation fails before the hook: the
    hook is not called at all. *)
Lemma two_callers_no_hook_call :
  let st := run (initial [feature "C" [] []; feature "F" [] ["C"]]) (activated "C") in
  let p1 := fst (activateFeature "F" st) in
  let s1 := snd (activateFeature "F" st) in
  let p2 := fst (activateFeature "F" s1) in
  let s := run (snd (activateFeature "F" s1)) [Tick] in
  is_Some (featureRegistry st !! "F")
  /\ map_get "F" (activeFeatures st) = None
  /\ settled s1 !! p1 = None
  /\ settled s !! p1 = Some (Rejected (msg_conflict "F" "C"))
  /\ settled s !! p2 = Some (Rejected (msg_conflict "F" "C"))
  /\ hookCalls "F" (log s) = 0%nat
  /\ worker s = Idle.
Proof.
  cbv zeta. split; [eexists; vm_compute; reflexivity|].
  repeat split; vm_compute; reflexivity.
Qed.


Lemma activateFeature_blocks_on_inactive_dependency_witness :
  let st := initial [feature "B" [] []; feature "A" ["B"] []] in
  let st' := run (snd (activateFeature "A" st))
               [Tick; Activate "B"; Tick; HookSettled HookReturns; Tick] in
  settled st' !! fst (activateFeature "A" st) = None
  /\ map_get "A" (activeFeatures st') = None
  /\ map_get "B" (activeFeatures st') = None
  /\ processingQueue st' = true.
Proof.
  intros st st'.
  destruct (activateFeature_blocks_on_inactive_dependency
              st "A" "B" (feature "A" ["B"] []) [] []
              [Tick; Activate "B"; Tick; HookSettled HookReturns; Tick])
    as (Hp & HA & HB & _ & Hflag & _).
  - apply initial_wf.
  - reflexivity.
  - vm_compute. reflexivity.
  - reflexivity.
  - reflexivity.
  - intros d Hd. apply elem_of_nil in Hd. destruct Hd.
  - eexists. vm_compute. reflexivity.
  - reflexivity.
  - split; [exact Hp|]. split; [exact HA|]. split; [exact HB|exact Hflag].
Defined.

(** ** Deactivation *)

Lemma existsb_eqb (x : string) (l : list string) :
  existsb (String.eqb x) l = true <-> x ∈ l.
Proof.
  rewrite existsb_exists. split.
  - intros (y & Hy & Heq). apply String.eqb_eq in Heq as ->.
    apply list_elem_of_In. exact Hy.
  - intros Hx. exists x. split; [apply list_elem_of_In, Hx|apply String.eqb_refl].
Qed.

Lemma map_get_listed k v (m : list (string * FeatureInstance)) :
  map_get k m = Some v -> k ∈ List.map fst m.
Proof.
  induction m as [|[k' v'] m IH]; cbn; [discriminate|].
  destruct (String.eqb_spec k' k) as [->|Hne]; [left|right; auto].
Qed.

Lemma acyclic_shrinks rank st st' : acyclic rank st -> shrinks st st' -> acyclic rank st'.
Proof. intros Hac Hsh X Y instX instY HX HY. eapply Hac; eauto. Qed.

Lemma Deactivated_refl hook rank bound st : Deactivated hook rank bound st st [].
Proof.
  split; [symmetry; apply app_nil_r|]. split; [intros id inst; auto|].
  split; [intros Z inst HZ HZ'; congruence|]. intros ev f Hev. apply elem_of_nil in Hev.
  destruct Hev.
Qed.

Lemma Deactivated_weaken hook rank bound bound' st st' l :
  Deactivated hook rank bound st st' l -> (bound <= bound')%nat ->
  Deactivated hook rank bound' st st' l.
Proof.
  intros (Hl & Hsh & Hgone & Hev) Hle. split; [exact Hl|]. split; [exact Hsh|]. split.
  - intros Z inst HZ HZ'. destruct (Hgone Z inst HZ HZ') as [Hr Hblock].
    split; [lia|exact Hblock].
  - intros ev f Hin Hf. specialize (Hev ev f Hin Hf). lia.
Qed.

Lemma Deactivated_trans hook rank bound st st1 st2 l1 l2 :
  Deactivated hook rank bound st st1 l1 -> Deactivated hook rank bound st1 st2 l2 ->
  Deactivated hook rank bound st st2 (l1 ++ l2).
Proof.
  intros (Hl1 & Hsh1 & Hgone1 & Hev1) (Hl2 & Hsh2 & Hgone2 & Hev2).
  split; [rewrite Hl2, Hl1, app_assoc; reflexivity|].
  split; [intros id inst Hid; auto|]. split.
  - intros Z inst HZ HZ2. destruct (map_get Z (activeFeatures st1)) as [inst1|] eqn:HZ1.
    + assert (inst1 = inst) as -> by (apply Hsh1 in HZ1; congruence).
      destruct (Hgone2 Z inst HZ1 HZ2) as (Hr & pre & post & ->).
      split; [exact Hr|]. exists (l1 ++ pre), post. rewrite <- app_assoc. reflexivity.
    + destruct (Hgone1 Z inst HZ HZ1) as (Hr & pre & post & ->).
      split; [exact Hr|]. exists pre, (post ++ l2). rewrite <- !app_assoc. reflexivity.
  - intros ev f Hin Hf. apply elem_of_app in Hin as [Hin|Hin]; eauto.
Qed.

(** A feature at or above the bound stays active. *)
Lemma Deactivated_keeps hook rank bound st st' l id inst :
  Deactivated hook rank bound st st' l -> (bound <= rank id)%nat ->
  map_get id (activeFeatures st) = Some inst ->
  map_get id (activeFeatures st') = Some inst.
Proof.
  intros (_ & Hsh & Hgone & _) Hle Hid.
  destruct (map_get id (activeFeatures st')) as [inst'|] eqn:Hid'.
  - apply Hsh in Hid'. congruence.
  - destruct (Hgone id inst Hid Hid') as [Hr _]. lia.
Qed.

(** From the call of the hook to the end of [deactivateFeature]. *)
Lemma closing_step hook rank id inst st0 stH l :
  map_get id (activeFeatures st0) = Some inst ->
  activeFeatures stH = activeFeatures st0 ->
  log stH = log st0 ++ l ->
  l ++ [FeatureDeactivated id] = closing hook id inst ->
  (forall ev f, ev ∈ l -> about ev = Some f -> f = id) ->
  Deactivated hook rank (S (rank id)) st0
    (logged (FeatureDeactivated id) (with_active (map_delete id (activeFeatures stH)) stH))
    (closing hook id inst).
Proof.
  intros Hid Hact Hl Hclosing Habout. split; [|split; [|split]].
  - cbn. rewrite Hl, <- Hclosing, app_assoc. reflexivity.
  - intros Z instZ. cbn. rewrite Hact. apply map_get_delete_Some.
  - intros Z instZ HZ. cbn. rewrite Hact. intros HZ'.
    destruct (decide (id = Z)) as [<-|Hne].
    + assert (instZ = inst) as -> by congruence. split; [lia|].
      exists [], []. rewrite app_nil_r. reflexivity.
    + rewrite map_get_delete_ne in HZ' by exact Hne. congruence.
  - intros ev f Hin Hf. rewrite <- Hclosing in Hin. apply elem_of_app in Hin as [Hin|Hin].
    + rewrite (Habout ev f Hin Hf). lia.
    + apply list_elem_of_singleton in Hin as ->. injection Hf as <-. lia.
Qed.

(** The loop over the active features, given that the recursive calls for
    features below [fuel] return. *)
Lemma deactivateDependents_total hook rank fuel id :
  (forall id' st, acyclic rank st -> (rank id' < fuel)%nat ->
     exists b st' l,
       deactivateFeature hook fuel id' st = Some (b, st')
       /\ Deactivated hook rank (S (rank id')) st st' l
       /\ map_get id' (activeFeatures st') = None) ->
  (rank id <= fuel)%nat ->
  forall entries st, acyclic rank st -> is_Some (map_get id (activeFeatures st)) ->
    exists st' l,
      deactivateDependents (deactivateFeature hook fuel) id entries st = Some st'
      /\ Deactivated hook rank (rank id) st st' l
      /\ forall X inst, X ∈ entries -> map_get X (activeFeatures st') = Some inst ->
           id ∉ dependencies (definition inst).
Proof.
  intros Hrec Hfuel entries. induction entries as [|X more IH]; intros st Hac [iid Hid].
  { exists st, []. split; [reflexivity|]. split; [apply Deactivated_refl|].
    intros X inst HX. apply elem_of_nil in HX. destruct HX. }
  cbn [deactivateDependents].
  destruct (map_get X (activeFeatures st)) as [inst|] eqn:HX.
  2:{ destruct (IH st Hac) as (st' & l & Heq & Hd & Hlast); [eauto|].
      exists st', l. split; [exact Heq|]. split; [exact Hd|].
      intros X' inst' Hin HX'. apply elem_of_cons in Hin as [->|Hin]; [|eauto].
      destruct Hd as (_ & Hsh & _). apply Hsh in HX'. congruence. }
  destruct (String.eqb_spec X id) as [->|Hne].
  { destruct (IH st Hac) as (st' & l & Heq & Hd & Hlast); [eauto|].
    exists st', l. split; [exact Heq|]. split; [exact Hd|].
    intros X' inst' Hin HX'. apply elem_of_cons in Hin as [->|Hin]; [|eauto].
    intros Hself. destruct Hd as (_ & Hsh & _). apply Hsh in HX'.
    pose proof (Hac id id inst' inst' HX' HX' Hself). lia. }
  destruct (existsb (String.eqb id) (dependencies (definition inst))) eqn:Hdep.
  - apply existsb_eqb in Hdep. pose proof (Hac X id inst iid HX Hid Hdep) as Hrank.
    destruct (Hrec X st Hac) as (b & st1 & l1 & Heq1 & Hd1 & Hgone1); [lia|].
    rewrite Heq1.
    pose proof (Deactivated_keeps _ _ _ _ _ _ id iid Hd1 ltac:(lia) Hid) as Hid1.
    destruct (IH st1) as (st' & l2 & Heq2 & Hd2 & Hlast).
    { eapply acyclic_shrinks; [exact Hac|]. apply Hd1. }
    { eauto. }
    exists st', (l1 ++ l2). split; [exact Heq2|]. split.
    + eapply Deactivated_trans; [|exact Hd2]. eapply Deactivated_weaken; [exact Hd1|lia].
    + intros X' inst' Hin HX'. apply elem_of_cons in Hin as [->|Hin]; [|eauto].
      destruct Hd2 as (_ & Hsh & _). apply Hsh in HX'. congruence.
  - destruct (IH st Hac) as (st' & l & Heq & Hd & Hlast); [eauto|].
    exists st', l. split; [exact Heq|]. split; [exact Hd|].
    intros X' inst' Hin HX'. apply elem_of_cons in Hin as [->|Hin]; [|eauto].
    destruct Hd as (_ & Hsh & _). apply Hsh in HX'.
    assert (inst' = inst) as -> by congruence.
    intros Hin. apply existsb_eqb in Hin. congruence.
Qed.

Lemma deactivateFeature_unfold hook fuel id st :
  deactivateFeature hook (S fuel) id st
  = match map_get id (activeFeatures st) with
    | None => Some (false, st)
    | Some featureInstance =>
        match deactivateDependents (deactivateFeature hook fuel) id
                (List.map fst (activeFeatures st)) st with
        | None => None
        | Some st =>
            let st :=
              if onDeactivate (definition featureInstance) then
                let st := logged (OnDeactivateCalled id) st in
                match hook id with
                | HookReturns => st
                | HookThrows message => logged (ErrorLogged message) st
                end
              else st in
            let st := with_active (map_delete id (activeFeatures st)) st in
            Some (true, logged (FeatureDeactivated id) st)
        end
    end.
Proof. reflexivity. Qed.

(** With fuel above the rank of the feature, [deactivateFeature] returns:
    the feature is not active afterwards; if it was, the log ends with the
    block of its removal, after the blocks of the features that depended on
    it, and what precedes that block is about features below it. *)
Lemma deactivateFeature_total hook rank fuel : forall id st,
  acyclic rank st -> (rank id < fuel)%nat ->
  exists b st' l,
    deactivateFeature hook fuel id st = Some (b, st')
    /\ Deactivated hook rank (S (rank id)) st st' l
    /\ map_get id (activeFeatures st') = None
    /\ forall inst, map_get id (activeFeatures st) = Some inst ->
         b = true
         /\ exists l0,
             l = l0 ++ closing hook id inst
             /\ (forall ev f, ev ∈ l0 -> about ev = Some f -> (rank f < rank id)%nat)
             /\ forall X instX,
                  map_get X (activeFeatures st) = Some instX ->
                  id ∈ dependencies (definition instX) ->
                  map_get X (activeFeatures st') = None
                  /\ exists pre post, l0 = pre ++ closing hook X instX ++ post.
Proof.
  induction fuel as [|fuel IH]; intros id st Hac Hfuel; [lia|].
  rewrite deactivateFeature_unfold.
  destruct (map_get id (activeFeatures st)) as [inst|] eqn:Hid.
  2:{ exists false, st, []. split; [reflexivity|]. split; [apply Deactivated_refl|].
      split; [exact Hid|]. intros inst [=]. }
  destruct (deactivateDependents_total hook rank fuel id) with
    (entries := List.map fst (activeFeatures st)) (st := st)
    as (st0 & l0 & -> & Hd0 & Hlast); [|lia|exact Hac|eauto|].
  { intros id' st1 Hac1 Hr1. destruct (IH id' st1 Hac1 Hr1) as (b & st' & l & ? & ? & ? & _).
    eauto 6. }
  pose proof (Deactivated_keeps _ _ _ _ _ _ id inst Hd0 ltac:(lia) Hid) as Hid0.
  assert (Hstep : forall stH l,
             activeFeatures stH = activeFeatures st0 -> log stH = log st0 ++ l ->
             l ++ [FeatureDeactivated id] = closing hook id inst ->
             (forall ev f, ev ∈ l -> about ev = Some f -> f = id) ->
             let st' := logged (FeatureDeactivated id)
                          (with_active (map_delete id (activeFeatures stH)) stH) in
             Deactivated hook rank (S (rank id)) st st' (l0 ++ closing hook id inst)
             /\ map_get id (activeFeatures st') = None
             /\ forall X, map_get X (activeFeatures st0) = None ->
                          map_get X (activeFeatures st') = None).
  { intros stH l Hact Hl Hcl Habout st'. split; [|split].
    - eapply Deactivated_trans; [eapply Deactivated_weaken; [exact Hd0|lia]|].
      eapply closing_step; eauto.
    - cbn. apply map_get_delete_eq.
    - intros X HX. cbn. rewrite Hact.
      destruct (map_get X (map_delete id (activeFeatures st0))) eqn:HX'; [|reflexivity].
      apply map_get_delete_Some in HX'. congruence. }
  assert (Hfinal : forall inst', Some inst = Some inst' ->
             true = true
             /\ exists l1,
                 l0 ++ closing hook id inst = l1 ++ closing hook id inst'
                 /\ (forall ev f, ev ∈ l1 -> about ev = Some f -> (rank f < rank id)%nat)
                 /\ forall X instX,
                      map_get X (activeFeatures st) = Some instX ->
                      id ∈ dependencies (definition instX) ->
                      map_get X (activeFeatures st0) = None
                      /\ exists pre post, l1 = pre ++ closing hook X instX ++ post).
  { intros inst' [= <-]. split; [reflexivity|]. exists l0. split; [reflexivity|].
    destruct Hd0 as (_ & Hsh & Hgone & Hev). split; [exact Hev|].
    intros X instX HX Hdep.
    destruct (map_get X (activeFeatures st0)) as [instX'|] eqn:HX0.
    - exfalso. apply (Hlast X instX'); [eapply map_get_listed; eauto|exact HX0|].
      apply Hsh in HX0. assert (instX' = instX) as -> by congruence. exact Hdep.
    - split; [reflexivity|]. apply (Hgone X instX HX HX0). }
  destruct (onDeactivate (definition inst)) eqn:Hhook; [destruct (hook id) eqn:Hres|].
  - destruct (Hstep (logged (OnDeactivateCalled id) st0) [OnDeactivateCalled id])
      as (Hd & Hnone & Hkeep); [reflexivity|reflexivity| | |].
    { unfold closing. rewrite Hhook, Hres. reflexivity. }
    { intros ev f Hin Hf. apply list_elem_of_singleton in Hin as ->. injection Hf as <-.
      reflexivity. }
    eexists true, _, _. split; [reflexivity|].
    split; [exact Hd|]. split; [exact Hnone|].
    intros inst' Hinst'. destruct (Hfinal inst' Hinst') as (_ & l1 & Hl1 & Hev1 & Hblocks).
    split; [reflexivity|]. exists l1. split; [exact Hl1|]. split; [exact Hev1|].
    intros X instX HX Hdep. destruct (Hblocks X instX HX Hdep) as [HX0 Hblock].
    split; [apply Hkeep, HX0|exact Hblock].
  - destruct (Hstep (logged (ErrorLogged message) (logged (OnDeactivateCalled id) st0))
                [OnDeactivateCalled id; ErrorLogged message])
      as (Hd & Hnone & Hkeep); [reflexivity| | | |].
    { cbn. rewrite <- app_assoc. reflexivity. }
    { unfold closing. rewrite Hhook, Hres. reflexivity. }
    { intros ev f Hin Hf. apply elem_of_cons in Hin as [->|Hin].
      - injection Hf as <-. reflexivity.
      - apply list_elem_of_singleton in Hin as ->. discriminate. }
    eexists true, _, _. split; [reflexivity|].
    split; [exact Hd|]. split; [exact Hnone|].
    intros inst' Hinst'. destruct (Hfinal inst' Hinst') as (_ & l1 & Hl1 & Hev1 & Hblocks).
    split; [reflexivity|]. exists l1. split; [exact Hl1|]. split; [exact Hev1|].
    intros X instX HX Hdep. destruct (Hblocks X instX HX Hdep) as [HX0 Hblock].
    split; [apply Hkeep, HX0|exact Hblock].
  - destruct (Hstep st0 []) as (Hd & Hnone & Hkeep); [reflexivity|symmetry; apply app_nil_r| | |].
    { unfold closing. rewrite Hhook. reflexivity. }
    { intros ev f Hin. apply elem_of_nil in Hin. destruct Hin. }
    eexists true, _, _. split; [reflexivity|].
    split; [exact Hd|]. split; [exact Hnone|].
    intros inst' Hinst'. destruct (Hfinal inst' Hinst') as (_ & l1 & Hl1 & Hev1 & Hblocks).
    split; [reflexivity|]. exists l1. split; [exact Hl1|]. split; [exact Hev1|].
    intros X instX HX Hdep. destruct (Hblocks X instX HX Hdep) as [HX0 Hblock].
    split; [apply Hkeep, HX0|exact Hblock].
Qed.

(** More fuel changes nothing. *)
Lemma deactivateDependents_mono
    (rec rec' : string -> State -> option (bool * State)) id entries :
  (forall x st r, rec x st = Some r -> rec' x st = Some r) ->
  forall st r, deactivateDependents rec id entries st = Some r ->
               deactivateDependents rec' id entries st = Some r.
Proof.
  intros Hrec. induction entries as [|X more IH]; intros st r; cbn; [auto|].
  destruct (map_get X (activeFeatures st)); [|apply IH].
  destruct (String.eqb X id); [apply IH|].
  destruct (existsb _ _); [|apply IH].
  destruct (rec X st) as [[b st1]|] eqn:Heq; [|discriminate].
  rewrite (Hrec _ _ _ Heq). apply IH.
Qed.

Lemma deactivateFeature_mono hook fuel : forall id st r,
  deactivateFeature hook fuel id st = Some r ->
  deactivateFeature hook (S fuel) id st = Some r.
Proof.
  induction fuel as [|fuel IH]; intros id st r; [discriminate|].
  rewrite (deactivateFeature_unfold hook (S fuel)), (deactivateFeature_unfold hook fuel).
  destruct (map_get id (activeFeatures st)); [|auto].
  destruct (deactivateDependents (deactivateFeature hook fuel) id _ st) as [st0|] eqn:Heq;
    [|discriminate].
  rewrite (deactivateDependents_mono _ _ id _ IH st st0 Heq). auto.
Qed.

Lemma deactivateFeature_fuel hook fuel fuel' id st r :
  (fuel <= fuel')%nat ->
  deactivateFeature hook fuel id st = Some r -> deactivateFeature hook fuel' id st = Some r.
Proof.
  induction 1 as [|fuel' Hle IH]; [auto|]. intros Heq. apply deactivateFeature_mono. auto.
Qed.

(** C9 - let A and B be active, A declaring the dependency B, in a state
    where the active features do not depend on one another in a circle.
    Then [deactivateFeature(B)] returns [true]; neither A nor B is active
    afterwards; and the log shows A's deactivation (the call of its hook, if
    it has one, the error if the hook throws, the removal) before B's, with
    nothing about B before B's own hook is called.  This holds whatever the
    hooks do: a hook that throws is followed by the removal all the same. *)
Theorem deactivateFeature_deactivates_dependents_first
    (hook : string -> HookResult) (rank : string -> nat) (st : State) (A B : string)
    (instA instB : FeatureInstance) :
  acyclic rank st ->
  map_get A (activeFeatures st) = Some instA ->
  map_get B (activeFeatures st) = Some instB ->
  B ∈ dependencies (definition instA) ->
  exists st' before between,
    (forall fuel, (rank B < fuel)%nat -> deactivateFeature hook fuel B st = Some (true, st'))
    /\ log st' = log st ++ before ++ closing hook A instA ++ between ++ closing hook B instB
    /\ (forall ev, ev ∈ before ++ closing hook A instA ++ between -> about ev <> Some B)
    /\ map_get A (activeFeatures st') = None
    /\ map_get B (activeFeatures st') = None
    /\ shrinks st st'.
Proof.
  intros Hac HA HB Hdep.
  destruct (deactivateFeature_total hook rank (S (rank B)) B st Hac)
    as (b & st' & l & Heq & Hd & HBgone & Hfin); [lia|].
  destruct (Hfin instB HB) as (-> & l0 & -> & Hev & Hblocks).
  destruct (Hblocks A instA HA Hdep) as (HAgone & before & between & ->).
  exists st', before, between. split; [|split; [|split; [|split; [|split]]]].
  - intros fuel Hfuel. eapply deactivateFeature_fuel; [|exact Heq]. lia.
  - destruct Hd as (-> & _). rewrite <- !app_assoc. reflexivity.
  - intros ev Hin Hf. specialize (Hev ev B Hin Hf). lia.
  - exact HAgone.
  - exact HBgone.
  - apply Hd.
Qed.

Lemma deactivateFeature_deactivates_dependents_first_witness :
  let st := run (initial [feature "B" [] []; feature "A" ["B"] []])
              (activated "B" ++ activated "A") in
  let hook := fun _ : string => HookThrows "boom" in
  exists st',
    deactivateFeature hook 2 "B" st = Some (true, st')
    /\ map_get "A" (activeFeatures st') = None
    /\ map_get "B" (activeFeatures st') = None.
Proof.
  intros st hook.
  assert (Hact : activeFeatures st
                 = [("B", {| ref := 0; inst_id := "B"; definition := feature "B" [] [];
                             active := true; settings := JsObject [] |});
                    ("A", {| ref := 1; inst_id := "A"; definition := feature "A" ["B"] [];
                             active := true; settings := JsObject [] |})])
    by (vm_compute; reflexivity).
  destruct (deactivateFeature_deactivates_dependents_first
              hook (fun x => if String.eqb x "A" then 0 else 1)%nat st "A" "B"
              {| ref := 1; inst_id := "A"; definition := feature "A" ["B"] [];
                 active := true; settings := JsObject [] |}
              {| ref := 0; inst_id := "B"; definition := feature "B" [] [];
                 active := true; settings := JsObject [] |})
    as (st' & _ & _ & Hret & _ & _ & HA & HB & _).
  - intros X Y instX instY. rewrite Hact. cbn [map_get].
    destruct (String.eqb_spec "B" X) as [<-|_].
    + intros [= <-] _ Hin. apply elem_of_nil in Hin. destruct Hin.
    + destruct (String.eqb_spec "A" X) as [<-|_]; [|discriminate].
      intros [= <-] _ Hin. apply list_elem_of_singleton in Hin as ->. cbn. lia.
  - rewrite Hact. reflexivity.
  - rewrite Hact. reflexivity.
  - left.
  - exists st'. split; [apply Hret; cbn; lia|]. split; [exact HA|exact HB].
Defined.

End FeatureManagerFacts.

(** * More properties of api-utils.js *)

(** The equation of the executor, under a name of its own. *)
Lemma executeRequest_step (c : ApiUtils.RequestClosure) (attempt : nat) :
  ApiUtils.executeRequest c attempt =
  match ApiUtils.attemptOnce c attempt with
  | (inr data, evs) => (inr data, evs)
  | (inl apiError, evs) =>
      if ApiUtils.shouldRetry c attempt apiError
      then (fst (ApiUtils.executeRequest c (S attempt)),
            evs ++ ApiUtils.EvBackoff attempt (ApiUtils.backoffDelay c attempt)
                :: snd (ApiUtils.executeRequest c (S attempt)))
      else (inl apiError, evs)
  end.
Proof. exact (executeRequest_unfold c attempt). Qed.

Section ApiUtilsMoreFacts.
Import ApiUtils.

(** ** The limiter, resource by resource *)

Lemma init_entry apiId st :
  init apiId no_options st = (entry apiId st, <[apiId := entry apiId st]> st).
Proof.
  unfold entry, init. destruct (st !! apiId) as [s|] eqn:Hs; cbn [fst]; [|reflexivity].
  rewrite insert_id by exact Hs. reflexivity.
Qed.

Lemma entry_insert apiId s st : entry apiId (<[apiId := s]> st) = s.
Proof. unfold entry, init. rewrite lookup_insert_eq. reflexivity. Qed.

Lemma entry_insert_ne apiId apiId' s st :
  apiId <> apiId' -> entry apiId' (<[apiId := s]> st) = entry apiId' st.
Proof.
  intros Hne. unfold entry, init. rewrite lookup_insert_ne by exact Hne.
  destruct (st !! apiId'); reflexivity.
Qed.

Lemma entry_Some apiId s st : st !! apiId = Some s -> entry apiId st = s.
Proof. intros Hs. unfold entry, init. rewrite Hs. reflexivity. Qed.

Lemma checkLimit_local apiId now st :
  checkLimit apiId now st
  = (allows now (entry apiId st), <[apiId := checked now (entry apiId st)]> st).
Proof.
  unfold checkLimit, allows, checked. rewrite init_entry.
  destruct (activeRequests (entry apiId st) >=? concurrentRequests (entry apiId st));
    [reflexivity|].
  rewrite insert_insert_eq. reflexivity.
Qed.

Lemma recordRequest_local apiId now st :
  recordRequest apiId now st = <[apiId := recorded now (entry apiId st)]> st.
Proof. unfold recordRequest. rewrite init_entry, insert_insert_eq. reflexivity. Qed.

Lemma queue_checked now s : queue (checked now s) = queue s.
Proof. unfold checked. destruct (_ >=? _); reflexivity. Qed.

Lemma processNext_local apiId now st :
  processNext apiId now st
  = match st !! apiId with
    | Some s => (fst (drainedNext now s), <[apiId := snd (drainedNext now s)]> st)
    | None => ([], st)
    end.
Proof.
  unfold processNext, drainedNext. destruct (st !! apiId) as [s|] eqn:Hs; [|reflexivity].
  destruct (queue s) as [|item rest] eqn:Hq; [reflexivity|].
  rewrite checkLimit_local, (entry_Some _ _ _ Hs).
  destruct (allows now s); [|reflexivity].
  rewrite lookup_insert_eq, queue_checked, Hq.
  rewrite recordRequest_local, entry_insert, !insert_insert_eq. reflexivity.
Qed.

Lemma _processQueue_local apiId now st :
  _processQueue apiId now st
  = (fst (drainStarted now (entry apiId st)),
     <[apiId := snd (drainStarted now (entry apiId st))]> st).
Proof.
  unfold _processQueue, drainStarted. rewrite init_entry.
  destruct (queueProcessing (entry apiId st) || _); [reflexivity|].
  rewrite insert_insert_eq, processNext_local, lookup_insert_eq, insert_insert_eq.
  reflexivity.
Qed.

Lemma recordCompletion_local apiId now st :
  recordCompletion apiId now st
  = (fst (completed now (entry apiId st)),
     <[apiId := snd (completed now (entry apiId st))]> st).
Proof.
  unfold recordCompletion, completed. rewrite init_entry, insert_insert_eq.
  rewrite _processQueue_local, entry_insert, insert_insert_eq. reflexivity.
Qed.

Lemma enqueue_local apiId requestFn promise now st :
  let item := {| requestFn := requestFn; promise := promise; timestamp := now |} in
  enqueue apiId requestFn promise now st
  = (fst (enqueued item now (entry apiId st)),
     <[apiId := snd (enqueued item now (entry apiId st))]> st).
Proof.
  intros item. unfold enqueue, enqueued. rewrite init_entry, insert_insert_eq. fold item.
  destruct (queueProcessing (entry apiId st)); [reflexivity|].
  rewrite _processQueue_local, entry_insert, insert_insert_eq. reflexivity.
Qed.

Lemma queuedRequestFinished_local apiId now st :
  let r := completed now (entry apiId st) in
  queuedRequestFinished apiId now st
  = (fst r ++ fst (drainedNext now (snd r)), <[apiId := snd (drainedNext now (snd r))]> st).
Proof.
  intros r. unfold queuedRequestFinished. rewrite recordCompletion_local. fold r.
  rewrite processNext_local, lookup_insert_eq, insert_insert_eq. reflexivity.
Qed.

(** ** The last minute of a history *)

Lemma lastMinute_later now now' l :
  now <= now' -> lastMinute now' (lastMinute now l) = lastMinute now' l.
Proof.
  intros Hle. unfold lastMinute. induction l as [|x l IH]; [reflexivity|]. cbn.
  destruct (Z.gtb_spec x (now - 60000)); cbn.
  - rewrite IH. reflexivity.
  - rewrite IH. destruct (Z.gtb_spec x (now' - 60000)); [lia|reflexivity].
Qed.

Lemma lastMinute_length now l : (length (lastMinute now l) <= length l)%nat.
Proof. apply List.filter_length_le. Qed.

Lemma lastMinute_app now l l' : lastMinute now (l ++ l') = lastMinute now l ++ lastMinute now l'.
Proof. apply List.filter_app. Qed.

Lemma lastMinute_now now : lastMinute now [now] = [now].
Proof. unfold lastMinute. cbn. destruct (Z.gtb_spec now (now - 60000)); [reflexivity|lia]. Qed.

Lemma lastMinute_idem now l : lastMinute now (lastMinute now l) = lastMinute now l.
Proof. apply lastMinute_later. lia. Qed.

(** ** One resource keeps its invariant *)

Lemma core_later now now' s adm d q :
  now <= now' -> resource_core now s adm d q -> resource_core now' s adm d q.
Proof.
  intros Hle [Ha Hw Hr]. split; [exact Ha| |].
  - rewrite <- (lastMinute_later now now' adm), Hw by exact Hle.
    apply lastMinute_later, Hle.
  - rewrite <- (lastMinute_later now now' (requestHistory s)) by exact Hle.
    pose proof (lastMinute_length now' (lastMinute now (requestHistory s))). lia.
Qed.

Lemma ok_later now now' s adm d q t :
  now <= now' -> resource_ok now s adm d q t -> resource_ok now' s adm d q t.
Proof. intros Hle [Hc Hd Hr]. split; [eapply core_later; eauto|exact Hd|exact Hr]. Qed.

Lemma core_checked now s adm d q :
  resource_core now s adm d q -> resource_core now (checked now s) adm d q.
Proof.
  intros [Ha Hw Hr]. unfold checked. destruct (_ >=? _); [split; assumption|].
  split; cbn [activeRequests requestHistory requestsPerMinute];
    [exact Ha|rewrite lastMinute_idem; exact Hw|rewrite lastMinute_idem; exact Hr].
Qed.

Lemma ok_checked now s adm d q t :
  resource_ok now s adm d q t -> resource_ok now (checked now s) adm d q t.
Proof.
  intros [Hc Hd Hr]. split; [apply core_checked, Hc| |];
    unfold checked; destruct (_ >=? _); assumption.
Qed.

Lemma allows_room now s :
  allows now s = true ->
  Z.of_nat (length (lastMinute now (requestHistory s))) < requestsPerMinute s
  /\ requestHistory (checked now s) = lastMinute now (requestHistory s)
  /\ activeRequests (checked now s) = activeRequests s.
Proof.
  unfold allows, checked. destruct (_ >=? _); [discriminate|].
  intros H%Z.ltb_lt. auto.
Qed.

(** An admission: [checkLimit] has answered [true] and [recordRequest]
    follows. *)
Lemma core_admitted now s adm d q (rest : list QueueItem) :
  resource_core now s adm d q -> allows now s = true ->
  resource_core now (recorded now (set_queue rest (checked now s))) (adm ++ [now]) (S d) q
  /\ resource_core now (recorded now (set_queue rest (checked now s))) (adm ++ [now]) d (S q).
Proof.
  intros [Ha Hw Hr] Hallow. destruct (allows_room now s Hallow) as (Hlt & Hh & Hact).
  assert (Hwin : lastMinute now (adm ++ [now])
                 = lastMinute now (requestHistory (checked now s) ++ [now])).
  { rewrite !lastMinute_app, Hh, lastMinute_idem, Hw. reflexivity. }
  assert (Hrate : Z.of_nat (length (lastMinute now (requestHistory (checked now s) ++ [now])))
                  <= requestsPerMinute (checked now s)).
  { rewrite lastMinute_app, Hh, lastMinute_idem, lastMinute_now, length_app. cbn.
    replace (requestsPerMinute (checked now s)) with (requestsPerMinute s)
      by (unfold checked; destruct (_ >=? _); reflexivity).
    lia. }
  split; split; cbn; try assumption; rewrite Hact, Ha; lia.
Qed.

(** [processNext], called by the one continuation of the drain. *)
Lemma ok_drainedNext now s adm d q t :
  resource_core now s adm d q -> queueProcessing s = true -> (t + q = 0)%nat ->
  let r := drainedNext now s in
  resource_ok now (snd r) (adm ++ repeat now (starts (fst r))) d
    (q + starts (fst r)) (t + polls (fst r)).
Proof.
  intros Hc Hflag Hzero r. subst r. unfold drainedNext.
  destruct (queue s) as [|item rest] eqn:Hq; cbn [fst snd starts polls List.filter length repeat].
  - rewrite app_nil_r, !Nat.add_0_r. split; cbn.
    + destruct Hc. split; assumption.
    + discriminate.
    + intros _. rewrite Hq. auto.
  - destruct (allows now s) eqn:Hallow; cbn [fst snd starts polls List.filter length repeat].
    + destruct (core_admitted now s adm d q rest Hc Hallow) as [_ Hc'].
      replace (q + 1)%nat with (S q) by lia. rewrite Nat.add_0_r. split; cbn.
      * exact Hc'.
      * intros _. lia.
      * unfold checked. destruct (_ >=? _); cbn; congruence.
    + rewrite app_nil_r, Nat.add_0_r. split.
      * apply core_checked, Hc.
      * intros _. lia.
      * unfold checked. destruct (_ >=? _); cbn; congruence.
Qed.

(** [_processQueue] between two runs: nothing to start. *)
Lemma ok_drainStarted now s adm d q t :
  resource_ok now s adm d q t ->
  drainStarted now s = ([], s).
Proof.
  intros [_ _ Hrest]. unfold drainStarted.
  destruct (queueProcessing s); [reflexivity|].
  destruct (Hrest eq_refl) as [_ ->]. reflexivity.
Qed.

(** [enqueue] *)
Lemma ok_enqueued item now s adm d q t :
  resource_ok now s adm d q t ->
  let r := enqueued item now s in
  resource_ok now (snd r) (adm ++ repeat now (starts (fst r))) d
    (q + starts (fst r)) (t + polls (fst r)).
Proof.
  intros [Hc Hd Hrest] r. subst r. unfold enqueued.
  destruct (queueProcessing s) eqn:Hflag; cbn [fst snd].
  - cbn. rewrite app_nil_r, !Nat.add_0_r. split; cbn.
    + destruct Hc. split; assumption.
    + intros _. auto.
    + congruence.
  - unfold drainStarted. cbn [queueProcessing set_queue queue]. rewrite Hflag.
    destruct (Hrest eq_refl) as [Hzero Hq]. rewrite Hq. cbn [app length Nat.eqb orb].
    apply ok_drainedNext; [|reflexivity|exact Hzero].
    destruct Hc. split; assumption.
Qed.

(** [recordCompletion] of a request admitted by [request]. *)
Lemma ok_completed now s adm d q t :
  resource_ok now s adm d q t -> (0 < d)%nat ->
  completed now s
  = ([], {| requestsPerMinute := requestsPerMinute s;
            concurrentRequests := concurrentRequests s;
            activeRequests := activeRequests s - 1;
            requestHistory := requestHistory s;
            queue := queue s;
            queueProcessing := queueProcessing s |})
  /\ resource_ok now (snd (completed now s)) adm (Nat.pred d) q t.
Proof.
  intros [[Ha Hw Hr] Hd Hrest] Hpos.
  assert (Hok : resource_ok now
                  {| requestsPerMinute := requestsPerMinute s;
                     concurrentRequests := concurrentRequests s;
                     activeRequests := activeRequests s - 1;
                     requestHistory := requestHistory s;
                     queue := queue s;
                     queueProcessing := queueProcessing s |} adm (Nat.pred d) q t).
  { split; [split|..]; cbn; try assumption. lia. }
  unfold completed. replace (Z.max 0 (activeRequests s - 1)) with (activeRequests s - 1) by lia.
  rewrite (ok_drainStarted _ _ _ _ _ _ Hok). split; [reflexivity|exact Hok].
Qed.

(** The [finally] of a request started from the queue. *)
Lemma ok_drainedFinished now s adm d q t :
  resource_ok now s adm d q t -> (0 < q)%nat ->
  let r := completed now s in
  let r' := drainedNext now (snd r) in
  resource_ok now (snd r') (adm ++ repeat now (starts (fst r ++ fst r'))) d
    (Nat.pred q + starts (fst r ++ fst r')) (t + polls (fst r ++ fst r')).
Proof.
  intros [[Ha Hw Hr] Hd Hrest] Hpos r r'.
  assert (Hflag : queueProcessing s = true).
  { destruct (queueProcessing s); [reflexivity|]. destruct (Hrest eq_refl). lia. }
  specialize (Hd Hflag).
  assert (Hr0 : r = ([], {| requestsPerMinute := requestsPerMinute s;
                            concurrentRequests := concurrentRequests s;
                            activeRequests := activeRequests s - 1;
                            requestHistory := requestHistory s;
                            queue := queue s;
                            queueProcessing := queueProcessing s |})).
  { subst r. unfold completed, drainStarted. cbn [queueProcessing]. rewrite Hflag.
    replace (Z.max 0 (activeRequests s - 1)) with (activeRequests s - 1) by lia.
    reflexivity. }
  subst r'. rewrite Hr0. cbn [fst snd app].
  apply ok_drainedNext; [|exact Hflag|lia].
  split; cbn; try assumption. lia.
Qed.

(** A timer of the drain fires. *)
Lemma ok_timerFired now s adm d q t :
  resource_ok now s adm d q t -> (0 < t)%nat ->
  let r := drainedNext now s in
  resource_ok now (snd r) (adm ++ repeat now (starts (fst r))) d
    (q + starts (fst r)) (Nat.pred t + polls (fst r)).
Proof.
  intros [Hc Hd Hrest] Hpos r.
  assert (Hflag : queueProcessing s = true).
  { destruct (queueProcessing s); [reflexivity|]. destruct (Hrest eq_refl). lia. }
  specialize (Hd Hflag). apply ok_drainedNext; [exact Hc|exact Hflag|lia].
Qed.

(** ** The whole limiter keeps its invariant *)

Lemma at_key_eq {A} apiId (f : A -> A) m : at_key apiId f m apiId = f (m apiId).
Proof. unfold at_key. rewrite String.eqb_refl. reflexivity. Qed.

Lemma at_key_ne {A} apiId x (f : A -> A) m : x <> apiId -> at_key apiId f m x = m x.
Proof. intros Hne. unfold at_key. apply String.eqb_neq in Hne. rewrite Hne. reflexivity. Qed.

Lemma absorb_fields apiId now effects : forall sys,
  clock (absorb apiId now effects sys) = clock sys
  /\ limiter (absorb apiId now effects sys) = limiter sys
  /\ direct (absorb apiId now effects sys) = direct sys
  /\ admitted (absorb apiId now effects sys) apiId
     = admitted sys apiId ++ repeat now (starts effects)
  /\ drained (absorb apiId now effects sys) apiId = (drained sys apiId + starts effects)%nat
  /\ timers (absorb apiId now effects sys) apiId = (timers sys apiId + polls effects)%nat
  /\ forall x, x <> apiId ->
       admitted (absorb apiId now effects sys) x = admitted sys x
       /\ drained (absorb apiId now effects sys) x = drained sys x
       /\ timers (absorb apiId now effects sys) x = timers sys x.
Proof.
  induction effects as [|effect effects IH]; intros sys.
  - cbn. rewrite app_nil_r, !Nat.add_0_r. repeat split.
  - change (absorb apiId now (effect :: effects) sys)
      with (absorb apiId now effects (absorb1 apiId now sys effect)).
    destruct (IH (absorb1 apiId now sys effect)) as (-> & -> & -> & -> & -> & -> & Hx).
    assert (Hother : forall x, x <> apiId ->
              admitted (absorb1 apiId now sys effect) x = admitted sys x
              /\ drained (absorb1 apiId now sys effect) x = drained sys x
              /\ timers (absorb1 apiId now sys effect) x = timers sys x).
    { intros x Hne. destruct effect; cbn; rewrite ?at_key_ne by exact Hne; auto. }
    assert (Hrest : forall x, x <> apiId ->
              admitted (absorb apiId now effects (absorb1 apiId now sys effect)) x
              = admitted sys x
              /\ drained (absorb apiId now effects (absorb1 apiId now sys effect)) x
                 = drained sys x
              /\ timers (absorb apiId now effects (absorb1 apiId now sys effect)) x
                 = timers sys x).
    { intros x Hne. destruct (Hx x Hne) as (-> & -> & ->). apply Hother, Hne. }
    clear Hx Hother.
    destruct effect as [item|ms].
    + change (starts (StartQueued item :: effects)) with (S (starts effects)).
      change (polls (StartQueued item :: effects)) with (polls effects).
      cbn [absorb1 clock limiter direct admitted drained timers]. rewrite !at_key_eq.
      split; [reflexivity|]. split; [reflexivity|]. split; [reflexivity|].
      split; [rewrite <- app_assoc; reflexivity|]. split; [lia|]. split; [lia|exact Hrest].
    + change (starts (PollAgain ms :: effects)) with (starts effects).
      change (polls (PollAgain ms :: effects)) with (S (polls effects)).
      cbn [absorb1 clock limiter direct admitted drained timers]. rewrite !at_key_eq.
      split; [reflexivity|]. split; [reflexivity|]. split; [reflexivity|].
      split; [reflexivity|]. split; [lia|]. split; [lia|exact Hrest].
Qed.

(** A run of limiter code on the resource [apiId] at time [now]. *)
Lemma sys_ok_act sys sys' apiId now s' :
  sys_ok sys -> clock sys <= now ->
  clock sys' = now -> limiter sys' = <[apiId := s']> (limiter sys) ->
  (forall x, x <> apiId ->
     admitted sys' x = admitted sys x /\ direct sys' x = direct sys x
     /\ drained sys' x = drained sys x /\ timers sys' x = timers sys x) ->
  resource_ok now s' (admitted sys' apiId) (direct sys' apiId) (drained sys' apiId)
    (timers sys' apiId) ->
  sys_ok sys'.
Proof.
  intros Hok Hle Hclock Hlim Hother Hres x. rewrite Hclock, Hlim.
  destruct (decide (x = apiId)) as [->|Hne].
  - rewrite entry_insert. exact Hres.
  - rewrite entry_insert_ne by congruence.
    destruct (Hother x Hne) as (-> & -> & -> & ->).
    eapply ok_later; [exact Hle|apply Hok].
Qed.

Lemma sys_ok_init apiId options sys :
  sys_ok sys -> sys_ok (ran (clock sys) (snd (init apiId options (limiter sys))) sys).
Proof.
  intros Hok. unfold init. destruct (limiter sys !! apiId) as [s|] eqn:Hs; cbn [snd].
  - intros x. apply Hok.
  - eapply (sys_ok_act sys _ apiId (clock sys)); [exact Hok|lia|reflexivity|reflexivity| |].
    + intros x _. repeat split.
    + cbn [ran admitted direct drained timers].
      pose proof (Hok apiId) as [[Ha Hw Hr] Hd Hrest]. unfold entry, init in *.
      rewrite Hs in *. cbn [fst] in *.
      split; [split|..]; cbn [activeRequests requestHistory requestsPerMinute queueProcessing
                              queue] in *; try assumption.
      cbn. pose proof (count_or_positive (opt_requestsPerMinute options)
                         DEFAULT_CONFIG.rateLimit_requestsPerMinute eq_refl). lia.
Qed.

Lemma sys_ok_checkLimit apiId now sys :
  sys_ok sys -> clock sys <= now ->
  sys_ok (ran now (snd (checkLimit apiId now (limiter sys))) sys).
Proof.
  intros Hok Hle. rewrite checkLimit_local. cbn [snd].
  eapply (sys_ok_act sys _ apiId now); [exact Hok|exact Hle|reflexivity|reflexivity| |].
  - intros x _. repeat split.
  - apply ok_checked. eapply ok_later; [exact Hle|apply Hok].
Qed.

Lemma sys_ok_requested JSON_stringify env now promise url options sys :
  sys_ok sys -> clock sys <= now ->
  sys_ok (requested JSON_stringify env now promise url options sys).
Proof.
  intros Hok Hle. unfold requested, request.
  destruct (_ && truthy (env_mock env)); [exact Hok|].
  destruct (_ && truthy (env_cache env _)); [exact Hok|].
  set (apiId := default "default" (o_apiId options)).
  rewrite checkLimit_local.
  pose proof (ok_later _ now _ _ _ _ _ Hle (Hok apiId)) as Hres.
  destruct (allows now (entry apiId (limiter sys))) eqn:Hallow.
  - rewrite recordRequest_local, entry_insert, insert_insert_eq.
    eapply (sys_ok_act sys _ apiId now); [exact Hok|exact Hle|reflexivity|reflexivity| |].
    + intros x Hne. cbn. rewrite !at_key_ne by exact Hne. repeat split.
    + cbn [admitted direct drained timers]. rewrite !at_key_eq.
      destruct Hres as [Hc Hd Hrest].
      destruct (core_admitted now _ _ _ _ (queue (checked now (entry apiId (limiter sys))))
                  Hc Hallow) as [Hc' _].
      assert (Hsame : set_queue (queue (checked now (entry apiId (limiter sys))))
                        (checked now (entry apiId (limiter sys)))
                      = checked now (entry apiId (limiter sys)))
        by (destruct (checked now _); reflexivity).
      rewrite Hsame in Hc'. split; [exact Hc'|..]; cbn [recorded queueProcessing queue];
        unfold checked; destruct (_ >=? _); assumption.
  - rewrite enqueue_local, entry_insert, insert_insert_eq.
    set (item := {| requestFn := _; promise := promise; timestamp := now |}).
    set (r := enqueued item now (checked now (entry apiId (limiter sys)))).
    cbn [fst snd].
    destruct (absorb_fields apiId now (fst r) (ran now (<[apiId := snd r]> (limiter sys)) sys))
      as (Hc & Hl & Hd & Ha & Hq & Ht & Hx).
    eapply (sys_ok_act sys _ apiId now); [exact Hok|exact Hle|exact Hc|exact Hl| |].
    + intros x Hne. destruct (Hx x Hne) as (-> & -> & ->). rewrite Hd. repeat split.
    + rewrite Ha, Hd, Hq, Ht. apply ok_enqueued, ok_checked, Hres.
Qed.

Lemma sys_ok_directFinished apiId now sys :
  sys_ok sys -> clock sys <= now -> (0 < direct sys apiId)%nat ->
  sys_ok (directFinished apiId now sys).
Proof.
  intros Hok Hle Hpos. unfold directFinished. rewrite recordCompletion_local.
  pose proof (ok_later _ now _ _ _ _ _ Hle (Hok apiId)) as Hres.
  destruct (ok_completed now _ _ _ _ _ Hres Hpos) as [Heq Hres'].
  rewrite Heq in *. cbn [fst snd absorb fold_left] in *.
  eapply (sys_ok_act sys _ apiId now); [exact Hok|exact Hle|reflexivity|reflexivity| |].
  - intros x Hne. cbn. rewrite at_key_ne by exact Hne. repeat split.
  - cbn [admitted direct drained timers]. rewrite at_key_eq. exact Hres'.
Qed.

Lemma sys_ok_timerFired apiId now sys :
  sys_ok sys -> clock sys <= now -> (0 < timers sys apiId)%nat ->
  sys_ok (timerFired apiId now sys).
Proof.
  intros Hok Hle Hpos. unfold timerFired. rewrite processNext_local.
  pose proof (ok_later _ now _ _ _ _ _ Hle (Hok apiId)) as Hres.
  destruct (limiter sys !! apiId) as [s|] eqn:Hs.
  - rewrite (entry_Some _ _ _ Hs) in Hres.
    set (r := drainedNext now s). cbn [fst snd].
    destruct (absorb_fields apiId now (fst r)
                {| clock := now; limiter := <[apiId := snd r]> (limiter sys);
                   admitted := admitted sys; direct := direct sys; drained := drained sys;
                   timers := at_key apiId Nat.pred (timers sys) |})
      as (Hc & Hl & Hd & Ha & Hq & Ht & Hx).
    eapply (sys_ok_act sys _ apiId now); [exact Hok|exact Hle|exact Hc|exact Hl| |].
    + intros x Hne. destruct (Hx x Hne) as (-> & -> & ->). rewrite Hd. cbn.
      rewrite at_key_ne by exact Hne. repeat split.
    + rewrite Ha, Hd, Hq, Ht. cbn [admitted direct drained timers]. rewrite at_key_eq.
      apply ok_timerFired; assumption.
  - exfalso. destruct Hres as [_ _ Hrest]. unfold entry, init in Hrest. rewrite Hs in Hrest.
    destruct (Hrest eq_refl). lia.
Qed.

Lemma sys_ok_drainedFinished apiId now sys :
  sys_ok sys -> clock sys <= now -> (0 < drained sys apiId)%nat ->
  sys_ok (drainedFinished apiId now sys).
Proof.
  intros Hok Hle Hpos. unfold drainedFinished. rewrite queuedRequestFinished_local.
  pose proof (ok_later _ now _ _ _ _ _ Hle (Hok apiId)) as Hres.
  set (r := completed now (entry apiId (limiter sys))).
  set (r' := drainedNext now (snd r)). cbn zeta.
  destruct (absorb_fields apiId now (fst r ++ fst r')
              {| clock := now; limiter := <[apiId := snd r']> (limiter sys);
                 admitted := admitted sys; direct := direct sys;
                 drained := at_key apiId Nat.pred (drained sys);
                 timers := timers sys |})
    as (Hc & Hl & Hd & Ha & Hq & Ht & Hx).
  eapply (sys_ok_act sys _ apiId now); [exact Hok|exact Hle|exact Hc|exact Hl| |].
  - intros x Hne. destruct (Hx x Hne) as (-> & -> & ->). rewrite Hd. cbn.
    rewrite at_key_ne by exact Hne. repeat split.
  - rewrite Ha, Hd, Hq, Ht. cbn [admitted direct drained timers]. rewrite at_key_eq.
    apply ok_drainedFinished; assumption.
Qed.

Lemma sys_ok_step JSON_stringify sys sys' :
  SysStep JSON_stringify sys sys' -> sys_ok sys -> sys_ok sys'.
Proof.
  intros Hstep Hok. destruct Hstep.
  - apply sys_ok_init, Hok.
  - apply sys_ok_checkLimit; assumption.
  - apply sys_ok_requested; assumption.
  - apply sys_ok_directFinished; assumption.
  - apply sys_ok_timerFired; assumption.
  - apply sys_ok_drainedFinished; assumption.
Qed.

Lemma sys0_ok : sys_ok sys0.
Proof.
  intros apiId. split; [split|..]; cbn; try reflexivity; try lia; try discriminate.
  intros _. auto.
Qed.

Lemma sys_reachable_ok JSON_stringify sys : sys_reachable JSON_stringify sys -> sys_ok sys.
Proof.
  revert sys. apply (rtc_ind_r (fun sys => sys_ok sys) sys0).
  - apply sys0_ok.
  - intros sys sys' _ Hstep Hok. eapply sys_ok_step; eassumption.
Qed.

(** X1 - the error [fromResponse] builds is retryable exactly when the body
    of the response could be read (as JSON or as text) and the status is 429
    or at least 500; with a body that cannot be read it is never retryable. *)
Theorem fromResponse_retryable_iff (response : Response) (requestUrl : option string) :
  isRetryable (fromResponse response requestUrl) = true <->
  ((exists d, resp_json response = inr d) \/ (exists t, resp_text response = inr t))
  /\ (resp_status response = 429 \/ 500 <= resp_status response).
Proof.
  rewrite isRetryable_spec.
  pose proof (fromResponse_type response requestUrl) as Hty.
  pose proof (fromResponse_status response requestUrl) as Hst.
  assert (Hcls : forall s,
             (fst (classifyStatus s) = NETWORK \/ fst (classifyStatus s) = TIMEOUT
              \/ fst (classifyStatus s) = RATE_LIMIT
              \/ fst (classifyStatus s) = SERVER /\ 500 <= s)
             <-> s = 429 \/ 500 <= s).
  { intros s. unfold classifyStatus.
    destruct (Z.eqb_spec s 401); [cbn; split; [intros [|[|[|[]]]]; discriminate|lia]|].
    destruct (Z.eqb_spec s 403); [cbn; split; [intros [|[|[|[]]]]; discriminate|lia]|].
    destruct (Z.eqb_spec s 404); [cbn; split; [intros [|[|[|[]]]]; discriminate|lia]|].
    destruct (Z.eqb_spec s 429); [cbn; split; auto|].
    destruct (Z.leb_spec 400 s); destruct (Z.ltb_spec s 500); cbn;
      try (split; [intros [|[|[|[]]]]; try discriminate; lia|lia]).
    - destruct (Z.leb_spec 500 s); cbn; [|lia].
      split; [intros [|[|[|[]]]]; try discriminate; lia|intros _; auto].
    - destruct (Z.leb_spec 500 s); cbn; [lia|].
      split; [intros [|[|[|[]]]]; discriminate|lia]. }
  rewrite Hst, Hty. clear Hst Hty.
  destruct (resp_json response) as [ej|d]; [destruct (resp_text response) as [et|t]|].
  - split.
    + intros [|[|[|[]]]]; discriminate.
    + intros [[[d [=]]|[t [=]]] _].
  - rewrite <- Hcls. split.
    + intros [|[|[|(Hs & s & [= <-] & Hle)]]]; (split; [right; eauto|]); auto.
    + intros [_ [|[|[|[Hs Hle]]]]]; auto. right; right; right. eauto.
  - rewrite <- Hcls. split.
    + intros [|[|[|(Hs & s & [= <-] & Hle)]]]; (split; [left; eauto|]); auto.
    + intros [_ [|[|[|[Hs Hle]]]]]; auto. right; right; right. eauto.
Qed.

Lemma fromNetworkError_retryable error requestUrl :
  isRetryable (fromNetworkError error requestUrl) = true
  /\ status (fromNetworkError error requestUrl) = None
  /\ originalError (fromNetworkError error requestUrl) = Some error
  /\ (type (fromNetworkError error requestUrl) = NETWORK
      \/ type (fromNetworkError error requestUrl) = TIMEOUT).
Proof. unfold fromNetworkError. destruct (_ || _); cbn; auto. Qed.

(** X2 - a response with a status in 200-299 whose body does not parse as
    JSON is turned into a network (or timeout) error and retried like one:
    when every attempt gets such a response, the executor calls [fetch]
    [retries + 1] times and rejects with an error without status that
    carries the parse error. *)
Theorem executeRequest_retries_unparsable_success (c : RequestClosure) :
  0 <= rc_retries c ->
  (forall i, exists response error,
      rc_fetch c i = FetchResolves response
      /\ resp_ok response = true /\ resp_json response = inl error) ->
  exists e evs error,
    settles c = (inl e, evs)
    /\ fetchCount evs = rc_retries c + 1
    /\ (type e = NETWORK \/ type e = TIMEOUT)
    /\ status e = None
    /\ originalError e = Some error
    /\ isRetryable e = true.
Proof.
  intros Hretries Hbad.
  assert (Hatt : forall i, exists error,
             fst (attemptOnce c i) = inl (fromNetworkError error (Some (rc_url c)))).
  { intros i. destruct (Hbad i) as (response & error & Hf & Hok & Hj).
    exists error. unfold attemptOnce. rewrite Hf, Hok, Hj. reflexivity. }
  destruct (executeRequest_exhausts c (Z.to_nat (rc_retries c)) 0%nat)
    as (e & evs & Hrun & Hcount & Hlast); [lia|lia| |].
  { intros i. destruct (Hatt i) as [error ->]. eexists. split; [reflexivity|].
    apply fromNetworkError_retryable. }
  destruct (Hatt (Z.to_nat (rc_retries c))) as [error Herr].
  rewrite Herr in Hlast. injection Hlast as <-.
  destruct (fromNetworkError_retryable error (Some (rc_url c))) as (Hr & Hs & Ho & Ht).
  exists (fromNetworkError error (Some (rc_url c))), evs, error.
  unfold settles. repeat split; try assumption. lia.
Qed.

Lemma executeRequest_retries_unparsable_success_witness :
  exists e evs error,
    settles (plainExecutor "https://example.org/a" (answers htmlBody200)) = (inl e, evs)
    /\ fetchCount evs = 3 + 1
    /\ (type e = NETWORK \/ type e = TIMEOUT)
    /\ status e = None
    /\ originalError e = Some error
    /\ isRetryable e = true.
Proof.
  apply (executeRequest_retries_unparsable_success
           (plainExecutor "https://example.org/a" (answers htmlBody200))).
  - vm_compute. discriminate.
  - intros i. eexists _, _. repeat split.
Defined.

(** ** The attempt that decides *)

(** The events of the attempts [attempt], ..., [attempt + k - 1], each
    followed by its backoff. *)
Lemma executeRequest_decisive (c : RequestClosure) (k : nat) : forall attempt : nat,
  (forall i, (attempt <= i < attempt + k)%nat ->
     exists e, fst (attemptOnce c i) = inl e /\ shouldRetry c i e = true) ->
  match fst (attemptOnce c (attempt + k)) with
  | inl e => shouldRetry c (attempt + k) e = false
  | inr _ => True
  end ->
  executeRequest c attempt
  = (fst (attemptOnce c (attempt + k)),
     flat_map (fun i => snd (attemptOnce c i) ++ [EvBackoff i (backoffDelay c i)])
       (seq attempt k)
     ++ snd (attemptOnce c (attempt + k))).
Proof.
  induction k as [|k IH]; intros attempt Hretry Hstop;
    rewrite (executeRequest_step c attempt).
  - rewrite Nat.add_0_r in *. cbn [seq flat_map app].
    destruct (attemptOnce c attempt) as [[e|data] evs]; cbn [fst snd] in *.
    + rewrite Hstop. reflexivity.
    + reflexivity.
  - destruct (Hretry attempt) as (e & He & Hyes); [lia|].
    destruct (attemptOnce c attempt) as [[e'|data] evs] eqn:Hatt; cbn [fst] in He;
      [injection He as ->|discriminate].
    rewrite Hyes. replace (attempt + S k)%nat with (S attempt + k)%nat in * by lia.
    rewrite (IH (S attempt)); [|intros i Hi; apply Hretry; lia|exact Hstop].
    cbn [fst snd seq flat_map]. rewrite Hatt. cbn [snd]. rewrite <- !app_assoc. reflexivity.
Qed.

Lemma fetchCount_attempts c l :
  fetchCount (flat_map (fun i => snd (attemptOnce c i) ++ [EvBackoff i (backoffDelay c i)]) l)
  = Z.of_nat (length l).
Proof.
  induction l as [|i l IH]; [reflexivity|]. cbn [flat_map].
  rewrite !fetchCount_app, attemptOnce_fetches_once, IH. cbn [length].
  change (fetchCount [EvBackoff i (backoffDelay c i)]) with 0. lia.
Qed.

(** X3 - the executor settles with the outcome of the first attempt that
    succeeds, fails with an error that is not retryable, or is attempt
    number [retries]: when the attempts before attempt [k] fail with
    retryable errors, the executor makes the attempts 0, ..., [k] in order,
    with a backoff between two attempts and none after the last, calls
    [fetch] [k + 1] times and settles as attempt [k] does. *)
Theorem executeRequest_settles_with_first_decisive_attempt (c : RequestClosure) (k : nat) :
  Z.of_nat k <= rc_retries c ->
  (forall i, (i < k)%nat -> exists e, fst (attemptOnce c i) = inl e /\ isRetryable e = true) ->
  (Z.of_nat k = rc_retries c
   \/ (exists data, fst (attemptOnce c k) = inr data)
   \/ (exists e, fst (attemptOnce c k) = inl e /\ isRetryable e = false)) ->
  fst (settles c) = fst (attemptOnce c k)
  /\ snd (settles c)
     = flat_map (fun i => snd (attemptOnce c i) ++ [EvBackoff i (backoffDelay c i)]) (seq 0 k)
       ++ snd (attemptOnce c k)
  /\ fetchCount (snd (settles c)) = Z.of_nat k + 1.
Proof.
  intros Hk Hretry Hstop. unfold settles.
  rewrite (executeRequest_decisive c k 0%nat).
  - cbn [fst snd Nat.add]. split; [reflexivity|]. split; [reflexivity|].
    rewrite fetchCount_app, fetchCount_attempts, attemptOnce_fetches_once, length_seq. lia.
  - intros i Hi. destruct (Hretry i) as (e & He & Hyes); [lia|]. exists e. split; [exact He|].
    unfold shouldRetry. rewrite Hyes.
    destruct (Z.ltb_spec (Z.of_nat i) (rc_retries c)); [reflexivity|lia].
  - cbn [Nat.add]. destruct (fst (attemptOnce c k)) as [e|data] eqn:Hatt; [|exact I].
    unfold shouldRetry. destruct Hstop as [Hlast|[[data [=]]|(e' & [= <-] & Hno)]].
    + destruct (Z.ltb_spec (Z.of_nat k) (rc_retries c)); [lia|reflexivity].
    + rewrite Hno. apply andb_false_r.
Qed.

Lemma executeRequest_settles_with_first_decisive_attempt_witness :
  let c := plainExecutor "https://example.org/a" thirdTimeLucky in
  fst (settles c) = inr (JsObject [("ok", JsBool true)])
  /\ fetchCount (snd (settles c)) = 3.
Proof.
  intros c.
  destruct (executeRequest_settles_with_first_decisive_attempt c 2) as (Hres & _ & Hn).
  - vm_compute. discriminate.
  - intros i Hi. assert (i = 0 \/ i = 1)%nat as [-> | ->] by lia;
      (eexists; split; [reflexivity|reflexivity]).
  - right. left. eexists. reflexivity.
  - split; [exact Hres|exact Hn].
Defined.

(** ** What the limiter guarantees *)

(** X4 - the rate ceiling: in every state the limiter can reach, with a
    clock that does not go back, the requests of a resource admitted during
    the last minute (by [request] or from the queue) are at most
    [requestsPerMinute]. *)
Theorem limiter_admits_at_most_requestsPerMinute
    (JSON_stringify : JsValue -> string) (sys : Sys) (apiId : string) (s : RateLimitState) :
  sys_reachable JSON_stringify sys ->
  limiter sys !! apiId = Some s ->
  Z.of_nat (length (lastMinute (clock sys) (admitted sys apiId))) <= requestsPerMinute s.
Proof.
  intros Hreach Hs. pose proof (sys_reachable_ok _ _ Hreach apiId) as [[_ Hw Hr] _ _].
  rewrite (entry_Some _ _ _ Hs) in *. rewrite Hw. exact Hr.
Qed.

Lemma twoRequests_reachable : sys_reachable (fun _ => "{}") twoRequests.
Proof.
  unfold sys_reachable, twoRequests.
  eapply rtc_l; [apply (SysInit _ "slow" oneAtATime sys0)|].
  eapply rtc_l.
  { apply (SysRequest _ transportDown 0 0%nat "https://example.org/a" (optionsFor "slow")).
    cbn. lia. }
  apply rtc_once.
  apply (SysRequest _ transportDown 5 1%nat "https://example.org/b" (optionsFor "slow")).
  vm_compute. discriminate.
Qed.

Lemma limiter_admits_at_most_requestsPerMinute_witness :
  Z.of_nat (length (lastMinute (clock twoRequests) (admitted twoRequests "slow"))) <= 10.
Proof.
  assert (Hs : exists s, limiter twoRequests !! "slow" = Some s /\ requestsPerMinute s = 10)
    by (eexists; split; vm_compute; reflexivity).
  destruct Hs as (s & Hs & <-).
  exact (limiter_admits_at_most_requestsPerMinute (fun _ => "{}") twoRequests "slow" s
           twoRequests_reachable Hs).
Defined.

(** X5 - in every state the limiter can reach, [activeRequests] of a
    resource is exactly the number of its requests in flight: those
    [request] admitted and those started from the queue whose [finally] has
    not run yet.  (So the [Math.max(0, ...)] of [recordCompletion] never
    cuts.) *)
Theorem limiter_counts_requests_in_flight
    (JSON_stringify : JsValue -> string) (sys : Sys) (apiId : string) (s : RateLimitState) :
  sys_reachable JSON_stringify sys ->
  limiter sys !! apiId = Some s ->
  activeRequests s = Z.of_nat (direct sys apiId + drained sys apiId).
Proof.
  intros Hreach Hs. pose proof (sys_reachable_ok _ _ Hreach apiId) as [[Ha _ _] _ _].
  rewrite (entry_Some _ _ _ Hs) in Ha. exact Ha.
Qed.

Lemma limiter_counts_requests_in_flight_witness :
  exists s, limiter twoRequests !! "slow" = Some s
            /\ activeRequests s = Z.of_nat (direct twoRequests "slow" + drained twoRequests "slow").
Proof.
  eexists. split; [vm_compute; reflexivity|].
  apply (limiter_counts_requests_in_flight (fun _ => "{}") twoRequests "slow").
  - apply twoRequests_reachable.
  - vm_compute. reflexivity.
Defined.

(** X6 - the queue of a resource is drained by one continuation at a time:
    in every state the limiter can reach, a resource with a non-empty queue
    has [queueProcessing] set; and [queueProcessing] is set exactly when one
    timer of [processNext] is pending or one request started from the queue
    is in flight, never both and never two.  So a waiting request is never
    left without a drain, and the requests of the queue run one after the
    other. *)
Theorem limiter_queue_has_one_drain
    (JSON_stringify : JsValue -> string) (sys : Sys) (apiId : string) (s : RateLimitState) :
  sys_reachable JSON_stringify sys ->
  limiter sys !! apiId = Some s ->
  (queue s <> [] -> queueProcessing s = true)
  /\ (queueProcessing s = true -> (timers sys apiId + drained sys apiId = 1)%nat)
  /\ (queueProcessing s = false -> (timers sys apiId + drained sys apiId = 0)%nat)
  /\ (drained sys apiId <= 1)%nat.
Proof.
  intros Hreach Hs. pose proof (sys_reachable_ok _ _ Hreach apiId) as [_ Hd Hrest].
  rewrite (entry_Some _ _ _ Hs) in *.
  split; [|split; [exact Hd|split; [apply Hrest|]]].
  - intros Hq. destruct (queueProcessing s); [reflexivity|].
    destruct (Hrest eq_refl) as [_ Hempty]. contradiction.
  - destruct (queueProcessing s); [specialize (Hd eq_refl); lia|].
    destruct (Hrest eq_refl). lia.
Qed.

Lemma limiter_queue_has_one_drain_witness :
  exists s, limiter twoRequests !! "slow" = Some s
            /\ length (queue s) = 1%nat
            /\ queueProcessing s = true
            /\ (timers twoRequests "slow" + drained twoRequests "slow" = 1)%nat.
Proof.
  eexists. split; [vm_compute; reflexivity|]. split; [reflexivity|].
  split; [reflexivity|].
  eapply (limiter_queue_has_one_drain (fun _ => "{}") twoRequests "slow").
  - apply twoRequests_reachable.
  - vm_compute. reflexivity.
  - reflexivity.
Defined.

End ApiUtilsMoreFacts.

(** * More properties of api-manager.js *)
Section ApiManagerMoreFacts.
Import ApiManager.

Lemma no_oauth_service (apiId : string) (cfg : ApiServiceConfig) :
  API_CONFIG !! apiId = Some cfg -> cfg_authType cfg <> AuthOAuth.
Proof.
  unfold API_CONFIG. cbn [list_to_map foldr uncurry fst snd]. intros Hcfg.
  repeat match goal with
         | H : <[?k := _]> _ !! apiId = Some cfg |- _ =>
             destruct (decide (k = apiId)) as [<- | ?];
             [rewrite lookup_insert_eq in H; injection H as <-; discriminate
             | rewrite lookup_insert_ne in H by assumption]
         end.
  rewrite lookup_empty in Hcfg. discriminate.
Qed.

Lemma handleApiError_authTokens apiId error now m :
  authTokens (snd (handleApiError apiId error now m)) = authTokens m.
Proof.
  unfold handleApiError. destruct (usageStats m !! apiId); [|reflexivity].
  destruct error as [e|e]; [|reflexivity].
  destruct (ApiUtils.type e); try reflexivity.
  destruct (API_CONFIG !! apiId) as [cfg|] eqn:Hcfg; [|reflexivity].
  pose proof (no_oauth_service apiId cfg Hcfg) as Hno. cbn.
  destruct (cfg_authType cfg); [reflexivity|reflexivity|contradiction].
Qed.

Lemma makeRequest_end_authTokens apiId completion now m :
  authTokens (snd (makeRequest_end apiId completion now m)) = authTokens m.
Proof.
  unfold makeRequest_end. destruct completion as [result|error].
  - unfold recordRequestSuccess. destruct (usageStats m !! apiId); [|reflexivity].
    cbn [requestCount]. destruct (Z.rem _ 10 =? 0); reflexivity.
  - pose proof (handleApiError_authTokens apiId error now m) as H.
    destruct (handleApiError apiId error now m) as [[?|] ?]; exact H.
Qed.

Lemma run_op_authTokens op m : authTokens (run_op m op) = authTokens m.
Proof.
  destruct op as [apiId now|apiId completion now|apiId|[stored|]]; cbn [run_op].
  - unfold makeRequest_begin. destruct (API_CONFIG !! apiId); reflexivity.
  - apply makeRequest_end_authTokens.
  - reflexivity.
  - reflexivity.
  - reflexivity.
Qed.

Lemma run_ops_authTokens ops m : authTokens (fold_left run_op ops m) = authTokens m.
Proof.
  revert m. induction ops as [|op ops IH]; intros m; [reflexivity|].
  cbn [fold_left]. rewrite IH. apply run_op_authTokens.
Qed.

(** X7 - no call of [makeRequest] touches the authentication tokens,
    however its thunk ends and whatever runs on the manager meanwhile:
    [handleApiError] deletes a token only for a service whose [authType] is
    ['oauth'], and [API_CONFIG] has none. *)
Theorem makeRequest_keeps_authTokens
    (apiId : string) (now : Z) (during : list Op) (completion : Completion) (now' : Z)
    (m : Manager) :
  authTokens (snd (makeRequest apiId now during completion now' m)) = authTokens m.
Proof.
  unfold makeRequest, makeRequest_begin.
  destruct (API_CONFIG !! apiId); [|reflexivity].
  rewrite makeRequest_end_authTokens, run_ops_authTokens. reflexivity.
Qed.

(** ** Calls made in turn *)

Lemma makeRequest_unknown apiId now during completion now' m :
  API_CONFIG !! apiId = None ->
  makeRequest apiId now during completion now' m = (Rejected (unknownApi apiId), m).
Proof. intros H. unfold makeRequest, makeRequest_begin. rewrite H. reflexivity. Qed.

Lemma makeRequest_entry call m k :
  is_Some (API_CONFIG !! call_apiId call) ->
  usageStats (snd (makeRequest (call_apiId call) (call_now call) [] (call_completion call)
                               (call_end call) m)) !! k
  = if decide (call_apiId call = k)
    then Some (counted call (default freshStats (usageStats m !! k)))
    else usageStats m !! k.
Proof.
  intros [cfg Hcfg]. destruct call as [apiId now completion now'].
  cbn [call_apiId call_now call_completion call_end] in *. unfold makeRequest, makeRequest_begin. rewrite Hcfg.
  cbn [fold_left]. unfold makeRequest_end, counted, failed. cbn [call_completion call_now
    call_end].
  destruct completion as [result|error].
  - unfold recordRequestSuccess, recordRequestAttempt, set_usageStats. cbn [usageStats].
    rewrite lookup_insert_eq. cbn [requestCount lastRequest errorCount lastError quotaUsage].
    destruct (Z.rem _ 10 =? 0); cbn [usageStats snd saveUsageStats];
      rewrite insert_insert_eq, lookup_insert; case_decide; subst;
      rewrite ?Z.add_0_r; reflexivity.
  - unfold handleApiError, recordRequestAttempt, set_usageStats. cbn [usageStats].
    rewrite lookup_insert_eq, Hcfg.
    cbn [requestCount lastRequest errorCount lastError quotaUsage fmap option_fmap option_map].
    pose proof (no_oauth_service apiId cfg Hcfg) as Hno.
    assert (Hgoal : forall m0 : Manager,
               usageStats m0 = <[apiId := counted
                 {| call_apiId := apiId; call_now := now; call_completion := Throws error;
                    call_end := now' |} (default freshStats (usageStats m !! apiId))]>
                 (usageStats m) ->
               usageStats m0 !! k
               = if decide (apiId = k)
                 then Some (counted
                   {| call_apiId := apiId; call_now := now; call_completion := Throws error;
                      call_end := now' |} (default freshStats (usageStats m !! k)))
                 else usageStats m !! k).
    { intros m0 ->. rewrite lookup_insert. case_decide; subst; reflexivity. }
    unfold counted, failed in Hgoal. cbn [call_completion call_now call_end] in Hgoal.
    destruct error as [e|e].
    + destruct (ApiUtils.type e), (cfg_authType cfg); try contradiction;
        cbn [snd]; apply Hgoal; cbn [usageStats saveUsageStats];
        rewrite insert_insert_eq, ?Z.add_0_r; reflexivity.
    + cbn [snd]. apply Hgoal. cbn [usageStats saveUsageStats].
      rewrite insert_insert_eq, ?Z.add_0_r. reflexivity.
Qed.

Lemma inTurn_snoc calls call m :
  inTurn (calls ++ [call]) m
  = snd (makeRequest (call_apiId call) (call_now call) [] (call_completion call)
                     (call_end call) (inTurn calls m)).
Proof. unfold inTurn. rewrite fold_left_app. reflexivity. Qed.

Lemma callsTo_snoc apiId calls call :
  callsTo apiId (calls ++ [call])
  = callsTo apiId calls ++ (if String.eqb (call_apiId call) apiId then [call] else []).
Proof. unfold callsTo. rewrite List.filter_app. reflexivity. Qed.

Lemma initial_entry apiId :
  is_Some (API_CONFIG !! apiId) -> usageStats initial !! apiId = Some freshStats.
Proof.
  intros Hknown. apply known_api_listed in Hknown. cbn in Hknown.
  destruct Hknown as [<-|[<-|[<-|[<-|[<-|[]]]]]]; vm_compute; reflexivity.
Qed.

(** The entry of a service after calls made in turn on a fresh manager. *)
Lemma inTurn_entry (calls : list Call) (apiId : string) :
  is_Some (API_CONFIG !! apiId) ->
  exists stats,
    usageStats (inTurn calls initial) !! apiId = Some stats
    /\ requestCount stats = Z.of_nat (length (callsTo apiId calls))
    /\ errorCount stats = Z.of_nat (length (List.filter failed (callsTo apiId calls)))
    /\ quotaUsage stats
       = Z.of_nat (length (List.filter (fun call => negb (failed call)) (callsTo apiId calls)))
    /\ lastRequest stats = call_now <$> last (callsTo apiId calls)
    /\ le_timestamp <$> lastError stats
       = call_end <$> last (List.filter failed (callsTo apiId calls)).
Proof.
  intros Hknown. induction calls as [|call calls IH] using rev_ind.
  - exists freshStats. split; [apply initial_entry, Hknown|]. repeat split; reflexivity.
  - destruct IH as (stats & Hs & Hreq & Herr & Hquota & Hlast & Hle).
    rewrite inTurn_snoc, callsTo_snoc.
    destruct (API_CONFIG !! call_apiId call) as [cfg|] eqn:Hcfg.
    + rewrite makeRequest_entry by eauto.
      destruct (String.eqb_spec (call_apiId call) apiId) as [Heq|Hne].
      * rewrite decide_True by exact Heq. rewrite Hs. cbn [default from_option id].
        exists (counted call stats). split; [reflexivity|].
        rewrite !List.filter_app, !length_app, !last_snoc. cbn [List.filter].
        unfold counted.
        cbn [requestCount errorCount quotaUsage lastRequest lastError length fmap option_fmap
             option_map].
        unfold failed in *. destruct (call_completion call) as [result|error];
          cbn [negb length List.filter app fmap option_fmap option_map le_timestamp];
          rewrite ?app_nil_r, ?last_snoc; cbn [fmap option_fmap option_map];
          repeat split; try lia; try assumption; try reflexivity.
      * rewrite decide_False by exact Hne. rewrite app_nil_r. exists stats.
        repeat split; assumption.
    + rewrite makeRequest_unknown by exact Hcfg. cbn [snd].
      destruct (String.eqb_spec (call_apiId call) apiId) as [Heq|Hne].
      * rewrite Heq in Hcfg. rewrite Hcfg in Hknown. destruct Hknown as [? [=]].
      * rewrite app_nil_r. exists stats. repeat split; assumption.
Qed.

Lemma filter_partition_length {A} (f : A -> bool) (l : list A) :
  length l
  = (length (List.filter f l) + length (List.filter (fun x => negb (f x)) l))%nat.
Proof.
  induction l as [|x l IH]; [reflexivity|].
  cbn [List.filter]. destruct (f x); cbn [negb length]; lia.
Qed.

(** X8 - the statistics of a configured service after any number of calls
    of [makeRequest] made in turn on a fresh manager: [requestCount] is the
    number of calls made to the service, [errorCount] the number of those
    whose thunk threw, [quotaUsage] the number of those whose thunk
    returned (so [requestCount = errorCount + quotaUsage]); [lastRequest]
    is the clock at the last call and [lastError.timestamp] the clock at
    the last failure.  Calls to other services, known or not, change
    nothing of it. *)
Theorem makeRequest_counts_every_call (calls : list Call) (apiId : string) :
  is_Some (API_CONFIG !! apiId) ->
  exists stats,
    usageStats (inTurn calls initial) !! apiId = Some stats
    /\ requestCount stats = Z.of_nat (length (callsTo apiId calls))
    /\ errorCount stats = Z.of_nat (length (List.filter failed (callsTo apiId calls)))
    /\ quotaUsage stats
       = Z.of_nat (length (List.filter (fun call => negb (failed call)) (callsTo apiId calls)))
    /\ requestCount stats = errorCount stats + quotaUsage stats
    /\ lastRequest stats = call_now <$> last (callsTo apiId calls)
    /\ le_timestamp <$> lastError stats
       = call_end <$> last (List.filter failed (callsTo apiId calls)).
Proof.
  intros Hknown.
  destruct (inTurn_entry calls apiId Hknown) as (stats & Hs & Hreq & Herr & Hquota & Hl & Hle).
  exists stats. repeat split; try assumption.
  rewrite Hreq, Herr, Hquota, <- Nat2Z.inj_add. f_equal. apply filter_partition_length.
Qed.

Lemma makeRequest_counts_every_call_witness :
  exists stats,
    usageStats (inTurn fourFailures initial) !! "dictionary" = Some stats
    /\ requestCount stats = 4 /\ errorCount stats = 4 /\ quotaUsage stats = 0.
Proof.
  destruct (makeRequest_counts_every_call fourFailures "dictionary")
    as (stats & Hs & Hreq & Herr & Hquota & _); [vm_compute; eauto|].
  exists stats. repeat split; assumption.
Defined.

(** X9 - when a service counts as having recent errors: after calls made
    in turn on a fresh manager, [hasRecentErrors(apiId)] holds exactly when
    the last failure of the service is less than five minutes old and the
    service has failed more than three times in all, however long ago the
    other failures were. *)
Theorem hasRecentErrors_counts_all_failures (calls : list Call) (apiId : string) (now : Z) :
  is_Some (API_CONFIG !! apiId) ->
  hasRecentErrors apiId now (inTurn calls initial) = true
  <-> (exists call, last (List.filter failed (callsTo apiId calls)) = Some call
                    /\ now - 300000 < call_end call)
      /\ (3 < length (List.filter failed (callsTo apiId calls)))%nat.
Proof.
  intros Hknown.
  destruct (inTurn_entry calls apiId Hknown) as (stats & Hs & _ & Herr & _ & _ & Hle).
  unfold hasRecentErrors. rewrite Hs.
  destruct (lastError stats) as [error|];
    destruct (last (List.filter failed (callsTo apiId calls))) as [call|];
    cbn in Hle; try discriminate.
  - injection Hle as Hle. rewrite andb_true_iff, Z.ltb_lt, Z.ltb_lt, Herr, Hle.
    change (5 * 60 * 1000) with 300000. split.
    + intros [Ht Hc]. split; [eauto|lia].
    + intros [(call' & [= <-] & Ht) Hc]. split; [exact Ht|lia].
  - split; [discriminate|]. intros [(call & [=] & _) _].
Qed.

Lemma hasRecentErrors_counts_all_failures_witness :
  is_Some (API_CONFIG !! "dictionary")
  /\ hasRecentErrors "dictionary" 10800020 (inTurn fourFailures initial) = true.
Proof.
  assert (Hknown : is_Some (API_CONFIG !! "dictionary")) by (vm_compute; eauto).
  split; [exact Hknown|].
  apply (hasRecentErrors_counts_all_failures fourFailures "dictionary" 10800020 Hknown).
  split.
  - eexists. split; [vm_compute; reflexivity|]. cbn. lia.
  - cbn. lia.
Defined.

End ApiManagerMoreFacts.

(** * More properties of feature-manager.js *)
Section FeatureManagerMoreFacts.
Import FeatureManager.
Local Open Scope nat_scope.

(** ** An activation on an idle manager, run to its end *)

Lemma drive_idle a n st : worker st = Idle -> drive a n st = st.
Proof.
  intros Hidle. induction n as [|n IH]; [reflexivity|].
  cbn [drive]. rewrite Hidle. cbn [respond]. unfold step. rewrite Hidle. exact IH.
Qed.

(** The worker resumed after [_activateFeature], the queue being empty. *)
Lemma tick_closes a F r st n :
  worker st = AwaitActivation F r -> activationQueue st = [] ->
  drive a (S n) st
  = with_worker Idle (with_processing false (with_queue [] (delivered F r st))).
Proof.
  intros Hw Hq. cbn [drive]. rewrite Hw. cbn [respond]. unfold step. rewrite Hw.
  rewrite after_activation_delivered.
  destruct (delivered_fields F r st) as (_ & _ & _ & Hq' & _). rewrite Hq', Hq.
  cbn [processLoop]. apply drive_idle. reflexivity.
Qed.

Lemma drive_finished a F r st n :
  worker st = AwaitActivation F r -> activationQueue st = [] -> 1 <= n ->
  drive a n st = drive a 1 st.
Proof.
  intros Hw Hq Hn. destruct n as [|n]; [lia|].
  rewrite (tick_closes a F r st n Hw Hq), (tick_closes a F r st 0 Hw Hq). reflexivity.
Qed.

Lemma run_hook_worker a F def w st : run_hook a F def (with_worker w st) = run_hook a F def st.
Proof. unfold run_hook. destruct (onActivate def), (answer_hook a); reflexivity. Qed.

Lemma run_host_worker a F def w st : run_host a F def (with_worker w st) = run_host a F def st.
Proof.
  unfold run_host. rewrite run_hook_worker.
  destruct (nonempty _), (answer_contains a Host), (answer_request a true); reflexivity.
Qed.

Lemma run_optional_worker a F def w st :
  run_optional a F def (with_worker w st) = run_optional a F def st.
Proof.
  unfold run_optional. rewrite run_host_worker.
  destruct (nonempty _), (answer_contains a Optional), (answer_request a false); reflexivity.
Qed.

Lemma drive_hook a F def st n :
  activationQueue st = [] -> 2 <= n ->
  drive a n (stage_hook F def st) = drive a 1 (run_hook a F def st).
Proof.
  intros Hq Hn. unfold stage_hook, run_hook. destruct (onActivate def).
  - destruct n as [|n]; [lia|]. cbn [drive]. cbn [worker with_worker respond]. unfold step.
    cbn [worker with_worker].
    destruct (answer_hook a) as [|message].
    + eapply drive_finished; [reflexivity|exact Hq|lia].
    + eapply drive_finished; [reflexivity|exact Hq|lia].
  - eapply drive_finished; [reflexivity|exact Hq|lia].
Qed.

Lemma drive_host a F def st n :
  activationQueue st = [] -> 4 <= n ->
  drive a n (stage_host F def st) = drive a 1 (run_host a F def st).
Proof.
  intros Hq Hn. unfold stage_host, run_host. destruct (nonempty (hostPermissions def)).
  - destruct n as [|n]; [lia|]. cbn [drive]. cbn [worker with_worker respond]. unfold step.
    cbn [worker with_worker]. unfold after_contains.
    destruct (answer_contains a Host) as [| |message].
    + rewrite drive_hook by (cbn; auto; lia). rewrite run_hook_worker. reflexivity.
    + destruct n as [|n]; [lia|]. cbn [drive]. cbn [worker with_worker respond]. unfold step.
      cbn [worker with_worker]. unfold after_request.
      destruct (answer_request a true) as [| |message].
      * rewrite drive_hook by (cbn; auto; lia). rewrite !run_hook_worker. reflexivity.
      * eapply drive_finished; [reflexivity|exact Hq|lia].
      * eapply drive_finished; [reflexivity|exact Hq|lia].
    + eapply drive_finished; [reflexivity|exact Hq|lia].
  - apply drive_hook; [exact Hq|lia].
Qed.

Lemma drive_optional a F def st n :
  activationQueue st = [] -> 6 <= n ->
  drive a n (stage_optional F def st) = drive a 1 (run_optional a F def st).
Proof.
  intros Hq Hn. unfold stage_optional, run_optional.
  destruct (nonempty (optionalPermissions def)).
  - destruct n as [|n]; [lia|]. cbn [drive]. cbn [worker with_worker respond]. unfold step.
    cbn [worker with_worker]. unfold after_contains.
    destruct (answer_contains a Optional) as [| |message].
    + rewrite drive_host by (cbn; auto; lia). rewrite run_host_worker. reflexivity.
    + destruct n as [|n]; [lia|]. cbn [drive]. cbn [worker with_worker respond]. unfold step.
      cbn [worker with_worker]. unfold after_request.
      destruct (answer_request a false) as [| |message].
      * rewrite drive_host by (cbn; auto; lia). rewrite !run_host_worker. reflexivity.
      * eapply drive_finished; [reflexivity|exact Hq|lia].
      * eapply drive_finished; [reflexivity|exact Hq|lia].
    + eapply drive_finished; [reflexivity|exact Hq|lia].
  - apply drive_host; [exact Hq|lia].
Qed.

Lemma drive_required a F def st n :
  activationQueue st = [] -> 7 <= n ->
  drive a n (stage_required F def st) = drive a 1 (run_required a F def st).
Proof.
  intros Hq Hn. unfold stage_required, run_required.
  destruct (nonempty (permissions def)).
  - destruct n as [|n]; [lia|]. cbn [drive]. cbn [worker with_worker respond]. unfold step.
    cbn [worker with_worker]. unfold after_contains.
    destruct (answer_contains a Required) as [| |message].
    + rewrite drive_optional by (cbn; auto; lia). rewrite run_optional_worker. reflexivity.
    + eapply drive_finished; [reflexivity|exact Hq|lia].
    + eapply drive_finished; [reflexivity|exact Hq|lia].
  - apply drive_optional; [exact Hq|lia].
Qed.

Lemma find_no_conflict (conflicts : list string) active :
  (forall c, c ∈ conflicts -> map_has c active = false) ->
  List.find (fun c => map_has c active) conflicts = None.
Proof.
  intros Hnone. destruct (List.find _ conflicts) as [c|] eqn:Hfind; [|reflexivity].
  apply List.find_some in Hfind as [Hin Hact]. apply list_elem_of_In in Hin.
  rewrite (Hnone c Hin) in Hact. discriminate.
Qed.

(** Driven by the event loop, the activation ends as the straight reading
    of [_activateFeature] says. *)
Lemma activation_straight a st F def n :
  wf st -> worker st = Idle ->
  featureRegistry st !! F = Some def ->
  map_get F (activeFeatures st) = None ->
  (forall d, d ∈ dependencies def ->
     is_Some (featureRegistry st !! d) /\ map_has d (activeFeatures st) = true) ->
  (forall c, c ∈ conflicts def -> map_has c (activeFeatures st) = false) ->
  7 <= n ->
  activateFeature F st = (nextPromise st, stage_required F def (entered F st))
  /\ drive a n (stage_required F def (entered F st))
     = drive a 1 (run_required a F def (entered F st)).
Proof.
  intros H Hidle Hreg Hact Hdeps Hconf Hn.
  split; [|apply drive_required; [reflexivity|exact Hn]].
  rewrite (activateFeature_idle st F def H Hidle Hreg Hact).
  rewrite <- (app_nil_r (dependencies def)).
  rewrite stage_dependencies_active by exact Hdeps.
  cbn [stage_dependencies]. unfold stage_conflicts.
  cbn [activeFeatures entered with_queue with_processing with_pending new_promise snd].
  rewrite find_no_conflict by exact Hconf. reflexivity.
Qed.

(** The hook has been called [calls] times more in [l'] than in [l]. *)
Lemma hookCalls_logged x l ev :
  hookCalls x (l ++ [ev])
  = hookCalls x l + match ev with
                    | OnActivateCalled f => if String.eqb f x then 1 else 0
                    | _ => 0
                    end.
Proof. rewrite hookCalls_app. destruct ev; cbn; try reflexivity. destruct (String.eqb _ x); reflexivity. Qed.

Lemma finish_ended F def message st : ended F def st (finish F (inl message) st).
Proof. exists (inl message). cbn -[hookCalls]. repeat split; auto; lia. Qed.

Lemma run_hook_ended a F def st : ended F def st (run_hook a F def st).
Proof.
  unfold run_hook. destruct (onActivate def); [destruct (answer_hook a) as [|message]|].
  - exists (inr (new_instance F def st)). cbn -[hookCalls new_instance].
    repeat split; auto.
    + rewrite !hookCalls_logged. rewrite String.eqb_refl. lia.
    + intros x Hx. rewrite !hookCalls_logged.
      destruct (String.eqb_spec F x); [congruence|lia].
  - exists (inl (msg_initialize F message)). cbn -[hookCalls]. repeat split; auto.
    + rewrite !hookCalls_logged. rewrite String.eqb_refl. lia.
    + intros x Hx. rewrite !hookCalls_logged.
      destruct (String.eqb_spec F x); [congruence|lia].
  - exists (inr (new_instance F def st)). cbn -[hookCalls new_instance].
    repeat split; auto.
    + rewrite !hookCalls_logged. lia.
    + intros x Hx. rewrite !hookCalls_logged. lia.
Qed.

Lemma run_required_ended a F def st : ended F def st (run_required a F def st).
Proof.
  unfold run_required, run_optional, run_host.
  repeat match goal with
         | |- ended _ _ _ (finish _ _ _) => apply finish_ended
         | |- ended _ _ _ (run_hook _ _ _ _) => apply run_hook_ended
         | |- ended _ _ _ (if ?b then _ else _) => destruct b
         | |- ended _ _ _ (match ?x with _ => _ end) => destruct x
         end.
Qed.

Lemma run_required_permits a F def st :
  permits a def -> run_required a F def st = run_hook a F def st.
Proof.
  intros (Hreq & Hopt & Hhost). unfold run_required, run_optional, run_host.
  destruct (nonempty (permissions def)); [rewrite Hreq by reflexivity|];
    (destruct (nonempty (optionalPermissions def));
     [destruct Hopt as [->|[-> ->]]; [reflexivity| |]|]);
    (destruct (nonempty (hostPermissions def));
     [destruct Hhost as [->|[-> ->]]; [reflexivity| |]|]); reflexivity.
Qed.

(** The state the worker leaves when it has delivered the result of the
    one activation it was started for. *)
Lemma closing_fields st F Y r :
  wf st -> worker st = Idle ->
  worker Y = AwaitActivation F r ->
  pendingActivations Y = pendingActivations (entered F st) ->
  settled Y = settled st ->
  let st' := with_worker Idle (with_processing false (with_queue [] (delivered F r Y))) in
  settled st' !! nextPromise st
    = Some match r with inr inst => Resolved inst | inl message => Rejected message end
  /\ (forall q, q <> nextPromise st -> settled st' !! q = settled st !! q)
  /\ pendingActivations st' = pendingActivations st
  /\ activeFeatures st' = activeFeatures Y
  /\ log st' = log Y
  /\ featureRegistry st' = featureRegistry Y
  /\ worker st' = Idle /\ processingQueue st' = false /\ activationQueue st' = [].
Proof.
  intros H Hidle Hw Hpend Hset st'.
  destruct (delivered_fields F r Y) as (Hr & Ha & Hp & _ & _ & _ & _ & _ & _ & Hl & Hs).
  subst st'. cbn [settled pendingActivations activeFeatures log featureRegistry worker
                  processingQueue activationQueue with_worker with_processing with_queue].
  rewrite Hp, Ha, Hl, Hr, Hpend. cbn [entered pendingActivations with_queue with_processing
    with_pending new_promise snd].
  repeat split.
  - rewrite Hs, Hset, (fresh_promise_open st H), Hpend.
    cbn [entered pendingActivations with_queue with_processing with_pending new_promise snd].
    rewrite lookup_insert_eq. cbn. rewrite decide_True by left. reflexivity.
  - intros q Hq. rewrite Hs, Hset, Hpend.
    cbn [entered pendingActivations with_queue with_processing with_pending new_promise snd].
    rewrite lookup_insert_eq. cbn. destruct (settled st !! q); [reflexivity|].
    rewrite decide_False; [reflexivity|]. intros Hin. apply list_elem_of_singleton in Hin.
    contradiction.
  - rewrite delete_insert_eq. apply delete_id, idle_nothing_pending; assumption.
Qed.


(** The activation of [F] on an idle manager, its dependencies active and
    no conflict active, answered [n] times: how it ends. *)
Lemma activation_outcome a st F def n :
  wf st -> worker st = Idle ->
  featureRegistry st !! F = Some def ->
  map_get F (activeFeatures st) = None ->
  (forall d, d ∈ dependencies def ->
     is_Some (featureRegistry st !! d) /\ map_has d (activeFeatures st) = true) ->
  (forall c, c ∈ conflicts def -> map_has c (activeFeatures st) = false) ->
  7 <= n ->
  let Y := run_required a F def (entered F st) in
  let st' := drive a n (snd (activateFeature F st)) in
  fst (activateFeature F st) = nextPromise st
  /\ exists r,
       worker Y = AwaitActivation F r
       /\ settled st' !! nextPromise st
          = Some match r with inr inst => Resolved inst | inl message => Rejected message end
       /\ (forall q, q <> nextPromise st -> settled st' !! q = settled st !! q)
       /\ pendingActivations st' = pendingActivations st
       /\ activeFeatures st' = activeFeatures Y
       /\ log st' = log Y
       /\ featureRegistry st' = featureRegistry st
       /\ worker st' = Idle /\ processingQueue st' = false /\ activationQueue st' = [].
Proof.
  intros H Hidle Hreg Hact Hdeps Hconf Hn Y st'.
  destruct (activation_straight a st F def n H Hidle Hreg Hact Hdeps Hconf Hn) as [Hcall Hrun].
  subst st'. rewrite Hcall. cbn [fst snd]. split; [reflexivity|]. rewrite Hrun. fold Y.
  destruct (run_required_ended a F def (entered F st)) as (r & Hw & Hr & Hp & Hq & Hs & _).
  fold Y in Hw, Hr, Hp, Hq, Hs.
  exists r. split; [exact Hw|].
  rewrite (tick_closes a F r Y 0 Hw) by exact Hq.
  destruct (closing_fields st F Y r H Hidle Hw Hp Hs) as (H1 & H2 & H3 & H4 & H5 & H6 & H7).
  rewrite Hr in H6. repeat split; try assumption; apply H7.
Qed.

(** X10 - a call that has nothing to activate is answered at once:
    [activateFeature(F)] for a feature that is not registered returns a
    promise rejected with the error that names it, and for a registered
    feature that is active a promise resolved with its instance; in both
    cases nothing else changes: no other promise, the active features, the
    log (no hook is called), the worker, the queue and the pending
    activations are as before. *)
Theorem activateFeature_answers_at_once (st : State) (F : string) :
  wf st ->
  featureRegistry st !! F = None \/ is_Some (map_get F (activeFeatures st)) ->
  let p := fst (activateFeature F st) in
  let st' := snd (activateFeature F st) in
  settled st' !! p
  = Some match featureRegistry st !! F, map_get F (activeFeatures st) with
         | Some _, Some inst => Resolved inst
         | _, _ => Rejected (msg_not_found F)
         end
  /\ (forall q, q <> p -> settled st' !! q = settled st !! q)
  /\ activeFeatures st' = activeFeatures st
  /\ log st' = log st
  /\ worker st' = worker st
  /\ activationQueue st' = activationQueue st
  /\ pendingActivations st' = pendingActivations st
  /\ processingQueue st' = processingQueue st.
Proof.
  intros H Hcase p st'. subst p st'.
  pose proof (fresh_promise_open st H) as Hfresh.
  assert (Hopen : ~ is_Some (settled st !! nextPromise st))
    by (rewrite Hfresh; intros [? [=]]).
  clear H Hfresh. unfold activateFeature, requestActivation, new_promise.
  destruct st as [reg act pend queue flag w stl np nr fs lg]. cbn in *.
  destruct (reg !! F) as [def|] eqn:Hreg.
  - destruct Hcase as [[=]|[inst Hinst]]. rewrite Hinst. cbn. unfold settle. cbn.
    rewrite decide_False by exact Hopen. cbn. rewrite lookup_insert_eq.
    repeat split. intros q Hq. apply lookup_insert_ne. congruence.
  - cbn. unfold settle. cbn. rewrite decide_False by exact Hopen. cbn.
    rewrite lookup_insert_eq.
    repeat split. intros q Hq. apply lookup_insert_ne. congruence.
Qed.

Lemma activateFeature_answers_at_once_witness :
  let st := run (initial [feature "A" [] []]) (activated "A") in
  (exists inst, map_get "A" (activeFeatures st) = Some inst
                /\ settled (snd (activateFeature "A" st)) !! fst (activateFeature "A" st)
                   = Some (Resolved inst))
  /\ settled (snd (activateFeature "B" st)) !! fst (activateFeature "B" st)
     = Some (Rejected (msg_not_found "B")).
Proof.
  intros st. split.
  - destruct (activateFeature_answers_at_once st "A") as [Hs _].
    + apply run_wf, initial_wf.
    + right. vm_compute. eauto.
    + eexists. split; [vm_compute; reflexivity|]. exact Hs.
  - destruct (activateFeature_answers_at_once st "B") as [Hs _].
    + apply run_wf, initial_wf.
    + left. vm_compute. reflexivity.
    + exact Hs.
Defined.

(** X11 - an activation that goes through: let F be registered and not
    active, its dependencies registered and active, none of its conflicts
    active, and the manager idle.  If the environment lets F pass its
    permission checks and the activation hook (if F has one) returns, then
    after at most seven answers the promise of [activateFeature(F)] is
    resolved with a new instance of F, this instance has been added to the
    active features (the others are as before), the hook has been called
    exactly once, before the feature was made active, and the manager is
    idle again, with nothing pending. *)
Theorem activateFeature_activates
    (a : Answers) (st : State) (F : string) (def : FeatureDefinition) (n : nat) :
  wf st -> worker st = Idle ->
  featureRegistry st !! F = Some def ->
  map_get F (activeFeatures st) = None ->
  (forall d, d ∈ dependencies def ->
     is_Some (featureRegistry st !! d) /\ map_has d (activeFeatures st) = true) ->
  (forall c, c ∈ conflicts def -> map_has c (activeFeatures st) = false) ->
  permits a def ->
  (onActivate def = true -> answer_hook a = HookReturns) ->
  7 <= n ->
  let p := fst (activateFeature F st) in
  let st' := drive a n (snd (activateFeature F st)) in
  let inst := new_instance F def st in
  settled st' !! p = Some (Resolved inst)
  /\ inst_id inst = F /\ definition inst = def /\ active inst = true
  /\ activeFeatures st' = map_set F inst (activeFeatures st)
  /\ log st'
     = log st ++ (if onActivate def then [OnActivateCalled F] else []) ++ [FeatureActivated F]
  /\ worker st' = Idle /\ processingQueue st' = false /\ activationQueue st' = []
  /\ pendingActivations st' = pendingActivations st.
Proof.
  intros H Hidle Hreg Hact Hdeps Hconf Hperm Hhook Hn p st' inst.
  destruct (activation_outcome a st F def n H Hidle Hreg Hact Hdeps Hconf Hn)
    as (Hp & r & Hw & Hs & _ & Hpend & Ha & Hl & _ & Hidle' & Hflag & Hq).
  subst p st'. rewrite Hp, Hs, Ha, Hl, Hpend. clear Hp Hs Ha Hl Hpend.
  rewrite run_required_permits in * by exact Hperm.
  unfold run_hook in *. destruct (onActivate def).
  - rewrite Hhook in * by reflexivity. cbn in Hw. injection Hw as <-.
    cbn. rewrite <- !app_assoc. repeat split; assumption.
  - cbn in Hw. injection Hw as <-. cbn. repeat split; assumption.
Qed.

Lemma activateFeature_activates_witness :
  let st := initial [demanding "F"] in
  let st' := drive asked 7 (snd (activateFeature "F" st)) in
  settled st' !! fst (activateFeature "F" st)
  = Some (Resolved (new_instance "F" (demanding "F") st))
  /\ log st' = [OnActivateCalled "F"; FeatureActivated "F"]
  /\ worker st' = Idle.
Proof.
  intros st st'.
  destruct (activateFeature_activates asked st "F" (demanding "F") 7)
    as (Hs & _ & _ & _ & _ & Hl & Hw & _).
  - apply initial_wf.
  - reflexivity.
  - vm_compute. reflexivity.
  - reflexivity.
  - intros d Hd. apply elem_of_nil in Hd. destruct Hd.
  - intros c Hc. apply elem_of_nil in Hc. destruct Hc.
  - split; [intros _; reflexivity|split; intros _; right; split; reflexivity].
  - reflexivity.
  - lia.
  - split; [exact Hs|split; [exact Hl|exact Hw]].
Defined.

(** X12 - an activation on an idle manager always comes to an end, and a
    failed one leaves no trace in the active features: under the
    conditions of X11 on the manager, whatever the permission broker and
    the hook answer, after at most seven answers the manager is idle again
    with nothing queued or pending, and either the promise is rejected and
    the active features are exactly those before the call, or it is
    resolved with the new instance and that instance has been added.  The
    activation hook of F has been called once at most, and no other hook. *)
Theorem activateFeature_completes
    (a : Answers) (st : State) (F : string) (def : FeatureDefinition) (n : nat) :
  wf st -> worker st = Idle ->
  featureRegistry st !! F = Some def ->
  map_get F (activeFeatures st) = None ->
  (forall d, d ∈ dependencies def ->
     is_Some (featureRegistry st !! d) /\ map_has d (activeFeatures st) = true) ->
  (forall c, c ∈ conflicts def -> map_has c (activeFeatures st) = false) ->
  7 <= n ->
  let p := fst (activateFeature F st) in
  let st' := drive a n (snd (activateFeature F st)) in
  worker st' = Idle /\ processingQueue st' = false /\ activationQueue st' = []
  /\ pendingActivations st' = pendingActivations st
  /\ hookCalls F (log st') <= hookCalls F (log st) + 1
  /\ (forall x, x <> F -> hookCalls x (log st') = hookCalls x (log st))
  /\ ((exists message, settled st' !! p = Some (Rejected message)
                       /\ activeFeatures st' = activeFeatures st)
      \/ (settled st' !! p = Some (Resolved (new_instance F def st))
          /\ activeFeatures st' = map_set F (new_instance F def st) (activeFeatures st))).
Proof.
  intros H Hidle Hreg Hact Hdeps Hconf Hn p st'.
  destruct (activation_outcome a st F def n H Hidle Hreg Hact Hdeps Hconf Hn)
    as (Hp & r & Hw & Hs & _ & Hpend & Ha & Hl & _ & Hidle' & Hflag & Hq).
  subst p st'. rewrite Hp, Hs, Ha, Hl, Hpend. clear Hp Hs Ha Hl Hpend.
  destruct (run_required_ended a F def (entered F st))
    as (r' & Hw' & _ & _ & _ & _ & _ & Hcalls & Hothers & Hr).
  rewrite Hw in Hw'. injection Hw' as <-.
  repeat split; try assumption.
  destruct r as [message|inst].
  - left. exists message. split; [reflexivity|exact Hr].
  - right. destruct Hr as [-> Hr]. split; [reflexivity|exact Hr].
Qed.

Lemma activateFeature_completes_witness :
  let st := initial [demanding "F"] in
  let st' := drive lacking 7 (snd (activateFeature "F" st)) in
  worker st' = Idle /\ processingQueue st' = false /\ activeFeatures st' = [].
Proof.
  intros st st'.
  destruct (activateFeature_completes lacking st "F" (demanding "F") 7)
    as (Hw & Hflag & _).
  - apply initial_wf.
  - reflexivity.
  - vm_compute. reflexivity.
  - reflexivity.
  - intros d Hd. apply elem_of_nil in Hd. destruct Hd.
  - intros c Hc. apply elem_of_nil in Hc. destruct Hc.
  - lia.
  - split; [exact Hw|split; [exact Hflag|vm_compute; reflexivity]].
Defined.

(** X13 - required permissions are never asked for: if F declares required
    permissions and the browser says they are not held, the activation is
    rejected with the error that lists them, without a request to the user
    and without a call of the activation hook: nothing is logged and the
    active features are as before. *)
Theorem activateFeature_rejects_without_required_permissions
    (a : Answers) (st : State) (F : string) (def : FeatureDefinition) (n : nat) :
  wf st -> worker st = Idle ->
  featureRegistry st !! F = Some def ->
  map_get F (activeFeatures st) = None ->
  (forall d, d ∈ dependencies def ->
     is_Some (featureRegistry st !! d) /\ map_has d (activeFeatures st) = true) ->
  (forall c, c ∈ conflicts def -> map_has c (activeFeatures st) = false) ->
  permissions def <> [] -> answer_contains a Required = Refused ->
  7 <= n ->
  let p := fst (activateFeature F st) in
  let st' := drive a n (snd (activateFeature F st)) in
  settled st' !! p = Some (Rejected (msg_requires F (permissions def)))
  /\ worker (step (snd (activateFeature F st)) (PermissionAnswered Refused))
     = AwaitActivation F (inl (msg_requires F (permissions def)))
  /\ log st' = log st
  /\ activeFeatures st' = activeFeatures st
  /\ worker st' = Idle.
Proof.
  intros H Hidle Hreg Hact Hdeps Hconf Hperm Hrefused Hn p st'.
  destruct (activation_outcome a st F def n H Hidle Hreg Hact Hdeps Hconf Hn)
    as (Hp & r & Hw & Hs & _ & Hpend & Ha & Hl & _ & Hidle' & Hflag & Hq).
  destruct (activation_straight a st F def n H Hidle Hreg Hact Hdeps Hconf Hn) as [Hcall _].
  subst p st'. rewrite Hp, Hs, Ha, Hl. clear Hp Hs Ha Hl Hpend.
  unfold run_required in *.
  destruct (permissions def) as [|perm perms] eqn:Hperms; [contradiction|].
  cbn [nonempty] in *. rewrite Hrefused in *. cbn in Hw. injection Hw as <-.
  split; [reflexivity|]. split.
  - rewrite Hcall. cbn [snd]. unfold stage_required. rewrite Hperms. cbn.
    rewrite Hperms. reflexivity.
  - repeat split; assumption.
Qed.

Lemma activateFeature_rejects_without_required_permissions_witness :
  let st := initial [demanding "F"] in
  let st' := drive lacking 7 (snd (activateFeature "F" st)) in
  settled st' !! fst (activateFeature "F" st)
  = Some (Rejected (msg_requires "F" ["tabs"]))
  /\ log st' = [].
Proof.
  intros st st'.
  destruct (activateFeature_rejects_without_required_permissions lacking st "F"
              (demanding "F") 7) as (Hs & _ & Hl & _).
  - apply initial_wf.
  - reflexivity.
  - vm_compute. reflexivity.
  - reflexivity.
  - intros d Hd. apply elem_of_nil in Hd. destruct Hd.
  - intros c Hc. apply elem_of_nil in Hc. destruct Hc.
  - discriminate.
  - reflexivity.
  - lia.
  - split; [exact Hs|exact Hl].
Defined.

(** X14 - a hook that throws: if F passes its permission checks and its
    activation hook throws (or its promise rejects) with message [m], the
    promise of [activateFeature(F)] is rejected with
    [Failed to initialize feature "F": m]; the hook has been called, but F
    has not been made active, and no deactivation hook is called to undo
    what the activation hook did. *)
Theorem activateFeature_rejects_when_hook_throws
    (a : Answers) (st : State) (F : string) (def : FeatureDefinition) (n : nat)
    (message : string) :
  wf st -> worker st = Idle ->
  featureRegistry st !! F = Some def ->
  map_get F (activeFeatures st) = None ->
  (forall d, d ∈ dependencies def ->
     is_Some (featureRegistry st !! d) /\ map_has d (activeFeatures st) = true) ->
  (forall c, c ∈ conflicts def -> map_has c (activeFeatures st) = false) ->
  permits a def -> onActivate def = true -> answer_hook a = HookThrows message ->
  7 <= n ->
  let p := fst (activateFeature F st) in
  let st' := drive a n (snd (activateFeature F st)) in
  settled st' !! p = Some (Rejected (msg_initialize F message))
  /\ log st' = log st ++ [OnActivateCalled F]
  /\ activeFeatures st' = activeFeatures st
  /\ map_get F (activeFeatures st') = None
  /\ worker st' = Idle.
Proof.
  intros H Hidle Hreg Hact Hdeps Hconf Hperm Hon Hthrows Hn p st'.
  destruct (activation_outcome a st F def n H Hidle Hreg Hact Hdeps Hconf Hn)
    as (Hp & r & Hw & Hs & _ & Hpend & Ha & Hl & _ & Hidle' & Hflag & Hq).
  subst p st'. rewrite Hp, Hs, Ha, Hl. clear Hp Hs Ha Hl Hpend.
  rewrite run_required_permits in * by exact Hperm.
  unfold run_hook in *. rewrite Hon, Hthrows in *. cbn in Hw. injection Hw as <-.
  cbn. repeat split; assumption.
Qed.

Lemma activateFeature_rejects_when_hook_throws_witness :
  let st := initial [demanding "F"] in
  let st' := drive throwing 7 (snd (activateFeature "F" st)) in
  settled st' !! fst (activateFeature "F" st)
  = Some (Rejected (msg_initialize "F" "no network"))
  /\ log st' = [OnActivateCalled "F"]
  /\ activeFeatures st' = [].
Proof.
  intros st st'.
  destruct (activateFeature_rejects_when_hook_throws throwing st "F" (demanding "F") 7
              "no network") as (Hs & Hl & Ha & _).
  - apply initial_wf.
  - reflexivity.
  - vm_compute. reflexivity.
  - reflexivity.
  - intros d Hd. apply elem_of_nil in Hd. destruct Hd.
  - intros c Hc. apply elem_of_nil in Hc. destruct Hc.
  - split; [intros _; reflexivity|split; intros _; left; reflexivity].
  - reflexivity.
  - reflexivity.
  - lia.
  - split; [exact Hs|split; [exact Hl|exact Ha]].
Defined.


(** ** No promise is lost *)

Lemma accounted_ext st st' :
  nextPromise st' = nextPromise st -> settled st' = settled st ->
  pendingActivations st' = pendingActivations st ->
  accounted st -> accounted st'.
Proof. intros Hn Hs Hp Hacc p Hlt. rewrite Hn in Hlt. rewrite Hs, Hp. apply Hacc, Hlt. Qed.

Lemma accounted_extends st st' :
  nextPromise st' = nextPromise st ->
  (forall q o, settled st !! q = Some o -> is_Some (settled st' !! q)) ->
  extends (pendingActivations st) (pendingActivations st') ->
  accounted st -> accounted st'.
Proof.
  intros Hn Hs Hp Hacc p Hlt. rewrite Hn in Hlt.
  destruct (Hacc p Hlt) as [[o Ho]|(f & ps & Hf & Hin)].
  - left. eapply Hs, Ho.
  - right. destruct (Hp f ps Hf) as (ps' & Hf' & Hsub). exists f, ps'. auto.
Qed.

Lemma settle_nextPromise o st p : nextPromise (settle o st p) = nextPromise st.
Proof. unfold settle. destruct (decide _); reflexivity. Qed.

Lemma settle_settles o st p : is_Some (settled (settle o st p) !! p).
Proof.
  unfold settle. destruct (decide _) as [Hs|_]; [exact Hs|].
  cbn. rewrite lookup_insert_eq. eauto.
Qed.

Lemma settle_keeps o st p q o' :
  settled st !! q = Some o' -> is_Some (settled (settle o st p) !! q).
Proof.
  intros Hq. unfold settle. destruct (decide _) as [Hs|Hn]; [eauto|].
  cbn. rewrite lookup_insert. case_decide; eauto.
Qed.

Lemma accounted_requested id st queued st1 :
  accounted st -> Requested id st (nextPromise st) queued st1 -> accounted st1.
Proof.
  intros Hacc Hreq p Hlt.
  assert (Hold : p <> nextPromise st ->
                 is_Some (settled st !! p)
                 \/ exists f ps, pendingActivations st !! f = Some ps /\ p ∈ ps).
  { intros Hne. apply Hacc.
    destruct Hreq; rewrite ?settle_nextPromise in Hlt; cbn in Hlt; lia. }
  destruct Hreq as [Hreg|def inst Hreg Hact|def ps Hreg Hact Hpend|def Hreg Hact Hpend].
  - destruct (decide (p = nextPromise st)) as [->|Hne]; [left; apply settle_settles|].
    destruct (Hold Hne) as [[o Ho]|(f & ps & Hf & Hin)].
    + left. eapply settle_keeps. exact Ho.
    + right. destruct (settle_fields (Rejected (msg_not_found id)) (snd (new_promise st))
                         (nextPromise st)) as (_ & _ & -> & _).
      exists f, ps. auto.
  - destruct (decide (p = nextPromise st)) as [->|Hne]; [left; apply settle_settles|].
    destruct (Hold Hne) as [[o Ho]|(f & ps & Hf & Hin)].
    + left. eapply settle_keeps. exact Ho.
    + right. destruct (settle_fields (Resolved inst) (snd (new_promise st))
                         (nextPromise st)) as (_ & _ & -> & _).
      exists f, ps. auto.
  - cbn. destruct (decide (p = nextPromise st)) as [->|Hne].
    + right. exists id, (ps ++ [nextPromise st]). rewrite lookup_insert_eq.
      split; [reflexivity|]. apply elem_of_app. right. left.
    + destruct (Hold Hne) as [Hs|(f & ps' & Hf & Hin)]; [left; exact Hs|].
      right. destruct (decide (id = f)) as [->|Hf'].
      * exists f, (ps ++ [nextPromise st]). rewrite lookup_insert_eq.
        split; [reflexivity|]. apply elem_of_app. left. congruence.
      * exists f, ps'. rewrite lookup_insert_ne by exact Hf'. auto.
  - cbn. destruct (decide (p = nextPromise st)) as [->|Hne].
    + right. exists id, [nextPromise st]. rewrite lookup_insert_eq.
      split; [reflexivity|]. left.
    + destruct (Hold Hne) as [Hs|(f & ps' & Hf & Hin)]; [left; exact Hs|].
      right. destruct (decide (id = f)) as [->|Hf']; [congruence|].
      exists f, ps'. rewrite lookup_insert_ne by exact Hf'. auto.
Qed.

Lemma accounted_progress f st st' : accounted st -> Progress f st st' -> accounted st'.
Proof.
  intros Hacc [def step|def host|message|def|inst n|def dep rest p queued st1 Hreg Hact Hreq];
    try (apply (accounted_ext st); [reflexivity..|exact Hacc]).
  apply requestActivation_spec in Hreq as [-> Hreq].
  apply (accounted_ext st1); [reflexivity..|].
  eapply accounted_requested; eauto.
Qed.

Lemma accounted_delivered f r st : accounted st -> accounted (delivered f r st).
Proof.
  intros Hacc p Hlt.
  destruct (delivered_fields f r st) as (_ & _ & Hp & _ & _ & _ & Hn & _ & _ & _ & Hs).
  rewrite Hn in Hlt. rewrite Hs, Hp.
  destruct (Hacc p Hlt) as [[o Ho]|(f' & ps & Hf & Hin)].
  - left. rewrite Ho. eauto.
  - destruct (settled st !! p); [left; eauto|].
    destruct (decide (f = f')) as [<-|Hne].
    + left. rewrite Hf. cbn. rewrite decide_True by exact Hin. eauto.
    + right. exists f', ps. rewrite lookup_delete_ne by exact Hne. auto.
Qed.

Lemma accounted_transition st st' : accounted st -> Transition st st' -> accounted st'.
Proof.
  intros Hacc Ht.
  destruct Ht as [|id p queued st1 Hreq Hbusy|id p st1 st' Hidle Hreq Hprog
                  |id|f st' Hf Hout Hprog|f def inst Hw|f def inst message Hw
                  |f r Hw Hq|f r next rest st' Hw Hq Hprog].
  - exact Hacc.
  - apply requestActivation_spec in Hreq as [-> Hreq]. eapply accounted_requested; eauto.
  - apply requestActivation_spec in Hreq as [-> Hreq].
    eapply accounted_progress; [|exact Hprog].
    apply (accounted_ext st1); [reflexivity..|]. eapply accounted_requested; eauto.
  - apply (accounted_ext st); [reflexivity..|exact Hacc].
  - eapply accounted_progress; eauto.
  - apply (accounted_ext st); [reflexivity..|exact Hacc].
  - apply (accounted_ext st); [reflexivity..|exact Hacc].
  - apply (accounted_ext (delivered f r st)); [reflexivity..|].
    apply accounted_delivered, Hacc.
  - eapply accounted_progress; [|exact Hprog].
    apply (accounted_ext (delivered f r st)); [reflexivity..|].
    apply accounted_delivered, Hacc.
Qed.

Lemma accounted_run st evs : wf st -> accounted st -> accounted (run st evs).
Proof.
  revert st. induction evs as [|ev evs IH]; intros st H Hacc; [exact Hacc|].
  change (run st (ev :: evs)) with (run (step st ev) evs).
  apply IH; [apply step_wf, H|].
  eapply accounted_transition; [exact Hacc|apply step_transition, H].
Qed.

(** X15 - no promise is lost: whatever has happened since the manager was
    set up (calls of [activateFeature], answers of the permission broker and
    of hooks, deactivations), every promise [activateFeature] has handed
    out either has settled or is recorded in the pending entry of a feature
    that waits in the queue or is the one being activated.  So a promise can
    stay open only while the worker is busy: on an idle manager every
    promise handed out so far has settled. *)
Theorem activateFeature_promises_accounted_for
    (defs : list FeatureDefinition) (evs : list Event) (p : nat) :
  let st := run (initial defs) evs in
  p < nextPromise st ->
  (is_Some (settled st !! p)
   \/ exists featureId promises,
        pendingActivations st !! featureId = Some promises /\ p ∈ promises
        /\ (featureId ∈ activationQueue st \/ worker_feature (worker st) = Some featureId))
  /\ (worker st = Idle -> is_Some (settled st !! p)).
Proof.
  intros st Hlt.
  assert (H : wf st) by apply run_wf, initial_wf.
  assert (Hacc : accounted st).
  { apply accounted_run; [apply initial_wf|]. intros q Hq. cbn in Hq. lia. }
  destruct (Hacc p Hlt) as [Hs|(f & ps & Hf & Hin)]; [split; auto|].
  split.
  - right. exists f, ps. repeat split; try assumption.
    apply (wf_pending_somewhere _ H). eauto.
  - intros Hidle. rewrite (idle_nothing_pending st f H Hidle) in Hf. discriminate.
Qed.

Lemma activateFeature_promises_accounted_for_witness :
  let st := run (initial [feature "A" [] []]) (activated "A") in
  0 < nextPromise st /\ worker st = Idle /\ is_Some (settled st !! 0).
Proof.
  intros st.
  assert (H0 : 0 < nextPromise st) by (vm_compute; lia).
  assert (Hidle : worker st = Idle) by (vm_compute; reflexivity).
  split; [exact H0|]. split; [exact Hidle|].
  exact (proj2 (activateFeature_promises_accounted_for
                  [feature "A" [] []] (activated "A") 0 H0) Hidle).
Defined.


(** ** What a deactivation removes *)

Lemma needs_shrinks st st' F X : shrinks st st' -> needs st' F X -> needs st F X.
Proof.
  intros Hsh Hn. induction Hn as [|X inst Y HX HY _ IH]; [apply needs_self|].
  eapply needs_dependency; eauto.
Qed.

Lemma needs_trans st F G X : needs st G X -> needs st F G -> needs st F X.
Proof.
  intros Hn HG. induction Hn as [|X inst Y HX HY _ IH]; [exact HG|].
  eapply needs_dependency; eauto.
Qed.

Lemma needs_active st F X :
  is_Some (map_get F (activeFeatures st)) -> needs st F X ->
  is_Some (map_get X (activeFeatures st)).
Proof. intros HF Hn. destruct Hn as [|X' inst Y HX _ _]; eauto. Qed.

Lemma cascade_refl st F : cascade st st F.
Proof.
  split; [intros id inst; auto|]. split; [auto|].
  intros Z [inst HZ] HZ'. congruence.
Qed.

Lemma cascade_trans st st1 st2 F :
  cascade st st1 F -> cascade st1 st2 F -> cascade st st2 F.
Proof.
  intros (Hsh1 & Hq1 & Hs1) (Hsh2 & Hq2 & Hs2). split; [|split].
  - intros id inst Hid. auto.
  - intros X inst Y HX HY HYact. eapply Hq2; eauto.
  - intros Z HZ HZ2. destruct (map_get Z (activeFeatures st1)) as [inst1|] eqn:HZ1.
    + eapply needs_shrinks; [exact Hsh1|]. apply Hs2; eauto.
    + apply Hs1; assumption.
Qed.

Lemma cascade_through st st' F A :
  needs st F A -> cascade st st' A -> cascade st st' F.
Proof.
  intros HA (Hsh & Hq & Hs). split; [exact Hsh|]. split; [exact Hq|].
  intros Z HZ HZ'. eapply needs_trans; eauto.
Qed.

(** The loop over the active features, whatever the recursive calls that
    return have done within [cascade]. *)
Lemma deactivateDependents_cascade rec id :
  (forall id' st b st',
     rec id' st = Some (b, st') ->
     cascade st st' id' /\ map_get id' (activeFeatures st') = None) ->
  forall entries st st',
    deactivateDependents rec id entries st = Some st' ->
    cascade st st' id
    /\ forall X inst, X ∈ entries -> X <> id ->
         map_get X (activeFeatures st') = Some inst ->
         id ∉ dependencies (definition inst).
Proof.
  intros Hrec entries. induction entries as [|X more IH]; intros st st' Heq.
  { injection Heq as <-. split; [apply cascade_refl|].
    intros X inst HX. apply elem_of_nil in HX. destruct HX. }
  cbn [deactivateDependents] in Heq.
  destruct (map_get X (activeFeatures st)) as [inst|] eqn:HX.
  2:{ destruct (IH st st' Heq) as [Hc Hlast]. split; [exact Hc|].
      intros X' inst' Hin Hne HX'. apply elem_of_cons in Hin as [->|Hin]; [|eauto].
      destruct Hc as (Hsh & _). apply Hsh in HX'. congruence. }
  destruct (String.eqb_spec X id) as [->|Hne].
  { destruct (IH st st' Heq) as [Hc Hlast]. split; [exact Hc|].
    intros X' inst' Hin Hne HX'. apply elem_of_cons in Hin as [->|Hin]; [contradiction|eauto]. }
  destruct (existsb (String.eqb id) (dependencies (definition inst))) eqn:Hdep.
  - apply existsb_eqb in Hdep.
    destruct (rec X st) as [[b st1]|] eqn:Hcall; [|discriminate].
    destruct (Hrec X st b st1 Hcall) as [Hc1 Hgone1].
    destruct (IH st1 st' Heq) as [Hc2 Hlast]. split.
    + eapply cascade_trans; [|exact Hc2]. eapply cascade_through; [|exact Hc1].
      eapply needs_dependency; [exact HX|exact Hdep|apply needs_self].
    + intros X' inst' Hin Hne' HX'. apply elem_of_cons in Hin as [->|Hin]; [|eauto].
      destruct Hc2 as (Hsh & _). apply Hsh in HX'. congruence.
  - destruct (IH st st' Heq) as [Hc Hlast]. split; [exact Hc|].
    intros X' inst' Hin Hne' HX'. apply elem_of_cons in Hin as [->|Hin]; [|eauto].
    destruct Hc as (Hsh & _). apply Hsh in HX'.
    assert (inst' = inst) as -> by congruence.
    intros Hin. apply existsb_eqb in Hin. congruence.
Qed.

(** A call that returns has removed the feature, and nothing but features
    that need it. *)
Lemma deactivateFeature_cascade hook fuel : forall id st b st',
  deactivateFeature hook fuel id st = Some (b, st') ->
  cascade st st' id /\ map_get id (activeFeatures st') = None.
Proof.
  induction fuel as [|fuel IH]; intros id st b st' Heq; [discriminate|].
  rewrite deactivateFeature_unfold in Heq.
  destruct (map_get id (activeFeatures st)) as [inst|] eqn:Hid.
  2:{ injection Heq as <- <-. split; [apply cascade_refl|exact Hid]. }
  destruct (deactivateDependents (deactivateFeature hook fuel) id
              (List.map fst (activeFeatures st)) st) as [stL|] eqn:Hloop; [|discriminate].
  destruct (deactivateDependents_cascade (deactivateFeature hook fuel) id IH _ _ _ Hloop)
    as [Hc Hlast].
  set (stH := if onDeactivate (definition inst) then
                match hook id with
                | HookReturns => logged (OnDeactivateCalled id) stL
                | HookThrows message =>
                    logged (ErrorLogged message) (logged (OnDeactivateCalled id) stL)
                end
              else stL).
  assert (Hact : activeFeatures stH = activeFeatures stL).
  { subst stH. destruct (onDeactivate _); [destruct (hook id)|]; reflexivity. }
  assert (Hst' : activeFeatures st' = map_delete id (activeFeatures stL)).
  { rewrite <- Hact. subst stH.
    destruct (onDeactivate _); [destruct (hook id)|]; injection Heq as _ <-; reflexivity. }
  clear Heq. split; [|rewrite Hst'; apply map_get_delete_eq].
  eapply cascade_trans; [exact Hc|]. split; [|split].
  - intros Z instZ. rewrite Hst'. apply map_get_delete_Some.
  - intros X instX Y HX HY HYact. rewrite Hst' in *.
    assert (HXL : map_get X (activeFeatures stL) = Some instX)
      by (eapply map_get_delete_Some; exact HX).
    assert (HXne : X <> id).
    { intros ->. rewrite map_get_delete_eq in HX. discriminate. }
    destruct (decide (id = Y)) as [<-|HYne].
    + exfalso. eapply (Hlast X instX); [|exact HXne|exact HXL|exact HY].
      destruct Hc as (Hsh & _). eapply map_get_listed, Hsh, HXL.
    + rewrite map_get_delete_ne by exact HYne. exact HYact.
  - intros Z HZ HZ'. rewrite Hst' in HZ'.
    destruct (decide (id = Z)) as [<-|HZne]; [apply needs_self|].
    rewrite map_get_delete_ne in HZ' by exact HZne. destruct HZ as [? HZ]. congruence.
Qed.

(** X16 - what a deactivation removes: when the active features do not
    depend on one another in a circle, [deactivateFeature(F)] on an active
    F returns [true] and removes exactly the active features that need F -
    F itself, the active features that declare F as a dependency, those
    that declare one of these, and so on; every other active feature stays
    active with its instance, and no feature becomes active. *)
Theorem deactivateFeature_removes_what_needs_it
    (hook : string -> HookResult) (rank : string -> nat) (st : State) (F : string)
    (instF : FeatureInstance) (fuel : nat) :
  acyclic rank st ->
  map_get F (activeFeatures st) = Some instF ->
  rank F < fuel ->
  exists st',
    deactivateFeature hook fuel F st = Some (true, st')
    /\ shrinks st st'
    /\ forall Z inst, map_get Z (activeFeatures st) = Some inst ->
         (needs st F Z -> map_get Z (activeFeatures st') = None)
         /\ (~ needs st F Z -> map_get Z (activeFeatures st') = Some inst).
Proof.
  intros Hac HF Hfuel.
  destruct (deactivateFeature_total hook rank fuel F st Hac Hfuel)
    as (b & st' & l & Heq & _ & _ & Hfin).
  destruct (Hfin instF HF) as [-> _].
  destruct (deactivateFeature_cascade hook fuel F st true st' Heq)
    as [(Hsh & Hq & Hs) Hgone].
  exists st'. split; [exact Heq|]. split; [exact Hsh|].
  assert (Hall : forall Z, needs st F Z -> map_get Z (activeFeatures st') = None).
  { intros Z Hn. induction Hn as [|X inst Y HX HY Hn IH]; [exact Hgone|].
    destruct (map_get X (activeFeatures st')) as [inst'|] eqn:HX'; [|reflexivity].
    exfalso. assert (inst' = inst) as -> by (apply Hsh in HX'; congruence).
    destruct (Hq X inst Y HX' HY) as [instY HY'].
    - eapply needs_active; [|exact Hn]. eauto.
    - congruence. }
  intros Z inst HZ. split; [apply Hall|].
  intros Hnot. destruct (map_get Z (activeFeatures st')) as [inst'|] eqn:HZ'.
  - apply Hsh in HZ'. congruence.
  - exfalso. apply Hnot, Hs; eauto.
Qed.

Lemma deactivateFeature_removes_what_needs_it_witness :
  let st := run (initial [feature "B" [] []; feature "A" ["B"] []; feature "C" [] []])
              (activated "B" ++ activated "A" ++ activated "C") in
  let hook := fun _ : string => HookReturns in
  exists st',
    deactivateFeature hook 2 "B" st = Some (true, st')
    /\ map_get "A" (activeFeatures st') = None
    /\ is_Some (map_get "C" (activeFeatures st')).
Proof.
  intros st hook.
  assert (Hact : activeFeatures st
                 = [("B", {| ref := 0; inst_id := "B"; definition := feature "B" [] [];
                             active := true; settings := JsObject [] |});
                    ("A", {| ref := 1; inst_id := "A"; definition := feature "A" ["B"] [];
                             active := true; settings := JsObject [] |});
                    ("C", {| ref := 2; inst_id := "C"; definition := feature "C" [] [];
                             active := true; settings := JsObject [] |})])
    by (vm_compute; reflexivity).
  destruct (deactivateFeature_removes_what_needs_it
              hook (fun x => if String.eqb x "A" then 0 else 1) st "B"
              {| ref := 0; inst_id := "B"; definition := feature "B" [] [];
                 active := true; settings := JsObject [] |} 2)
    as (st' & Hret & _ & Hall).
  - intros X Y instX instY. rewrite Hact. cbn [map_get].
    destruct (String.eqb_spec "B" X) as [<-|_].
    + intros [= <-] _ Hin. apply elem_of_nil in Hin. destruct Hin.
    + destruct (String.eqb_spec "A" X) as [<-|_].
      * intros [= <-] _ Hin. apply list_elem_of_singleton in Hin as ->. cbn. lia.
      * destruct (String.eqb_spec "C" X) as [<-|_]; [|discriminate].
        intros [= <-] _ Hin. apply elem_of_nil in Hin. destruct Hin.
  - rewrite Hact. reflexivity.
  - cbn. lia.
  - exists st'. split; [exact Hret|]. split.
    + eapply (Hall "A"); [rewrite Hact; reflexivity|].
      eapply needs_dependency; [rewrite Hact; reflexivity|left|apply needs_self].
    + eexists. eapply (Hall "C"); [rewrite Hact; reflexivity|].
      intros Hn. inversion Hn as [|X inst Y HX HY _]; subst.
      rewrite Hact in HX. cbn in HX. injection HX as <-. cbn in HY.
      apply elem_of_nil in HY. destruct HY.
Defined.


(** ** The registry *)

Lemma registered_from (defs : list FeatureDefinition) (reg : gmap string FeatureDefinition)
    (i : string) :
  fold_left
    (fun reg def =>
       if String.eqb (id def) "" || String.eqb (name def) "" || String.eqb (category def) ""
       then reg
       else match reg !! id def with
            | Some _ => reg
            | None => <[id def := def]> reg
            end)
    defs reg !! i
  = match reg !! i with
    | Some def => Some def
    | None =>
        List.find
          (fun def =>
             String.eqb (id def) i
             && negb (String.eqb (id def) "" || String.eqb (name def) ""
                      || String.eqb (category def) ""))
          defs
    end.
Proof.
  revert reg. induction defs as [|def defs IH]; intros reg; cbn [fold_left List.find].
  - destruct (reg !! i); reflexivity.
  - rewrite IH. clear IH.
    destruct (String.eqb (id def) "" || String.eqb (name def) "" || String.eqb (category def) "").
    + rewrite andb_false_r. reflexivity.
    + rewrite andb_true_r. destruct (String.eqb_spec (id def) i) as [Heq|Hne].
      * rewrite Heq. destruct (reg !! i) as [d|] eqn:Hi; [rewrite Hi; reflexivity|].
        rewrite lookup_insert_eq. reflexivity.
      * destruct (reg !! id def); [reflexivity|].
        rewrite lookup_insert_ne by exact Hne. reflexivity.
Qed.

(** X17 - the registry after any number of calls of [registerFeature]: a
    feature id is mapped to the first definition offered under that id that
    has an id, a name and a category; later definitions with the same id
    are refused, definitions that lack one of the three are skipped, and an
    id under which no complete definition was offered is not registered. *)
Theorem registerFeature_first_complete_definition_wins
    (defs : list FeatureDefinition) (i : string) :
  featureRegistry (initial defs) !! i
  = List.find
      (fun def =>
         String.eqb (id def) i
         && negb (String.eqb (id def) "" || String.eqb (name def) ""
                  || String.eqb (category def) ""))
      defs.
Proof.
  cbn [featureRegistry initial]. unfold registered. rewrite registered_from.
  rewrite lookup_empty. reflexivity.
Qed.

End FeatureManagerMoreFacts.

(** * Properties of storage-manager.js *)
Section StorageManagerFacts.
Import StorageManager.

(** ** Paths *)

Lemma split_nonempty path : split path <> [].
Proof.
  destruct path as [|c rest]; cbn; [discriminate|].
  destruct (Ascii.eqb c dot); [discriminate|]. destruct (split rest); discriminate.
Qed.

Lemma split_parts path :
  split path = List.removelast (split path) ++ [List.last (split path) ""].
Proof. apply app_removelast_last, split_nonempty. Qed.

(** ** Objects *)

Lemma own_set_field key v fields : own key (set_field key v fields) = Some v.
Proof.
  induction fields as [|[k w] fields IH]; cbn.
  - rewrite String.eqb_refl. reflexivity.
  - destruct (String.eqb_spec k key) as [->|Hne]; cbn.
    + rewrite String.eqb_refl. reflexivity.
    + destruct (String.eqb_spec k key); [contradiction|exact IH].
Qed.

Lemma own_set_field_ne key key' v fields :
  key <> key' -> own key' (set_field key v fields) = own key' fields.
Proof.
  intros Hne. induction fields as [|[k w] fields IH]; cbn.
  - destruct (String.eqb_spec key key'); [contradiction|reflexivity].
  - destruct (String.eqb_spec k key) as [->|Hk]; cbn.
    + destruct (String.eqb_spec key key'); [contradiction|reflexivity].
    + destruct (String.eqb_spec k key'); [reflexivity|exact IH].
Qed.

Lemma set_set_field key v v' fields :
  set_field key v (set_field key v' fields) = set_field key v fields.
Proof.
  induction fields as [|[k w] fields IH]; cbn.
  - rewrite String.eqb_refl. reflexivity.
  - destruct (String.eqb_spec k key) as [->|Hne]; cbn.
    + rewrite String.eqb_refl. reflexivity.
    + destruct (String.eqb_spec k key); [contradiction|]. rewrite IH. reflexivity.
Qed.

(** ** Arrays *)

(** An index has one numeral. *)
Lemma arrayIndex_numeral part i :
  arrayIndex part = Some i -> part = NilZero.string_of_uint (N.to_uint (N.of_nat i)).
Proof.
  unfold arrayIndex. destruct (NilEmpty.uint_of_string part) as [digits|]; [|discriminate].
  destruct (N.ltb_spec (N.of_uint digits) 4294967295); cbn [andb]; [|discriminate].
  destruct (String.eqb_spec (NilZero.string_of_uint (N.to_uint (N.of_uint digits))) part)
    as [Heq|]; [|discriminate].
  intros [= <-]. rewrite N2Nat.id. symmetry. exact Heq.
Qed.

Lemma arrayIndex_inj p q i : arrayIndex p = Some i -> arrayIndex q = Some i -> p = q.
Proof.
  intros Hp Hq. rewrite (arrayIndex_numeral p i Hp), (arrayIndex_numeral q i Hq). reflexivity.
Qed.

Lemma plain_no_length part : plain part = true -> String.eqb part "length" = false.
Proof. unfold plain. destruct (inherited part), (String.eqb part "length"); auto. Qed.

Lemma plain_not_inherited part : plain part = true -> inherited part = false.
Proof. unfold plain. destruct (inherited part); auto. Qed.

Lemma lookup_set_item i v items j :
  set_item i v items !! j
  = if decide (j = i) then Some v
    else if decide (j < length items)%nat then items !! j
    else if decide (j < i)%nat then Some JUndefined else None.
Proof.
  unfold set_item. destruct (Nat.ltb_spec i (length items)) as [Hlt|Hge].
  - destruct (decide (j = i)) as [->|Hne].
    + apply list_lookup_insert_eq, Hlt.
    + rewrite list_lookup_insert_ne by congruence.
      destruct (decide (j < length items)%nat) as [|Hj]; [reflexivity|].
      rewrite lookup_ge_None_2 by lia. rewrite decide_False by lia. reflexivity.
  - destruct (decide (j < length items)%nat) as [Hj|Hj].
    + rewrite decide_False by lia. apply lookup_app_l, Hj.
    + rewrite lookup_app_r by lia.
      destruct (decide (j = i)) as [->|Hne].
      * apply list_lookup_middle. rewrite length_replicate. reflexivity.
      * destruct (decide (j < i)%nat) as [Hji|Hji].
        -- rewrite lookup_app_l by (rewrite length_replicate; lia).
           apply lookup_replicate_2. lia.
        -- apply lookup_ge_None_2. rewrite length_app, length_replicate. cbn. lia.
Qed.

Lemma length_set_item i v items :
  length (set_item i v items) = Nat.max (length items) (S i).
Proof.
  unfold set_item. destruct (Nat.ltb_spec i (length items)).
  - rewrite length_insert. lia.
  - rewrite !length_app, length_replicate. cbn. lia.
Qed.

Lemma item_set_item i v items : item i (set_item i v items) = v.
Proof. unfold item. rewrite lookup_set_item, decide_True by reflexivity. reflexivity. Qed.

Lemma item_set_item_ne i j v items : i <> j -> item j (set_item i v items) = item j items.
Proof.
  intros Hne. unfold item. rewrite lookup_set_item, decide_False by congruence.
  destruct (decide (j < length items)%nat) as [|Hj]; [reflexivity|].
  rewrite (lookup_ge_None_2 items j) by lia. destruct (decide (j < i)%nat); reflexivity.
Qed.

Lemma set_item_twice i v w items : set_item i v (set_item i w items) = set_item i v items.
Proof.
  apply list_eq. intros j. rewrite !lookup_set_item, length_set_item.
  destruct (decide (j = i)); [reflexivity|].
  destruct (decide (j < length items)%nat), (decide (j < i)%nat),
    (decide (j < Nat.max (length items) (S i))%nat); try reflexivity; lia.
Qed.

Lemma lookup_resized n items j :
  resized n items !! j = if decide (j < n)%nat then Some (item j items) else None.
Proof.
  unfold resized, item. destruct (decide (j < n)%nat) as [Hj|Hj].
  - destruct (decide (j < length items)%nat) as [Hl|Hl].
    + rewrite lookup_app_l by (rewrite length_take; lia).
      rewrite lookup_take_lt by exact Hj.
      destruct (lookup_lt_is_Some_2 items j Hl) as [x ->]. reflexivity.
    + rewrite lookup_app_r by (rewrite length_take; lia).
      rewrite length_take, (lookup_ge_None_2 items j) by lia.
      apply lookup_replicate_2. lia.
  - apply lookup_ge_None_2. rewrite length_app, length_take, length_replicate. lia.
Qed.

Lemma length_resized n items : length (resized n items) = n.
Proof. unfold resized. rewrite length_app, length_take, length_replicate. lia. Qed.

Lemma resized_twice n items : resized n (resized n items) = resized n items.
Proof.
  apply list_eq. intros j. rewrite !lookup_resized.
  destruct (decide (j < n)%nat); [|reflexivity].
  unfold item at 1. rewrite lookup_resized, decide_True by assumption. reflexivity.
Qed.

(** ** Reading and assigning a property *)

(** What is read where a property has just been assigned. *)
Lemma prop_put part v current child :
  container current = true -> prop current part = Some child ->
  container child = true \/ nullish child = true ->
  prop (put part v current) part = Some v.
Proof.
  destruct current as [| | | | |items|fields]; try discriminate; intros _; cbn [prop put].
  - destruct (arrayIndex part) as [i|] eqn:Hi.
    + intros _ _. cbn [prop]. rewrite Hi, item_set_item. reflexivity.
    + destruct (String.eqb part "length"); [|discriminate].
      intros [= <-] [|]; discriminate.
  - intros _ _. rewrite own_set_field. reflexivity.
Qed.

(** An assignment leaves the other properties as they read. *)
Lemma prop_put_ne part part' v current :
  part <> part' -> plain part' = true ->
  prop (put part v current) part' = prop current part'.
Proof.
  intros Hne Hplain. destruct current as [| | | | |items|fields]; try reflexivity; cbn [put].
  - destruct (arrayIndex part) as [i|] eqn:Hi; [|reflexivity]. cbn [prop].
    destruct (arrayIndex part') as [j|] eqn:Hj.
    + rewrite item_set_item_ne; [reflexivity|].
      intros <-. apply Hne. exact (arrayIndex_inj _ _ _ Hi Hj).
    + rewrite (plain_no_length _ Hplain). reflexivity.
  - cbn [prop]. rewrite own_set_field_ne by exact Hne. reflexivity.
Qed.

Lemma put_twice part v w current : put part v (put part w current) = put part v current.
Proof.
  destruct current as [| | | | |items|fields]; try reflexivity; cbn [put].
  - destruct (arrayIndex part) as [i|] eqn:Hi; cbn [put]; rewrite Hi; [|reflexivity].
    rewrite set_item_twice. reflexivity.
  - rewrite set_set_field. reflexivity.
Qed.

Lemma container_put part v current : container (put part v current) = container current.
Proof.
  destruct current as [| | | | |items|fields]; try reflexivity.
  cbn. destruct (arrayIndex part); reflexivity.
Qed.

Lemma container_not_nullish v : container v = true -> nullish v = false.
Proof. destruct v; cbn; congruence. Qed.

Lemma store_container lastPart value current settings' oldValue :
  store lastPart value current = Assigned settings' oldValue ->
  container current = true /\ container settings' = true.
Proof.
  destruct current as [| | | |s|items|fields]; cbn [store]; try discriminate.
  - destruct (prop (JString s) lastPart); discriminate.
  - destruct (arrayIndex lastPart) as [i|] eqn:Hi.
    + intros [= <- _]. cbn. rewrite Hi. auto.
    + destruct (String.eqb lastPart "length"); [|discriminate].
      destruct value; try discriminate. destruct (_ && _); [|discriminate].
      intros [= <- _]. auto.
  - destruct (prop (JObject fields) lastPart); [|discriminate]. intros [= <- _]. auto.
Qed.

Lemma assign_unfold part rest lastPart value current :
  assign (part :: rest) lastPart value current
  = if nullish current then AssignTypeError
    else match prop current part with
         | None => AssignBeyond
         | Some child =>
             if nullish child && negb (container current) then AssignTypeError
             else match assign rest lastPart value
                          (if nullish child then JObject [] else child) with
                  | Assigned child' oldValue => Assigned (put part child' current) oldValue
                  | failure => failure
                  end
         end.
Proof.
  cbn [assign]. destruct (nullish current) eqn:Hnull; [reflexivity|].
  destruct (prop current part) as [child|] eqn:Hprop; [|reflexivity].
  destruct (nullish child); [|reflexivity].
  destruct current; try discriminate; reflexivity.
Qed.

Lemma assign_container parents lastPart value : forall current settings' oldValue,
  assign parents lastPart value current = Assigned settings' oldValue ->
  container current = true /\ container settings' = true.
Proof.
  induction parents as [|part rest IH]; intros current settings' oldValue.
  - apply store_container.
  - rewrite assign_unfold. destruct (nullish current) eqn:Hnull; [discriminate|].
    destruct (prop current part) as [child|] eqn:Hprop; [|discriminate].
    destruct (nullish child && negb (container current)) eqn:Hc; [discriminate|].
    destruct (assign rest lastPart value _) as [child' old| | |] eqn:Hassign;
      try discriminate.
    intros [= <- _]. rewrite container_put.
    destruct (IH _ _ _ Hassign) as [Hchild _].
    assert (container current = true); [|auto].
    destruct (nullish child) eqn:Hn.
    + destruct (container current); [reflexivity|discriminate].
    + destruct current as [| | | |s|items|fields]; try discriminate; try reflexivity.
      exfalso. cbn [prop] in Hprop.
      destruct (arrayIndex part).
      * injection Hprop as <-. destruct (String.get _ s); discriminate.
      * destruct (String.eqb part "length"); [|discriminate].
        injection Hprop as <-. discriminate.
Qed.

(** The step of the loop of [assign], read off its result. *)
Lemma assign_step part rest lastPart value current settings' oldValue :
  assign (part :: rest) lastPart value current = Assigned settings' oldValue ->
  exists child child',
    container current = true
    /\ prop current part = Some child
    /\ (container child = true \/ nullish child = true)
    /\ assign rest lastPart value (if nullish child then JObject [] else child)
       = Assigned child' oldValue
    /\ container child' = true
    /\ settings' = put part child' current.
Proof.
  intros Hassign. destruct (assign_container _ _ _ _ _ _ Hassign) as [Hcur _].
  rewrite assign_unfold in Hassign.
  rewrite (container_not_nullish _ Hcur), Hcur in Hassign. cbn [negb] in Hassign.
  destruct (prop current part) as [child|] eqn:Hprop; [|discriminate].
  rewrite andb_false_r in Hassign.
  destruct (assign rest lastPart value _) as [child' old| | |] eqn:Hchild; try discriminate.
  injection Hassign as <- <-. exists child, child'.
  destruct (assign_container _ _ _ _ _ _ Hchild) as [Hin Hout].
  repeat split; auto. destruct (nullish child); auto.
Qed.

Lemma walk_nullish parts v :
  nullish v = true -> parts <> [] -> walk parts v = Missing.
Proof. intros Hv Hparts. destruct parts; [contradiction|]. cbn. rewrite Hv. reflexivity. Qed.

Lemma walk_empty_object parts :
  parts <> [] ->
  found (walk parts (JObject [])) = Some JUndefined \/ found (walk parts (JObject [])) = None.
Proof.
  intros Hparts. destruct parts as [|p parts]; [contradiction|].
  cbn [walk nullish prop own]. destruct (inherited p); [auto|].
  destruct parts; cbn; auto.
Qed.

Lemma walk_empty_object_plain parts :
  parts <> [] -> Forall (fun part => plain part = true) parts ->
  found (walk parts (JObject [])) = Some JUndefined.
Proof.
  intros Hparts Hplain. destruct parts as [|p parts]; [contradiction|].
  cbn [walk nullish prop own].
  apply Forall_cons in Hplain as [Hp _]. rewrite (plain_not_inherited _ Hp).
  destruct parts; reflexivity.
Qed.

(** After the assignments of [setSetting], the loop of [getSetting] over
    the same parts ends at the value; and the old value is what it ended at
    before. *)
Lemma assign_walk parents lastPart value : forall current settings' oldValue,
  assign parents lastPart value current = Assigned settings' oldValue ->
  walk (parents ++ [lastPart]) settings' = Reached value
  /\ found (walk (parents ++ [lastPart]) current) = Some oldValue.
Proof.
  induction parents as [|part rest IH]; intros current settings' oldValue.
  - cbn [app assign]. destruct current as [| | | |s|items|fields]; cbn [store];
      try discriminate.
    + destruct (prop (JString s) lastPart); discriminate.
    + destruct (arrayIndex lastPart) as [i|] eqn:Hi.
      * intros [= <- <-]. cbn [walk nullish put prop found]. rewrite Hi.
        cbn [walk nullish put prop found]. rewrite Hi, item_set_item. auto.
      * destruct (String.eqb lastPart "length") eqn:Hlen; [|discriminate].
        destruct value as [| | |n| | |]; try discriminate.
        destruct (Z.leb_spec 0 n); cbn [andb]; [|discriminate].
        destruct (n <=? 4294967295); [|discriminate].
        intros [= <- <-]. cbn [walk nullish put prop found].
        rewrite Hi, Hlen, length_resized, Z2Nat.id by assumption. auto.
    + destruct (prop (JObject fields) lastPart) as [old|] eqn:Hprop; [|discriminate].
      intros [= <- <-]. cbn [walk nullish put]. rewrite Hprop. split; [|reflexivity].
      cbn [prop]. rewrite own_set_field. reflexivity.
  - intros Hassign.
    destruct (assign_step _ _ _ _ _ _ _ Hassign)
      as (child & child' & Hcur & Hprop & Hchild & Hin & Hout & ->).
    destruct (IH _ _ _ Hin) as [Hwalk Hold].
    cbn [app walk]. rewrite container_not_nullish by (rewrite container_put; exact Hcur).
    rewrite (prop_put _ _ _ _ Hcur Hprop Hchild).
    rewrite (container_not_nullish _ Hcur), Hprop.
    split; [exact Hwalk|].
    destruct (nullish child) eqn:Hnull; [|exact Hold].
    rewrite walk_nullish by (auto; destruct rest; discriminate).
    destruct (walk_empty_object (rest ++ [lastPart])) as [Heq|Heq];
      [destruct rest; discriminate| |]; rewrite Heq in Hold; [exact Hold|discriminate].
Qed.

Lemma getSetting_found path defaultValue settings :
  getSetting path defaultValue settings
  = match found (walk (split path) settings) with
    | Some JUndefined => Some defaultValue
    | Some v => Some v
    | None => None
    end.
Proof. reflexivity. Qed.

(** With [undefined] for a default, [getSetting] tells what its loop finds. *)
Lemma getSetting_undefined path settings :
  getSetting path JUndefined settings = found (walk (split path) settings).
Proof.
  unfold getSetting. destruct (found (walk (split path) settings)) as [[]|]; reflexivity.
Qed.

(** The assignments of [setSetting] leave alone what [getSetting] finds
    along parts that part from the assigned ones, as long as no part names
    a [length] or a member of [Object.prototype]. *)
Lemma assign_frame parents lastPart value : forall current settings' oldValue qs v,
  assign parents lastPart value current = Assigned settings' oldValue ->
  ~ (parents ++ [lastPart]) `prefix_of` qs ->
  ~ qs `prefix_of` (parents ++ [lastPart]) ->
  Forall (fun part => plain part = true) (parents ++ [lastPart]) ->
  Forall (fun part => plain part = true) qs ->
  found (walk qs current) = Some v ->
  found (walk qs settings') = Some v.
Proof.
  induction parents as [|part rest IH]; intros current settings' oldValue qs v.
  - cbn [app assign]. intros Hstore Hp Hq Hplain Hqs.
    destruct qs as [|q qs]; [exfalso; apply Hq, prefix_nil|].
    assert (Hne : lastPart <> q) by (intros <-; apply Hp; exists qs; reflexivity).
    apply Forall_cons in Hqs as [Hq1 _]. apply Forall_cons in Hplain as [Hl _].
    assert (Hput : settings' = put lastPart value current).
    { destruct current as [| | | |s|items|fields]; cbn [store] in Hstore; try discriminate.
      - destruct (prop (JString s) lastPart); discriminate.
      - destruct (arrayIndex lastPart) as [i|]; [congruence|].
        rewrite (plain_no_length _ Hl) in Hstore. discriminate.
      - destruct (prop (JObject fields) lastPart); [congruence|discriminate]. }
    destruct (store_container _ _ _ _ _ Hstore) as [Hcur Hset].
    cbn [walk]. rewrite (container_not_nullish _ Hcur), (container_not_nullish _ Hset).
    rewrite Hput, prop_put_ne by assumption. auto.
  - intros Hassign Hp Hq Hplain Hqs.
    destruct (assign_step _ _ _ _ _ _ _ Hassign)
      as (child & child' & Hcur & Hprop & Hchild & Hin & Hout & ->).
    destruct qs as [|q qs]; [exfalso; apply Hq, prefix_nil|].
    cbn [walk].
    rewrite (container_not_nullish (put part child' current))
      by (rewrite container_put; exact Hcur).
    rewrite (container_not_nullish _ Hcur).
    pose proof Hqs as Hqs0. apply Forall_cons in Hqs as [Hq1 Hqs].
    cbn [app] in Hplain. apply Forall_cons in Hplain as [_ Hplain].
    destruct (String.eqb_spec part q) as [<-|Hne].
    + rewrite (prop_put _ _ _ _ Hcur Hprop Hchild), Hprop.
      assert (Hnil : qs <> []).
      { intros ->. apply Hq. exists (rest ++ [lastPart]). reflexivity. }
      intros Hfound. apply (IH _ _ _ qs v Hin); auto.
      * intros [k Hk]. apply Hp. exists k. cbn. rewrite Hk. reflexivity.
      * intros [k Hk]. apply Hq. exists k. cbn. rewrite Hk. reflexivity.
      * destruct (nullish child) eqn:Hnull; [|exact Hfound].
        rewrite walk_nullish in Hfound by assumption.
        rewrite walk_empty_object_plain by assumption. exact Hfound.
    + rewrite prop_put_ne by assumption. auto.
Qed.

(** What [setSetting] comes to, by the way its assignments end. *)
Lemma setSetting_ended JSON_stringify path value saveImmediately saveWorks listeners
    settings completion settings' effects :
  setSetting JSON_stringify path value saveImmediately saveWorks listeners settings
  = Ended completion settings' effects ->
  match assign (List.removelast (split path)) (List.last (split path) "") value settings with
  | Assigned assigned oldValue =>
      settings' = assigned
      /\ (JSON_stringify oldValue = JSON_stringify value ->
          completion = Returned /\ effects = [])
  | AssignTypeError => completion = ThrewTypeError /\ settings' = settings /\ effects = []
  | AssignRangeError => completion = ThrewRangeError /\ settings' = settings /\ effects = []
  | AssignBeyond => False
  end.
Proof.
  unfold setSetting.
  destruct (assign _ _ value settings) as [assigned oldValue| | |]; try discriminate;
    try (intros [= <- <- <-]; auto).
  destruct (decide _) as [Hsame|Hdiffers].
  - intros [= <- <- <-]. auto.
  - intros Hend. split; [|contradiction].
    destruct (saveImmediately && negb saveWorks); [congruence|].
    destruct (prop assigned "privacy") as [[]|]; try congruence;
      match type of Hend with
      | context [prop ?privacy "syncEnabled"] =>
          destruct (prop privacy "syncEnabled"); [|discriminate];
          destruct (_ && _); congruence
      end.
Qed.

Lemma setSetting_done JSON_stringify path value saveImmediately saveWorks listeners
    settings completion settings' effects :
  setSetting JSON_stringify path value saveImmediately saveWorks listeners settings
  = Ended completion settings' effects ->
  completion = Returned \/ completion = SaveFailed ->
  exists oldValue,
    assign (List.removelast (split path)) (List.last (split path) "") value settings
    = Assigned settings' oldValue.
Proof.
  intros Hset Hc. apply setSetting_ended in Hset.
  destruct (assign _ _ value settings) as [s old| | |].
  - destruct Hset as [-> _]. eauto.
  - destruct Hset as [-> _]. destruct Hc; discriminate.
  - destruct Hset as [-> _]. destruct Hc; discriminate.
  - contradiction.
Qed.

(** X18 - [setSetting] then [getSetting]: when a call of [setSetting(path,
    value)] that stays within the JSON data returns, or fails only in
    saving, [getSetting(path, d)] gives the value afterwards ([d] when the
    value is [undefined]): the settings object in memory is changed even
    when the write to storage fails.  The path may lead through arrays: an
    element assigned by its index and a [length] that has been set are read
    back. *)
Theorem setSetting_then_getSetting
    (JSON_stringify : Json -> option string) (path : string) (value : Json)
    (saveImmediately saveWorks : bool) (listeners : Listeners) (settings : Json)
    (completion : Completion) (settings' : Json) (effects : list Effect)
    (defaultValue : Json) :
  setSetting JSON_stringify path value saveImmediately saveWorks listeners settings
  = Ended completion settings' effects ->
  completion = Returned \/ completion = SaveFailed ->
  getSetting path defaultValue settings'
  = Some match value with JUndefined => defaultValue | _ => value end.
Proof.
  intros Hset Hc. destruct (setSetting_done _ _ _ _ _ _ _ _ _ _ Hset Hc) as [old Hassign].
  apply assign_walk in Hassign as [Hwalk _]. rewrite <- split_parts in Hwalk.
  unfold getSetting. rewrite Hwalk. destruct value; reflexivity.
Qed.

Lemma setSetting_then_getSetting_witness :
  (exists settings',
     setSetting sampleStringify "ui.theme" (JString "dark") true false [] defaultSettings
     = Ended SaveFailed settings' [SaveSettings settings']
     /\ getSetting "ui.theme" JNull settings' = Some (JString "dark"))
  /\ (exists settings',
        setSetting sampleStringify "features.enabledFeatures.2" (JString "reader") true true
          [] defaultSettings
        = Ended Returned settings' [SaveSettings settings']
        /\ getSetting "features.enabledFeatures.2" JNull settings' = Some (JString "reader")
        /\ getSetting "features.enabledFeatures.length" JNull settings' = Some (JNumber 3)).
Proof.
  split.
  - eexists. split; [vm_compute; reflexivity|].
    eapply (setSetting_then_getSetting sampleStringify "ui.theme" (JString "dark") true false
              [] defaultSettings SaveFailed).
    + vm_compute. reflexivity.
    + right. reflexivity.
  - eexists. split; [vm_compute; reflexivity|]. split; [|vm_compute; reflexivity].
    eapply (setSetting_then_getSetting sampleStringify "features.enabledFeatures.2"
              (JString "reader") true true [] defaultSettings Returned).
    + vm_compute. reflexivity.
    + left. reflexivity.
Defined.

(** X19 - [setSetting(path, value)] leaves the other settings as they
    were: take a path that is not the assigned one, nor above it, nor below
    it (no list of parts is a prefix of the other), no part of either path
    naming a [length] or a member of [Object.prototype].  Whatever
    [getSetting] gave there before the call, it gives afterwards, however
    the call ends.  (The settings are a tree: no array or object is held at
    two paths.) *)
Theorem setSetting_keeps_other_settings
    (JSON_stringify : Json -> option string) (path path' : string) (value : Json)
    (saveImmediately saveWorks : bool) (listeners : Listeners) (settings : Json)
    (completion : Completion) (settings' : Json) (effects : list Effect)
    (defaultValue v : Json) :
  setSetting JSON_stringify path value saveImmediately saveWorks listeners settings
  = Ended completion settings' effects ->
  ~ split path `prefix_of` split path' ->
  ~ split path' `prefix_of` split path ->
  Forall (fun part => plain part = true) (split path) ->
  Forall (fun part => plain part = true) (split path') ->
  getSetting path' defaultValue settings = Some v ->
  getSetting path' defaultValue settings' = Some v.
Proof.
  intros Hset Hp Hq Hplain Hplain' Hget. apply setSetting_ended in Hset.
  destruct (assign _ _ value settings) as [s old| | |] eqn:Hassign.
  - destruct Hset as [-> _]. rewrite getSetting_found in *.
    destruct (found (walk (split path') settings)) as [w|] eqn:Hfound; [|discriminate].
    rewrite (assign_frame _ _ _ _ _ _ (split path') w Hassign); auto;
      rewrite <- split_parts; assumption.
  - destruct Hset as (_ & -> & _). exact Hget.
  - destruct Hset as (_ & -> & _). exact Hget.
  - contradiction.
Qed.

Lemma setSetting_keeps_other_settings_witness :
  exists settings',
    setSetting sampleStringify "ui.theme" (JString "dark") true true [] defaultSettings
    = Ended Returned settings' [SaveSettings settings'; DebouncedSync]
    /\ getSetting "ui.fontSize" (JString "medium") settings' = Some (JString "medium")
    /\ getSetting "privacy.syncEnabled" JNull settings' = Some (JBool true).
Proof.
  eexists. split; [vm_compute; reflexivity|]. split.
  - eapply (setSetting_keeps_other_settings sampleStringify "ui.theme" "ui.fontSize"
              (JString "dark") true true [] defaultSettings Returned).
    + vm_compute. reflexivity.
    + intros [k Hk]. vm_compute in Hk. discriminate.
    + intros [k Hk]. vm_compute in Hk. discriminate.
    + vm_compute. repeat constructor.
    + vm_compute. repeat constructor.
    + vm_compute. reflexivity.
  - eapply (setSetting_keeps_other_settings sampleStringify "ui.theme" "privacy.syncEnabled"
              (JString "dark") true true [] defaultSettings Returned).
    + vm_compute. reflexivity.
    + intros [k Hk]. vm_compute in Hk. discriminate.
    + intros [k Hk]. vm_compute in Hk. discriminate.
    + vm_compute. repeat constructor.
    + vm_compute. repeat constructor.
    + vm_compute. reflexivity.
Defined.

(** X20 - [setSetting] compares serializations, not objects: when the value
    that [getSetting] finds at the path ([undefined] where there is none)
    serializes like the new value (as it does when the caller changed the
    stored array or object in place and hands it back), a call that stays
    within the JSON data saves nothing, notifies no listener and schedules
    no sync, whatever [saveImmediately] says. *)
Theorem setSetting_unchanged_is_silent
    (JSON_stringify : Json -> option string) (path : string) (value oldValue : Json)
    (saveImmediately saveWorks : bool) (listeners : Listeners) (settings : Json)
    (completion : Completion) (settings' : Json) (effects : list Effect) :
  getSetting path JUndefined settings = Some oldValue ->
  JSON_stringify oldValue = JSON_stringify value ->
  setSetting JSON_stringify path value saveImmediately saveWorks listeners settings
  = Ended completion settings' effects ->
  effects = [] /\ completion <> SaveFailed.
Proof.
  intros Hget Hsame Hset. apply setSetting_ended in Hset.
  rewrite getSetting_undefined in Hget.
  destruct (assign _ _ value settings) as [s old| | |] eqn:Hassign.
  - apply assign_walk in Hassign as [_ Hold]. rewrite <- split_parts in Hold.
    assert (old = oldValue) as -> by congruence.
    destruct Hset as [_ Hset]. destruct (Hset Hsame) as [-> ->].
    split; [reflexivity|discriminate].
  - destruct Hset as (-> & _ & ->). split; [reflexivity|discriminate].
  - destruct Hset as (-> & _ & ->). split; [reflexivity|discriminate].
  - contradiction.
Qed.

Lemma setSetting_unchanged_is_silent_witness :
  let settings :=
    JObject [("features", JObject [("enabledFeatures", JArray [JString "reader"])])] in
  setSetting sampleStringify "features.enabledFeatures" (JArray [JString "reader"])
    true true [("*", [7%nat])] settings
  = Ended Returned settings [].
Proof.
  intros settings.
  destruct (setSetting sampleStringify "features.enabledFeatures" (JArray [JString "reader"])
              true true [("*", [7%nat])] settings) as [completion settings' effects|] eqn:Hset;
    [|vm_compute in Hset; discriminate].
  destruct (setSetting_unchanged_is_silent sampleStringify "features.enabledFeatures"
              (JArray [JString "reader"]) (JArray [JString "reader"]) true true
              [("*", [7%nat])] settings completion settings' effects) as [-> _].
  - vm_compute. reflexivity.
  - reflexivity.
  - exact Hset.
  - vm_compute in Hset. injection Hset as <- <-. reflexivity.
Defined.

(** *** Paths that leave the plain objects *)

(** Setting the [length] of a stored array cuts the array: the element that
    was read at an index is gone. *)
Example setSetting_length_cuts :
  let settings :=
    JObject [("features", JObject [("enabledFeatures", JArray [JString "reader"])])] in
  getSetting "features.enabledFeatures.0" JNull settings = Some (JString "reader")
  /\ exists completion settings' effects,
       setSetting sampleStringify "features.enabledFeatures.length" (JNumber 0) true true []
         settings
       = Ended completion settings' effects
       /\ getSetting "features.enabledFeatures" JNull settings' = Some (JArray [])
       /\ getSetting "features.enabledFeatures.0" JNull settings' = Some JNull.
Proof. split; [reflexivity|]. do 3 eexists. repeat split; vm_compute; reflexivity. Qed.

(** An object of the settings inherits from [Object.prototype]: a path
    through one of the names of its members leaves the JSON data, unless
    the object has an own property of that name. *)
Example inherited_names_are_beyond :
  getSetting "ui.toString" JNull defaultSettings = None
  /\ getSetting "toString" JNull (JObject [("toString", JNumber 1)]) = Some (JNumber 1)
  /\ setSetting sampleStringify "ui.__proto__" (JNumber 5) true true [] defaultSettings
     = Beyond
  /\ setSetting sampleStringify "x.__proto__" JUndefined true true [] defaultSettings
     = Beyond.
Proof. repeat split; vm_compute; reflexivity. Qed.

(** ** Paths as strings *)

Lemma append_cons (x : Ascii.ascii) (a b : string) : String x a +:+ b = String x (a +:+ b).
Proof. reflexivity. Qed.

Lemma append_nil (a : string) : "" +:+ a = a.
Proof. reflexivity. Qed.

Lemma append_assoc (a b c : string) : (a +:+ b) +:+ c = a +:+ (b +:+ c).
Proof.
  induction a as [|x a IH]; [reflexivity|]. rewrite !append_cons, IH. reflexivity.
Qed.

Lemma dot_string : String dot "" = ".".
Proof. reflexivity. Qed.

Lemma split_app (a b : string) : split (a +:+ "." +:+ b) = split a ++ split b.
Proof.
  induction a as [|c a IH].
  - reflexivity.
  - rewrite append_cons. cbn [split]. rewrite IH.
    destruct (Ascii.eqb c dot); [reflexivity|].
    pose proof (split_nonempty a). destruct (split a); [contradiction|reflexivity].
Qed.

Lemma join_cons part parts :
  parts <> [] -> join (part :: parts) = part +:+ "." +:+ join parts.
Proof. destruct parts; [contradiction|reflexivity]. Qed.

Lemma join_split path : join (split path) = path.
Proof.
  induction path as [|c rest IH]; [reflexivity|]. cbn [split].
  destruct (Ascii.eqb_spec c dot) as [->|Hne].
  - rewrite join_cons by apply split_nonempty. rewrite IH. reflexivity.
  - pose proof (split_nonempty rest) as Hn. destruct (split rest) as [|part parts];
      [contradiction|].
    destruct parts as [|part' parts].
    + cbn in *. rewrite IH. reflexivity.
    + rewrite join_cons by discriminate. rewrite join_cons in IH by discriminate.
      rewrite append_cons, IH. reflexivity.
Qed.

Lemma join_app (l1 l2 : list string) :
  l1 <> [] -> l2 <> [] -> join (l1 ++ l2) = join l1 +:+ "." +:+ join l2.
Proof.
  intros H1 H2. induction l1 as [|part l1 IH]; [contradiction|].
  destruct l1 as [|part' l1].
  - cbn [app]. rewrite join_cons by exact H2. reflexivity.
  - change ((part :: part' :: l1) ++ l2) with (part :: ((part' :: l1) ++ l2)).
    rewrite join_cons by discriminate. rewrite IH by discriminate.
    rewrite (join_cons part (part' :: l1)) by discriminate.
    rewrite !append_assoc. reflexivity.
Qed.

(** The parent paths of a path are the strings it continues after a dot. *)
Lemma parentPaths_spec p path :
  In p (parentPaths path) <-> exists rest, path = p +:+ "." +:+ rest.
Proof.
  unfold parentPaths. rewrite in_map_iff. split.
  - intros (i & <- & Hi). apply in_rev, in_seq in Hi.
    exists (join (skipn i (split path))).
    rewrite <- join_app.
    + rewrite firstn_skipn, join_split. reflexivity.
    + intros Hnil. apply (f_equal (@length _)) in Hnil. rewrite length_firstn in Hnil.
      cbn in Hnil. lia.
    + intros Hnil. apply (f_equal (@length _)) in Hnil. rewrite length_skipn in Hnil.
      cbn in Hnil. lia.
  - intros [rest ->]. exists (length (split p)). rewrite split_app.
    rewrite firstn_app, Nat.sub_diag, firstn_all, firstn_O, app_nil_r.
    split; [apply join_split|].
    apply -> in_rev. apply in_seq. rewrite length_app.
    pose proof (split_nonempty p). pose proof (split_nonempty rest).
    destruct (split p); [contradiction|]. destruct (split rest); [contradiction|].
    cbn [length]. lia.
Qed.

(** The callbacks [notifyChangeListeners] calls. *)
Lemma notified_covers (path : string) (listeners : Listeners) (callback : nat) :
  In callback (notified path listeners)
  <-> exists p callbacks,
        hears p path /\ listeners_get p listeners = Some callbacks /\ In callback callbacks.
Proof.
  unfold notified. split.
  - intros Hc.
    apply in_app_or in Hc as [Hc|Hc]; [|apply in_app_or in Hc as [Hc|Hc]].
    + destruct (listeners_get path listeners) as [callbacks|] eqn:Hget; [|destruct Hc].
      exists path, callbacks. split; [left; reflexivity|auto].
    + apply in_flat_map in Hc as (p & Hp & Hc).
      destruct (listeners_get p listeners) as [callbacks|] eqn:Hget; [|destruct Hc].
      exists p, callbacks. split; [|auto]. right; right. apply parentPaths_spec, Hp.
    + destruct (listeners_get "*" listeners) as [callbacks|] eqn:Hget; [|destruct Hc].
      exists "*", callbacks. split; [right; left; reflexivity|auto].
  - intros (p & callbacks & Hhears & Hget & Hc).
    destruct Hhears as [->|[->|Hrest]].
    + apply in_or_app. left. rewrite Hget. exact Hc.
    + apply in_or_app. right. apply in_or_app. right. rewrite Hget. exact Hc.
    + apply in_or_app. right. apply in_or_app. left. apply in_flat_map.
      exists p. split; [apply parentPaths_spec, Hrest|]. rewrite Hget. exact Hc.
Qed.

(** Every call carries the new value, the old value and the path. *)
Lemma notification_fields path newValue oldValue listeners n :
  In n (notifyChangeListeners path newValue oldValue listeners) ->
  In (n_callback n) (notified path listeners)
  /\ n_newValue n = newValue /\ n_oldValue n = oldValue /\ n_path n = path.
Proof.
  unfold notifyChangeListeners. intros Hn. apply in_map_iff in Hn as (c & <- & Hc).
  cbn. auto.
Qed.

Lemma notification_of path newValue oldValue listeners callback :
  In callback (notified path listeners) ->
  In {| n_callback := callback; n_newValue := newValue; n_oldValue := oldValue;
        n_path := path |}
     (notifyChangeListeners path newValue oldValue listeners).
Proof.
  intros Hc. unfold notifyChangeListeners. apply in_map_iff. exists callback. auto.
Qed.

Lemma called_iff path newValue oldValue listeners callback :
  (exists n, In n (notifyChangeListeners path newValue oldValue listeners)
             /\ n_callback n = callback)
  <-> In callback (notified path listeners).
Proof.
  split.
  - intros (n & Hn & <-). apply (notification_fields _ _ _ _ _ Hn).
  - intros Hc. eexists. split; [apply notification_of, Hc|reflexivity].
Qed.

(** X21 - who is notified: [notifyChangeListeners(path, ...)] calls a
    callback exactly when it is registered for the path itself, for ['*'],
    or for a path [p] that the changed path continues after a dot
    ([path = p + '.' + rest]); it calls nobody else, and it hands every
    callback the new value, the old value and the changed path.  (The
    callbacks are taken not to register or remove listeners while they are
    being notified.) *)
Theorem notifyChangeListeners_calls_iff
    (path : string) (newValue oldValue : Json) (listeners : Listeners) (callback : nat) :
  ((exists n, In n (notifyChangeListeners path newValue oldValue listeners)
              /\ n_callback n = callback)
   <-> exists p callbacks,
         hears p path /\ listeners_get p listeners = Some callbacks /\ In callback callbacks)
  /\ forall n, In n (notifyChangeListeners path newValue oldValue listeners) ->
       n_newValue n = newValue /\ n_oldValue n = oldValue /\ n_path n = path.
Proof.
  split.
  - rewrite called_iff. apply notified_covers.
  - intros n Hn. apply (notification_fields _ _ _ _ _ Hn).
Qed.

(** ** Registering listeners *)

Lemma listeners_get_set path callbacks l :
  listeners_get path (listeners_set path callbacks l) = Some callbacks.
Proof.
  induction l as [|[p c] l IH]; cbn.
  - rewrite String.eqb_refl. reflexivity.
  - destruct (String.eqb_spec p path) as [->|Hne]; cbn.
    + rewrite String.eqb_refl. reflexivity.
    + destruct (String.eqb_spec p path); [contradiction|exact IH].
Qed.

Lemma listeners_get_set_ne path path' callbacks l :
  path <> path' -> listeners_get path' (listeners_set path callbacks l) = listeners_get path' l.
Proof.
  intros Hne. induction l as [|[p c] l IH]; cbn.
  - destruct (String.eqb_spec path path'); [contradiction|reflexivity].
  - destruct (String.eqb_spec p path) as [->|Hp]; cbn.
    + destruct (String.eqb_spec path path'); [contradiction|reflexivity].
    + destruct (String.eqb_spec p path'); [reflexivity|exact IH].
Qed.

Lemma listeners_get_delete path l : listeners_get path (listeners_delete path l) = None.
Proof.
  induction l as [|[p c] l IH]; cbn; [reflexivity|].
  destruct (String.eqb_spec p path) as [->|Hne]; cbn; [exact IH|].
  destruct (String.eqb_spec p path); [contradiction|exact IH].
Qed.

Lemma listeners_get_delete_ne path path' l :
  path <> path' -> listeners_get path' (listeners_delete path l) = listeners_get path' l.
Proof.
  intros Hne. induction l as [|[p c] l IH]; cbn; [reflexivity|].
  destruct (String.eqb_spec p path) as [->|Hp]; cbn.
  - destruct (String.eqb_spec path path'); [contradiction|exact IH].
  - destruct (String.eqb_spec p path'); [reflexivity|exact IH].
Qed.

Lemma set_add_In callback c s : In c (set_add callback s) <-> c = callback \/ In c s.
Proof.
  unfold set_add. destruct (existsb (Nat.eqb callback) s) eqn:Hex.
  - apply existsb_exists in Hex as (x & Hx & Heq). apply Nat.eqb_eq in Heq as <-.
    split; [auto|]. intros [->|]; auto.
  - rewrite in_app_iff. cbn. split; [intros [|[|[]]]; auto|intros [|]; auto].
Qed.

Lemma set_delete_In callback c s : In c (set_delete callback s) <-> c <> callback /\ In c s.
Proof.
  unfold set_delete. rewrite filter_In, negb_true_iff, Nat.eqb_neq.
  split; intros [? ?]; split; auto.
Qed.

(** The callbacks registered for a path. *)
Lemma registered_add path callback l p c :
  In c (default [] (listeners_get p (addChangeListener path callback l)))
  <-> (p = path /\ c = callback) \/ In c (default [] (listeners_get p l)).
Proof.
  unfold addChangeListener. destruct (decide (path = p)) as [->|Hne].
  - rewrite listeners_get_set. cbn. rewrite set_add_In. split; [intros [|]; auto|].
    intros [[_ ->]|]; auto.
  - rewrite listeners_get_set_ne by exact Hne. split; [auto|].
    intros [[-> _]|]; [contradiction|auto].
Qed.

Lemma registered_remove path callback l p c :
  In c (default [] (listeners_get p (removeChangeListener path callback l)))
  <-> In c (default [] (listeners_get p l)) /\ ~ (p = path /\ c = callback).
Proof.
  unfold removeChangeListener.
  destruct (listeners_get path l) as [callbacks|] eqn:Hget.
  - destruct (set_delete callback callbacks) as [|c0 s] eqn:Hdel.
    + destruct (decide (path = p)) as [<-|Hne].
      * rewrite listeners_get_delete, Hget. cbn. split; [intros []|].
        intros [Hc Hnot]. assert (In c (set_delete callback callbacks)) as Hin.
        { apply set_delete_In. split; [|exact Hc]. intros ->. apply Hnot. auto. }
        rewrite Hdel in Hin. destruct Hin.
      * rewrite listeners_get_delete_ne by exact Hne. split; [|intros []; auto].
        intros Hc. split; [exact Hc|]. intros [-> _]. contradiction.
    + destruct (decide (path = p)) as [<-|Hne].
      * rewrite listeners_get_set, Hget, <- Hdel. cbn -[set_delete In].
        rewrite set_delete_In.
        split; [intros [Hne Hc]; split; [exact Hc|intros [_ ->]; contradiction]|].
        intros [Hc Hnot]. split; [|exact Hc]. intros ->. apply Hnot. auto.
      * rewrite listeners_get_set_ne by exact Hne. split; [|intros []; auto].
        intros Hc. split; [exact Hc|]. intros [-> _]. contradiction.
  - split; [|intros []; auto]. intros Hc. split; [exact Hc|].
    intros [-> ->]. rewrite Hget in Hc. destruct Hc.
Qed.

(** X22 - registering and unregistering: after [addChangeListener(p, c)]
    the callback [c] is called for every change at a path that [p] hears
    of; after the function it returned has been called, [c] is called for a
    change exactly when another registration of it (under another path)
    hears of it; the registrations of other callbacks are as before
    throughout. *)
Theorem addChangeListener_then_remove
    (p : string) (c : nat) (listeners : Listeners) (path : string) (newValue oldValue : Json) :
  (hears p path ->
   exists n, In n (notifyChangeListeners path newValue oldValue
                     (addChangeListener p c listeners))
             /\ n_callback n = c)
  /\ ((exists n, In n (notifyChangeListeners path newValue oldValue
                        (removeChangeListener p c (addChangeListener p c listeners)))
                 /\ n_callback n = c)
      <-> exists p' callbacks,
            p' <> p /\ hears p' path /\ listeners_get p' listeners = Some callbacks
            /\ In c callbacks)
  /\ (forall p' c', c' <> c ->
        In c' (default [] (listeners_get p'
                             (removeChangeListener p c (addChangeListener p c listeners))))
        <-> In c' (default [] (listeners_get p' listeners))).
Proof.
  split; [|split].
  - intros Hhears. apply called_iff, notified_covers.
    pose proof (proj2 (registered_add p c listeners p c) (or_introl (conj eq_refl eq_refl)))
      as Hin.
    destruct (listeners_get p (addChangeListener p c listeners)) as [callbacks|] eqn:Hget;
      [|destruct Hin].
    exists p, callbacks. auto.
  - rewrite called_iff, notified_covers. split.
    + intros (p' & callbacks & Hhears & Hget & Hc).
      assert (Hin : In c (default [] (listeners_get p'
                     (removeChangeListener p c (addChangeListener p c listeners)))))
        by (rewrite Hget; exact Hc).
      apply registered_remove in Hin as [Hin Hnot].
      apply registered_add in Hin as [[-> _]|Hin]; [exfalso; apply Hnot; auto|].
      destruct (listeners_get p' listeners) as [callbacks'|] eqn:Hget'; [|destruct Hin].
      exists p', callbacks'. repeat split; auto.
    + intros (p' & callbacks & Hne & Hhears & Hget & Hc).
      assert (Hin : In c (default [] (listeners_get p'
                     (removeChangeListener p c (addChangeListener p c listeners))))).
      { apply registered_remove. split; [|intros [-> _]; contradiction].
        apply registered_add. right. rewrite Hget. exact Hc. }
      destruct (listeners_get p' (removeChangeListener p c (addChangeListener p c listeners)))
        as [callbacks'|] eqn:Hget'; [|destruct Hin].
      exists p', callbacks'. auto.
  - intros p' c' Hne. rewrite registered_remove, registered_add. split.
    + intros [[[_ ->]|Hin] _]; [contradiction|exact Hin].
    + intros Hin. split; [auto|]. intros [_ ->]. contradiction.
Qed.

(** ** Values changed in place *)

(** Where [getSetting] finds an array or an object, the assignments of
    [setSetting] go through. *)
Lemma assign_exists parents lastPart value : forall current v,
  found (walk (parents ++ [lastPart]) current) = Some v -> container v = true ->
  exists settings', assign parents lastPart value current = Assigned settings' v.
Proof.
  induction parents as [|part rest IH]; intros current v Hfound Hv.
  - cbn [app walk] in Hfound. cbn [assign].
    destruct (nullish current) eqn:Hnull;
      [injection Hfound as <-; discriminate|].
    destruct (prop current lastPart) as [w|] eqn:Hprop; [|discriminate].
    injection Hfound as ->.
    destruct current as [| | | |s|items|fields]; try discriminate; cbn [store].
    + exfalso. cbn [prop] in Hprop. destruct (arrayIndex lastPart).
      * injection Hprop as <-. destruct (String.get _ s); discriminate.
      * destruct (String.eqb lastPart "length"); [|discriminate].
        injection Hprop as <-. discriminate.
    + cbn [prop] in Hprop. destruct (arrayIndex lastPart) as [i|].
      * injection Hprop as <-. eauto.
      * destruct (String.eqb lastPart "length"); [|discriminate].
        injection Hprop as <-. discriminate.
    + rewrite Hprop. eauto.
  - cbn [app walk] in Hfound. rewrite assign_unfold.
    destruct (nullish current) eqn:Hnull;
      [injection Hfound as <-; discriminate|].
    destruct (prop current part) as [child|] eqn:Hprop; [|discriminate].
    destruct (nullish child) eqn:Hchild.
    + rewrite walk_nullish in Hfound by (auto; destruct rest; discriminate).
      injection Hfound as <-. discriminate.
    + cbn [andb]. destruct (IH _ _ Hfound Hv) as [child' ->]. eauto.
Qed.

(** Assigning the same value again changes nothing. *)
Lemma assign_twice parents lastPart value : forall current settings' oldValue,
  assign parents lastPart value current = Assigned settings' oldValue ->
  assign parents lastPart value settings' = Assigned settings' value.
Proof.
  induction parents as [|part rest IH]; intros current settings' oldValue.
  - cbn [assign]. destruct current as [| | | |s|items|fields]; cbn [store];
      try discriminate.
    + destruct (prop (JString s) lastPart); discriminate.
    + destruct (arrayIndex lastPart) as [i|] eqn:Hi.
      * intros [= <- _]. cbn [put]. rewrite Hi. cbn [store]. rewrite Hi. cbn [put].
        rewrite Hi, set_item_twice, item_set_item. reflexivity.
      * destruct (String.eqb lastPart "length") eqn:Hlen; [|discriminate].
        destruct value as [| | |n| | |]; try discriminate.
        destruct ((0 <=? n) && (n <=? 4294967295)) eqn:Hn; [|discriminate].
        intros [= <- _]. cbn [store]. rewrite Hi, Hlen, Hn.
        rewrite resized_twice, length_resized, Z2Nat.id; [reflexivity|].
        apply andb_prop in Hn as [Hn _]. apply Z.leb_le, Hn.
    + destruct (prop (JObject fields) lastPart); [|discriminate].
      intros [= <- _]. cbn [put store prop]. rewrite own_set_field. cbn [put].
      rewrite set_set_field. reflexivity.
  - intros Hassign.
    destruct (assign_step _ _ _ _ _ _ _ Hassign)
      as (child & child' & Hcur & Hprop & Hchild & Hin & Hout & ->).
    rewrite assign_unfold.
    rewrite container_not_nullish by (rewrite container_put; exact Hcur).
    rewrite (prop_put _ _ _ _ Hcur Hprop Hchild).
    rewrite (container_not_nullish _ Hout). cbn [andb].
    rewrite (IH _ _ _ Hin), put_twice. reflexivity.
Qed.

(** Handing back to [setSetting] a stored array or object that was changed
    in place does nothing at all. *)
Lemma setSetting_in_place JSON_stringify path value saveImmediately saveWorks listeners
    settings v :
  found (walk (split path) settings) = Some v -> container v = true ->
  setSetting JSON_stringify path value saveImmediately saveWorks listeners
    (changed_in_place path value settings)
  = Ended Returned (changed_in_place path value settings) []
  /\ walk (split path) (changed_in_place path value settings) = Reached value.
Proof.
  intros Hfound Hv. rewrite split_parts in Hfound.
  destruct (assign_exists _ _ value _ _ Hfound Hv) as [settings' Hassign].
  unfold changed_in_place, setSetting. rewrite Hassign.
  rewrite (assign_twice _ _ _ _ _ _ Hassign).
  rewrite decide_True by reflexivity. split; [reflexivity|].
  apply assign_walk in Hassign as [Hwalk _]. rewrite <- split_parts in Hwalk.
  exact Hwalk.
Qed.

(** What a change in place leaves alone. *)
Lemma changed_in_place_frame path path' value settings v :
  ~ split path `prefix_of` split path' ->
  ~ split path' `prefix_of` split path ->
  Forall (fun part => plain part = true) (split path) ->
  Forall (fun part => plain part = true) (split path') ->
  found (walk (split path') settings) = Some v ->
  found (walk (split path') (changed_in_place path value settings)) = Some v.
Proof.
  intros Hp Hq Hplain Hplain' Hfound. unfold changed_in_place.
  destruct (assign _ _ value settings) as [settings' old| | |] eqn:Hassign; try exact Hfound.
  apply (assign_frame _ _ _ _ _ _ (split path') v Hassign); auto;
    rewrite <- split_parts; assumption.
Qed.

End StorageManagerFacts.

(** * Properties of the feature switches *)
Section FeatureSwitchFacts.
Import FeatureManager.
Import StorageManager.

Abbreviation plainPath path := (Forall (fun part => plain part = true) (split path)).

Lemma switch_paths_apart :
  ~ split enabledPath `prefix_of` split disabledPath
  /\ ~ split disabledPath `prefix_of` split enabledPath.
Proof. split; intros [k Hk]; vm_compute in Hk; discriminate. Qed.

Lemma switch_paths_plain : plainPath enabledPath /\ plainPath disabledPath.
Proof. split; vm_compute; repeat constructor. Qed.

Lemma fetched_found path stored :
  fetched path stored
  = match found (walk (split path) stored) with
    | Some JUndefined => NewArray
    | Some (JArray items) => StoredArray items
    | Some v => NoArray v
    | None => FetchedBeyond
    end.
Proof. reflexivity. Qed.

Lemma holds_app F items items' : holds F (items ++ items') = holds F items || holds F items'.
Proof. apply existsb_app. Qed.

Lemma spliced_holds F items :
  (length (List.filter (is_id F) items) <= 1)%nat -> holds F (spliced F items) = false.
Proof.
  induction items as [|v items IH]; [reflexivity|]. cbn [List.filter spliced].
  destruct (is_id F v) eqn:Hv.
  - cbn [length]. intros Hle.
    destruct (holds F items) eqn:Hh; [|reflexivity]. exfalso.
    apply existsb_exists in Hh as (x & Hx & Hid).
    assert (In x (List.filter (is_id F) items)) as Hin by (apply filter_In; auto).
    destruct (List.filter (is_id F) items); [destruct Hin|cbn in Hle; lia].
  - intros Hle. cbn [holds existsb]. rewrite Hv. cbn. apply IH, Hle.
Qed.

(** What [dropFrom] leaves when it returns. *)
Lemma dropFrom_returned J saveWorks listeners path F stored stored1 effects :
  plainPath path ->
  dropFrom J saveWorks listeners path (fetched path stored) F stored
  = Ended Returned stored1 effects ->
  (forall path' v,
     ~ split path `prefix_of` split path' -> ~ split path' `prefix_of` split path ->
     plainPath path' ->
     found (walk (split path') stored) = Some v ->
     found (walk (split path') stored1) = Some v)
  /\ exists w,
       found (walk (split path) stored) = Some w
       /\ found (walk (split path) stored1) = Some (dropped F w)
       /\ match w with
          | JString s => includes F s = false
          | JUndefined | JArray _ => True
          | _ => False
          end
       /\ (forall items, w = JArray items -> effects = []).
Proof.
  intros Hplain. rewrite fetched_found. unfold dropFrom.
  destruct (found (walk (split path) stored)) as [[| | | |s|items|fields]|] eqn:Hfound;
    try discriminate.
  - intros [= <- <-]. split; [auto|]. exists JUndefined. repeat split; auto; discriminate.
  - destruct (includes F s) eqn:Hinc; [discriminate|]. intros [= <- <-].
    split; [auto|]. exists (JString s). repeat split; auto; discriminate.
  - destruct (holds F items) eqn:Hholds.
    + destruct (setSetting_in_place J path (JArray (spliced F items)) true saveWorks listeners
                  stored _ Hfound eq_refl) as [Hset Hwalk].
      rewrite Hset. intros [= <- <-]. split.
      * intros path' v Hp Hq Hplain'. apply changed_in_place_frame; assumption.
      * exists (JArray items). cbn [dropped]. rewrite Hholds, Hwalk. repeat split; auto.
    + intros [= <- <-]. split; [auto|]. exists (JArray items). cbn [dropped].
      rewrite Hholds. repeat split; auto.
Qed.

(** What [addTo] leaves when it returns. *)
Lemma addTo_returned J saveWorks listeners path F stored stored1 effects :
  plainPath path ->
  addTo J saveWorks listeners path (fetched path stored) F stored
  = Ended Returned stored1 effects ->
  (forall path' v,
     ~ split path `prefix_of` split path' -> ~ split path' `prefix_of` split path ->
     plainPath path' ->
     found (walk (split path') stored) = Some v ->
     found (walk (split path') stored1) = Some v)
  /\ (exists ids, getSetting path (JArray []) stored1 = Some ids /\ listed F ids = Some true)
  /\ (forall items, found (walk (split path) stored) = Some (JArray items) -> effects = []).
Proof.
  intros Hplain. rewrite fetched_found. unfold addTo. rewrite getSetting_found.
  destruct (found (walk (split path) stored)) as [[| | | |s|items|fields]|] eqn:Hfound;
    try discriminate.
  - intros Hset.
    destruct (setSetting_done _ _ _ _ _ _ _ _ _ _ Hset (or_introl eq_refl)) as [old Hassign].
    split; [|split; [|discriminate]].
    + intros path' v Hp Hq Hplain'.
      apply (assign_frame _ _ _ _ _ _ (split path') v Hassign); auto;
        rewrite <- split_parts; assumption.
    + apply assign_walk in Hassign as [Hwalk _]. rewrite <- split_parts in Hwalk.
      rewrite Hwalk. eexists. split; [reflexivity|]. cbn. rewrite String.eqb_refl. reflexivity.
  - destruct (includes F s) eqn:Hinc; [|discriminate]. intros [= <- <-].
    rewrite Hfound. split; [auto|]. split; [|discriminate].
    eexists. split; [reflexivity|]. cbn. rewrite Hinc. reflexivity.
  - destruct (holds F items) eqn:Hholds.
    + intros [= <- <-]. rewrite Hfound. split; [auto|]. split; [|auto].
      eexists. split; [reflexivity|]. cbn. rewrite Hholds. reflexivity.
    + destruct (setSetting_in_place J path (JArray (items ++ [JString F])) true saveWorks
                  listeners stored _ Hfound eq_refl) as [Hset Hwalk].
      rewrite Hset. intros [= <- <-]. split; [|split; [|auto]].
      * intros path' v Hp Hq Hplain'. apply changed_in_place_frame; assumption.
      * rewrite Hwalk. eexists. split; [reflexivity|]. cbn. rewrite holds_app. cbn.
        rewrite String.eqb_refl, orb_true_r. reflexivity.
Qed.

Lemma switch_switched J saveWorks listeners dropPath addPath F stored stored' effects :
  ~ split dropPath `prefix_of` split addPath ->
  ~ split addPath `prefix_of` split dropPath ->
  plainPath dropPath -> plainPath addPath ->
  switch J saveWorks listeners dropPath addPath (fetched dropPath stored)
    (fetched addPath stored) F stored = (Switched, stored', effects) ->
  (exists ids, getSetting addPath (JArray []) stored' = Some ids /\ listed F ids = Some true)
  /\ (exists w,
        found (walk (split dropPath) stored) = Some w
        /\ found (walk (split dropPath) stored') = Some (dropped F w)
        /\ match w with
           | JString s => includes F s = false
           | JUndefined | JArray _ => True
           | _ => False
           end)
  /\ (forall items items',
        found (walk (split dropPath) stored) = Some (JArray items) ->
        found (walk (split addPath) stored) = Some (JArray items') -> effects = []).
Proof.
  intros Hp Hq Hplain Hplain'. unfold switch.
  destruct (dropFrom J saveWorks listeners dropPath _ F stored) as [c1 stored1 effects1|]
    eqn:Hdrop; [|discriminate].
  destruct c1; try discriminate.
  destruct (dropFrom_returned _ _ _ _ _ _ _ _ Hplain Hdrop)
    as (Hframe1 & w & Hw & Hdropped & Hstr & Heff1).
  destruct (found (walk (split addPath) stored)) as [a|] eqn:Ha.
  - assert (Hsame : fetched addPath stored = fetched addPath stored1).
    { rewrite !fetched_found, Ha, (Hframe1 addPath a) by assumption. reflexivity. }
    rewrite Hsame.
    destruct (addTo J saveWorks listeners addPath _ F stored1) as [c2 stored2 effects2|]
      eqn:Hadd; [|discriminate].
    destruct c2; try discriminate. intros [= <- <-].
    destruct (addTo_returned _ _ _ _ _ _ _ _ Hplain' Hadd) as (Hframe2 & Hlisted & Heff2).
    split; [exact Hlisted|]. split.
    + exists w. split; [exact Hw|]. split; [|exact Hstr].
      apply Hframe2; assumption.
    + intros items items' Hd Ha'. rewrite (Heff1 items), (Heff2 items'); [reflexivity| |].
      * rewrite (Hframe1 addPath a) by assumption. congruence.
      * congruence.
  - rewrite (fetched_found addPath), Ha. cbn [addTo]. discriminate.
Qed.

(** X23 - enabling: when [enableFeature(F)] has updated the two lists,
    [isFeatureEnabled(F)] is true, provided the list of disabled features
    held F once at most (the removal takes out one occurrence, and
    [isFeatureEnabled] looks at the disabled list first). *)
Theorem enableFeature_then_isFeatureEnabled
    (JSON_stringify : Json -> option string) (saveWorks : bool) (listeners : Listeners)
    (F : string) (registry : gmap string FeatureDefinition) (stored stored' : Json)
    (effects : list Effect) :
  enableFeature JSON_stringify saveWorks listeners F registry stored
  = (Switched, stored', effects) ->
  (forall items, getSetting disabledPath (JArray []) stored = Some (JArray items) ->
     (length (List.filter (is_id F) items) <= 1)%nat) ->
  isFeatureEnabled F registry stored' = Some true.
Proof.
  unfold enableFeature. destruct (registry !! F); [|discriminate]. intros Hswitch Honce.
  destruct switch_paths_apart as [Hp Hq]. destruct switch_paths_plain as [Hen Hdis].
  destruct (switch_switched _ _ _ _ _ _ _ _ _ Hq Hp Hdis Hen Hswitch)
    as ((ids & Hids & Hlisted) & (w & Hw & Hw' & Hstr) & _).
  unfold isFeatureEnabled. rewrite Hids.
  rewrite (getSetting_found disabledPath), Hw'.
  rewrite (getSetting_found disabledPath), Hw in Honce.
  destruct w as [| | | |s|items|fields]; try contradiction; cbn [dropped].
  - cbn. rewrite Hlisted. reflexivity.
  - cbn. rewrite Hstr, Hlisted. reflexivity.
  - cbn. destruct (holds F items) eqn:Hholds.
    + rewrite spliced_holds by (apply Honce; reflexivity). rewrite Hlisted. reflexivity.
    + rewrite Hholds, Hlisted. reflexivity.
Qed.

Lemma enableFeature_then_isFeatureEnabled_witness :
  let registry := featureRegistry (initial [feature "reader" [] []]) in
  let stored :=
    JObject [("features", JObject [("disabledFeatures", JArray [JString "reader"])]);
             ("privacy", JObject [("syncEnabled", JBool false)])] in
  isFeatureEnabled "reader" registry stored = Some false
  /\ isFeatureEnabled "reader" registry
       (snd (fst (enableFeature sampleStringify true [] "reader" registry stored)))
     = Some true.
Proof.
  intros registry stored. split; [vm_compute; reflexivity|].
  destruct (enableFeature sampleStringify true [] "reader" registry stored)
    as [[s stored'] effects] eqn:Hen.
  assert (s = Switched) as -> by (vm_compute in Hen; congruence).
  apply (enableFeature_then_isFeatureEnabled sampleStringify true [] "reader" registry stored
           stored' effects Hen).
  intros items Hitems. vm_compute in Hitems. injection Hitems as <-. cbn. lia.
Defined.

(** X24 - disabling: when [disableFeature(F)] has updated the two lists,
    [isFeatureEnabled(F)] is false, whatever the lists held before and
    whatever the definition of F says about its default. *)
Theorem disableFeature_then_isFeatureEnabled
    (JSON_stringify : Json -> option string) (saveWorks : bool) (listeners : Listeners)
    (F : string) (registry : gmap string FeatureDefinition) (stored stored' : Json)
    (effects : list Effect) :
  disableFeature JSON_stringify saveWorks listeners F registry stored
  = (Switched, stored', effects) ->
  isFeatureEnabled F registry stored' = Some false.
Proof.
  unfold disableFeature. destruct (registry !! F); [|discriminate]. intros Hswitch.
  destruct switch_paths_apart as [Hp Hq]. destruct switch_paths_plain as [Hen Hdis].
  destruct (switch_switched _ _ _ _ _ _ _ _ _ Hp Hq Hen Hdis Hswitch)
    as ((ids & Hids & Hlisted) & (w & Hw & Hw' & Hstr) & _).
  unfold isFeatureEnabled. rewrite Hids, Hlisted.
  rewrite (getSetting_found enabledPath), Hw'.
  destruct (dropped F w); reflexivity.
Qed.

Lemma disableFeature_then_isFeatureEnabled_witness :
  let registry := featureRegistry (initial [feature "reader" [] []]) in
  let stored :=
    JObject [("features", JObject [("enabledFeatures", JArray [JString "reader"])]);
             ("privacy", JObject [("syncEnabled", JBool false)])] in
  isFeatureEnabled "reader" registry stored = Some true
  /\ isFeatureEnabled "reader" registry
       (snd (fst (disableFeature sampleStringify true [] "reader" registry stored)))
     = Some false.
Proof.
  intros registry stored. split; [vm_compute; reflexivity|].
  destruct (disableFeature sampleStringify true [] "reader" registry stored)
    as [[s stored'] effects] eqn:Hdis.
  assert (s = Switched) as -> by (vm_compute in Hdis; congruence).
  exact (disableFeature_then_isFeatureEnabled sampleStringify true [] "reader" registry stored
           stored' effects Hdis).
Defined.

(** X25 - the switch is not written to storage: when the settings hold the
    two lists as arrays (as they do once the defaults have been filled in),
    [enableFeature] and [disableFeature] change the arrays in place and
    hand them back to [setSetting], which finds nothing changed: whatever
    [JSON.stringify] is, the settings are not saved, no change listener is
    told and no sync is scheduled.  The switch lives in memory until some
    other setting is saved. *)
Theorem enableFeature_saves_nothing
    (JSON_stringify : Json -> option string) (saveWorks : bool) (listeners : Listeners)
    (F : string) (registry : gmap string FeatureDefinition) (stored : Json)
    (enabledFeatures disabledFeatures : list Json) :
  is_Some (registry !! F) ->
  getSetting enabledPath JUndefined stored = Some (JArray enabledFeatures) ->
  getSetting disabledPath JUndefined stored = Some (JArray disabledFeatures) ->
  (exists stored',
     enableFeature JSON_stringify saveWorks listeners F registry stored
     = (Switched, stored', []))
  /\ (exists stored',
        disableFeature JSON_stringify saveWorks listeners F registry stored
        = (Switched, stored', [])).
Proof.
  intros [def Hdef] Hen Hdis. rewrite getSetting_undefined in Hen, Hdis.
  destruct switch_paths_apart as [Hp Hq]. destruct switch_paths_plain as [Hpe Hpd].
  assert (Hswitch : forall dropPath addPath outs ins,
             ~ split dropPath `prefix_of` split addPath ->
             ~ split addPath `prefix_of` split dropPath ->
             plainPath dropPath -> plainPath addPath ->
             found (walk (split dropPath) stored) = Some (JArray outs) ->
             found (walk (split addPath) stored) = Some (JArray ins) ->
             exists stored',
               switch JSON_stringify saveWorks listeners dropPath addPath
                 (fetched dropPath stored) (fetched addPath stored) F stored
               = (Switched, stored', [])).
  { intros dropPath addPath outs ins Hp' Hq' Hplain Hplain' Hd Ha.
    rewrite !fetched_found, Hd, Ha. unfold switch.
    assert (Hdrop : exists stored1,
               dropFrom JSON_stringify saveWorks listeners dropPath (StoredArray outs) F
                 stored = Ended Returned stored1 []
               /\ found (walk (split addPath) stored1) = Some (JArray ins)).
    { unfold dropFrom. destruct (holds F outs).
      - destruct (setSetting_in_place JSON_stringify dropPath (JArray (spliced F outs)) true
                    saveWorks listeners stored _ Hd eq_refl) as [Hset _].
        rewrite Hset. eexists. split; [reflexivity|].
        apply changed_in_place_frame; assumption.
      - eexists. split; [reflexivity|exact Ha]. }
    destruct Hdrop as (stored1 & -> & Ha1).
    unfold addTo. destruct (holds F ins); [eauto|].
    destruct (setSetting_in_place JSON_stringify addPath (JArray (ins ++ [JString F])) true
                saveWorks listeners stored1 _ Ha1 eq_refl) as [Hset _].
    rewrite Hset. eauto. }
  unfold enableFeature, disableFeature. rewrite Hdef. split; eapply Hswitch; eauto.
Qed.

Lemma enableFeature_saves_nothing_witness :
  let registry := featureRegistry (initial [feature "reader" [] []]) in
  exists stored',
    enableFeature sampleStringify true [("*", [7%nat])] "reader" registry defaultSettings
    = (Switched, stored', []).
Proof.
  intros registry.
  destruct (enableFeature_saves_nothing sampleStringify true [("*", [7%nat])] "reader" registry
              defaultSettings [] []) as [Hen _].
  - vm_compute. eauto.
  - vm_compute. reflexivity.
  - vm_compute. reflexivity.
  - exact Hen.
Defined.

End FeatureSwitchFacts.

(** * Properties of the API key store *)
Section ApiKeyFacts.
Import ApiManager.
Import StorageManager.

Lemma saved_keys warned k r :
  apiKeys (keys (saved warned k r)) = apiKeys k
  /\ requestKeys (keys (saved warned k r)) = requestKeys k
  /\ ApiManager.warned (saved warned k r) = warned.
Proof. destruct r as [c s e|]; repeat split; reflexivity. Qed.

(** X26 - a key is in use as soon as [setApiKey] has been called: for a
    service of [API_CONFIG], after [setApiKey(apiId, apiKey)] the manager
    holds the key ([hasApiKey] is true for every truthy key) and the
    request layer uses it, whether or not the key passed
    [validateApiKey] (a failed validation only warns) and whatever the
    call returns - also when it returns [false] because the settings could
    not be saved.  After [removeApiKey(apiId)], for any id, the manager
    holds no key and the request layer answers [null]. *)
Theorem setApiKey_takes_effect_before_saving
    (JSON_stringify : Json -> option string) (saveWorks : bool) (listeners : Listeners)
    (apiId : string) (apiKey : Json) (k : Keys) :
  is_Some (API_CONFIG !! apiId) ->
  let r := setApiKey JSON_stringify saveWorks listeners apiId apiKey k in
  let r' := removeApiKey JSON_stringify saveWorks listeners apiId (keys r) in
  hasApiKey apiId (keys r) = truthy apiKey
  /\ getApiKey apiId (keys r) = (if truthy apiKey then apiKey else JNull)
  /\ warned r = negb (validateApiKey apiId apiKey)
  /\ hasApiKey apiId (keys r') = false
  /\ getApiKey apiId (keys r') = JNull.
Proof.
  intros [cfg Hcfg] r r'.
  assert (Hr : apiKeys (keys r) !! apiId = Some apiKey
               /\ requestKeys (keys r) !! apiId = Some apiKey
               /\ warned r = negb (validateApiKey apiId apiKey)).
  { subst r. unfold setApiKey. rewrite Hcfg. cbn [keySettings].
    destruct (found (walk (split keysPath) (keySettings k))) as [[| | | | | |fields]|];
      cbn [keys apiKeys requestKeys warned]; rewrite ?lookup_insert_eq; auto;
      match goal with
      | |- context [saved ?w ?k0 ?r0] =>
          destruct (saved_keys w k0 r0) as (-> & -> & ->)
      end; cbn; rewrite ?lookup_insert_eq; auto. }
  assert (Hr' : apiKeys (keys r') !! apiId = None
                /\ requestKeys (keys r') !! apiId = Some JNull).
  { subst r'. unfold removeApiKey. cbn [keySettings].
    destruct (found (walk (split keysPath) (keySettings (keys r)))) as [[| | | | | |fields]|];
      cbn [keys apiKeys requestKeys]; rewrite ?lookup_insert_eq, ?lookup_delete_eq; auto;
      match goal with
      | |- context [saved ?w ?k0 ?r0] =>
          destruct (saved_keys w k0 r0) as (-> & -> & _)
      end; cbn; rewrite ?lookup_insert_eq, ?lookup_delete_eq; auto. }
  destruct Hr as (Ha & Hq & Hw). destruct Hr' as (Ha' & Hq').
  unfold hasApiKey, getApiKey. rewrite Ha, Hq, Ha', Hq'. cbn. auto.
Qed.

Lemma setApiKey_takes_effect_before_saving_witness :
  let r := setApiKey sampleStringify false [] "claude" (JString "secret") noKeys in
  returned r = Some false
  /\ warned r = true
  /\ hasApiKey "claude" (keys r) = true
  /\ getApiKey "claude" (keys r) = JString "secret".
Proof.
  intros r.
  destruct (setApiKey_takes_effect_before_saving sampleStringify false [] "claude"
              (JString "secret") noKeys) as (Hhas & Hget & Hwarn & _).
  - vm_compute. eauto.
  - split; [vm_compute; reflexivity|]. split; [exact Hwarn|]. split; [exact Hhas|exact Hget].
Defined.

(** X27 - which keys reach the browser's storage: when the settings hold
    no object of keys yet, a call of [setApiKey] that returns [true] has
    saved the settings, with the key in them; but when the settings
    already hold an object of keys (that is, from the second key on),
    [setApiKey] adds the key to that object in place and hands it to
    [setSetting], which finds nothing changed: the call returns [true], the
    key is in the settings in memory, and nothing is saved, no listener is
    told. *)
Theorem setApiKey_saves_only_the_first_key
    (JSON_stringify : Json -> option string) (saveWorks : bool) (listeners : Listeners)
    (apiId : string) (apiKey : Json) (k : Keys) :
  is_Some (API_CONFIG !! apiId) ->
  let r := setApiKey JSON_stringify saveWorks listeners apiId apiKey k in
  (getSetting keysPath JUndefined (keySettings k) = Some JUndefined ->
   JSON_stringify (JObject [(apiId, apiKey)]) <> JSON_stringify JUndefined ->
   returned r = Some true ->
   getSetting keysPath JUndefined (keySettings (keys r)) = Some (JObject [(apiId, apiKey)])
   /\ exists rest, effects r = SaveSettings (keySettings (keys r)) :: rest)
  /\ (forall fields,
        getSetting keysPath JUndefined (keySettings k) = Some (JObject fields) ->
        returned r = Some true
        /\ effects r = []
        /\ getSetting keysPath JUndefined (keySettings (keys r))
           = Some (JObject (set_field apiId apiKey fields))).
Proof.
  intros [cfg Hcfg] r. subst r. unfold setApiKey. rewrite Hcfg. cbn [keySettings].
  split.
  - intros Hfound Hdiffers. rewrite getSetting_undefined in Hfound. rewrite Hfound.
    destruct (setSetting JSON_stringify keysPath (JObject [(apiId, apiKey)]) true saveWorks
                listeners (keySettings k)) as [completion settings' done|] eqn:Hset;
      cbn [saved returned effects keys keySettings]; [|discriminate].
    destruct completion; try discriminate. intros _.
    destruct (setSetting_done _ _ _ _ _ _ _ _ _ _ Hset (or_introl eq_refl))
      as [old Hassign].
    pose proof Hassign as Hwalk. apply assign_walk in Hwalk as [Hwalk Hold].
    rewrite <- split_parts in Hwalk, Hold.
    assert (old = JUndefined) as -> by congruence.
    split; [rewrite getSetting_undefined, Hwalk; reflexivity|].
    unfold setSetting in Hset. rewrite Hassign in Hset.
    rewrite decide_False in Hset by congruence.
    destruct saveWorks; cbn [andb negb] in Hset; [|discriminate].
    destruct (prop settings' "privacy") as [[]|]; try discriminate;
      match type of Hset with
      | context [prop ?privacy "syncEnabled"] =>
          destruct (prop privacy "syncEnabled"); [|discriminate];
          destruct (_ && _); injection Hset as <-; cbn [app]; eauto
      end.
  - intros fields Hfound. rewrite getSetting_undefined in Hfound. rewrite Hfound.
    destruct (setSetting_in_place JSON_stringify keysPath
                (JObject (set_field apiId apiKey fields)) true saveWorks listeners
                (keySettings k) _ Hfound eq_refl) as [Hset Hwalk].
    rewrite Hset. cbn [saved returned effects keys keySettings].
    rewrite getSetting_undefined, Hwalk. auto.
Qed.

Lemma setApiKey_saves_only_the_first_key_witness :
  let first := setApiKey sampleStringify true [] "claude" (JString "sk-ant-one") noKeys in
  let second :=
    setApiKey sampleStringify true [] "google_translate" (JString "two") (keys first) in
  (exists rest, effects first = SaveSettings (keySettings (keys first)) :: rest)
  /\ returned second = Some true
  /\ effects second = [].
Proof.
  intros first second.
  destruct (setApiKey_saves_only_the_first_key sampleStringify true [] "claude"
              (JString "sk-ant-one") noKeys) as [Hfirst _]; [vm_compute; eauto|].
  destruct (setApiKey_saves_only_the_first_key sampleStringify true [] "google_translate"
              (JString "two") (keys first)) as [_ Hsecond]; [vm_compute; eauto|].
  split.
  - apply Hfirst; [vm_compute; reflexivity|vm_compute; discriminate|vm_compute; reflexivity].
  - destruct (Hsecond [("claude", JString "sk-ant-one")]) as (Hret & Heff & _);
      [vm_compute; reflexivity|]. split; [exact Hret|exact Heff].
Defined.

End ApiKeyFacts.

(** * Properties of storage-utils.js *)
Section StorageUtilsFacts.
Import ApiUtils StorageUtils.

Lemma lookup_foldr_delete_keys {A} (m : gmap string A) (ks : list string) (k : string) :
  foldr delete m ks !! k = if decide (k ∈ ks) then None else m !! k.
Proof.
  induction ks as [|k' ks IH]; cbn [foldr].
  - rewrite decide_False; [reflexivity|]. intros H. inversion H.
  - destruct (decide (k' = k)) as [->|Hne].
    + rewrite lookup_delete_eq, decide_True by left. reflexivity.
    + rewrite lookup_delete_ne, IH by exact Hne.
      destruct (decide (k ∈ ks)) as [Hin|Hnin].
      * rewrite decide_True by (right; exact Hin). reflexivity.
      * rewrite decide_False; [reflexivity|].
        intros Hin. apply elem_of_cons in Hin as [->|Hin]; [congruence|contradiction].
Qed.

(** The table [clearExpired] leaves: the rows that have not expired. *)
Lemma clearExpired_table now (table : gmap string CacheItem) key :
  foldr delete table
    (List.map fst (List.filter (fun item => timestamp (snd item) <? now) (map_to_list table)))
  !! key
  = match table !! key with
    | Some item => if timestamp item <? now then None else Some item
    | None => None
    end.
Proof.
  rewrite lookup_foldr_delete_keys.
  destruct (table !! key) as [item|] eqn:Hkey.
  - destruct (timestamp item <? now) eqn:Hexp.
    + rewrite decide_True; [reflexivity|].
      apply list_elem_of_In, in_map_iff. exists (key, item). split; [reflexivity|].
      apply filter_In. split; [|exact Hexp].
      apply list_elem_of_In, elem_of_map_to_list, Hkey.
    + rewrite decide_False; [reflexivity|].
      intros Hin. apply list_elem_of_In, in_map_iff in Hin as ([k item'] & Hk & Hin).
      cbn in Hk. subst k. apply filter_In in Hin as [Hin Hexp'].
      apply list_elem_of_In, elem_of_map_to_list in Hin. cbn in Hexp'.
      rewrite Hkey in Hin. injection Hin as <-. congruence.
  - destruct (decide _); reflexivity.
Qed.

Lemma cache_get_lookup key value expiration t now table :
  cacheUtils.get key now (cacheUtils.set key value expiration t (Some table))
  = if t + default cacheUtils.EXPIRATION expiration <? now then JsNull else value.
Proof. unfold cacheUtils.get, cacheUtils.set. rewrite lookup_insert_eq. reflexivity. Qed.

(** X28 - the cache round trip: after [set(key, value, expiration)] at time
    [t], [get(key)] returns the value as long as the clock has not passed
    [t + expiration] (one hour when no expiration is given) and [null]
    afterwards, whatever was stored under the key before; what [get]
    returns for every other key is as before.  When the database cannot be
    used, [set] stores nothing and [get] returns [null]. *)
Theorem cache_get_after_set
    (key : string) (value : JsValue) (expiration : option Z) (t : Z) (key' : string)
    (now : Z) (cache : Cache) :
  cacheUtils.get key' now (cacheUtils.set key value expiration t cache)
  = match cache with
    | None => JsNull
    | Some _ =>
        if decide (key' = key)
        then if t + default cacheUtils.EXPIRATION expiration <? now then JsNull else value
        else cacheUtils.get key' now cache
    end.
Proof.
  destruct cache as [table|]; [|reflexivity].
  unfold cacheUtils.get, cacheUtils.set. rewrite lookup_insert.
  destruct (decide (key = key')) as [->|Hne].
  - rewrite decide_True by reflexivity. reflexivity.
  - rewrite decide_False by congruence. reflexivity.
Qed.

(** X29 - clearing is invisible: [clearExpired()] run at time [now] removes
    the rows whose time has passed and no other, and no call of [get] made
    at that time or later can tell the difference. *)
Theorem clearExpired_is_invisible (now now' : Z) (key : string) (cache : Cache) :
  now <= now' ->
  cacheUtils.get key now' (snd (cacheUtils.clearExpired now cache))
  = cacheUtils.get key now' cache
  /\ match cache, snd (cacheUtils.clearExpired now cache) with
     | Some table, Some table' =>
         forall k item,
           table' !! k = Some item <-> table !! k = Some item /\ now <= timestamp item
     | None, None => True
     | _, _ => False
     end.
Proof.
  intros Hle. destruct cache as [table|]; [|split; [reflexivity|exact I]].
  unfold cacheUtils.clearExpired, cacheUtils.get. cbn [snd]. split.
  - rewrite clearExpired_table. destruct (table !! key) as [item|]; [|reflexivity].
    destruct (Z.ltb_spec (timestamp item) now) as [Hexp|Hfresh]; [|reflexivity].
    destruct (Z.ltb_spec (timestamp item) now'); [reflexivity|lia].
  - intros k item. rewrite clearExpired_table.
    destruct (table !! k) as [item'|]; [|split; [discriminate|intros [[=] _]]].
    destruct (Z.ltb_spec (timestamp item') now) as [Hexp|Hfresh].
    + split; [discriminate|]. intros [[= <-] ?]. lia.
    + split; [intros [= <-]; auto|intros [[= <-] _]; reflexivity].
Qed.

Lemma clearExpired_is_invisible_witness :
  let cache := cacheUtils.set "b" (JsNumber 2) (Some 500)
                 0 (cacheUtils.set "a" (JsNumber 1) (Some 50) 0 (Some ∅)) in
  fst (cacheUtils.clearExpired 100 cache) = 1
  /\ cacheUtils.get "b" 200 (snd (cacheUtils.clearExpired 100 cache)) = JsNumber 2.
Proof.
  intros cache. split; [vm_compute; reflexivity|].
  destruct (clearExpired_is_invisible 100 200 "b" cache) as [-> _]; [lia|].
  vm_compute. reflexivity.
Defined.

(** ** The response cache of [request] *)

Lemma attemptOnce_events (c : RequestClosure) (attempt : nat) :
  snd (attemptOnce c attempt)
  = EvFetch attempt ::
    match fst (attemptOnce c attempt) with
    | inr data =>
        if rc_isCacheable c then [EvCacheResponse (rc_cacheKey c) data (rc_cacheTTL c)]
        else []
    | inl _ => []
    end.
Proof.
  unfold attemptOnce. destruct (rc_fetch c attempt) as [error|response]; [reflexivity|].
  destruct (negb (resp_ok response)); [reflexivity|].
  destruct (resp_json response); reflexivity.
Qed.

Lemma cacheResponses_app evs evs' now cache :
  cacheResponses (evs ++ evs') now cache = cacheResponses evs' now (cacheResponses evs now cache).
Proof. unfold cacheResponses. apply fold_left_app. Qed.

(** A run of the executor that ends in data caches these data, once, when
    the request is cacheable, and caches nothing else. *)
Lemma executeRequest_caches (c : RequestClosure) (data : JsValue) (now : Z) (cache : Cache)
    (n : nat) : forall (attempt : nat) (evs : list ReqEvent),
  (Z.to_nat (rc_retries c - Z.of_nat attempt) <= n)%nat ->
  executeRequest c attempt = (inr data, evs) ->
  cacheResponses evs now cache
  = if rc_isCacheable c
    then cacheUtils.set (rc_cacheKey c) data (Some (rc_cacheTTL c)) now cache
    else cache.
Proof.
  induction n as [|n IH]; intros attempt evs Hn; rewrite (executeRequest_step c attempt);
    pose proof (attemptOnce_events c attempt) as Hevs;
    destruct (attemptOnce c attempt) as [[e|data'] evs0]; cbn [fst snd] in Hevs; subst evs0.
  - unfold shouldRetry. destruct (Z.ltb_spec (Z.of_nat attempt) (rc_retries c)); [lia|].
    cbn. discriminate.
  - intros [= <- <-]. destruct (rc_isCacheable c); reflexivity.
  - destruct (shouldRetry c attempt e) eqn:Hretry; [|discriminate].
    unfold shouldRetry in Hretry. apply andb_prop in Hretry as [Hlt _].
    apply Z.ltb_lt in Hlt.
    destruct (executeRequest c (S attempt)) as [r evs'] eqn:Hrec. cbn [fst snd].
    intros [= -> <-]. cbn [app]. 
    change (cacheResponses (EvFetch attempt :: EvBackoff attempt (backoffDelay c attempt) :: evs')
              now cache) with (cacheResponses evs' now cache).
    apply (IH (S attempt)); [lia|exact Hrec].
  - intros [= <- <-]. destruct (rc_isCacheable c); reflexivity.
Qed.

Lemma started_cache JSON_stringify env now promise url options st executor :
  started (request JSON_stringify env now promise url options st) = Some executor ->
  rc_isCacheable executor
  = String.eqb (default "GET" (o_method options))
               "GET" && default DEFAULT_CONFIG.cacheByDefault (o_useCache options)
  /\ rc_cacheKey executor
     = createCacheKey JSON_stringify url
         (fetchOptions JSON_stringify (default "GET" (o_method options))
            (default JsNull (o_body options)) (default [] (o_headers options)))
  /\ rc_cacheTTL executor = default DEFAULT_CONFIG.cacheTTL (o_cacheTTL options)
  /\ rc_retries executor = default DEFAULT_CONFIG.retries (o_retries options).
Proof.
  unfold request.
  destruct (_ && truthy (env_mock env)); [discriminate|].
  destruct (_ && truthy (env_cache env _)); [discriminate|].
  destruct (checkLimit _ now st) as [allowed st'].
  destruct allowed.
  - cbn. intros [= <-]. auto.
  - destruct (enqueue _ _ promise now st') as [effects st'']. cbn. intros [= <-]. auto.
Qed.

(** X30 - the response cache: let a call of [request] with method GET and
    caching on go to the transport and settle with (truthy) data, which the
    executor caches at time [t].  Then the same call made again, without
    [forceFresh] and without a mock, is answered from the cache with these
    data - no limiter, no transport - as long as the clock has not passed
    [t + cacheTTL], and goes to the limiter and the transport again once it
    has. *)
Theorem request_served_from_cache_until_ttl
    (JSON_stringify : JsValue -> string) (env : RequestEnv) (now : Z) (promise : nat)
    (url : string) (options : RequestOptions) (st : LimiterStates)
    (executor : RequestClosure) (data : JsValue) (evs : list ReqEvent)
    (t : Z) (table : gmap string CacheItem)
    (env2 : RequestEnv) (now2 : Z) (promise2 : nat) (st2 : LimiterStates) :
  started (request JSON_stringify env now promise url options st) = Some executor ->
  settles executor = (inr data, evs) ->
  truthy data = true ->
  default "GET" (o_method options) = "GET" ->
  default DEFAULT_CONFIG.cacheByDefault (o_useCache options) = true ->
  default false (o_forceFresh options) = false ->
  default false (o_mockResponse options) = false ->
  env_cache env2 = checkCache now2 (cacheResponses evs t (Some table)) ->
  let cacheTTL := default DEFAULT_CONFIG.cacheTTL (o_cacheTTL options) in
  (now2 <= t + cacheTTL ->
   request JSON_stringify env2 now2 promise2 url options st2 = ReturnsCached data)
  /\ (t + cacheTTL < now2 ->
      is_Some (started (request JSON_stringify env2 now2 promise2 url options st2))).
Proof.
  intros Hstarted Hsettles Htruthy Hget Huse Hfresh Hmock Henv cacheTTL.
  apply started_cache in Hstarted as (Hcacheable & Hkey & Httl & _).
  rewrite Hget, Huse in Hcacheable. cbn in Hcacheable. rewrite Hget in Hkey.
  unfold settles in Hsettles.
  pose proof (executeRequest_caches executor data t (Some table) _ 0%nat evs
                (Nat.le_refl _) Hsettles) as Hcached.
  rewrite Hcacheable, Httl, Hkey in Hcached. fold cacheTTL in Hcached.
  unfold request. rewrite Hmock, Hget, Huse, Hfresh, Henv.
  change (String.eqb "GET" "GET") with true. cbn [andb negb].
  unfold checkCache. rewrite Hcached, cache_get_lookup.
  change (default cacheUtils.EXPIRATION (Some cacheTTL)) with cacheTTL.
  split.
  - intros Hle. destruct (Z.ltb_spec (t + cacheTTL) now2); [lia|]. cbv iota.
    rewrite Htruthy. reflexivity.
  - intros Hlt. destruct (Z.ltb_spec (t + cacheTTL) now2); [|lia]. cbv iota. cbn [truthy].
    destruct (checkLimit _ now2 st2) as [[] st']; [cbn; eauto|].
    destruct (enqueue _ _ promise2 now2 st') as [effects st'']. cbn. eauto.
Qed.

Lemma request_served_from_cache_until_ttl_witness :
  let data := JsObject [("ok", JsBool true)] in
  let J := fun _ : JsValue => "{}" in
  let url := "https://example.org/a" in
  let first := request J (serving data 0 (Some ∅)) 0 0%nat url noOptions ∅ in
  exists executor evs,
    started first = Some executor
    /\ settles executor = (inr data, evs)
    /\ request J (serving data 1000 (cacheResponses evs 10 (Some ∅))) 1000 1%nat url noOptions ∅
       = ReturnsCached data.
Proof.
  intros data J url first.
  destruct (started first) as [executor|] eqn:Hstarted; [|vm_compute in Hstarted; discriminate].
  destruct (settles executor) as [r evs] eqn:Hsettles.
  assert (r = inr data) as ->.
  { vm_compute in Hstarted. injection Hstarted as <-. vm_compute in Hsettles.
    injection Hsettles as <- _. reflexivity. }
  exists executor, evs. split; [reflexivity|]. split; [exact Hsettles|].
  apply (proj1 (request_served_from_cache_until_ttl J (serving data 0 (Some ∅)) 0 0%nat url
                  noOptions ∅ executor data evs 10 ∅
                  (serving data 1000 (cacheResponses evs 10 (Some ∅))) 1000 1%nat ∅
                  Hstarted Hsettles eq_refl eq_refl eq_refl eq_refl eq_refl eq_refl)).
  vm_compute. discriminate.
Defined.

End StorageUtilsFacts.

